(** * Mesh renumbering for threads (cs_renumber.c): a shallow embedding

    The development follows [src/base/cs_renumber.c].  C arrays are lists,
    [cs_lnum_t] values are integers in [Z] (signed overflow is undefined in C
    and is not modelled), and every array access is bounds-checked: an
    access outside the allocated block, a division by zero or a failed
    [assert] makes the computation end in [Fault].  The only loop whose
    termination is not evident from a variant, the pass loop of the multipass
    algorithm, takes an explicit amount of fuel and ends in [OutOfFuel] when
    the fuel is exhausted. *)

From Stdlib Require Import ZArith List Lia Bool QArith Permutation Sorted.
From stdpp Require Import base tactics option list sorting.

Local Open Scope Z_scope.

(** ** Outcomes of a computation *)

Inductive res (A : Type) : Type :=
| Ok (a : A)
| Fault
| OutOfFuel.

Arguments Ok {A} a.
Arguments Fault {A}.
Arguments OutOfFuel {A}.

#[global] Instance res_ret : MRet res := fun A a => Ok a.
#[global] Instance res_bind : MBind res := fun A B f m =>
  match m with
  | Ok a => f a
  | Fault => Fault
  | OutOfFuel => OutOfFuel
  end.

Definition is_ok {A} (m : res A) : bool :=
  match m with Ok _ => true | _ => false end.

(** ** Arrays *)

(** [a[i]] *)
Definition rd {A} (a : list A) (i : Z) : res A :=
  if i <? 0 then Fault
  else match a !! Z.to_nat i with
       | Some v => Ok v
       | None => Fault
       end.

(** [a[i] = v] *)
Definition wr {A} (a : list A) (i : Z) (v : A) : res (list A) :=
  if (0 <=? i) && (i <? Z.of_nat (length a))
  then Ok (<[Z.to_nat i := v]> a)
  else Fault.

(** [BFT_MALLOC(a, n, cs_lnum_t)]: the initial contents are indeterminate in
    C; no function below reads a cell before writing it. *)
Definition BFT_MALLOC (n : Z) : list Z := replicate (Z.to_nat n) 0.

(** [memcpy(dst, src, n*sizeof(cs_lnum_t))] *)
Definition memcpy {A} (dst src : list A) (n : Z) : res (list A) :=
  if (n <=? Z.of_nat (length dst)) && (n <=? Z.of_nat (length src))
  then Ok (take (Z.to_nat n) src ++ drop (Z.to_nat n) dst)
  else Fault.

(** C integer division and remainder truncate toward zero. *)
Definition c_div (a b : Z) : res Z :=
  if b =? 0 then Fault else Ok (Z.quot a b).
Definition c_mod (a b : Z) : res Z :=
  if b =? 0 then Fault else Ok (Z.rem a b).

Definition CS_MAX (a b : Z) : Z := if a <? b then b else a.
Definition CS_MIN (a b : Z) : Z := if a <? b then a else b.

(** ** Loops *)

(** [for (i = lo; i < lo + n; i++) body] *)
Fixpoint for_range {S} (n : nat) (i : Z) (body : Z -> S -> res S) (s : S)
  : res S :=
  match n with
  | O => Ok s
  | Datatypes.S n' => s' ← body i s; for_range n' (i + 1) body s'
  end.

Definition for_loop {S} (lo hi : Z) (body : Z -> S -> res S) (s : S) : res S :=
  for_range (Z.to_nat (hi - lo)) lo body s.

(** [while (cond) body], running at most [fuel] iterations of the body. *)
Fixpoint while_loop {S} (fuel : nat) (cond : S -> res bool)
         (body : S -> res S) (s : S) {struct fuel} : res S :=
  b ← cond s;
  if b : bool then
    match fuel with
    | O => OutOfFuel
    | Datatypes.S fuel' => s' ← body s; while_loop fuel' cond body s'
    end
  else Ok s.

(** ** Lexicographical ordering (cs_order.c) *)

(** Lexicographical comparison of two key tuples. *)
Fixpoint lex_leb (a b : list Z) : bool :=
  match a, b with
  | [], _ => true
  | _ :: _, [] => false
  | x :: a', y :: b' => (x <? y) || ((x =? y) && lex_leb a' b')
  end.

Definition key_le (x y : list Z * Z) : Prop := lex_leb x.1 y.1 = true.

#[global] Instance key_le_dec : RelDecision key_le.
Proof. intros x y. unfold key_le. apply bool_eq_dec. Defined.

(** Modelled from the spec: [cs_order_lnum_allocated_s] (cs_order.c is not
    part of the sources).  Given [n] key tuples it produces the permutation
    [order] of [0..n) for which the keys are non-decreasing; ties are broken
    deterministically.  [number] holds one tuple of [stride] integers per
    entity. *)
Definition cs_order_lnum_allocated_s (number : list (list Z)) : list Z :=
  (merge_sort key_le (zip number (seqZ 0 (Z.of_nat (length number))))).*2.

(** ** Multipass thread assigner *)

(** Process-wide settings of the renumbering (the file's global variables). *)
Inductive cs_renumber_i_faces_type_t :=
| CS_RENUMBER_I_FACES_BLOCK
| CS_RENUMBER_I_FACES_MULTIPASS
| CS_RENUMBER_I_FACES_NONE.

Record config := {
  _cs_renumber_n_threads : Z;
  _min_i_subset_size : Z;
  _min_b_subset_size : Z;
  _i_faces_algorithm : cs_renumber_i_faces_type_t
}.

(** Per-pass working arrays of the multipass algorithm. *)
Record pass_arrays := {
  f_t_id : list Z;
  n_t_faces : list Z;
  t_face_last : list Z
}.

(** [while (c_id_0 >= t_cell_index[t_id+1]) t_id += 1;] *)
Definition thread_of_cell (t_cell_index : list Z) (c_id_0 t_id : Z) : res Z :=
  while_loop (length t_cell_index)
    (fun t_id => b ← rd t_cell_index (t_id + 1); mret (b <=? c_id_0))
    (fun t_id => mret (t_id + 1))
    t_id.

Definition _renum_face_multipass_assign
    (n_i_threads n_g_i_threads g_id faces_list_size : Z)
    (faces_list : list Z) (l_face_cells : list (Z * Z))
    (a : pass_arrays) (t_cell_index : list Z) : res pass_arrays :=
  '(ntf, tfl) ← for_loop 0 n_g_i_threads
      (fun t_id '(ntf, tfl) =>
         ntf ← wr ntf t_id 0;
         tfl ← wr tfl t_id faces_list_size;
         mret (ntf, tfl))
      (n_t_faces a, t_face_last a);
  '(_, a) ← for_loop 0 faces_list_size
      (fun fl_id '(t_id, a) =>
         f_id ← rd faces_list fl_id;
         '(c_id_0, c_id_1) ← rd l_face_cells f_id;
         t_id ← thread_of_cell t_cell_index c_id_0 t_id;
         (if t_id <=? n_g_i_threads then mret tt else Fault);;
         lo ← rd t_cell_index t_id;
         ok ← (if lo <=? c_id_0
               then hi ← rd t_cell_index (t_id + 1); mret (c_id_1 <? hi)
               else mret false);
         if ok : bool then
           fti ← wr (f_t_id a) f_id (t_id + g_id * n_i_threads);
           n ← rd (n_t_faces a) t_id;
           ntf ← wr (n_t_faces a) t_id (n + 1);
           tfl ← wr (t_face_last a) t_id fl_id;
           mret (t_id, {| f_t_id := fti; n_t_faces := ntf; t_face_last := tfl |})
         else
           fti ← wr (f_t_id a) f_id (-1);
           mret (t_id, {| f_t_id := fti; n_t_faces := n_t_faces a;
                          t_face_last := t_face_last a |}))
      (0, {| f_t_id := f_t_id a; n_t_faces := ntf; t_face_last := tfl |});
  mret a.

(** Idealised [double]: an exact rational, an infinity or NaN.  Rounding is
    not modelled: the C code rounds each quotient to the nearest double, so
    for a thread count that is not a power of two the comparison of two
    nearly equal imbalances can come out differently there.  What is
    proved below about that comparison is about the exact quotients. *)
Inductive double :=
| DFin (q : Q)
| DInf (positive : bool)
| DNaN.

Definition d_div (x y : Q) : double :=
  if Qeq_bool y 0 then
    if Qeq_bool x 0 then DNaN else DInf (negb (Qle_bool x 0))
  else DFin (x / y).

Definition d_sub1 (x : double) : double :=
  match x with
  | DFin q => DFin (q - 1)
  | other => other
  end.

(** [x > y] on doubles: false as soon as one side is NaN. *)
Definition d_gt (x y : double) : bool :=
  match x, y with
  | DNaN, _ | _, DNaN => false
  | DFin a, DFin b => negb (Qle_bool a b)
  | DInf true, DInf true => false
  | DInf true, _ => true
  | DFin _, DInf false => true
  | _, _ => false
  end.

(** Conversion of a finite double to [cs_lnum_t] truncates toward zero. *)
Definition Qtrunc (q : Q) : Z := Z.quot (Qnum q) (Zpos (Qden q)).

(** [sum] and [max] of [n_t_faces[0..n_i_threads)]. *)
Definition n_t_faces_sum_max (n_i_threads : Z) (ntf : list Z) : res (Z * Z) :=
  for_loop 0 n_i_threads
    (fun t_id '(sum, max) =>
       v ← rd ntf t_id;
       mret (sum + v, if max <? v then v else max))
    (0, 0).

Definition _renum_face_multipass_g_unbalance (n_i_threads : Z) (ntf : list Z)
  : res double :=
  '(n_t_faces_sum, n_t_faces_max) ← n_t_faces_sum_max n_i_threads ntf;
  match d_div (inject_Z n_t_faces_sum) (inject_Z n_i_threads) with
  | DFin n_t_faces_mean =>
      mret (d_sub1 (d_div (inject_Z n_t_faces_max) n_t_faces_mean))
  | DInf _ => mret (DFin (0 - 1))
  | DNaN => mret DNaN
  end.

(** [l_face_cells[faces_list[fl_id]][0]] *)
Definition face_cell_0 (faces_list : list Z) (l_face_cells : list (Z * Z))
    (fl_id : Z) : res Z :=
  f_id ← rd faces_list fl_id;
  c ← rd l_face_cells f_id;
  mret c.1.

(** One step of the boundary adjustment loop of the redistribution:
    the boundary between threads [t_id] and [t_id + 1]. *)
Definition redistribute_boundary
    (n_i_threads g_id : Z) (relax n_t_faces_mean : Q) (faces_list_size : Z)
    (faces_list : list Z) (l_face_cells : list (Z * Z)) (a : pass_arrays)
    (t_id : Z) (t_cell_index : list Z) : res (list Z) :=
  let t_id1 := t_id + 1 in
  t0_c_start ← rd t_cell_index t_id;
  t1_c_start ← rd t_cell_index t_id1;
  t1_c_end ← rd t_cell_index (t_id1 + 1);
  let n_t_faces_target := Qtrunc n_t_faces_mean in
  n ← rd (n_t_faces a) t_id;
  let n_t_faces_move := n - n_t_faces_target in
  last ← rd (t_face_last a) t_id;
  let n_t_faces_move := Qtrunc (inject_Z n_t_faces_move * relax) in
  if 0 <? n_t_faces_move then
    (* too many edges: try to shift the thread boundary back *)
    let f_t_id0 := t_id + g_id * n_i_threads in
    '(fl_id_end, _) ← while_loop (Z.to_nat (last + 1))
        (fun '(fl_id_end, move) =>
           if -1 <? fl_id_end then
             c ← face_cell_0 faces_list l_face_cells fl_id_end;
             mret ((t0_c_start <=? c) && (0 <? move))
           else mret false)
        (fun '(fl_id_end, move) =>
           f_id ← rd faces_list fl_id_end;
           t ← rd (f_t_id a) f_id;
           mret (fl_id_end - 1, if t =? f_t_id0 then move - 1 else move))
        (last - 1, n_t_faces_move);
    fl_id_end ← while_loop (Z.to_nat (last - fl_id_end))
        (fun fl_id_end =>
           if fl_id_end <? last then
             c1 ← face_cell_0 faces_list l_face_cells (fl_id_end + 1);
             c0 ← face_cell_0 faces_list l_face_cells fl_id_end;
             mret (c1 =? c0)
           else mret false)
        (fun fl_id_end => mret (fl_id_end + 1))
        fl_id_end;
    c ← face_cell_0 faces_list l_face_cells fl_id_end;
    wr t_cell_index t_id1 (if t1_c_start <? c + 1 then t1_c_start else c + 1)
  else if n_t_faces_move <? 0 then
    (* too few edges: try to shift the thread boundary forward *)
    let f_t_id1 := t_id1 + g_id * n_i_threads in
    last1 ← rd (t_face_last a) t_id1;
    let fl_id_max := CS_MIN last1 (faces_list_size - 1) in
    '(fl_id_end, _) ← while_loop (Z.to_nat (fl_id_max - last + 1))
        (fun '(fl_id_end, move) =>
           if fl_id_end <=? fl_id_max then
             c ← face_cell_0 faces_list l_face_cells fl_id_end;
             mret ((c <=? t1_c_end) && (move <? 0))
           else mret false)
        (fun '(fl_id_end, move) =>
           f_id ← rd faces_list fl_id_end;
           t ← rd (f_t_id a) f_id;
           mret (fl_id_end + 1, if t =? f_t_id1 then move + 1 else move))
        (last, n_t_faces_move);
    let fl_id_end := CS_MIN fl_id_end (faces_list_size - 1) in
    fl_id_end ← while_loop (Z.to_nat fl_id_end)
        (fun fl_id_end =>
           if (last <=? fl_id_end) && (0 <? fl_id_end) then
             c1 ← face_cell_0 faces_list l_face_cells fl_id_end;
             c0 ← face_cell_0 faces_list l_face_cells (fl_id_end - 1);
             mret (c1 =? c0)
           else mret false)
        (fun fl_id_end => mret (fl_id_end - 1))
        fl_id_end;
    c ← face_cell_0 faces_list l_face_cells fl_id_end;
    wr t_cell_index t_id1 (if c <? t0_c_start then t0_c_start else c)
  else mret t_cell_index.

Definition _renum_face_multipass_redistribute
    (n_i_threads n_g_i_threads g_id : Z) (relax : Q) (faces_list_size : Z)
    (faces_list : list Z) (l_face_cells : list (Z * Z))
    (a : pass_arrays) (t_cell_index : list Z)
  : res (pass_arrays * list Z) :=
  if n_g_i_threads <? 2 then mret (a, t_cell_index)
  else
    (* save previous cell index to allow reversal *)
    t_cell_index_prev ←
      memcpy (BFT_MALLOC (n_g_i_threads + 1)) t_cell_index (n_g_i_threads + 1);
    (* estimate initial imbalance *)
    unbalance0 ← _renum_face_multipass_g_unbalance n_g_i_threads (n_t_faces a);
    (* now try to improve balancing *)
    '(sum, _) ← n_t_faces_sum_max n_g_i_threads (n_t_faces a);
    let n_t_faces_mean := (inject_Z sum / inject_Z n_g_i_threads)%Q in
    t_cell_index ← for_loop 0 (n_g_i_threads - 1)
        (redistribute_boundary n_i_threads g_id relax n_t_faces_mean
           faces_list_size faces_list l_face_cells a)
        t_cell_index;
    (* now reassign threads to faces *)
    a ← _renum_face_multipass_assign n_i_threads n_g_i_threads g_id
          faces_list_size faces_list l_face_cells a t_cell_index;
    unbalance1 ← _renum_face_multipass_g_unbalance n_g_i_threads (n_t_faces a);
    (* if redistribution has degraded balancing, revert *)
    if d_gt unbalance1 unbalance0 then
      t_cell_index ← memcpy t_cell_index t_cell_index_prev (n_g_i_threads + 1);
      a ← _renum_face_multipass_assign n_i_threads n_g_i_threads g_id
            faces_list_size faces_list l_face_cells a t_cell_index;
      mret (a, t_cell_index)
    else mret (a, t_cell_index).

Definition _renum_face_multipass_remaining
    (n_f_cells_prev faces_list_size : Z) (faces_list : list Z)
    (l_face_cells : list (Z * Z)) : res (Z * list (Z * Z)) :=
  let new_cell_id := replicate (Z.to_nat n_f_cells_prev) (-1) in
  '(n_f_cells_new, _, l_face_cells) ← for_loop 0 faces_list_size
      (fun fl_id '(n_f_cells_new, new_cell_id, l_face_cells) =>
         f_id ← rd faces_list fl_id;
         '(c_id_0, c_id_1) ← rd l_face_cells f_id;
         v0 ← rd new_cell_id c_id_0;
         '(n_f_cells_new, new_cell_id) ←
           (if v0 <? 0
            then nci ← wr new_cell_id c_id_0 n_f_cells_new;
                 mret (n_f_cells_new + 1, nci)
            else mret (n_f_cells_new, new_cell_id));
         v1 ← rd new_cell_id c_id_1;
         '(n_f_cells_new, new_cell_id) ←
           (if v1 <? 0
            then nci ← wr new_cell_id c_id_1 n_f_cells_new;
                 mret (n_f_cells_new + 1, nci)
            else mret (n_f_cells_new, new_cell_id));
         v0 ← rd new_cell_id c_id_0;
         v1 ← rd new_cell_id c_id_1;
         l_face_cells ←
           wr l_face_cells f_id (if v0 <? v1 then (v0, v1) else (v1, v0));
         mret (n_f_cells_new, new_cell_id, l_face_cells))
      (0, new_cell_id, l_face_cells);
  mret (n_f_cells_new, l_face_cells).

(** The part of [cs_mesh_t] used by the renumbering: entity counts and
    connectivity.  Index arrays ([*_vtx_idx], [cell_cells_idx]) and the
    extended neighbourhood list are 1-based, as in the source; a [None]
    field is a [NULL] pointer. *)
Inductive cs_numbering_type_t :=
| CS_NUMBERING_DEFAULT
| CS_NUMBERING_VECTORIZE
| CS_NUMBERING_THREADS.

Record cs_numbering_t := {
  type : cs_numbering_type_t;
  vector_size : Z;
  n_threads : Z;
  n_groups : Z;
  group_index : list Z
}.

Record cs_mesh_t := {
  n_domains : Z;
  n_cells : Z;
  n_i_faces : Z;
  n_b_faces : Z;
  n_cells_with_ghosts : Z;
  i_face_cells : list (Z * Z);
  b_face_cells : list Z;
  i_face_vtx_idx : list Z;
  i_face_vtx_lst : option (list Z);
  b_face_vtx_idx : list Z;
  b_face_vtx_lst : option (list Z);
  cell_cells_idx : list Z;
  cell_cells_lst : option (list Z);
  cell_family : option (list Z);
  i_face_family : option (list Z);
  b_face_family : option (list Z);
  global_cell_num : option (list Z);
  global_i_face_num : option (list Z);
  global_b_face_num : option (list Z);
  i_face_numbering : option cs_numbering_t;
  b_face_numbering : option cs_numbering_t
}.

(** State of the pass loop of [_renum_face_multipass]. *)
Record multipass_state := {
  mp_g_id : Z;
  mp_n_f_cells : Z;
  mp_faces_list_size : Z;
  mp_faces_list : list Z;
  mp_l_face_cells : list (Z * Z);
  mp_arrays : pass_arrays;
  mp_t_cell_index : list Z
}.

(** Number of threads active for a group: the configured count, reduced
    "to ensure sufficient work per thread". *)
Definition active_threads (n_i_threads faces_list_size min_i_subset_size : Z)
  : res Z :=
  q ← c_div faces_list_size min_i_subset_size;
  if q <? n_i_threads then
    r ← c_mod faces_list_size min_i_subset_size;
    mret (if r =? 0 then q + 1 else q)
  else mret n_i_threads.

(** Initial edge distribution: [t_cell_index[0..n_g_i_threads]]. *)
Definition initial_cell_index (n_g_i_threads group_size n_f_cells : Z)
    (t_cell_index : list Z) : res (list Z) :=
  tci ← wr t_cell_index 0 0;
  tci ← for_loop 1 n_g_i_threads
      (fun t_id tci =>
         p ← rd tci (t_id - 1);
         wr tci t_id (if n_f_cells <? p + group_size then n_f_cells
                      else p + group_size))
      tci;
  wr tci n_g_i_threads n_f_cells.

(** Faces of [faces_list[0..faces_list_size)] not yet assigned to a thread,
    compacted at the head of [faces_list]. *)
Definition update_remaining_list (faces_list_size : Z) (faces_list f_t_id : list Z)
  : res (Z * list Z) :=
  '(faces_list_size_new, faces_list) ← for_loop 0 faces_list_size
      (fun fl_id '(faces_list_size_new, faces_list) =>
         f_id ← rd faces_list fl_id;
         t ← rd f_t_id f_id;
         if t <? 0 then
           fl ← wr faces_list faces_list_size_new f_id;
           mret (faces_list_size_new + 1, fl)
         else mret (faces_list_size_new, faces_list))
      (0, faces_list);
  mret (faces_list_size_new, faces_list).

(** Body of the pass loop ("add groups as required"). *)
Definition multipass_pass (n_i_threads min_i_subset_size : Z) (relax : Q)
    (s : multipass_state) : res multipass_state :=
  group_size ← c_div (mp_n_f_cells s) n_i_threads;
  n_g_i_threads ←
    active_threads n_i_threads (mp_faces_list_size s) min_i_subset_size;
  tci ← initial_cell_index n_g_i_threads group_size (mp_n_f_cells s)
          (mp_t_cell_index s);
  a ← _renum_face_multipass_assign n_i_threads n_g_i_threads (mp_g_id s)
        (mp_faces_list_size s) (mp_faces_list s) (mp_l_face_cells s)
        (mp_arrays s) tci;
  '(a, tci) ← _renum_face_multipass_redistribute n_i_threads n_g_i_threads
        (mp_g_id s) relax (mp_faces_list_size s) (mp_faces_list s)
        (mp_l_face_cells s) a tci;
  '(faces_list_size, faces_list) ←
    update_remaining_list (mp_faces_list_size s) (mp_faces_list s) (f_t_id a);
  '(n_f_cells, l_face_cells) ←
    (if 0 <? faces_list_size
     then _renum_face_multipass_remaining (mp_n_f_cells s) faces_list_size
            faces_list (mp_l_face_cells s)
     else mret (mp_n_f_cells s, mp_l_face_cells s));
  mret {| mp_g_id := mp_g_id s + 1;
          mp_n_f_cells := n_f_cells;
          mp_faces_list_size := faces_list_size;
          mp_faces_list := faces_list;
          mp_l_face_cells := l_face_cells;
          mp_arrays := a;
          mp_t_cell_index := tci |}.

Definition multipass_passes (fuel : nat) (n_i_threads min_i_subset_size : Z)
    (relax : Q) (s : multipass_state) : res multipass_state :=
  while_loop fuel
    (fun s => mret (min_i_subset_size <? mp_faces_list_size s))
    (multipass_pass n_i_threads min_i_subset_size relax)
    s.

(** Cells of a face, smaller id first. *)
Definition ordered_cells (c : Z * Z) : Z * Z :=
  if c.1 <? c.2 then (c.1, c.2) else (c.2, c.1).

(** State before the first pass: lexical ordering of the faces. *)
Definition multipass_init (mesh : cs_mesh_t) (n_i_threads : Z)
  : res multipass_state :=
  let n_faces := n_i_faces mesh in
  '(l_face_cells, f_t_id) ← for_loop 0 n_faces
      (fun f_id '(lfc, fti) =>
         c ← rd (i_face_cells mesh) f_id;
         lfc ← wr lfc f_id (ordered_cells c);
         fti ← wr fti f_id (-1);
         mret (lfc, fti))
      (replicate (Z.to_nat n_faces) (0, 0), BFT_MALLOC n_faces);
  let order :=
    cs_order_lnum_allocated_s ((fun c : Z * Z => [c.1; c.2]) <$> l_face_cells) in
  faces_list ← memcpy (BFT_MALLOC n_faces) order n_faces;
  mret {| mp_g_id := 0;
          mp_n_f_cells := n_cells_with_ghosts mesh;
          mp_faces_list_size := n_faces;
          mp_faces_list := faces_list;
          mp_l_face_cells := l_face_cells;
          mp_arrays := {| f_t_id := f_t_id;
                          n_t_faces := BFT_MALLOC n_i_threads;
                          t_face_last := BFT_MALLOC n_i_threads |};
          mp_t_cell_index := BFT_MALLOC (n_i_threads + 1) |}.

(** "Handle last group of faces": the faces left over go to thread 0 of one
    more group.  Returns the number of groups and the final [f_t_id]. *)
Definition multipass_last_group (n_i_threads : Z) (s : multipass_state)
  : res (Z * list Z) :=
  if 0 <? mp_faces_list_size s then
    fti ← for_loop 0 (mp_faces_list_size s)
        (fun fl_id fti =>
           f_id ← rd (mp_faces_list s) fl_id;
           wr fti f_id (mp_g_id s * n_i_threads))
        (f_t_id (mp_arrays s));
    ntf ← wr (n_t_faces (mp_arrays s)) 0 (mp_faces_list_size s);
    _ ← for_loop 1 n_i_threads (fun t_id ntf => wr ntf t_id 0) ntf;
    mret (mp_g_id s + 1, fti)
  else mret (mp_g_id s, f_t_id (mp_arrays s)).

(** Keys of the final lexical ordering: thread tag, then cell pair. *)
Definition final_faces_keys (n_faces : Z) (i_face_cells : list (Z * Z))
    (f_t_id : list Z) : res (list (list Z)) :=
  for_loop 0 n_faces
    (fun f_id keys =>
       t ← rd f_t_id f_id;
       c ← rd i_face_cells f_id;
       let c' := ordered_cells c in
       mret (keys ++ [[t; c'.1 - 1; c'.2 - 1]]))
    [].

(** [_group_index[(t_id*_n_groups + g_id)*2 + k]] *)
Definition gi_pos (n_groups t_id g_id k : Z) : Z :=
  (t_id * n_groups + g_id) * 2 + k.

(** Loop nest [for g_id < n_groups, for t_id < n_i_threads]. *)
Definition for_groups_threads {S} (n_groups n_i_threads : Z)
    (body : Z -> Z -> S -> res S) (s : S) : res S :=
  for_loop 0 n_groups
    (fun g_id s => for_loop 0 n_i_threads (fun t_id s => body g_id t_id s) s)
    s.

(** "Now build final numbering and index". *)
Definition multipass_build_index (n_faces n_i_threads n_groups : Z)
    (faces_list f_t_id : list Z) : res (list Z * list Z) :=
  let gi := BFT_MALLOC (n_groups * n_i_threads * 2) in
  gi ← wr gi 0 0;
  gi ← for_groups_threads n_groups n_i_threads
      (fun g_id t_id gi =>
         gi ← wr gi (gi_pos n_groups t_id g_id 0) (-1);
         wr gi (gi_pos n_groups t_id g_id 1) (-1))
      gi;
  '(new_to_old_i, gi) ← for_loop 0 n_faces
      (fun fl_id '(n2o, gi) =>
         f_id ← rd faces_list fl_id;
         n2o ← wr n2o fl_id f_id;
         t ← rd f_t_id f_id;
         (if -1 <? t then mret tt else Fault);;
         t_id ← c_mod t n_i_threads;
         g_id ← c_div (t - t_id) n_i_threads;
         (* update group index to mark maximum face id *)
         gi ← wr gi (gi_pos n_groups t_id g_id 1) (fl_id + 1);
         mret (n2o, gi))
      (BFT_MALLOC n_faces, gi);
  (* finalize group index *)
  '(_, gi) ← for_groups_threads n_groups n_i_threads
      (fun g_id t_id '(f_id, gi) =>
         gi ← wr gi (gi_pos n_groups t_id g_id 0) f_id;
         e ← rd gi (gi_pos n_groups t_id g_id 1);
         mret (CS_MAX e f_id, gi))
      (0, gi);
  gi ← for_groups_threads n_groups n_i_threads
      (fun g_id t_id gi =>
         e ← rd gi (gi_pos n_groups t_id g_id 1);
         if e <? 0 then wr gi (gi_pos n_groups t_id g_id 0) (-1) else mret gi)
      gi;
  mret (new_to_old_i, gi).

(** Outputs of an interior face renumbering: [new_to_old_i], [n_groups] and
    [group_index]. *)
Record renum_out := {
  new_to_old : list Z;
  out_n_groups : Z;
  out_group_index : list Z
}.

(** [_renum_face_multipass]: returns the status and, on success (status 0),
    the outputs; on failure (status -1) no output is written. *)
Definition _renum_face_multipass (fuel : nat) (mesh : cs_mesh_t)
    (n_i_threads min_i_subset_size : Z) : res (Z * option renum_out) :=
  let n_faces := n_i_faces mesh in
  let redistribute_relaxation_factor := (1 # 2)%Q in
  if n_faces <=? min_i_subset_size then mret (-1, None)
  else
    s ← multipass_init mesh n_i_threads;
    s ← multipass_passes fuel n_i_threads min_i_subset_size
          redistribute_relaxation_factor s;
    '(n_groups, f_t_id) ← multipass_last_group n_i_threads s;
    faces_keys ← final_faces_keys n_faces (i_face_cells mesh) f_t_id;
    faces_list ← memcpy (mp_faces_list s)
                   (cs_order_lnum_allocated_s faces_keys) n_faces;
    '(new_to_old_i, gi) ←
      multipass_build_index n_faces n_i_threads n_groups faces_list f_t_id;
    mret (0, Some {| new_to_old := new_to_old_i;
                     out_n_groups := n_groups;
                     out_group_index := gi |}).

(** ** CSR graph and independent face groups *)

Record _csr_graph_t := {
  n_rows : Z;
  n_cols_max : Z;
  row_index : list Z;
  col_id : list Z
}.

(** [ccount[c] += 1] *)
Definition incr (ccount : list Z) (c : Z) : res (list Z) :=
  v ← rd ccount c; wr ccount c (v + 1).

(** [col_id[row_index[c] + ccount[c]] = f_id; ccount[c] += 1;] *)
Definition scatter (row_index : list Z) (c f_id : Z)
    (st : list Z * list Z) : res (list Z * list Z) :=
  let '(ccount, col_id) := st in
  r ← rd row_index c;
  k ← rd ccount c;
  col_id ← wr col_id (r + k) f_id;
  ccount ← wr ccount c (k + 1);
  mret (ccount, col_id).

Definition _csr_graph_create_cell_face (n_cells_ext n_faces : Z)
    (face_cell : list (Z * Z)) : res _csr_graph_t :=
  let n_rows := n_cells_ext in
  (* count number of nonzero elements per row *)
  ccount ← for_loop 0 n_faces
      (fun f_id ccount =>
         '(ii, jj) ← rd face_cell f_id;
         ccount ← incr ccount ii;
         incr ccount jj)
      (replicate (Z.to_nat n_rows) 0);
  row_index ← wr (BFT_MALLOC (n_rows + 1)) 0 0;
  '(row_index, n_cols_max, ccount) ← for_loop 0 n_rows
      (fun ii '(row_index, n_cols_max, ccount) =>
         r ← rd row_index ii;
         c ← rd ccount ii;
         row_index ← wr row_index (ii + 1) (r + c);
         ccount' ← wr ccount ii 0;
         mret (row_index, if n_cols_max <? c then c else n_cols_max, ccount'))
      (row_index, 0, ccount);
  (* build structure *)
  n_cols ← rd row_index n_rows;
  '(_, col_id) ← for_loop 0 n_faces
      (fun f_id st =>
         '(ii, jj) ← rd face_cell f_id;
         st ← scatter row_index ii f_id st;
         scatter row_index jj f_id st)
      (ccount, BFT_MALLOC n_cols);
  mret {| n_rows := n_rows; n_cols_max := n_cols_max;
          row_index := row_index; col_id := col_id |}.

(** [for (i = lo; i < lo + n; i++)] with [break]: the body returns [true]
    to leave the loop. *)
Fixpoint for_range_break {S} (n : nat) (i : Z) (body : Z -> S -> res (S * bool))
    (s : S) : res S :=
  match n with
  | O => Ok s
  | Datatypes.S n' =>
      r ← body i s;
      if r.2 : bool then Ok r.1 else for_range_break n' (i + 1) body r.1
  end.

(** Does row [c] of the graph hold [f_id]?  (the loop on [k]) *)
Definition row_contains (g : _csr_graph_t) (c f_id : Z) : res bool :=
  start_id ← rd (row_index g) c;
  end_id ← rd (row_index g) (c + 1);
  for_range_break (Z.to_nat (end_id - start_id)) start_id
    (fun k _ => v ← rd (col_id g) k; mret (v =? f_id, v =? f_id))
    false.

(** Can [f_id] join the current group?  (the loop on [i], which stops as
    soon as [f_ok] is false) *)
Definition face_ok (cell_faces : _csr_graph_t) (face_cell : list (Z * Z))
    (group_face_ids : list Z) (g_size f_id : Z) : res bool :=
  for_range_break (Z.to_nat g_size) 0
    (fun i _ =>
       f_cmp ← rd group_face_ids i;
       '(c0, c1) ← rd face_cell f_cmp;
       b0 ← row_contains cell_faces c0 f_id;
       b1 ← row_contains cell_faces c1 f_id;
       let f_ok := negb (b0 || b1) in
       mret (f_ok, negb f_ok))
    true.

Record ifg_state := {
  first_unmarked_face_id : Z;
  n_marked_faces : Z;
  group_id : Z;
  face_marker : list Z;
  old_to_new : list Z;
  _n_groups_max : Z;
  _group_size : list Z
}.

(** [BFT_REALLOC(a, n, cs_lnum_t)] *)
Definition BFT_REALLOC (a : list Z) (n : Z) : list Z :=
  take (Z.to_nat n) a ++ replicate (Z.to_nat n - length a) 0.

(** Build one group: the body of [while (n_marked_faces != n_faces)]. *)
Definition ifg_group (max_group_size n_faces : Z) (face_cell : list (Z * Z))
    (cell_faces : _csr_graph_t) (s : ifg_state) : res ifg_state :=
  (* start a new group *)
  let group_face_ids := replicate (Z.to_nat max_group_size) (-1) in
  '(g_size, _, s) ←
    for_range_break (Z.to_nat (n_faces - first_unmarked_face_id s))
      (first_unmarked_face_id s)
      (fun f_id '(g_size, group_face_ids, s) =>
         m ← rd (face_marker s) f_id;
         if m =? -1 then
           f_ok ← face_ok cell_faces face_cell group_face_ids g_size f_id;
           '(g_size, group_face_ids, s) ←
             (if f_ok : bool then
                fm ← wr (face_marker s) f_id (group_id s);
                gfi ← wr group_face_ids g_size f_id;
                o2n ← wr (old_to_new s) f_id (n_marked_faces s);
                mret (g_size + 1, gfi,
                      {| first_unmarked_face_id :=
                           if first_unmarked_face_id s =? f_id then f_id + 1
                           else first_unmarked_face_id s;
                         n_marked_faces := n_marked_faces s + 1;
                         group_id := group_id s;
                         face_marker := fm;
                         old_to_new := o2n;
                         _n_groups_max := _n_groups_max s;
                         _group_size := _group_size s |})
              else mret (g_size, group_face_ids, s));
           mret (g_size, group_face_ids, s, g_size =? max_group_size)
         else mret (g_size, group_face_ids, s, false))
      (0, group_face_ids, s);
  let '(n_max, gs) :=
    if _n_groups_max s <=? group_id s + 1
    then (_n_groups_max s * 2, BFT_REALLOC (_group_size s) (_n_groups_max s * 2))
    else (_n_groups_max s, _group_size s) in
  gs ← wr gs (group_id s) g_size;
  mret {| first_unmarked_face_id := first_unmarked_face_id s;
          n_marked_faces := n_marked_faces s;
          group_id := group_id s + 1;
          face_marker := face_marker s;
          old_to_new := old_to_new s;
          _n_groups_max := n_max;
          _group_size := gs |}.

(** The grouping loop of [_independent_face_groups], up to the point where
    the work arrays are freed. *)
Definition ifg_loop (fuel : nat) (max_group_size n_cells_ext n_faces : Z)
    (face_cell : list (Z * Z)) : res ifg_state :=
  cell_faces ← _csr_graph_create_cell_face n_cells_ext n_faces face_cell;
  '(face_marker, old_to_new) ← for_loop 0 n_faces
      (fun f_id '(fm, o2n) =>
         fm ← wr fm f_id (-1);
         o2n ← wr o2n f_id f_id;
         mret (fm, o2n))
      (BFT_MALLOC n_faces, BFT_MALLOC n_faces);
  while_loop fuel
    (fun s => mret (negb (n_marked_faces s =? n_faces)))
    (ifg_group max_group_size n_faces face_cell cell_faces)
    {| first_unmarked_face_id := 0;
       n_marked_faces := 0;
       group_id := 0;
       face_marker := face_marker;
       old_to_new := old_to_new;
       _n_groups_max := 4;
       _group_size := BFT_MALLOC 4 |}.

(** Outputs: [new_to_old], [n_groups] and [group_size]. *)
Definition _independent_face_groups (fuel : nat)
    (max_group_size n_cells_ext n_faces : Z) (face_cell : list (Z * Z))
    (new_to_old : list Z) : res (list Z * Z * list Z) :=
  s ← ifg_loop fuel max_group_size n_cells_ext n_faces face_cell;
  let _group_size := BFT_REALLOC (_group_size s) (group_id s) in
  new_to_old ← for_loop 0 n_faces
      (fun f_id n2o => p ← rd (old_to_new s) f_id; wr n2o p f_id)
      new_to_old;
  mret (new_to_old, group_id s, _group_size).

(** ** Block-uniform grouper *)

Definition _thread_bounds_by_group_size (n_faces n_groups n_threads : Z)
    (group_size group_index : list Z) : res (Z * list Z) :=
  let stride := 2 * n_groups in
  '(ip, group_index) ← for_loop 0 n_groups
      (fun group_id '(ip, gi) =>
         _group_size ← rd group_size group_id;
         j ← c_div _group_size n_threads;
         jr ← c_mod _group_size n_threads;
         if 4 <? j then
           for_loop 0 n_threads
             (fun k '(ip, gi) =>
                gi ← wr gi (k * stride + group_id * 2) ip;
                let ip := if k <? jr then ip + j + 1 else ip + j in
                gi ← wr gi (k * stride + group_id * 2 + 1) ip;
                mret (ip, gi))
             (ip, gi)
         else
           (* only thread 0 has elements *)
           gi ← wr gi (group_id * 2) ip;
           let ip := ip + _group_size in
           gi ← wr gi (group_id * 2 + 1) ip;
           gi ← for_loop 1 n_threads
               (fun k gi =>
                  gi ← wr gi (k * stride + group_id * 2) 0;
                  wr gi (k * stride + group_id * 2 + 1) 0)
               gi;
           mret (ip, gi))
      (0, group_index);
  mret (if ip =? n_faces then 0 else -1, group_index).

Definition _renum_i_faces_no_share_cell_in_block (fuel : nat)
    (min_i_subset_size : Z) (mesh : cs_mesh_t)
    (n_i_threads max_group_size : Z) (new_to_old_i : list Z)
  : res (Z * renum_out) :=
  max_group_size ← while_loop (Z.to_nat (max_group_size - min_i_subset_size))
      (fun mgs =>
         q ← c_div (n_i_faces mesh) mgs;
         mret ((q <? 2 * n_i_threads) && (min_i_subset_size <? mgs)))
      (fun mgs => mret (mgs - 64))
      max_group_size;
  let max_group_size :=
    if max_group_size <? min_i_subset_size then min_i_subset_size
    else max_group_size in
  let max_group_size :=
    if max_group_size <? n_i_threads * 2 then n_i_threads * 2
    else max_group_size in
  '(new_to_old_i, n_i_groups, i_group_size) ←
    _independent_face_groups fuel max_group_size (n_cells_with_ghosts mesh)
      (n_i_faces mesh) (i_face_cells mesh) new_to_old_i;
  '(retval, gi) ←
    _thread_bounds_by_group_size (n_i_faces mesh) n_i_groups n_i_threads
      i_group_size (BFT_MALLOC (n_i_threads * n_i_groups * 2));
  mret (retval, {| new_to_old := new_to_old_i;
                   out_n_groups := n_i_groups;
                   out_group_index := gi |}).

(** ** Boundary face partitioner *)

(** Push [end_id] forward until the cell changes: the [while] loop with its
    [break].  The state holds [end_id], [f_id] and whether [break] was hit. *)
Definition push_end (n_b_faces : Z) (b_face_cells new_to_old_b : list Z)
    (c_id end_id f_id : Z) : res Z :=
  '(end_id, _, _) ← while_loop (Z.to_nat (n_b_faces - end_id))
      (fun '(end_id, f_id, stop) =>
         if stop : bool then mret false
         else c ← rd b_face_cells f_id; mret (c =? c_id))
      (fun '(end_id, f_id, stop) =>
         let end_id := end_id + 1 in
         if end_id <? n_b_faces
         then f_id ← rd new_to_old_b end_id; mret (end_id, f_id, false)
         else mret (end_id, f_id, true))
      (end_id, f_id, false);
  mret end_id.

(** Body of the loop on threads: from the end of the previous range to the
    end of the range of [t_id]. *)
Definition b_thread_end (n_b_faces subset_size : Z)
    (b_face_cells new_to_old_b : list Z) (t_id start_id : Z) : res Z :=
  let end_id := (t_id + 1) * subset_size in
  let end_id := if end_id <? start_id then start_id else end_id in
  if n_b_faces <? end_id then mret n_b_faces
  else if (0 <? end_id) && (end_id <? n_b_faces) then
    f_id ← rd new_to_old_b (end_id - 1);
    c_id ← rd b_face_cells f_id;
    f_id ← rd new_to_old_b end_id;
    push_end n_b_faces b_face_cells new_to_old_b c_id end_id f_id
  else mret end_id.

Definition b_subset_size (n_b_faces n_b_threads min_subset_size : Z) : res Z :=
  q ← c_div n_b_faces n_b_threads;
  r ← c_mod n_b_faces n_b_threads;
  let subset_size := if 0 <? r then q + 1 else q in
  mret (CS_MAX subset_size min_subset_size).

Definition _renum_b_faces_no_share_cell_across_thread (mesh : cs_mesh_t)
    (n_b_threads min_subset_size : Z) (new_to_old_b : list Z)
  : res (Z * renum_out) :=
  let n := n_b_faces mesh in
  (* order faces lexicographically *)
  fc_num ← for_loop 0 n
      (fun ii keys => c ← rd (b_face_cells mesh) ii; mret (keys ++ [[c; ii]]))
      [];
  let order := cs_order_lnum_allocated_s fc_num in
  (* build new numbering index *)
  new_to_old_b ← for_loop 0 n
      (fun ii n2o => o ← rd order ii; wr n2o ii o)
      new_to_old_b;
  (* compute target subset size *)
  subset_size ← b_subset_size n n_b_threads min_subset_size;
  (* build then adjust group / thread index *)
  '(_, gi) ← for_loop 0 n_b_threads
      (fun t_id '(end_id, gi) =>
         let start_id := end_id in
         end_id ← b_thread_end n subset_size (b_face_cells mesh) new_to_old_b
                    t_id start_id;
         gi ← wr gi (t_id * 2) start_id;
         gi ← wr gi (t_id * 2 + 1) end_id;
         mret (end_id, gi))
      (0, BFT_MALLOC (n_b_threads * 2));
  mret (if n <? 1 then -1 else 0,
        {| new_to_old := new_to_old_b; out_n_groups := 1;
           out_group_index := gi |}).

(** ** Connectivity rewriter *)

(** [for (ii = 0; ii < n; ii++) dst[ii] = old[new_to_old[ii]];] *)
Definition gather {A} (n : Z) (new_to_old : list Z) (old dst : list A)
  : res (list A) :=
  for_loop 0 n
    (fun ii dst => j ← rd new_to_old ii; v ← rd old j; wr dst ii v)
    dst.

Definition _update_family (n_elts : Z) (new_to_old : list Z)
    (family : option (list Z)) : res (option (list Z)) :=
  match family with
  | None => mret None
  | Some family =>
      old_family ← memcpy (BFT_MALLOC n_elts) family n_elts;
      family ← gather n_elts new_to_old old_family family;
      mret (Some family)
  end.

Definition _update_global_num (n_elts : Z) (new_to_old : list Z)
    (global_num : option (list Z)) : res (option (list Z)) :=
  match global_num with
  | None =>
      g ← for_loop 0 n_elts
          (fun i g => j ← rd new_to_old i; wr g i (j + 1))
          (BFT_MALLOC n_elts);
      mret (Some g)
  | Some _global_num =>
      tmp_global ← memcpy (BFT_MALLOC n_elts) _global_num n_elts;
      g ← gather n_elts new_to_old tmp_global _global_num;
      mret (Some g)
  end.

(** Copy the entries of the old entity [jj] of a 1-based index / list pair
    to position [start_id] of the new list; [f] translates the entries. *)
Definition copy_sublist (f : Z -> res Z) (idx_old lst_old : list Z)
    (jj start_id : Z) (lst : list Z) : res (Z * list Z) :=
  hi ← rd idx_old (jj + 1);
  lo ← rd idx_old jj;
  let n := hi - lo in
  let start_id_old := lo - 1 in
  lst ← for_loop 0 n
      (fun kk lst =>
         v ← rd lst_old (start_id_old + kk);
         v ← f v;
         wr lst (start_id + kk) v)
      lst;
  mret (n, lst).

(** Renumbering of a 1-based index / list pair: the common shape of
    [_update_face_vertices] and of the cell -> cells update. *)
Definition renumber_indexed (f : Z -> res Z) (n_elts : Z) (new_to_old : list Z)
    (idx lst : list Z) : res (list Z * list Z) :=
  last ← rd idx n_elts;
  let connect_size := last - 1 in
  idx_old ← memcpy (BFT_MALLOC (n_elts + 1)) idx (n_elts + 1);
  lst_old ← memcpy (BFT_MALLOC connect_size) lst connect_size;
  idx ← wr idx 0 1;
  '(_, idx, lst) ← for_loop 0 n_elts
      (fun ii '(start_id, idx, lst) =>
         jj ← rd new_to_old ii;
         '(n, lst) ← copy_sublist f idx_old lst_old jj start_id lst;
         let start_id := start_id + n in
         idx ← wr idx (ii + 1) (start_id + 1);
         mret (start_id, idx, lst))
      (0, idx, lst);
  mret (idx, lst).

Definition _update_face_vertices (n_faces : Z) (face_vtx_idx : list Z)
    (face_vtx : option (list Z)) (new_to_old : option (list Z))
  : res (list Z * option (list Z)) :=
  match new_to_old, face_vtx with
  | Some new_to_old, Some face_vtx =>
      '(idx, lst) ← renumber_indexed (fun v => mret v) n_faces new_to_old
                      face_vtx_idx face_vtx;
      mret (idx, Some lst)
  | _, _ => mret (face_vtx_idx, face_vtx)
  end.

Definition _cs_renumber_update_faces (mesh : cs_mesh_t)
    (new_to_old_i new_to_old_b : option (list Z)) : res cs_mesh_t :=
  (* interior faces *)
  mesh ← match new_to_old_i with
         | None => mret mesh
         | Some n2o =>
             let n := n_i_faces mesh in
             old ← memcpy (replicate (Z.to_nat n) (0, 0)) (i_face_cells mesh) n;
             ifc ← gather n n2o old (i_face_cells mesh);
             '(idx, lst) ← _update_face_vertices n (i_face_vtx_idx mesh)
                             (i_face_vtx_lst mesh) new_to_old_i;
             fam ← _update_family n n2o (i_face_family mesh);
             gnum ← _update_global_num n n2o (global_i_face_num mesh);
             mret {| n_domains := n_domains mesh;
                     n_cells := n_cells mesh;
                     n_i_faces := n_i_faces mesh;
                     n_b_faces := n_b_faces mesh;
                     n_cells_with_ghosts := n_cells_with_ghosts mesh;
                     i_face_cells := ifc;
                     b_face_cells := b_face_cells mesh;
                     i_face_vtx_idx := idx;
                     i_face_vtx_lst := lst;
                     b_face_vtx_idx := b_face_vtx_idx mesh;
                     b_face_vtx_lst := b_face_vtx_lst mesh;
                     cell_cells_idx := cell_cells_idx mesh;
                     cell_cells_lst := cell_cells_lst mesh;
                     cell_family := cell_family mesh;
                     i_face_family := fam;
                     b_face_family := b_face_family mesh;
                     global_cell_num := global_cell_num mesh;
                     global_i_face_num := gnum;
                     global_b_face_num := global_b_face_num mesh;
                     i_face_numbering := i_face_numbering mesh;
                     b_face_numbering := b_face_numbering mesh |}
         end;
  (* boundary faces *)
  match new_to_old_b with
  | None => mret mesh
  | Some n2o =>
      let n := n_b_faces mesh in
      old ← memcpy (BFT_MALLOC n) (b_face_cells mesh) n;
      bfc ← gather n n2o old (b_face_cells mesh);
      '(idx, lst) ← _update_face_vertices n (b_face_vtx_idx mesh)
                      (b_face_vtx_lst mesh) new_to_old_b;
      fam ← _update_family n n2o (b_face_family mesh);
      gnum ← _update_global_num n n2o (global_b_face_num mesh);
      mret {| n_domains := n_domains mesh;
              n_cells := n_cells mesh;
              n_i_faces := n_i_faces mesh;
              n_b_faces := n_b_faces mesh;
              n_cells_with_ghosts := n_cells_with_ghosts mesh;
              i_face_cells := i_face_cells mesh;
              b_face_cells := bfc;
              i_face_vtx_idx := i_face_vtx_idx mesh;
              i_face_vtx_lst := i_face_vtx_lst mesh;
              b_face_vtx_idx := idx;
              b_face_vtx_lst := lst;
              cell_cells_idx := cell_cells_idx mesh;
              cell_cells_lst := cell_cells_lst mesh;
              cell_family := cell_family mesh;
              i_face_family := i_face_family mesh;
              b_face_family := fam;
              global_cell_num := global_cell_num mesh;
              global_i_face_num := global_i_face_num mesh;
              global_b_face_num := gnum;
              i_face_numbering := i_face_numbering mesh;
              b_face_numbering := b_face_numbering mesh |}
  end.

(** Old -> new cell renumbering; ghost cells keep their ids. *)
Definition build_new_cell_id (n_cells n_cells_with_ghosts : Z)
    (new_to_old : list Z) : res (list Z) :=
  nci ← for_loop 0 n_cells
      (fun ii nci => j ← rd new_to_old ii; wr nci j ii)
      (BFT_MALLOC n_cells_with_ghosts);
  for_loop n_cells n_cells_with_ghosts (fun ii nci => wr nci ii ii) nci.

Definition _cs_renumber_update_cells (mesh : cs_mesh_t)
    (new_to_old : option (list Z)) : res cs_mesh_t :=
  match new_to_old with
  | None => mret mesh
  | Some n2o =>
      let n_cells := n_cells mesh in
      new_cell_id ← build_new_cell_id n_cells (n_cells_with_ghosts mesh) n2o;
      (* update faces -> cells connectivity *)
      face_cells_tmp ← memcpy (replicate (Z.to_nat (n_i_faces mesh)) (0, 0))
                         (i_face_cells mesh) (n_i_faces mesh);
      ifc ← for_loop 0 (n_i_faces mesh)
          (fun face_id ifc =>
             '(ii, jj) ← rd face_cells_tmp face_id;
             c0 ← rd new_cell_id ii;
             c1 ← rd new_cell_id jj;
             wr ifc face_id (c0, c1))
          (i_face_cells mesh);
      bfc ← (if 0 <? n_b_faces mesh then
               face_cells_tmp ← memcpy (BFT_MALLOC (n_b_faces mesh))
                                  (b_face_cells mesh) (n_b_faces mesh);
               for_loop 0 (n_b_faces mesh)
                 (fun face_id bfc =>
                    v ← rd face_cells_tmp face_id;
                    let ii := v - 1 in
                    c ← rd new_cell_id ii;
                    wr bfc face_id c)
                 (b_face_cells mesh)
             else mret (b_face_cells mesh));
      (* update cell -> cells connectivity for extended neighborhood *)
      '(cci, ccl) ← match cell_cells_lst mesh with
                    | None => mret (cell_cells_idx mesh, None)
                    | Some lst =>
                        '(idx, lst) ← renumber_indexed
                            (fun v => c ← rd new_cell_id (v - 1); mret (c + 1))
                            n_cells n2o (cell_cells_idx mesh) lst;
                        mret (idx, Some lst)
                    end;
      (* update cell families and global numbering *)
      fam ← _update_family n_cells n2o (cell_family mesh);
      gnum ← _update_global_num n_cells n2o (global_cell_num mesh);
      mret {| n_domains := n_domains mesh;
              n_cells := n_cells;
              n_i_faces := n_i_faces mesh;
              n_b_faces := n_b_faces mesh;
              n_cells_with_ghosts := n_cells_with_ghosts mesh;
              i_face_cells := ifc;
              b_face_cells := bfc;
              i_face_vtx_idx := i_face_vtx_idx mesh;
              i_face_vtx_lst := i_face_vtx_lst mesh;
              b_face_vtx_idx := b_face_vtx_idx mesh;
              b_face_vtx_lst := b_face_vtx_lst mesh;
              cell_cells_idx := cci;
              cell_cells_lst := ccl;
              cell_family := fam;
              i_face_family := i_face_family mesh;
              b_face_family := b_face_family mesh;
              global_cell_num := gnum;
              global_i_face_num := global_i_face_num mesh;
              global_b_face_num := global_b_face_num mesh;
              i_face_numbering := i_face_numbering mesh;
              b_face_numbering := b_face_numbering mesh |}
  end.

(** ** Renumbering for threads *)

(** Modelled from the spec: [cs_numbering_create_threaded] (cs_numbering.c
    is not part of the sources) builds the numbering descriptor
    [{ kind: threaded, n_threads, n_groups, group_index[] }]. *)
Definition cs_numbering_create_threaded (n_threads n_groups : Z)
    (group_index : list Z) : cs_numbering_t :=
  {| type := CS_NUMBERING_THREADS;
     vector_size := 1;
     n_threads := n_threads;
     n_groups := n_groups;
     group_index :=
       take (Z.to_nat (n_threads * 2 * n_groups)) group_index |}.

Definition set_i_face_numbering (mesh : cs_mesh_t) (nb : option cs_numbering_t)
  : cs_mesh_t :=
  {| n_domains := n_domains mesh;
     n_cells := n_cells mesh;
     n_i_faces := n_i_faces mesh;
     n_b_faces := n_b_faces mesh;
     n_cells_with_ghosts := n_cells_with_ghosts mesh;
     i_face_cells := i_face_cells mesh;
     b_face_cells := b_face_cells mesh;
     i_face_vtx_idx := i_face_vtx_idx mesh;
     i_face_vtx_lst := i_face_vtx_lst mesh;
     b_face_vtx_idx := b_face_vtx_idx mesh;
     b_face_vtx_lst := b_face_vtx_lst mesh;
     cell_cells_idx := cell_cells_idx mesh;
     cell_cells_lst := cell_cells_lst mesh;
     cell_family := cell_family mesh;
     i_face_family := i_face_family mesh;
     b_face_family := b_face_family mesh;
     global_cell_num := global_cell_num mesh;
     global_i_face_num := global_i_face_num mesh;
     global_b_face_num := global_b_face_num mesh;
     i_face_numbering := nb;
     b_face_numbering := b_face_numbering mesh |}.

Definition set_b_face_numbering (mesh : cs_mesh_t) (nb : option cs_numbering_t)
  : cs_mesh_t :=
  {| n_domains := n_domains mesh;
     n_cells := n_cells mesh;
     n_i_faces := n_i_faces mesh;
     n_b_faces := n_b_faces mesh;
     n_cells_with_ghosts := n_cells_with_ghosts mesh;
     i_face_cells := i_face_cells mesh;
     b_face_cells := b_face_cells mesh;
     i_face_vtx_idx := i_face_vtx_idx mesh;
     i_face_vtx_lst := i_face_vtx_lst mesh;
     b_face_vtx_idx := b_face_vtx_idx mesh;
     b_face_vtx_lst := b_face_vtx_lst mesh;
     cell_cells_idx := cell_cells_idx mesh;
     cell_cells_lst := cell_cells_lst mesh;
     cell_family := cell_family mesh;
     i_face_family := i_face_family mesh;
     b_face_family := b_face_family mesh;
     global_cell_num := global_cell_num mesh;
     global_i_face_num := global_i_face_num mesh;
     global_b_face_num := global_b_face_num mesh;
     i_face_numbering := i_face_numbering mesh;
     b_face_numbering := nb |}.

(** [for (ii = 0; ii < n; ii++) a[ii] = ii;] *)
Definition identity_numbering (n : Z) : res (list Z) :=
  for_loop 0 n (fun ii a => wr a ii ii) (BFT_MALLOC n).

(** What [_renumber_for_threads] decides for one kind of faces: the thread
    and group counts, the group index (freed when the renumbering failed)
    and the renumbering array (freed, i.e. [None], when it is not applied). *)
Record face_plan := {
  plan_n_threads : Z;
  plan_n_groups : Z;
  plan_group_index : option (list Z);
  plan_new_to_old : option (list Z)
}.

Definition plan_of (n_threads : Z) (r : Z * option renum_out) : face_plan :=
  match r with
  | (0, Some out) =>
      {| plan_n_threads := n_threads;
         plan_n_groups := out_n_groups out;
         plan_group_index := Some (out_group_index out);
         plan_new_to_old := Some (new_to_old out) |}
  | _ =>
      {| plan_n_threads := 1;
         plan_n_groups := 1;
         plan_group_index := None;
         plan_new_to_old := None |}
  end.

(** Numbering attached to the mesh for a plan: created only
    [if (n_groups * n_threads > 1)]. *)
Definition plan_numbering (p : face_plan) (current : option cs_numbering_t)
  : option cs_numbering_t :=
  if 1 <? plan_n_groups p * plan_n_threads p then
    Some (cs_numbering_create_threaded (plan_n_threads p) (plan_n_groups p)
            (default [] (plan_group_index p)))
  else current.

(** The interior faces renumbering selected by [_i_faces_algorithm]. *)
Definition renum_i_faces (fuel : nat) (cfg : config) (mesh : cs_mesh_t)
    (n_i_threads : Z) (new_to_old_i : list Z) : res (Z * option renum_out) :=
  let max_group_size := 1014 in
  match _i_faces_algorithm cfg with
  | CS_RENUMBER_I_FACES_BLOCK =>
      '(retval, out) ← _renum_i_faces_no_share_cell_in_block fuel
          (_min_i_subset_size cfg) mesh n_i_threads max_group_size new_to_old_i;
      mret (retval, Some out)
  | CS_RENUMBER_I_FACES_MULTIPASS =>
      _renum_face_multipass fuel mesh n_i_threads (_min_i_subset_size cfg)
  | CS_RENUMBER_I_FACES_NONE => mret (-1, None)
  end.

Definition _renumber_for_threads (fuel : nat) (cfg : config) (mesh : cs_mesh_t)
  : res cs_mesh_t :=
  let update_c := 0 in
  let n_i_threads := _cs_renumber_n_threads cfg in
  let n_b_threads := _cs_renumber_n_threads cfg in
  if _cs_renumber_n_threads cfg <? 2 then mret mesh
  else
    (* initialize renumbering arrays *)
    new_to_old_c ← identity_numbering (n_cells_with_ghosts mesh);
    new_to_old_i ← identity_numbering (n_i_faces mesh);
    new_to_old_b ← identity_numbering (n_b_faces mesh);
    (* interior faces renumbering *)
    r ← renum_i_faces fuel cfg mesh n_i_threads new_to_old_i;
    let plan_i := plan_of n_i_threads r in
    (* transfer interior face numbering information to mesh *)
    let mesh :=
      set_i_face_numbering mesh (plan_numbering plan_i (i_face_numbering mesh)) in
    (* boundary faces renumbering *)
    '(retval, out) ← _renum_b_faces_no_share_cell_across_thread mesh
        n_b_threads (_min_b_subset_size cfg) new_to_old_b;
    let plan_b := plan_of n_b_threads (retval, Some out) in
    (* transfer boundary face numbering information to mesh *)
    let mesh :=
      set_b_face_numbering mesh (plan_numbering plan_b (b_face_numbering mesh)) in
    (* now update mesh connectivity *)
    let new_to_old_c := if update_c =? 0 then None else Some new_to_old_c in
    mesh ← (if bool_decide (is_Some (plan_new_to_old plan_i))
               || bool_decide (is_Some (plan_new_to_old plan_b))
            then _cs_renumber_update_faces mesh (plan_new_to_old plan_i)
                   (plan_new_to_old plan_b)
            else mret mesh);
    _cs_renumber_update_cells mesh new_to_old_c.

(** ** Validator *)

(** Faces range [[start, end)] of thread [t_id] in group [g_id]. *)
Definition thread_range (nb : cs_numbering_t) (t_id g_id : Z) : res (Z * Z) :=
  s ← rd (group_index nb) (gi_pos (n_groups nb) t_id g_id 0);
  e ← rd (group_index nb) (gi_pos (n_groups nb) t_id g_id 1);
  mret (s, e).

(** The check of [_renumber_test] for interior faces numbered for threads:
    returns [face_errors[0]]. *)
Definition _renumber_test_i_faces (mesh : cs_mesh_t) : res Z :=
  match i_face_numbering mesh with
  | None => mret 0
  | Some nb =>
      match type nb with
      | CS_NUMBERING_THREADS =>
          let n_cells_ext := n_cells_with_ghosts mesh in
          accumulator ← for_groups_threads (n_groups nb) (n_threads nb)
              (fun g_id t_id acc =>
                 '(s, e) ← thread_range nb t_id g_id;
                 for_loop s e
                   (fun f_id acc =>
                      '(c_id_0, c_id_1) ← rd (i_face_cells mesh) f_id;
                      acc ← incr acc c_id_0;
                      incr acc c_id_1)
                   acc)
              (replicate (Z.to_nat n_cells_ext) 0);
          counter ← for_loop 0 n_cells_ext
              (fun c_id counter => v ← rd accumulator c_id; mret (counter + v))
              0;
          let face_errors := n_i_faces mesh * 2 - counter in
          (* additional serial test *)
          if face_errors =? 0 then
            for_loop 0 (n_groups nb)
              (fun g_id face_errors =>
                 '(face_errors, _) ← for_loop 0 (n_threads nb)
                     (fun t_id st =>
                        '(s, e) ← thread_range nb t_id g_id;
                        for_loop s e
                          (fun f_id '(face_errors, acc) =>
                             '(c_id_0, c_id_1) ← rd (i_face_cells mesh) f_id;
                             a0 ← rd acc c_id_0;
                             a1 ← rd acc c_id_1;
                             let bad :=
                               ((-1 <? a0) && negb (a0 =? t_id))
                               || ((-1 <? a1) && negb (a1 =? t_id)) in
                             acc ← wr acc c_id_0 t_id;
                             acc ← wr acc c_id_1 t_id;
                             mret (if bad then face_errors + 1 else face_errors,
                                   acc))
                          st)
                     (face_errors, replicate (Z.to_nat n_cells_ext) (-1));
                 mret face_errors)
              face_errors
          else mret face_errors
      | _ => mret 0
      end
  end.

(** ** Properties of the index produced for threads *)

(** Cell ids adjacent to the faces of [[s, e)]. *)
Definition range_cells (face_cells : list (Z * Z)) (s e : Z) : list Z :=
  flat_map (fun c : Z * Z => [c.1; c.2])
    (take (Z.to_nat (e - s)) (drop (Z.to_nat s) face_cells)).

(** Conflict-freedom of a group/thread index: within a group, the cells
    touched by the ranges of two distinct threads are disjoint. *)
Definition conflict_free (face_cells : list (Z * Z)) (nb : cs_numbering_t)
  : Prop :=
  forall g_id t1 t2 s1 e1 s2 e2 c,
    0 <= g_id < n_groups nb ->
    0 <= t1 < n_threads nb -> 0 <= t2 < n_threads nb -> t1 <> t2 ->
    thread_range nb t1 g_id = Ok (s1, e1) ->
    thread_range nb t2 g_id = Ok (s2, e2) ->
    c ∈ range_cells face_cells s1 e1 ->
    c ∈ range_cells face_cells s2 e2 -> False.

(** * Verification *)

(** ** Generic facts on outcomes, arrays and loops *)

Lemma bind_Ok {A B} (m : res A) (f : A -> res B) (b : B) :
  m ≫= f = Ok b <-> exists a, m = Ok a /\ f a = Ok b.
Proof.
  destruct m as [a| |]; simpl; split.
  - intros H. exists a. auto.
  - intros [a' [Ha Hf]]. inversion Ha. subst. exact Hf.
  - discriminate.
  - intros [a' [Ha _]]. discriminate.
  - discriminate.
  - intros [a' [Ha _]]. discriminate.
Qed.

Lemma bind_Ok_l {A B} (m : res A) (f : A -> res B) (a : A) :
  m = Ok a -> m ≫= f = f a.
Proof. intros ->. reflexivity. Qed.

(** Inversion of a successful sequence of computations. *)
Ltac inv_ok H :=
  lazymatch type of H with
  | Ok _ = Ok _ => inversion H; clear H; subst
  | Fault = Ok _ => discriminate H
  | OutOfFuel = Ok _ => discriminate H
  | mret _ = Ok _ => inversion H; clear H; subst
  | (?m ≫= ?f) = Ok _ =>
      let a := fresh "a" in
      let Ha := fresh "Ha" in
      apply bind_Ok in H; destruct H as [a [Ha H]]
  end.

Lemma rd_Ok {A} (a : list A) (i : Z) (v : A) :
  rd a i = Ok v <-> 0 <= i /\ a !! Z.to_nat i = Some v.
Proof.
  unfold rd. destruct (Z.ltb_spec i 0).
  - split; [discriminate | lia].
  - destruct (a !! Z.to_nat i) eqn:E; split; intros H'.
    + inversion H'. subst. auto.
    + destruct H' as [_ H']. congruence.
    + discriminate.
    + destruct H' as [_ H']. discriminate.
Qed.

Lemma rd_lt {A} (a : list A) (i : Z) (v : A) :
  rd a i = Ok v -> 0 <= i < Z.of_nat (length a).
Proof.
  intros H. apply rd_Ok in H. destruct H as [H0 H].
  apply lookup_lt_Some in H. lia.
Qed.

Lemma rd_in_range {A} (a : list A) (i : Z) :
  0 <= i < Z.of_nat (length a) -> exists v, rd a i = Ok v.
Proof.
  intros H. destruct (lookup_lt_is_Some_2 a (Z.to_nat i)) as [v Hv]; [lia|].
  exists v. apply rd_Ok. split; [lia | exact Hv].
Qed.

Lemma wr_Ok {A} (a : list A) (i : Z) (v : A) (a' : list A) :
  wr a i v = Ok a' <->
  0 <= i < Z.of_nat (length a) /\ a' = <[Z.to_nat i := v]> a.
Proof.
  unfold wr.
  destruct (Z.leb_spec 0 i), (Z.ltb_spec i (Z.of_nat (length a))); simpl;
    split; intros H'; try discriminate; try lia.
  - inversion H'. split; [lia | reflexivity].
  - destruct H' as [_ ->]. reflexivity.
Qed.

Lemma wr_in_range {A} (a : list A) (i : Z) (v : A) :
  0 <= i < Z.of_nat (length a) -> wr a i v = Ok (<[Z.to_nat i := v]> a).
Proof. intros H. apply wr_Ok. auto. Qed.

Lemma for_range_S {S} (n : nat) (i : Z) (body : Z -> S -> res S) (s : S) :
  for_range (Datatypes.S n) i body s
  = s' ← for_range n i body s; body (i + Z.of_nat n) s'.
Proof.
  revert i s. induction n as [|n IH]; intros i s.
  - simpl. replace (i + Z.of_nat 0) with i by lia.
    destruct (body i s); reflexivity.
  - change (for_range (Datatypes.S (Datatypes.S n)) i body s)
      with (s' ← body i s; for_range (Datatypes.S n) (i + 1) body s').
    change (for_range (Datatypes.S n) i body s)
      with (s' ← body i s; for_range n (i + 1) body s').
    destruct (body i s) as [s1| |]; try reflexivity.
    change (for_range (Datatypes.S n) (i + 1) body s1
            = s' ← for_range n (i + 1) body s1;
              body (i + Z.of_nat (Datatypes.S n)) s').
    rewrite IH.
    replace (i + 1 + Z.of_nat n) with (i + Z.of_nat (Datatypes.S n)) by lia.
    reflexivity.
Qed.

(** Invariant rule for [for] loops that run to completion. *)
Lemma for_range_inv {S} (P : Z -> S -> Prop) (n : nat) (i : Z)
      (body : Z -> S -> res S) (s : S) :
  P i s ->
  (forall j s, i <= j < i + Z.of_nat n -> P j s ->
               exists s', body j s = Ok s' /\ P (j + 1) s') ->
  exists s', for_range n i body s = Ok s' /\ P (i + Z.of_nat n) s'.
Proof.
  revert i s. induction n as [|n IH]; intros i s HP Hstep.
  - exists s. split; [reflexivity|]. replace (i + Z.of_nat 0) with i by lia. exact HP.
  - destruct (Hstep i s) as [s1 [Hb HP1]]; [lia | exact HP |].
    destruct (IH (i + 1) s1 HP1) as [s' [Hl HP']].
    { intros j s2 Hj. apply Hstep. lia. }
    exists s'. split.
    + simpl. rewrite Hb. exact Hl.
    + replace (i + Z.of_nat (Datatypes.S n)) with (i + 1 + Z.of_nat n) by lia.
      exact HP'.
Qed.

(** Invariant rule for [for] loops known to have succeeded. *)
Lemma for_range_inv_Ok {S} (P : Z -> S -> Prop) (n : nat) (i : Z)
      (body : Z -> S -> res S) (s s' : S) :
  for_range n i body s = Ok s' ->
  P i s ->
  (forall j s s', i <= j < i + Z.of_nat n -> P j s -> body j s = Ok s' ->
                  P (j + 1) s') ->
  P (i + Z.of_nat n) s'.
Proof.
  revert i s. induction n as [|n IH]; intros i s Hl HP Hstep.
  - simpl in Hl. inversion Hl. subst. replace (i + Z.of_nat 0) with i by lia. exact HP.
  - simpl in Hl. inv_ok Hl.
    replace (i + Z.of_nat (Datatypes.S n)) with (i + 1 + Z.of_nat n) by lia.
    apply (IH (i + 1) a Hl).
    + apply (Hstep i s a); [lia | exact HP | exact Ha].
    + intros j s1 s2 Hj. apply Hstep. lia.
Qed.

Lemma for_loop_inv {S} (P : Z -> S -> Prop) (lo hi : Z)
      (body : Z -> S -> res S) (s : S) :
  lo <= hi ->
  P lo s ->
  (forall j s, lo <= j < hi -> P j s ->
               exists s', body j s = Ok s' /\ P (j + 1) s') ->
  exists s', for_loop lo hi body s = Ok s' /\ P hi s'.
Proof.
  intros Hle HP Hstep. unfold for_loop.
  destruct (for_range_inv P (Z.to_nat (hi - lo)) lo body s HP) as [s' [H1 H2]].
  - intros j s1 Hj. apply Hstep. lia.
  - exists s'. split; [exact H1|].
    replace (lo + Z.of_nat (Z.to_nat (hi - lo))) with hi in H2 by lia. exact H2.
Qed.

Lemma for_loop_inv_Ok {S} (P : Z -> S -> Prop) (lo hi : Z)
      (body : Z -> S -> res S) (s s' : S) :
  lo <= hi ->
  for_loop lo hi body s = Ok s' ->
  P lo s ->
  (forall j s s', lo <= j < hi -> P j s -> body j s = Ok s' -> P (j + 1) s') ->
  P hi s'.
Proof.
  intros Hle Hl HP Hstep. unfold for_loop in Hl.
  replace hi with (lo + Z.of_nat (Z.to_nat (hi - lo))) by lia.
  apply (for_range_inv_Ok P _ _ _ _ _ Hl HP).
  intros j s1 s2 Hj. apply Hstep. lia.
Qed.

Lemma for_loop_empty {S} (lo hi : Z) (body : Z -> S -> res S) (s : S) :
  hi <= lo -> for_loop lo hi body s = Ok s.
Proof.
  intros H. unfold for_loop. replace (Z.to_nat (hi - lo)) with O by lia.
  reflexivity.
Qed.

Lemma while_loop_exit {S} (fuel : nat) (cond : S -> res bool)
      (body : S -> res S) (s : S) :
  cond s = Ok false -> while_loop fuel cond body s = Ok s.
Proof. intros H. destruct fuel; simpl; rewrite H; reflexivity. Qed.

Lemma while_loop_step {S} (fuel : nat) (cond : S -> res bool)
      (body : S -> res S) (s s' : S) :
  cond s = Ok true -> body s = Ok s' ->
  while_loop (Datatypes.S fuel) cond body s = while_loop fuel cond body s'.
Proof. intros Hc Hb. simpl. rewrite Hc. simpl. rewrite Hb. reflexivity. Qed.

Lemma while_loop_no_fuel {S} (cond : S -> res bool) (body : S -> res S) (s : S) :
  cond s = Ok true -> while_loop O cond body s = OutOfFuel.
Proof. intros Hc. simpl. rewrite Hc. reflexivity. Qed.

(** ** Sample meshes *)

(** A mesh given by its face -> cells connectivity only (no vertices,
    families or global numbers, a single domain without ghost cells). *)
Definition mesh_of_faces (nc : Z) (ifc : list (Z * Z)) (bfc : list Z)
  : cs_mesh_t :=
  {| n_domains := 1;
     n_cells := nc;
     n_i_faces := Z.of_nat (length ifc);
     n_b_faces := Z.of_nat (length bfc);
     n_cells_with_ghosts := nc;
     i_face_cells := ifc;
     b_face_cells := bfc;
     i_face_vtx_idx := [];
     i_face_vtx_lst := None;
     b_face_vtx_idx := [];
     b_face_vtx_lst := None;
     cell_cells_idx := [];
     cell_cells_lst := None;
     cell_family := None;
     i_face_family := None;
     b_face_family := None;
     global_cell_num := None;
     global_i_face_num := None;
     global_b_face_num := None;
     i_face_numbering := None;
     b_face_numbering := None |}.

(** Three cells, each sharing a face with the two others. *)
Definition triangle_mesh : cs_mesh_t :=
  mesh_of_faces 3 [(0, 1); (0, 2); (1, 2)] [0; 1; 2].

(** Cell 0 shares a face with each of the seven other cells. *)
Definition star_mesh : cs_mesh_t :=
  mesh_of_faces 8 [(0, 1); (0, 2); (0, 3); (0, 4); (0, 5); (0, 6); (0, 7)]
    [1; 2; 3; 4; 5; 6; 7].

(** A chain of six cells: five interior faces (scenario B of the
    specification). *)
Definition chain6_mesh : cs_mesh_t :=
  mesh_of_faces 6 [(0, 1); (1, 2); (2, 3); (3, 4); (4, 5)] [0; 5].

Definition default_config (n_threads : Z) : config :=
  {| _cs_renumber_n_threads := n_threads;
     _min_i_subset_size := 64;
     _min_b_subset_size := 64;
     _i_faces_algorithm := CS_RENUMBER_I_FACES_MULTIPASS |}.

(** ** Early exit of [_renumber_for_threads] *)

(** C10: with a configured thread count below 2, [_renumber_for_threads]
    returns at once and the mesh (connectivity, families, global numbering,
    numbering descriptors) is exactly the one it was given. *)
Theorem renumber_for_threads_below_two_threads
    (fuel : nat) (cfg : config) (mesh : cs_mesh_t) :
  _cs_renumber_n_threads cfg < 2 ->
  _renumber_for_threads fuel cfg mesh = Ok mesh.
Proof.
  intros H. unfold _renumber_for_threads.
  destruct (Z.ltb_spec (_cs_renumber_n_threads cfg) 2); [reflexivity | lia].
Qed.

Lemma renumber_for_threads_below_two_threads_witness :
  _renumber_for_threads 0 (default_config 1) triangle_mesh = Ok triangle_mesh.
Proof.
  apply renumber_for_threads_below_two_threads. simpl. lia.
Defined.

(** ** Infeasible multipass renumbering *)

Lemma update_faces_no_interior (mesh mesh' : cs_mesh_t)
      (new_to_old_b : option (list Z)) :
  _cs_renumber_update_faces mesh None new_to_old_b = Ok mesh' ->
  i_face_cells mesh' = i_face_cells mesh
  /\ i_face_vtx_idx mesh' = i_face_vtx_idx mesh
  /\ i_face_vtx_lst mesh' = i_face_vtx_lst mesh
  /\ i_face_family mesh' = i_face_family mesh
  /\ global_i_face_num mesh' = global_i_face_num mesh
  /\ i_face_numbering mesh' = i_face_numbering mesh.
Proof.
  unfold _cs_renumber_update_faces. intros H.
  change (mret mesh ≫= _) with
    (match new_to_old_b with
     | None => mret mesh
     | Some n2o =>
         old ← memcpy (BFT_MALLOC (n_b_faces mesh)) (b_face_cells mesh)
                 (n_b_faces mesh);
         bfc ← gather (n_b_faces mesh) n2o old (b_face_cells mesh);
         '(idx, lst) ← _update_face_vertices (n_b_faces mesh)
                         (b_face_vtx_idx mesh) (b_face_vtx_lst mesh) new_to_old_b;
         fam ← _update_family (n_b_faces mesh) n2o (b_face_family mesh);
         gnum ← _update_global_num (n_b_faces mesh) n2o (global_b_face_num mesh);
         mret {| n_domains := n_domains mesh;
                 n_cells := n_cells mesh;
                 n_i_faces := n_i_faces mesh;
                 n_b_faces := n_b_faces mesh;
                 n_cells_with_ghosts := n_cells_with_ghosts mesh;
                 i_face_cells := i_face_cells mesh;
                 b_face_cells := bfc;
                 i_face_vtx_idx := i_face_vtx_idx mesh;
                 i_face_vtx_lst := i_face_vtx_lst mesh;
                 b_face_vtx_idx := idx;
                 b_face_vtx_lst := lst;
                 cell_cells_idx := cell_cells_idx mesh;
                 cell_cells_lst := cell_cells_lst mesh;
                 cell_family := cell_family mesh;
                 i_face_family := i_face_family mesh;
                 b_face_family := fam;
                 global_cell_num := global_cell_num mesh;
                 global_i_face_num := global_i_face_num mesh;
                 global_b_face_num := gnum;
                 i_face_numbering := i_face_numbering mesh;
                 b_face_numbering := b_face_numbering mesh |}
     end) in H.
  destruct new_to_old_b as [n2o|].
  - do 3 inv_ok H. destruct a1 as [idx lst]. do 2 inv_ok H. inv_ok H.
    simpl. repeat split; reflexivity.
  - inv_ok H. repeat split; reflexivity.
Qed.

Lemma multipass_status (fuel : nat) (mesh : cs_mesh_t) (n_i_threads min : Z)
      (r : Z * option renum_out) :
  _renum_face_multipass fuel mesh n_i_threads min = Ok r ->
  (r.1 < 0 <-> n_i_faces mesh <= min).
Proof.
  unfold _renum_face_multipass. intros H.
  destruct (Z.leb_spec (n_i_faces mesh) min).
  - inv_ok H. simpl. lia.
  - do 3 inv_ok H. destruct a1 as [ng fti]. do 3 inv_ok H.
    destruct a3 as [n2o gi]. inv_ok H. simpl. lia.
Qed.

Lemma multipass_infeasible (fuel : nat) (mesh : cs_mesh_t) (n_i_threads min : Z) :
  n_i_faces mesh <= min ->
  _renum_face_multipass fuel mesh n_i_threads min = Ok (-1, None).
Proof.
  intros H. unfold _renum_face_multipass.
  destruct (Z.leb_spec (n_i_faces mesh) min); [reflexivity | lia].
Qed.

(** C3: [_renum_face_multipass] returns a negative status exactly when the
    interior face count is at or below the minimum subset size; it then
    returns at once without writing any output, and [_renumber_for_threads]
    falls back to one group and one thread for interior faces: no interior
    face numbering is created and the interior face arrays are left as they
    were (the identity permutation is not even applied). *)
Theorem multipass_infeasible_fallback
    (fuel : nat) (cfg : config) (mesh : cs_mesh_t) :
  _i_faces_algorithm cfg = CS_RENUMBER_I_FACES_MULTIPASS ->
  let n_i_threads := _cs_renumber_n_threads cfg in
  let min := _min_i_subset_size cfg in
  (forall r, _renum_face_multipass fuel mesh n_i_threads min = Ok r ->
             (r.1 < 0 <-> n_i_faces mesh <= min))
  /\ (n_i_faces mesh <= min ->
      _renum_face_multipass fuel mesh n_i_threads min = Ok (-1, None)
      /\ plan_n_groups (plan_of n_i_threads (-1, None)) = 1
      /\ plan_n_threads (plan_of n_i_threads (-1, None)) = 1
      /\ plan_new_to_old (plan_of n_i_threads (-1, None)) = None
      /\ forall mesh',
          _renumber_for_threads fuel cfg mesh = Ok mesh' ->
          i_face_numbering mesh' = i_face_numbering mesh
          /\ i_face_cells mesh' = i_face_cells mesh
          /\ i_face_vtx_idx mesh' = i_face_vtx_idx mesh
          /\ i_face_vtx_lst mesh' = i_face_vtx_lst mesh
          /\ i_face_family mesh' = i_face_family mesh
          /\ global_i_face_num mesh' = global_i_face_num mesh).
Proof.
  intros Halg n_i_threads min. split.
  { intros r. apply multipass_status. }
  intros Hle.
  split; [apply multipass_infeasible; exact Hle|].
  do 3 (split; [reflexivity|]).
  intros mesh'. unfold _renumber_for_threads.
  destruct (Z.ltb_spec (_cs_renumber_n_threads cfg) 2).
  { intros H'. inv_ok H'. repeat split; reflexivity. }
  intros H'. do 4 inv_ok H'.
  unfold renum_i_faces in Ha2. rewrite Halg in Ha2.
  rewrite (multipass_infeasible fuel mesh _ _ Hle) in Ha2. inv_ok Ha2.
  inv_ok H'. destruct a2 as [retval out]. inv_ok H'.
  unfold _cs_renumber_update_cells in H'. simpl in H'. inv_ok H'.
  change (plan_new_to_old (plan_of (_cs_renumber_n_threads cfg) (-1, None)))
    with (@None (list Z)) in Ha3.
  rewrite orb_false_l in Ha3.
  match type of Ha3 with
  | (if ?b then _ else _) = _ => destruct b
  end.
  - apply update_faces_no_interior in Ha3. simpl in Ha3.
    destruct Ha3 as (? & ? & ? & ? & ? & ?). repeat split; assumption.
  - inv_ok Ha3. simpl. repeat split; reflexivity.
Qed.

Lemma multipass_infeasible_fallback_witness :
  exists mesh',
    _renumber_for_threads 0 (default_config 4) chain6_mesh = Ok mesh'
    /\ _renum_face_multipass 0 chain6_mesh 4 64 = Ok (-1, None)
    /\ i_face_numbering mesh' = None
    /\ i_face_cells mesh' = i_face_cells chain6_mesh.
Proof.
  destruct (multipass_infeasible_fallback 0 (default_config 4) chain6_mesh)
    as [_ H]; [reflexivity|].
  destruct H as (Hret & _ & _ & _ & Hcaller); [vm_compute; discriminate|].
  eexists. split; [vm_compute; reflexivity|].
  split; [exact Hret|].
  destruct (Hcaller _ ltac:(vm_compute; reflexivity)) as (Hn & Hc & _).
  split; [exact Hn | exact Hc].
Defined.

(** ** Number of threads active for a group *)

(** When the remaining face count is not a multiple of the minimum subset
    size, every active thread can receive the minimum subset size. *)
Lemma active_threads_enough_work (n_i_threads fls min n : Z) :
  0 < min -> 0 <= fls ->
  Z.rem fls min <> 0 ->
  fls / min < n_i_threads ->
  active_threads n_i_threads fls min = Ok n ->
  n * min <= fls.
Proof.
  intros Hmin Hfls Hrem Hq. unfold active_threads, c_div, c_mod.
  destruct (Z.eqb_spec min 0); [lia|]. simpl.
  rewrite Z.quot_div_nonneg by lia.
  destruct (Z.ltb_spec (fls / min) n_i_threads); [|lia]. simpl.
  destruct (Z.eqb_spec (Z.rem fls min) 0); [contradiction|].
  intros Heq. inversion Heq. subst.
  rewrite Z.mul_comm. apply Z.mul_div_le. lia.
Qed.

(** When it is a multiple, one thread too many is kept. *)
Lemma active_threads_multiple (n_i_threads q min : Z) :
  0 < min -> 0 <= q -> q < n_i_threads ->
  active_threads n_i_threads (q * min) min = Ok (q + 1).
Proof.
  intros Hmin Hq Hlt. unfold active_threads, c_div, c_mod.
  destruct (Z.eqb_spec min 0); [lia|]. simpl.
  rewrite Z.quot_mul by lia.
  destruct (Z.ltb_spec q n_i_threads); [|lia]. simpl.
  rewrite Z.rem_mul by lia. reflexivity.
Qed.

(** C9 (the code departs from the specification): with 128 remaining faces, a
    minimum subset size of 64 and 4 configured threads, the quotient 2 is
    below the thread count, yet the pass keeps 3 active threads, and
    3 * 64 exceeds the 128 remaining faces. *)
Theorem active_threads_too_many :
  128 / 64 < 4
  /\ active_threads 4 128 64 = Ok 3
  /\ ~ (3 * 64 <= 128).
Proof.
  split; [vm_compute; reflexivity|].
  split; [reflexivity | lia].
Qed.

(** ** Termination of the pass loop *)

(** State of the pass loop on [triangle_mesh] with 3 threads, from the end
    of the first pass on: only the group counter changes. *)
Definition triangle_state (g_id : Z) : multipass_state :=
  {| mp_g_id := g_id;
     mp_n_f_cells := 3;
     mp_faces_list_size := 3;
     mp_faces_list := [0; 1; 2];
     mp_l_face_cells := [(0, 1); (0, 2); (1, 2)];
     mp_arrays := {| f_t_id := [-1; -1; -1];
                     n_t_faces := [0; 0; 0];
                     t_face_last := [3; 3; 3] |};
     mp_t_cell_index := [0; 1; 2; 3] |}.

Lemma triangle_first_pass :
  (s ← multipass_init triangle_mesh 3; multipass_pass 3 1 (1 # 2) s)
  = Ok (triangle_state 1).
Proof. vm_compute. reflexivity. Qed.

Lemma triangle_next_pass (g_id : Z) :
  multipass_pass 3 1 (1 # 2) (triangle_state g_id)
  = Ok (triangle_state (g_id + 1)).
Proof. reflexivity. Qed.

Lemma triangle_passes_diverge (fuel : nat) (g_id : Z) :
  multipass_passes fuel 3 1 (1 # 2) (triangle_state g_id) = OutOfFuel.
Proof.
  revert g_id. induction fuel as [|fuel IH]; intros g_id.
  - reflexivity.
  - unfold multipass_passes.
    rewrite (while_loop_step _ _ _ _ (triangle_state (g_id + 1)));
      [apply IH | reflexivity | apply triangle_next_pass].
Qed.

(** C8 (the code departs from the specification): on the triangle mesh (3 cells,
    3 interior faces) with 3 threads and a minimum subset size of 1, every
    pass leaves the three faces unassigned: the remaining face count stays
    at 3 and the pass loop never ends, whatever the fuel. *)
Theorem multipass_triangle_diverges (fuel : nat) :
  1 < n_i_faces triangle_mesh
  /\ (forall g_id,
         multipass_pass 3 1 (1 # 2) (triangle_state g_id)
         = Ok (triangle_state (g_id + 1)))
  /\ _renum_face_multipass fuel triangle_mesh 3 1 = OutOfFuel.
Proof.
  split; [reflexivity|]. split; [exact triangle_next_pass|].
  unfold _renum_face_multipass.
  change (n_i_faces triangle_mesh <=? 1) with false. cbv iota.
  pose proof triangle_first_pass as H1.
  destruct (multipass_init triangle_mesh 3) as [s0| |] eqn:E0;
    try discriminate H1.
  assert (mp_faces_list_size s0 = 3) as Hs.
  { vm_compute in E0. inversion E0. reflexivity. }
  change (Ok s0 ≫= multipass_pass 3 1 (1 # 2)) with
    (multipass_pass 3 1 (1 # 2) s0) in H1.
  assert (multipass_passes fuel 3 1 (1 # 2) s0 = OutOfFuel) as Hdiv.
  { unfold multipass_passes. destruct fuel as [|fuel].
    - apply while_loop_no_fuel. rewrite Hs. reflexivity.
    - rewrite (while_loop_step _ _ _ _ (triangle_state 1));
        [apply triangle_passes_diverge | rewrite Hs; reflexivity | exact H1]. }
  change (Ok s0 ≫= ?f) with (f s0). cbv beta.
  rewrite Hdiv. reflexivity.
Qed.

(** ** Redistribution *)

(** With fewer than two active threads the redistribution changes nothing. *)
Lemma redistribute_single_thread
      (n_i_threads n_g_i_threads g_id : Z) (relax : Q) (faces_list_size : Z)
      (faces_list : list Z) (l_face_cells : list (Z * Z)) (a : pass_arrays)
      (t_cell_index : list Z) :
  n_g_i_threads < 2 ->
  _renum_face_multipass_redistribute n_i_threads n_g_i_threads g_id relax
    faces_list_size faces_list l_face_cells a t_cell_index
  = Ok (a, t_cell_index).
Proof.
  intros H. unfold _renum_face_multipass_redistribute.
  destruct (Z.ltb_spec n_g_i_threads 2); [reflexivity | lia].
Qed.

(** First pass on [star_mesh] with 2 threads: the arrays after the initial
    assignment (as passed to the redistribution) and after it. *)
Definition star_faces_list : list Z := [0; 1; 2; 3; 4; 5; 6].

Definition star_l_face_cells : list (Z * Z) :=
  [(0, 1); (0, 2); (0, 3); (0, 4); (0, 5); (0, 6); (0, 7)].

Definition star_entry : pass_arrays :=
  {| f_t_id := [0; 0; 0; -1; -1; -1; -1];
     n_t_faces := [3; 0];
     t_face_last := [2; 7] |}.

Definition star_exit : pass_arrays :=
  {| f_t_id := [-1; -1; -1; -1; -1; -1; -1];
     n_t_faces := [0; 0];
     t_face_last := [7; 7] |}.

(** C4 (the code departs from the specification): first pass of the multipass
    algorithm on the star mesh (cell 0 adjacent to 7 cells) with 2 threads.
    The initial assignment gives 3 faces to thread 0 and none to thread 1
    (imbalance 3/1.5 - 1 = 1).  The redistribution moves the boundary from
    cell 4 to cell 1, after which no face at all is assigned; the imbalance
    of that assignment is 0/0 - 1 = NaN, the test [unbalance[1] >
    unbalance[0]] is false, and the boundaries are not reverted. *)
Theorem redistribute_star_degrades :
  (s ← multipass_init star_mesh 2;
   tci ← initial_cell_index 2 4 8 (mp_t_cell_index s);
   a ← _renum_face_multipass_assign 2 2 0 7 (mp_faces_list s)
         (mp_l_face_cells s) (mp_arrays s) tci;
   mret (mp_faces_list s, mp_l_face_cells s, a, tci))
  = Ok (star_faces_list, star_l_face_cells, star_entry, [0; 4; 8])
  /\ _renum_face_multipass_g_unbalance 2 (n_t_faces star_entry)
     = Ok (DFin (3 # 3))
  /\ (3 # 3 == 1)%Q
  /\ _renum_face_multipass_redistribute 2 2 0 (1 # 2) 7 star_faces_list
       star_l_face_cells star_entry [0; 4; 8]
     = Ok (star_exit, [0; 1; 8])
  /\ _renum_face_multipass_g_unbalance 2 (n_t_faces star_exit) = Ok DNaN.
Proof.
  repeat split; vm_compute; reflexivity.
Qed.

(** ** The lexical sorter *)

Lemma lex_leb_total (a b : list Z) : lex_leb a b = true \/ lex_leb b a = true.
Proof.
  revert b. induction a as [|x a IH]; intros [|y b]; simpl; auto.
  destruct (Z.ltb_spec x y), (Z.ltb_spec y x); simpl; auto; try lia.
  assert (x = y) as -> by lia. rewrite Z.eqb_refl. simpl. apply IH.
Qed.

Lemma lex_leb_trans (a b c : list Z) :
  lex_leb a b = true -> lex_leb b c = true -> lex_leb a c = true.
Proof.
  revert b c. induction a as [|x a IH]; intros [|y b] [|z c]; simpl; auto;
    try discriminate.
  intros H1 H2.
  apply orb_true_iff in H1. apply orb_true_iff in H2. apply orb_true_iff.
  destruct H1 as [H1|H1], H2 as [H2|H2].
  - left. apply Z.ltb_lt in H1, H2. apply Z.ltb_lt. lia.
  - apply andb_true_iff in H2. destruct H2 as [H2 _].
    apply Z.eqb_eq in H2. subst. auto.
  - apply andb_true_iff in H1. destruct H1 as [H1 _].
    apply Z.eqb_eq in H1. subst. auto.
  - apply andb_true_iff in H1. destruct H1 as [H1 H1'].
    apply andb_true_iff in H2. destruct H2 as [H2 H2'].
    apply Z.eqb_eq in H1, H2. subst. right. rewrite Z.eqb_refl. simpl.
    eapply IH; eassumption.
Qed.

#[global] Instance key_le_total : Total key_le.
Proof. intros x y. apply lex_leb_total. Qed.

#[global] Instance key_le_trans : Transitive key_le.
Proof. intros x y z. apply lex_leb_trans. Qed.

(** The keys paired with their indices, in the order chosen by the sorter. *)
Definition sorted_keys (number : list (list Z)) : list (list Z * Z) :=
  merge_sort key_le (zip number (seqZ 0 (Z.of_nat (length number)))).

Lemma sorted_keys_Permutation (number : list (list Z)) :
  sorted_keys number ≡ₚ zip number (seqZ 0 (Z.of_nat (length number))).
Proof. apply merge_sort_Permutation. Qed.

Lemma sorted_keys_StronglySorted (number : list (list Z)) :
  StronglySorted key_le (sorted_keys number).
Proof. apply StronglySorted_merge_sort; apply _. Qed.

(** The sorter returns a permutation of [0..n). *)
Lemma cs_order_Permutation (number : list (list Z)) :
  cs_order_lnum_allocated_s number ≡ₚ seqZ 0 (Z.of_nat (length number)).
Proof.
  unfold cs_order_lnum_allocated_s.
  fold (sorted_keys number). rewrite sorted_keys_Permutation.
  rewrite snd_zip; [reflexivity|].
  rewrite length_seqZ. lia.
Qed.

Lemma cs_order_length (number : list (list Z)) :
  length (cs_order_lnum_allocated_s number) = length number.
Proof.
  rewrite (Permutation_length (cs_order_Permutation number)).
  rewrite length_seqZ. lia.
Qed.

(** Every entry of the sorted list is a key paired with its own index. *)
Lemma sorted_keys_lookup (number : list (list Z)) (i : nat) (k : list Z) (f : Z) :
  sorted_keys number !! i = Some (k, f) ->
  0 <= f < Z.of_nat (length number) /\ number !! Z.to_nat f = Some k.
Proof.
  intros H.
  assert ((k, f) ∈ zip number (seqZ 0 (Z.of_nat (length number)))) as Hin.
  { rewrite <- sorted_keys_Permutation. eapply list_elem_of_lookup_2. exact H. }
  apply list_elem_of_lookup_1 in Hin. destruct Hin as [j Hj].
  apply lookup_zip_with_Some in Hj.
  destruct Hj as (k' & f' & Heq & Hk & Hf). inversion Heq. subst k' f'.
  apply lookup_seqZ in Hf. destruct Hf as [-> Hlt].
  split; [lia|]. rewrite Z.add_0_l, Nat2Z.id. exact Hk.
Qed.

Lemma StronglySorted_lookup_lt {A} (R : relation A) (l : list A) (i j : nat)
      (x y : A) :
  StronglySorted R l -> l !! i = Some x -> l !! j = Some y -> (i < j)%nat ->
  R x y.
Proof.
  intros Hs. revert i j. induction Hs as [|a l Hs IH Hall]; intros i j Hi Hj Hlt.
  - discriminate.
  - destruct j as [|j]; [lia|]. simpl in Hj. destruct i as [|i].
    + simpl in Hi. inversion Hi. subst a.
      rewrite Forall_forall in Hall. apply Hall.
      eapply list_elem_of_lookup_2. exact Hj.
    + simpl in Hi. apply (IH i j Hi Hj). lia.
Qed.

(** The keys are non-decreasing along the order returned by the sorter. *)
Lemma cs_order_sorted (number : list (list Z)) (i j : nat) (fi fj : Z)
      (ki kj : list Z) :
  (i <= j)%nat ->
  cs_order_lnum_allocated_s number !! i = Some fi ->
  cs_order_lnum_allocated_s number !! j = Some fj ->
  number !! Z.to_nat fi = Some ki ->
  number !! Z.to_nat fj = Some kj ->
  lex_leb ki kj = true.
Proof.
  intros Hij Hi Hj Hki Hkj.
  unfold cs_order_lnum_allocated_s in Hi, Hj. fold (sorted_keys number) in Hi, Hj.
  rewrite list_lookup_fmap in Hi, Hj.
  destruct (sorted_keys number !! i) as [[ki' fi']|] eqn:Ei; [|discriminate].
  destruct (sorted_keys number !! j) as [[kj' fj']|] eqn:Ej; [|discriminate].
  simpl in Hi, Hj. inversion Hi. inversion Hj. subst fi' fj'.
  destruct (sorted_keys_lookup _ _ _ _ Ei) as [_ Hi'].
  destruct (sorted_keys_lookup _ _ _ _ Ej) as [_ Hj'].
  assert (ki' = ki) as -> by congruence.
  assert (kj' = kj) as -> by congruence.
  destruct (decide (i = j)) as [->|Hne].
  - assert (ki = kj) as -> by congruence.
    destruct (lex_leb_total kj kj); assumption.
  - pose proof (sorted_keys_StronglySorted number) as Hs.
    apply (StronglySorted_lookup_lt key_le _ i j _ _ Hs Ei Ej). lia.
Qed.

(** ** More loop rules *)

(** Total correctness rule for [while] loops: an invariant [P] and a variant
    [m] bounded by the fuel. *)
Lemma while_loop_inv {S} (P : S -> Prop) (m : S -> nat) (fuel : nat)
      (cond : S -> res bool) (body : S -> res S) (s : S) :
  P s -> (m s <= fuel)%nat ->
  (forall s, P s ->
     exists b, cond s = Ok b /\
       (b = true -> exists s', body s = Ok s' /\ P s' /\ (m s' < m s)%nat)) ->
  exists s', while_loop fuel cond body s = Ok s' /\ P s' /\ cond s' = Ok false.
Proof.
  intros HP Hm Hstep. revert s HP Hm.
  induction fuel as [|fuel IH]; intros s HP Hm.
  - destruct (Hstep s HP) as [b [Hc Hb]]. destruct b.
    + destruct (Hb eq_refl) as [s' [_ [_ Hlt]]]. lia.
    + exists s. split; [apply while_loop_exit; exact Hc | auto].
  - destruct (Hstep s HP) as [b [Hc Hb]]. destruct b.
    + destruct (Hb eq_refl) as [s' [Hbody [HP' Hlt]]].
      destruct (IH s' HP') as [s'' [Hw H'']]; [lia|].
      exists s''. split; [|exact H''].
      rewrite (while_loop_step _ _ _ _ s' Hc Hbody). exact Hw.
    + exists s. split; [apply while_loop_exit; exact Hc | auto].
Qed.

(** Copy loop: [for (ii = 0; ii < n; ii++) dst[ii] = src[ii];] *)
Lemma copy_loop (n : Z) (src dst : list Z) :
  0 <= n -> n <= Z.of_nat (length src) -> n <= Z.of_nat (length dst) ->
  for_loop 0 n (fun ii a => o ← rd src ii; wr a ii o) dst
  = Ok (take (Z.to_nat n) src ++ drop (Z.to_nat n) dst).
Proof.
  intros Hn Hsrc Hdst.
  destruct (for_loop_inv
              (fun j a => a = take (Z.to_nat j) src ++ drop (Z.to_nat j) dst)
              0 n (fun ii a => o ← rd src ii; wr a ii o) dst Hn)
    as [a [Hl Ha]].
  - simpl. rewrite drop_0. reflexivity.
  - intros j a Hj ->.
    destruct (rd_in_range src j) as [o Ho]; [lia|].
    rewrite Ho. simpl.
    eexists. split.
    + apply wr_in_range. rewrite length_app, length_take, length_drop. lia.
    + apply rd_Ok in Ho. destruct Ho as [_ Ho].
      replace (Z.to_nat (j + 1)) with (Datatypes.S (Z.to_nat j)) by lia.
      rewrite (take_S_r _ _ _ Ho).
      rewrite insert_app_r_alt by (rewrite length_take; lia).
      rewrite length_take.
      replace (Z.to_nat j - Z.to_nat j `min` length src)%nat with O by lia.
      destruct (drop (Z.to_nat j) dst) as [|d l] eqn:Ed.
      { apply (f_equal length) in Ed. rewrite length_drop in Ed. simpl in Ed. lia. }
      simpl. rewrite <- app_assoc. simpl. f_equal. f_equal.
      change l with (drop 1 (d :: l)). rewrite <- Ed. rewrite drop_drop.
      f_equal. lia.
  - rewrite Hl, Ha. reflexivity.
Qed.

(** ** Boundary face partitioner *)

(** Cell of the boundary face at position [i] of the new numbering. *)
Definition new_cell (b_face_cells new_to_old_b : list Z) (i : Z) : res Z :=
  f ← rd new_to_old_b i; rd b_face_cells f.

Section BoundaryPartition.

Variables (bfc n2o : list Z) (n : Z).

(** Every position of the new numbering has a cell. *)
Hypothesis new_cell_defined :
  forall i, 0 <= i < n -> exists c, new_cell bfc n2o i = Ok c.

(** A thread boundary at [e] does not separate two faces of a cell. *)
Definition clean_boundary (e : Z) : Prop :=
  forall c, new_cell bfc n2o (e - 1) = Ok c -> new_cell bfc n2o e <> Ok c.

Lemma push_end_spec (c_id end0 f0 : Z) :
  0 <= end0 < n -> rd n2o end0 = Ok f0 ->
  exists e, push_end n bfc n2o c_id end0 f0 = Ok e
            /\ end0 <= e <= n
            /\ (forall k, end0 <= k < e -> new_cell bfc n2o k = Ok c_id)
            /\ (e < n -> new_cell bfc n2o e <> Ok c_id).
Proof using All.
  intros Hend Hf0. unfold push_end.
  set (P := fun st : Z * Z * bool =>
              let '(e, f, stop) := st in
              end0 <= e <= n
              /\ (forall k, end0 <= k < e -> new_cell bfc n2o k = Ok c_id)
              /\ (stop = false -> e < n /\ rd n2o e = Ok f)
              /\ (stop = true -> e = n)).
  set (m := fun st : Z * Z * bool => let '(e, _, _) := st in Z.to_nat (n - e)).
  match goal with
  | |- exists e, (while_loop ?fuel ?cond ?body ?s ≫= _) = _ /\ _ =>
      destruct (while_loop_inv P m fuel cond body s) as [[[e f] stop] [Hw [HP Hc]]]
  end.
  - unfold P. repeat split; try lia; try assumption; try discriminate;
      intros; lia.
  - unfold m. lia.
  - intros [[e f] stop] (Hr & Hall & Hgo & Hstop).
    destruct stop.
    + exists false. split; [reflexivity | discriminate].
    + destruct (Hgo eq_refl) as [Hlt Hrd].
      destruct (new_cell_defined e) as [c Hc]; [lia|].
      unfold new_cell in Hc. rewrite Hrd in Hc. simpl in Hc.
      exists (c =? c_id). split; [rewrite Hc; reflexivity|].
      intros Heq. apply Z.eqb_eq in Heq. subst c.
      assert (forall k, end0 <= k < e + 1 -> new_cell bfc n2o k = Ok c_id) as Hall'.
      { intros k Hk. destruct (decide (k = e)) as [->|Hne].
        - unfold new_cell. rewrite Hrd. exact Hc.
        - apply Hall. lia. }
      destruct (Z.ltb_spec (e + 1) n) as [Hlt'|Hge].
      * destruct (new_cell_defined (e + 1)) as [c' Hc']; [lia|].
        unfold new_cell in Hc'. apply bind_Ok in Hc'. destruct Hc' as [f' [Hf' _]].
        exists (e + 1, f', false). rewrite Hf'. simpl.
        split; [reflexivity|]. split; [|unfold m; lia].
        unfold P. repeat split; try lia; try assumption; try discriminate.
      * exists (e + 1, f, true). split; [reflexivity|].
        split; [|unfold m; lia].
        unfold P. repeat split; try lia; try assumption; try discriminate.
  - rewrite Hw. simpl. exists e. split; [reflexivity|].
    destruct HP as (Hr & Hall & Hgo & Hstop).
    split; [exact Hr|]. split; [exact Hall|].
    intros Hlt. destruct stop.
    + specialize (Hstop eq_refl). lia.
    + destruct (Hgo eq_refl) as [_ Hrd].
      unfold new_cell. rewrite Hrd. simpl.
      destruct (rd bfc f) as [c| |]; try discriminate. simpl in Hc.
      inversion Hc as [Hc']. apply Z.eqb_neq in Hc'. congruence.
Qed.

Lemma b_thread_end_spec (subset_size t_id start_id : Z) :
  0 <= start_id <= n ->
  exists e, b_thread_end n subset_size bfc n2o t_id start_id = Ok e
            /\ start_id <= e <= n
            /\ (e = n \/ (t_id + 1) * subset_size <= e)
            /\ (0 < e < n -> clean_boundary e)
            /\ (0 < (t_id + 1) * subset_size < n ->
                start_id <= (t_id + 1) * subset_size ->
                forall c, new_cell bfc n2o ((t_id + 1) * subset_size - 1) = Ok c ->
                  (forall k, (t_id + 1) * subset_size <= k < e ->
                             new_cell bfc n2o k = Ok c)
                  /\ (e < n -> new_cell bfc n2o e <> Ok c)).
Proof using All.
  intros Hs. unfold b_thread_end.
  set (e0 := (t_id + 1) * subset_size).
  set (e1 := if e0 <? start_id then start_id else e0).
  assert (start_id <= e1 /\ e0 <= e1 /\ (start_id <= e0 -> e1 = e0)) as (He1 & He0 & He10).
  { unfold e1. destruct (Z.ltb_spec e0 start_id); lia. }
  destruct (Z.ltb_spec n e1) as [Hgt|Hle].
  { exists n. split; [reflexivity|]. repeat split; try lia. }
  destruct (Z.ltb_spec 0 e1) as [Hpos|Hnpos]; simpl.
  2: { exists e1. split; [reflexivity|]. repeat split; try lia. }
  destruct (Z.ltb_spec e1 n) as [Hlt|Hge]; simpl.
  2: { exists e1. split; [reflexivity|]. repeat split; try lia. }
  destruct (new_cell_defined (e1 - 1)) as [c_id Hc]; [lia|].
  destruct (new_cell_defined e1) as [c1 Hc1]; [lia|].
  pose proof Hc as Hc'. unfold new_cell in Hc'. apply bind_Ok in Hc'.
  destruct Hc' as [f [Hf Hcf]].
  unfold new_cell in Hc1. apply bind_Ok in Hc1. destruct Hc1 as [f1 [Hf1 _]].
  rewrite Hf. simpl. rewrite Hcf. simpl. rewrite Hf1. simpl.
  destruct (push_end_spec c_id e1 f1) as [e (Hp & Hr & Hall & Hne)];
    [lia | exact Hf1 |].
  exists e. split; [exact Hp|]. split; [lia|]. split; [right; lia|].
  assert (new_cell bfc n2o (e - 1) = Ok c_id) as Hprev.
  { destruct (decide (e = e1)) as [->|Hd]; [exact Hc | apply Hall; lia]. }
  split.
  - intros He c Hc2. rewrite Hprev in Hc2. inversion Hc2. subst c.
    apply Hne. lia.
  - intros H0 Hst c Hc2. rewrite He10 in * by lia.
    rewrite Hc in Hc2. inversion Hc2. subst c. auto.
Qed.

End BoundaryPartition.

Lemma rd_wr_same {A} (a a' : list A) (i : Z) (v : A) :
  wr a i v = Ok a' -> rd a' i = Ok v.
Proof.
  intros H. apply wr_Ok in H. destruct H as [Hi ->].
  apply rd_Ok. split; [lia|]. apply list_lookup_insert_eq. lia.
Qed.

Lemma rd_wr_other {A} (a a' : list A) (i j : Z) (v : A) :
  wr a i v = Ok a' -> i <> j -> rd a' j = rd a j.
Proof.
  intros H Hne. apply wr_Ok in H. destruct H as [Hi ->].
  unfold rd. destruct (Z.ltb_spec j 0); [reflexivity|].
  rewrite list_lookup_insert_ne by lia. reflexivity.
Qed.

Lemma wr_length {A} (a a' : list A) (i : Z) (v : A) :
  wr a i v = Ok a' -> length a' = length a.
Proof.
  intros H. apply wr_Ok in H. destruct H as [_ ->]. apply length_insert.
Qed.

Lemma BFT_MALLOC_length (n : Z) : 0 <= n -> Z.of_nat (length (BFT_MALLOC n)) = n.
Proof. intros H. unfold BFT_MALLOC. rewrite length_replicate. lia. Qed.

Section BoundaryIndex.

Variables (bfc n2o : list Z) (n n_b_threads subset_size : Z).

Hypothesis n_nonneg : 0 <= n.
Hypothesis threads_nonneg : 0 <= n_b_threads.
Hypothesis new_cell_defined :
  forall i, 0 <= i < n -> exists c, new_cell bfc n2o i = Ok c.

(** The bounds [bs] of the thread ranges and the index [gi] built from
    them, after [t] threads. *)
Definition index_upto (t : Z) (bs gi : list Z) : Prop :=
  Z.of_nat (length bs) = t + 1
  /\ bs !! O = Some 0
  /\ Z.of_nat (length gi) = n_b_threads * 2
  /\ (forall k e, bs !! k = Some e ->
                  0 <= e <= n /\ (0 < e < n -> clean_boundary bfc n2o e))
  /\ (forall k, 0 <= k < t ->
        exists s e, bs !! Z.to_nat k = Some s
                    /\ bs !! Z.to_nat (k + 1) = Some e
                    /\ s <= e
                    /\ (e = n \/ (k + 1) * subset_size <= e)
                    /\ rd gi (k * 2) = Ok s
                    /\ rd gi (k * 2 + 1) = Ok e)
  /\ (0 < t -> 0 < subset_size < n ->
      exists e, bs !! 1%nat = Some e /\
        forall c, new_cell bfc n2o (subset_size - 1) = Ok c ->
                  (forall k, subset_size <= k < e -> new_cell bfc n2o k = Ok c)
                  /\ (e < n -> new_cell bfc n2o e <> Ok c)).

Lemma b_index_loop :
  exists end_id gi bs,
    for_loop 0 n_b_threads
      (fun t_id '(end_id, gi) =>
         let start_id := end_id in
         end_id ← b_thread_end n subset_size bfc n2o t_id start_id;
         gi ← wr gi (t_id * 2) start_id;
         gi ← wr gi (t_id * 2 + 1) end_id;
         mret (end_id, gi))
      (0, BFT_MALLOC (n_b_threads * 2))
    = Ok (end_id, gi)
    /\ bs !! Z.to_nat n_b_threads = Some end_id
    /\ index_upto n_b_threads bs gi.
Proof using All.
  match goal with
  | |- exists end_id gi bs, for_loop 0 _ ?body ?s = _ /\ _ =>
      destruct (for_loop_inv
                  (fun t (st : Z * list Z) =>
                     exists bs, bs !! Z.to_nat t = Some st.1
                                /\ index_upto t bs st.2)
                  0 n_b_threads body s threads_nonneg)
        as [[end_id gi] [Hl [bs [Hlast Hinv]]]]
  end.
  - exists [0]. split; [reflexivity|]. unfold index_upto. simpl.
    split; [reflexivity|]. split; [reflexivity|].
    split; [apply BFT_MALLOC_length; lia|].
    split.
    { intros [|k] e Hk; [|discriminate]. simpl in Hk. inversion Hk. subst. lia. }
    split; [intros k Hk; lia | intros Ht; lia].
  - intros t [end_id gi] Ht [bs [Hlast (Hlen & H0 & Hgi & Hb & Hk & Hsc)]].
    simpl in Hlast, Hgi, Hk.
    destruct (Hb _ _ Hlast) as [Hend _].
    destruct (b_thread_end_spec bfc n2o n new_cell_defined subset_size t end_id Hend)
      as [e (He & Hr & Hge & Hclean & Hscen)].
    cbv beta iota zeta. rewrite He. simpl.
    assert (0 <= t * 2 < Z.of_nat (length gi)) as Hi0 by lia.
    rewrite (wr_in_range gi _ end_id Hi0). simpl.
    assert (0 <= t * 2 + 1 < Z.of_nat (length (<[Z.to_nat (t * 2) := end_id]> gi)))
      as Hi1 by (rewrite length_insert; lia).
    rewrite (wr_in_range _ _ e Hi1). simpl.
    eexists. split; [reflexivity|].
    exists (bs ++ [e]). simpl.
    assert (length bs = Z.to_nat (t + 1)) as Hlen' by lia.
    split.
    { rewrite lookup_app_r by lia. rewrite Hlen'.
      replace (Z.to_nat (t + 1) - Z.to_nat (t + 1))%nat with O by lia. reflexivity. }
    unfold index_upto.
    split; [rewrite length_app; simpl; lia|].
    split; [rewrite lookup_app_l by lia; exact H0|].
    split; [rewrite !length_insert; exact Hgi|].
    split.
    { intros k e' Hk'. apply lookup_app_Some in Hk'.
      destruct Hk' as [Hk'|[_ Hk']]; [exact (Hb _ _ Hk')|].
      apply list_lookup_singleton_Some in Hk'. destruct Hk' as [_ <-].
      split; [lia | exact Hclean]. }
    split.
    { intros k Hk'.
      destruct (decide (k = t)) as [->|Hne].
      - exists end_id, e.
        split; [rewrite lookup_app_l by lia; exact Hlast|].
        split.
        { rewrite lookup_app_r by lia. rewrite Hlen'.
          replace (Z.to_nat (t + 1) - Z.to_nat (t + 1))%nat with O by lia.
          reflexivity. }
        split; [lia|]. split; [exact Hge|].
        split.
        + apply rd_Ok. split; [lia|].
          rewrite list_lookup_insert_ne by lia.
          apply list_lookup_insert_eq. lia.
        + apply rd_Ok. split; [lia|].
          apply list_lookup_insert_eq. rewrite length_insert. lia.
      - destruct (Hk k) as (s & e' & Hs & He' & Hse & Hge' & Hrs & Hre); [lia|].
        exists s, e'.
        split; [rewrite lookup_app_l by lia; exact Hs|].
        split; [rewrite lookup_app_l by lia; exact He'|].
        split; [exact Hse|]. split; [exact Hge'|].
        apply rd_Ok in Hrs, Hre. destruct Hrs as [_ Hrs], Hre as [_ Hre].
        split; apply rd_Ok; (split; [lia|]);
          rewrite !list_lookup_insert_ne by lia; assumption. }
    intros Ht' Hss.
    destruct (decide (t = 0)) as [->|Hne].
    + exists e. split.
      { rewrite lookup_app_r by lia. rewrite Hlen'. reflexivity. }
      assert (end_id = 0) as ->.
      { change (Z.to_nat 0) with O in Hlast. congruence. }
      replace ((0 + 1) * subset_size) with subset_size in Hscen by lia.
      apply Hscen; lia.
    + destruct Hsc as [e1 [He1 Hsc]]; [lia | exact Hss |].
      exists e1. split; [rewrite lookup_app_l by lia; exact He1 | exact Hsc].
  - exists end_id, gi, bs. auto.
Qed.

End BoundaryIndex.

(** Sort keys of the boundary faces: owning cell, then face id. *)
Definition b_face_keys (bfc : list Z) : list (list Z) :=
  zip_with (fun c i => [c; i]) bfc (seqZ 0 (Z.of_nat (length bfc))).

Lemma b_face_keys_length (bfc : list Z) :
  length (b_face_keys bfc) = length bfc.
Proof.
  unfold b_face_keys. rewrite length_zip_with, length_seqZ. lia.
Qed.

Lemma b_face_keys_lookup (bfc : list Z) (i : nat) (c : Z) :
  bfc !! i = Some c -> b_face_keys bfc !! i = Some [c; Z.of_nat i].
Proof.
  intros H. unfold b_face_keys. apply lookup_zip_with_Some.
  exists c, (Z.of_nat i). split; [reflexivity|]. split; [exact H|].
  rewrite lookup_seqZ_lt; [f_equal; lia|].
  apply lookup_lt_Some in H. lia.
Qed.

Lemma b_face_keys_loop (bfc : list Z) (n : Z) :
  Z.of_nat (length bfc) = n ->
  for_loop 0 n
    (fun ii keys => c ← rd bfc ii; mret (keys ++ [[c; ii]])) []
  = Ok (b_face_keys bfc).
Proof.
  intros Hn.
  destruct (for_loop_inv
              (fun j keys =>
                 keys = zip_with (fun c i => [c; i]) (take (Z.to_nat j) bfc)
                          (seqZ 0 j))
              0 n (fun ii keys => c ← rd bfc ii; mret (keys ++ [[c; ii]])) [])
    as [keys [Hl Hk]].
  - lia.
  - reflexivity.
  - intros j keys Hj ->.
    destruct (rd_in_range bfc j) as [c Hc]; [lia|].
    rewrite Hc. simpl. eexists. split; [reflexivity|].
    apply rd_Ok in Hc. destruct Hc as [_ Hc].
    replace (Z.to_nat (j + 1)) with (Datatypes.S (Z.to_nat j)) by lia.
    rewrite (take_S_r _ _ _ Hc).
    replace (j + 1) with (Z.of_nat (Datatypes.S (Z.to_nat j))) by lia.
    rewrite seqZ_S. rewrite zip_with_app.
    + simpl. rewrite Z2Nat.id by lia. reflexivity.
    + rewrite length_take, length_seqZ. lia.
  - rewrite Hl, Hk. unfold b_face_keys.
    rewrite take_ge by lia. rewrite Hn. reflexivity.
Qed.

Section BoundaryOrder.

Variables (bfc : list Z) (n : Z).
Hypothesis bfc_length : Z.of_nat (length bfc) = n.

Let order := cs_order_lnum_allocated_s (b_face_keys bfc).

Lemma b_order_lookup (i : Z) :
  0 <= i < n ->
  exists f c, rd order i = Ok f /\ 0 <= f < n /\ rd bfc f = Ok c.
Proof using All.
  intros Hi.
  destruct (rd_in_range order i) as [f Hf].
  { unfold order. rewrite cs_order_length, b_face_keys_length. lia. }
  assert (f ∈ order) as Hin.
  { apply rd_Ok in Hf. destruct Hf as [_ Hf].
    eapply list_elem_of_lookup_2. exact Hf. }
  unfold order in Hin. rewrite cs_order_Permutation in Hin.
  apply elem_of_seqZ in Hin. rewrite b_face_keys_length in Hin.
  destruct (rd_in_range bfc f) as [c Hc]; [lia|].
  exists f, c. repeat split; try assumption; lia.
Qed.

Lemma b_order_new_cell_defined (i : Z) :
  0 <= i < n -> exists c, new_cell bfc order i = Ok c.
Proof using All.
  intros Hi. destruct (b_order_lookup i Hi) as (f & c & Hf & _ & Hc).
  exists c. unfold new_cell. rewrite Hf. exact Hc.
Qed.

(** The cells are non-decreasing along the new numbering. *)
Lemma b_order_sorted (i j ci cj : Z) :
  i <= j -> new_cell bfc order i = Ok ci -> new_cell bfc order j = Ok cj ->
  ci <= cj.
Proof using All.
  intros Hij Hi Hj. unfold new_cell in Hi, Hj.
  apply bind_Ok in Hi. destruct Hi as [fi [Hfi Hci]].
  apply bind_Ok in Hj. destruct Hj as [fj [Hfj Hcj]].
  apply rd_Ok in Hfi, Hfj, Hci, Hcj.
  destruct Hfi as [Hi0 Hfi], Hfj as [Hj0 Hfj], Hci as [Hfi0 Hci], Hcj as [Hfj0 Hcj].
  assert (lex_leb [ci; Z.of_nat (Z.to_nat fi)] [cj; Z.of_nat (Z.to_nat fj)] = true)
    as Hle.
  { apply (cs_order_sorted (b_face_keys bfc) (Z.to_nat i) (Z.to_nat j) fi fj);
      try assumption; try lia; apply b_face_keys_lookup; assumption. }
  simpl in Hle. apply orb_true_iff in Hle. destruct Hle as [Hle|Hle].
  - apply Z.ltb_lt in Hle. lia.
  - apply andb_true_iff in Hle. destruct Hle as [Hle _].
    apply Z.eqb_eq in Hle. lia.
Qed.

(** A clean boundary cannot fall between two faces of the same cell. *)
Lemma b_order_no_split (e i j c : Z) :
  0 < e < n -> clean_boundary bfc order e ->
  new_cell bfc order i = Ok c -> new_cell bfc order j = Ok c ->
  i < e -> e <= j -> False.
Proof using All.
  intros He Hclean Hi Hj Hie Hej.
  destruct (b_order_new_cell_defined (e - 1)) as [c1 Hc1]; [lia|].
  destruct (b_order_new_cell_defined e) as [c2 Hc2]; [lia|].
  pose proof (b_order_sorted i (e - 1) c c1 ltac:(lia) Hi Hc1).
  pose proof (b_order_sorted (e - 1) e c1 c2 ltac:(lia) Hc1 Hc2).
  pose proof (b_order_sorted e j c2 c ltac:(lia) Hc2 Hj).
  apply (Hclean c1 Hc1). rewrite Hc2. f_equal. lia.
Qed.

End BoundaryOrder.

Lemma b_subset_size_spec (n n_b_threads min_subset_size : Z) :
  0 <= n -> 1 <= n_b_threads ->
  exists ss, b_subset_size n n_b_threads min_subset_size = Ok ss
             /\ n <= n_b_threads * ss
             /\ (n = 10 -> n_b_threads = 3 -> min_subset_size <= 4 -> ss = 4).
Proof.
  intros Hn Ht. unfold b_subset_size, c_div, c_mod.
  destruct (Z.eqb_spec n_b_threads 0); [lia|]. simpl.
  rewrite Z.quot_div_nonneg, Z.rem_mod_nonneg by lia.
  eexists. split; [reflexivity|].
  pose proof (Z.div_mod n n_b_threads ltac:(lia)) as Hdm.
  pose proof (Z.mod_pos_bound n n_b_threads ltac:(lia)) as Hmb.
  split.
  - unfold CS_MAX.
    destruct (Z.ltb_spec 0 (n mod n_b_threads));
      match goal with
      | |- context [?a <? min_subset_size] =>
          destruct (Z.ltb_spec a min_subset_size)
      end; nia.
  - intros -> -> Hmin. change (10 / 3) with 3. change (10 mod 3) with 1.
    simpl. unfold CS_MAX. destruct (Z.ltb_spec (3 + 1) min_subset_size); lia.
Qed.

(** Ten boundary faces; in cell order the 4th and 5th share cell 3
    (scenario C of the specification). *)
Definition scenario_c_mesh : cs_mesh_t :=
  mesh_of_faces 8 [] [0; 1; 2; 3; 3; 4; 5; 6; 7; 7].

(** C5: the boundary face partitioner returns a single group whose thread
    ranges are given by bounds [bs[0] = 0 <= bs[1] <= ... <= bs[n_b_threads]
    = n_b_faces] (range of thread [t]: [[bs[t], bs[t+1])], so the ranges are
    contiguous, in order, pairwise disjoint and cover exactly
    [[0, n_b_faces)]), and two faces of the same cell are never in
    different ranges.  For 10 faces, 3 threads and a minimum subset size of
    at most 4, when the faces at positions 3 and 4 of the new numbering
    share a cell, the range of thread 0 ends at the first later position
    whose face belongs to another cell (at 10 when there is none): the end
    is at least 5, and it is 5 exactly when the face at position 5 belongs
    to another cell. *)
Theorem b_faces_partition
    (mesh : cs_mesh_t) (n_b_threads min_subset_size : Z) (n2o0 : list Z) :
  let n := n_b_faces mesh in
  let bfc := b_face_cells mesh in
  Z.of_nat (length bfc) = n ->
  Z.of_nat (length n2o0) = n ->
  1 <= n_b_threads ->
  exists retval n2o gi bs,
    _renum_b_faces_no_share_cell_across_thread mesh n_b_threads
      min_subset_size n2o0
    = Ok (retval, {| new_to_old := n2o; out_n_groups := 1;
                     out_group_index := gi |})
    /\ Z.of_nat (length bs) = n_b_threads + 1
    /\ bs !! O = Some 0
    /\ bs !! Z.to_nat n_b_threads = Some n
    /\ (forall t, 0 <= t < n_b_threads ->
          exists s e, bs !! Z.to_nat t = Some s
                      /\ bs !! Z.to_nat (t + 1) = Some e
                      /\ s <= e
                      /\ rd gi (t * 2) = Ok s
                      /\ rd gi (t * 2 + 1) = Ok e)
    /\ (forall t s e i j c,
          0 <= t ->
          bs !! Z.to_nat t = Some s -> bs !! Z.to_nat (t + 1) = Some e ->
          new_cell bfc n2o i = Ok c -> new_cell bfc n2o j = Ok c ->
          s <= i < e -> s <= j < e)
    /\ (n = 10 -> n_b_threads = 3 -> min_subset_size <= 4 ->
        forall c, new_cell bfc n2o 3 = Ok c -> new_cell bfc n2o 4 = Ok c ->
          exists e, rd gi 1 = Ok e
                    /\ 5 <= e <= 10
                    /\ (forall k, 3 <= k < e -> new_cell bfc n2o k = Ok c)
                    /\ (e < 10 -> new_cell bfc n2o e <> Ok c)
                    /\ (e = 5 <-> new_cell bfc n2o 5 <> Ok c)).
Proof.
  intros n bfc Hbfc Hn2o Ht.
  assert (0 <= n) as Hn by lia.
  unfold _renum_b_faces_no_share_cell_across_thread.
  fold n. fold bfc.
  rewrite (b_face_keys_loop bfc n Hbfc). simpl mbind at 1.
  set (order := cs_order_lnum_allocated_s (b_face_keys bfc)).
  assert (length order = length bfc) as Hlo.
  { unfold order. rewrite cs_order_length. apply b_face_keys_length. }
  rewrite copy_loop by lia.
  rewrite take_ge, drop_ge, app_nil_r by lia. simpl mbind at 1.
  destruct (b_subset_size_spec n n_b_threads min_subset_size Hn Ht)
    as [ss (Hss & Hcover & Hscen)].
  rewrite Hss. simpl mbind at 1.
  destruct (b_index_loop bfc order n n_b_threads ss Hn ltac:(lia)
              (b_order_new_cell_defined bfc n Hbfc))
    as (end_id & gi & bs & Hloop & Hlast & Hlen & H0 & Hgi & Hb & Hk & Hsc).
  cbv zeta in Hloop. rewrite Hloop. simpl.
  exists (if n <? 1 then -1 else 0), order, gi, bs.
  split; [reflexivity|]. split; [exact Hlen|]. split; [exact H0|].
  assert (end_id = n) as ->.
  { destruct (Hk (n_b_threads - 1)) as (s & e & _ & He & _ & Hge & _); [lia|].
    replace (n_b_threads - 1 + 1) with n_b_threads in * by lia.
    assert (e = end_id) as -> by congruence.
    destruct (Hb _ _ Hlast) as [Hr _].
    destruct Hge as [?|?]; [assumption | nia]. }
  split; [exact Hlast|].
  split.
  { intros t Hlt. destruct (Hk t Hlt) as (s & e & Hs & He & Hse & _ & Hrs & Hre).
    exists s, e. auto. }
  split.
  { intros t s e i j c Ht0 Hs He Hi Hj Hie.
    destruct (Hb _ _ Hs) as [Hsr Hsc'], (Hb _ _ He) as [Her Hec].
    assert (0 <= j < n) as Hjr.
    { unfold new_cell in Hj. apply bind_Ok in Hj. destruct Hj as [f [Hf _]].
      apply rd_lt in Hf. lia. }
    split.
    - destruct (Z.le_gt_cases s j) as [|Hlt]; [assumption|]. exfalso.
      apply (b_order_no_split bfc n Hbfc s j i c); try assumption; try lia.
      apply Hsc'. lia.
    - destruct (Z.lt_ge_cases j e) as [|Hge]; [assumption|]. exfalso.
      apply (b_order_no_split bfc n Hbfc e i j c); try assumption; try lia.
      apply Hec. lia. }
  intros Hn10 Ht3 Hmin c H3 H4.
  specialize (Hscen Hn10 Ht3 Hmin). subst ss.
  assert (0 < n_b_threads) as Hpos by lia.
  assert (0 < 4 < n) as H4n by lia.
  destruct (Hsc Hpos H4n) as [e [He Hprop]].
  destruct (Hk 0) as (s & e' & _ & He' & _ & Hge & _ & Hre); [lia|].
  change (Z.to_nat (0 + 1)) with 1%nat in He'.
  assert (e' = e) as -> by congruence.
  change (0 * 2 + 1) with 1 in Hre.
  change (4 - 1) with 3 in Hprop.
  destruct (Hprop c H3) as [Hall Hne].
  destruct (Hb _ _ He) as [Her _].
  assert (4 <= e) as Hge' by (destruct Hge; lia).
  assert (e <> 4) as Hne4.
  { intros ->. apply Hne; [lia | exact H4]. }
  exists e. split; [exact Hre|]. split; [lia|].
  split.
  { intros k Hk'. destruct (Z.eq_dec k 3) as [->|Hk3]; [exact H3|].
    apply Hall. lia. }
  split; [intros Hlt; apply Hne; lia|].
  split.
  - intros ->. apply Hne. lia.
  - intros H5. destruct (Z.eq_dec e 5) as [|Hne5]; [assumption|].
    exfalso. apply H5, Hall. lia.
Qed.

Lemma b_faces_partition_witness :
  exists out,
    _renum_b_faces_no_share_cell_across_thread scenario_c_mesh 3 4
      (BFT_MALLOC 10) = Ok (0, out)
    /\ rd (out_group_index out) 1 = Ok 5.
Proof.
  destruct (b_faces_partition scenario_c_mesh 3 4 (BFT_MALLOC 10))
    as (retval & n2o & gi & bs & Hrun & _ & _ & _ & _ & _ & Hscen);
    [reflexivity | reflexivity | lia |].
  assert (retval = 0 /\ n2o = [0; 1; 2; 3; 4; 5; 6; 7; 8; 9]) as [-> ->].
  { vm_compute in Hrun. inversion Hrun. auto. }
  eexists. split; [exact Hrun|]. simpl.
  destruct (Hscen eq_refl eq_refl ltac:(lia) 3)
    as (e & He & _ & _ & _ & Hiff); [reflexivity | reflexivity |].
  rewrite He. f_equal. apply Hiff. vm_compute. congruence.
Defined.

(** Ten boundary faces of which three, at positions 3, 4 and 5 in cell
    order, belong to cell 3. *)
Definition three_faces_cell_mesh : cs_mesh_t :=
  mesh_of_faces 8 [] [0; 1; 2; 3; 3; 3; 4; 5; 6; 7].

(** With 10 faces, 3 threads and a minimum subset size of 4, the faces at
    positions 3 and 4 share cell 3, and so does the face at position 5: the
    range of thread 0 ends at 6, not at 5. *)
Lemma b_faces_partition_end_6 :
  exists out,
    n_b_faces three_faces_cell_mesh = 10
    /\ _renum_b_faces_no_share_cell_across_thread three_faces_cell_mesh 3 4
         (BFT_MALLOC 10) = Ok (0, out)
    /\ new_cell (b_face_cells three_faces_cell_mesh) (new_to_old out) 3 = Ok 3
    /\ new_cell (b_face_cells three_faces_cell_mesh) (new_to_old out) 4 = Ok 3
    /\ rd (out_group_index out) 0 = Ok 0
    /\ rd (out_group_index out) 1 = Ok 6.
Proof.
  eexists. split; [reflexivity|]. split; [vm_compute; reflexivity|].
  repeat split.
Qed.

(** ** Cell -> faces graph *)

(** Monadic fold over a list. *)
Fixpoint foldM {S A} (g : A -> S -> res S) (l : list A) (s : S) : res S :=
  match l with
  | [] => Ok s
  | x :: l => s' ← g x s; foldM g l s'
  end.

Lemma foldM_inv {S A} (P : list A -> S -> Prop) (g : A -> S -> res S)
      (l : list A) (s : S) :
  P [] s ->
  (forall pre x suf s, l = pre ++ x :: suf -> P pre s ->
                       exists s', g x s = Ok s' /\ P (pre ++ [x]) s') ->
  exists s', foldM g l s = Ok s' /\ P l s'.
Proof.
  intros H0 Hstep.
  assert (forall suf pre s, l = pre ++ suf -> P pre s ->
                            exists s', foldM g suf s = Ok s' /\ P l s') as H.
  { induction suf as [|x suf IH]; intros pre s1 Hl HP.
    - exists s1. split; [reflexivity|]. rewrite Hl, app_nil_r. exact HP.
    - destruct (Hstep pre x suf s1 Hl HP) as [s2 [Hg HP2]].
      destruct (IH (pre ++ [x]) s2) as [s3 [Hf HP3]].
      + rewrite <- app_assoc. exact Hl.
      + exact HP2.
      + exists s3. split; [|exact HP3]. simpl. rewrite Hg. exact Hf. }
  apply (H l [] s); [reflexivity | exact H0].
Qed.

(** The (cell, face) incidences of faces [i], [i+1], ... in face order. *)
Fixpoint incidences_from (i : Z) (fc : list (Z * Z)) : list (Z * Z) :=
  match fc with
  | [] => []
  | p :: fc => (p.1, i) :: (p.2, i) :: incidences_from (i + 1) fc
  end.

Definition incidences (fc : list (Z * Z)) : list (Z * Z) := incidences_from 0 fc.

Lemma elem_of_incidences_from (i : Z) (fc : list (Z * Z)) (c f : Z) :
  (c, f) ∈ incidences_from i fc <->
  exists p, fc !! Z.to_nat (f - i) = Some p /\ i <= f /\ (p.1 = c \/ p.2 = c).
Proof.
  revert i. induction fc as [|q fc IH]; intros i; simpl.
  - split; [intros H; inversion H | intros [p [H _]]; discriminate].
  - rewrite !elem_of_cons, IH. split.
    + intros [H|[H|[p (Hp & Hi & Hc)]]].
      * inversion H. subst. exists q. replace (i - i) with 0 by lia. auto with lia.
      * inversion H. subst. exists q. replace (i - i) with 0 by lia. auto with lia.
      * exists p. split; [|split; [lia | exact Hc]].
        replace (Z.to_nat (f - i)) with (Datatypes.S (Z.to_nat (f - (i + 1)))) by lia.
        exact Hp.
    + intros [p (Hp & Hi & Hc)].
      destruct (decide (f = i)) as [->|Hne].
      * replace (i - i) with 0 in Hp by lia. simpl in Hp. inversion Hp. subst q.
        destruct Hc as [<-|<-]; auto.
      * right. right. exists p. split; [|split; [lia | exact Hc]].
        replace (Z.to_nat (f - i)) with (Datatypes.S (Z.to_nat (f - (i + 1)))) in Hp by lia.
        exact Hp.
Qed.

(** Cell [c] is adjacent to face [f]. *)
Definition touches (fc : list (Z * Z)) (f c : Z) : Prop :=
  exists p, rd fc f = Ok p /\ (p.1 = c \/ p.2 = c).

Lemma elem_of_incidences (fc : list (Z * Z)) (c f : Z) :
  (c, f) ∈ incidences fc <-> touches fc f c.
Proof.
  unfold incidences, touches. rewrite elem_of_incidences_from.
  split; intros [p H]; exists p.
  - destruct H as (Hp & Hi & Hc). split; [|exact Hc].
    apply rd_Ok. rewrite Z.sub_0_r in Hp. auto.
  - destruct H as [Hp Hc]. apply rd_Ok in Hp. rewrite Z.sub_0_r. tauto.
Qed.

(** A loop on faces handling the two cells of each face in turn is a fold
    over the incidences. *)
Lemma for_faces_foldM {S} (g : Z -> Z -> S -> res S) (fc pre : list (Z * Z))
      (l : list (Z * Z)) (s : S) :
  fc = pre ++ l ->
  for_range (length l) (Z.of_nat (length pre))
    (fun f_id st => '(ii, jj) ← rd fc f_id; st ← g ii f_id st; g jj f_id st) s
  = foldM (fun x st => g x.1 x.2 st) (incidences_from (Z.of_nat (length pre)) l) s.
Proof.
  revert pre s. induction l as [|p l IH]; intros pre s Hfc; [reflexivity|].
  simpl.
  assert (rd fc (Z.of_nat (length pre)) = Ok p) as ->.
  { apply rd_Ok. split; [lia|]. rewrite Nat2Z.id, Hfc.
    rewrite lookup_app_r by lia. rewrite Nat.sub_diag. reflexivity. }
  simpl. destruct p as [ii jj]. simpl.
  destruct (g ii (Z.of_nat (length pre)) s) as [s1| |]; simpl; try reflexivity.
  destruct (g jj (Z.of_nat (length pre)) s1) as [s2| |]; simpl; try reflexivity.
  specialize (IH (pre ++ [(ii, jj)]) s2).
  rewrite length_app in IH. simpl in IH.
  replace (Z.of_nat (length pre + 1)) with (Z.of_nat (length pre) + 1) in IH by lia.
  apply IH. rewrite <- app_assoc. exact Hfc.
Qed.

Lemma for_loop_faces_foldM {S} (g : Z -> Z -> S -> res S) (fc : list (Z * Z))
      (n : Z) (s : S) :
  Z.of_nat (length fc) = n ->
  for_loop 0 n
    (fun f_id st => '(ii, jj) ← rd fc f_id; st ← g ii f_id st; g jj f_id st) s
  = foldM (fun x st => g x.1 x.2 st) (incidences fc) s.
Proof.
  intros Hn. unfold for_loop, incidences.
  replace (Z.to_nat (n - 0)) with (length fc) by lia.
  apply (for_faces_foldM g fc [] fc s). reflexivity.
Qed.

(** Number of incidences of cell [c] in a list of incidences. *)
Definition cnt (l : list (Z * Z)) (c : Z) : Z :=
  Z.of_nat (length (filter (fun x : Z * Z => x.1 = c) l)).

Lemma cnt_nil (c : Z) : cnt [] c = 0.
Proof. reflexivity. Qed.

Lemma cnt_snoc (l : list (Z * Z)) (x : Z * Z) (c : Z) :
  cnt (l ++ [x]) c = cnt l c + (if decide (x.1 = c) then 1 else 0).
Proof.
  unfold cnt. rewrite filter_app, length_app. rewrite filter_cons, filter_nil.
  destruct (decide (x.1 = c)); simpl; lia.
Qed.

Lemma cnt_app (l1 l2 : list (Z * Z)) (c : Z) :
  cnt (l1 ++ l2) c = cnt l1 c + cnt l2 c.
Proof. unfold cnt. rewrite filter_app, length_app. lia. Qed.

Lemma cnt_nonneg (l : list (Z * Z)) (c : Z) : 0 <= cnt l c.
Proof. unfold cnt. lia. Qed.

Lemma cnt_cons_pos (l : list (Z * Z)) (x : Z * Z) : 1 <= cnt (x :: l) x.1.
Proof.
  unfold cnt. rewrite filter_cons. destruct (decide (x.1 = x.1)); [|congruence].
  simpl. lia.
Qed.

(** Number of incidences of the cells below [c]: the start of row [c]. *)
Definition row_start (l : list (Z * Z)) (c : Z) : Z :=
  Z.of_nat (length (filter (fun x : Z * Z => x.1 < c) l)).

Lemma row_start_succ (l : list (Z * Z)) (c : Z) :
  row_start l (c + 1) = row_start l c + cnt l c.
Proof.
  unfold row_start, cnt. induction l as [|x l IH]; [reflexivity|].
  rewrite !filter_cons.
  destruct (decide (x.1 < c + 1)), (decide (x.1 < c)), (decide (x.1 = c));
    simpl; lia.
Qed.

Lemma row_start_mono (l : list (Z * Z)) (c c' : Z) :
  c <= c' -> row_start l c <= row_start l c'.
Proof.
  intros H. unfold row_start. induction l as [|x l IH]; [reflexivity|].
  rewrite !filter_cons.
  destruct (decide (x.1 < c)), (decide (x.1 < c')); simpl; lia.
Qed.

Lemma row_start_0 (l : list (Z * Z)) :
  (forall x, x ∈ l -> 0 <= x.1) -> row_start l 0 = 0.
Proof.
  intros H. unfold row_start. induction l as [|x l IH]; [reflexivity|].
  rewrite filter_cons. destruct (decide (x.1 < 0)) as [Hlt|_].
  - specialize (H x ltac:(left)). lia.
  - apply IH. intros y Hy. apply H. right. exact Hy.
Qed.

Lemma row_start_nonneg (l : list (Z * Z)) (c : Z) : 0 <= row_start l c.
Proof. unfold row_start. lia. Qed.

Lemma row_start_le_length (l : list (Z * Z)) (c : Z) :
  row_start l c <= Z.of_nat (length l).
Proof.
  unfold row_start. pose proof (length_filter (fun x : Z * Z => x.1 < c) l). lia.
Qed.

Section CsrGraph.

Variables (n_cells_ext n_faces : Z) (fc : list (Z * Z)).

Hypothesis rows_nonneg : 0 <= n_cells_ext.
Hypothesis fc_length : Z.of_nat (length fc) = n_faces.
Hypothesis cells_in_range :
  forall c f, (c, f) ∈ incidences fc -> 0 <= c < n_cells_ext.

Let inc := incidences fc.

Lemma count_fold :
  exists ccount,
    foldM (fun (x : Z * Z) st => incr st x.1) inc
      (replicate (Z.to_nat n_cells_ext) 0) = Ok ccount
    /\ Z.of_nat (length ccount) = n_cells_ext
    /\ forall c, 0 <= c < n_cells_ext -> rd ccount c = Ok (cnt inc c).
Proof using All.
  destruct (foldM_inv
              (fun pre ccount =>
                 Z.of_nat (length ccount) = n_cells_ext
                 /\ forall c, 0 <= c < n_cells_ext ->
                              rd ccount c = Ok (cnt pre c))
              (fun (x : Z * Z) st => incr st x.1) inc
              (replicate (Z.to_nat n_cells_ext) 0))
    as [ccount [Hf [Hl Hc]]].
  - split; [rewrite length_replicate; lia|].
    intros c Hc. apply rd_Ok. split; [lia|].
    apply lookup_replicate_2. lia.
  - intros pre [c f] suf ccount Hinc [Hl Hc]. simpl.
    assert (0 <= c < n_cells_ext) as Hr.
    { apply (cells_in_range c f). fold inc. rewrite Hinc.
      apply elem_of_app. right. left. }
    unfold incr. rewrite (Hc c Hr). simpl.
    rewrite wr_in_range by lia. eexists. split; [reflexivity|].
    split; [rewrite length_insert; exact Hl|].
    intros c' Hc'. rewrite cnt_snoc. simpl. apply rd_Ok. split; [lia|].
    destruct (decide (c = c')) as [->|Hne].
    + rewrite list_lookup_insert_eq by lia. reflexivity.
    + rewrite list_lookup_insert_ne by lia.
      specialize (Hc c' Hc'). apply rd_Ok in Hc. destruct Hc as [_ ->].
      f_equal. lia.
  - exists ccount. auto.
Qed.

Lemma row_index_loop (ccount : list Z) :
  Z.of_nat (length ccount) = n_cells_ext ->
  (forall c, 0 <= c < n_cells_ext -> rd ccount c = Ok (cnt inc c)) ->
  exists R ncm,
    (row_index ← wr (BFT_MALLOC (n_cells_ext + 1)) 0 0;
     for_loop 0 n_cells_ext
       (fun ii '(row_index, n_cols_max, ccount) =>
          r ← rd row_index ii;
          c ← rd ccount ii;
          row_index ← wr row_index (ii + 1) (r + c);
          ccount' ← wr ccount ii 0;
          mret (row_index, if n_cols_max <? c then c else n_cols_max, ccount'))
       (row_index, 0, ccount))
    = Ok (R, ncm, replicate (Z.to_nat n_cells_ext) 0)
    /\ Z.of_nat (length R) = n_cells_ext + 1
    /\ forall c, 0 <= c <= n_cells_ext -> rd R c = Ok (row_start inc c).
Proof using All.
  intros Hl Hc.
  rewrite wr_in_range by (rewrite BFT_MALLOC_length; lia). simpl.
  match goal with
  | |- exists R ncm, for_loop 0 _ ?body ?s = _ /\ _ =>
      destruct (for_loop_inv
                  (fun ii (st : list Z * Z * list Z) =>
                     let '(R, _, cc) := st in
                     Z.of_nat (length R) = n_cells_ext + 1
                     /\ Z.of_nat (length cc) = n_cells_ext
                     /\ (forall c, 0 <= c <= ii -> rd R c = Ok (row_start inc c))
                     /\ (forall c, 0 <= c < ii -> rd cc c = Ok 0)
                     /\ (forall c, ii <= c < n_cells_ext ->
                                   rd cc c = Ok (cnt inc c)))
                  0 n_cells_ext body s rows_nonneg)
        as [[[R ncm] cc] [Hloop (HR & Hcc & HRv & Hz & _)]]
  end.
  - split; [rewrite length_insert, BFT_MALLOC_length; lia|].
    split; [exact Hl|]. split.
    + intros c Hc0. assert (c = 0) as -> by lia.
      rewrite row_start_0.
      * apply rd_Ok. split; [lia|]. apply list_lookup_insert_eq.
        pose proof (BFT_MALLOC_length (n_cells_ext + 1)). lia.
      * intros [c f] Hin. simpl. apply (cells_in_range c f Hin).
    + split; [intros c Hc0; lia | intros c Hc0; apply Hc; lia].
  - intros ii [[R ncm] cc] Hii (HR & Hcc & HRv & Hz & Hrest).
    cbv beta iota zeta.
    rewrite (HRv ii) by lia. simpl. rewrite (Hrest ii) by lia. simpl.
    rewrite wr_in_range by lia. simpl.
    rewrite wr_in_range by lia. simpl.
    eexists. split; [reflexivity|].
    split; [rewrite length_insert; exact HR|].
    split; [rewrite length_insert; exact Hcc|].
    split; [|split].
    + intros c Hc0. apply rd_Ok. split; [lia|].
      destruct (decide (c = ii + 1)) as [->|Hne].
      * rewrite list_lookup_insert_eq by lia. rewrite row_start_succ. reflexivity.
      * rewrite list_lookup_insert_ne by lia.
        specialize (HRv c ltac:(lia)). apply rd_Ok in HRv. tauto.
    + intros c Hc0. apply rd_Ok. split; [lia|].
      destruct (decide (c = ii)) as [->|Hne].
      * rewrite list_lookup_insert_eq by lia. reflexivity.
      * rewrite list_lookup_insert_ne by lia.
        specialize (Hz c ltac:(lia)). apply rd_Ok in Hz. tauto.
    + intros c Hc0. apply rd_Ok. split; [lia|].
      rewrite list_lookup_insert_ne by lia.
      specialize (Hrest c ltac:(lia)). apply rd_Ok in Hrest. tauto.
  - exists R, ncm. split; [|split; [exact HR | exact HRv]].
    rewrite Hloop. do 2 f_equal.
    apply list_eq. intros i.
    destruct (decide (i < Z.to_nat n_cells_ext)%nat) as [Hlt|Hge].
    + rewrite lookup_replicate_2 by lia.
      specialize (Hz (Z.of_nat i) ltac:(lia)). apply rd_Ok in Hz.
      rewrite Nat2Z.id in Hz. tauto.
    + rewrite !lookup_ge_None_2; [reflexivity | rewrite length_replicate; lia | lia].
Qed.

End CsrGraph.

Section CsrScatter.

Variables (n_cells_ext : Z) (inc : list (Z * Z)) (R : list Z).

Hypothesis rows_nonneg : 0 <= n_cells_ext.
Hypothesis cells_in_range : forall c f, (c, f) ∈ inc -> 0 <= c < n_cells_ext.
Hypothesis R_rows :
  forall c, 0 <= c <= n_cells_ext -> rd R c = Ok (row_start inc c).

(** What the rows hold once the incidences [pre] have been scattered. *)
Definition scattered (pre : list (Z * Z)) (st : list Z * list Z) : Prop :=
  Z.of_nat (length st.1) = n_cells_ext
  /\ length st.2 = length inc
  /\ (forall c, 0 <= c < n_cells_ext -> rd st.1 c = Ok (cnt pre c))
  /\ (forall c k, 0 <= c < n_cells_ext -> 0 <= k < cnt pre c ->
                  exists f, rd st.2 (row_start inc c + k) = Ok f /\ (c, f) ∈ pre)
  /\ (forall c f, (c, f) ∈ pre ->
                  exists k, 0 <= k < cnt pre c
                            /\ rd st.2 (row_start inc c + k) = Ok f).

Lemma row_bounds (pre suf : list (Z * Z)) (c k : Z) :
  inc = pre ++ suf -> 0 <= c < n_cells_ext -> 0 <= k < cnt pre c ->
  row_start inc c <= row_start inc c + k < row_start inc (c + 1)
  /\ row_start inc (c + 1) <= Z.of_nat (length inc).
Proof using All.
  intros Hinc Hc Hk. rewrite row_start_succ.
  pose proof (cnt_nonneg suf c).
  pose proof (row_start_le_length inc (c + 1)) as Hle.
  rewrite row_start_succ in Hle.
  assert (cnt inc c = cnt pre c + cnt suf c) as -> by (rewrite Hinc; apply cnt_app).
  rewrite Hinc in Hle at 2. rewrite cnt_app in Hle. lia.
Qed.

Lemma rows_disjoint (c c' k k' : Z) :
  c <> c' ->
  row_start inc c <= k < row_start inc (c + 1) ->
  row_start inc c' <= k' < row_start inc (c' + 1) ->
  k <> k'.
Proof using All.
  intros Hne Hk Hk'.
  destruct (Z.lt_trichotomy c c') as [Hlt|[Heq|Hgt]]; [|contradiction|].
  - pose proof (row_start_mono inc (c + 1) c' ltac:(lia)). lia.
  - pose proof (row_start_mono inc (c' + 1) c ltac:(lia)). lia.
Qed.

Lemma scatter_fold (ccount0 col_id0 : list Z) :
  ccount0 = replicate (Z.to_nat n_cells_ext) 0 ->
  length col_id0 = length inc ->
  exists st,
    foldM (fun (x : Z * Z) st => scatter R x.1 x.2 st) inc (ccount0, col_id0)
    = Ok st
    /\ scattered inc st.
Proof using All.
  intros Hcc Hcol.
  apply (foldM_inv scattered).
  - unfold scattered. simpl. subst ccount0.
    split; [rewrite length_replicate; lia|]. split; [exact Hcol|].
    split; [|split].
    + intros c Hc. apply rd_Ok. split; [lia|]. apply lookup_replicate_2. lia.
    + intros c k _ Hk. rewrite cnt_nil in Hk. lia.
    + intros c f Hin. inversion Hin.
  - intros pre [c f] suf [ccount col_id] Hinc (Hl & Hlc & Hcnt & Hrow & Hfind).
    simpl in Hl, Hlc, Hcnt, Hrow, Hfind. simpl.
    assert (0 <= c < n_cells_ext) as Hr.
    { apply (cells_in_range c f). rewrite Hinc. apply elem_of_app. right. left. }
    assert (1 <= cnt ((c, f) :: suf) c) as Hpos by apply (cnt_cons_pos suf (c, f)).
    destruct (row_bounds (pre ++ [(c, f)]) suf c (cnt pre c)) as [Hb Hb'].
    { rewrite <- app_assoc. exact Hinc. }
    { exact Hr. }
    { rewrite cnt_snoc. simpl. pose proof (cnt_nonneg pre c).
      destruct (decide (c = c)); [lia | congruence]. }
    pose proof (row_start_nonneg inc c) as Hnn.
    rewrite (R_rows c) by lia. simpl. rewrite (Hcnt c Hr). simpl.
    rewrite wr_in_range by lia. simpl.
    rewrite wr_in_range by lia. simpl.
    eexists. split; [reflexivity|].
    unfold scattered. simpl.
    split; [rewrite length_insert; exact Hl|].
    split; [rewrite length_insert; exact Hlc|].
    split; [|split].
    + intros c' Hc'. rewrite cnt_snoc. simpl. apply rd_Ok. split; [lia|].
      destruct (decide (c = c')) as [->|Hne].
      * rewrite list_lookup_insert_eq by lia. reflexivity.
      * rewrite list_lookup_insert_ne by lia.
        specialize (Hcnt c' Hc'). apply rd_Ok in Hcnt. destruct Hcnt as [_ ->].
        f_equal. lia.
    + intros c' k Hc' Hk. rewrite cnt_snoc in Hk. simpl in Hk.
      pose proof (row_start_nonneg inc c') as Hnn'.
      destruct (decide (c = c')) as [<-|Hne].
      * destruct (decide (k = cnt pre c)) as [->|Hnk].
        -- exists f. split; [|apply elem_of_app; right; left].
           apply rd_Ok. split; [lia|]. apply list_lookup_insert_eq. lia.
        -- destruct (Hrow c k Hr ltac:(lia)) as [f' [Hf' Hin]].
           exists f'. split; [|apply elem_of_app; left; exact Hin].
           apply rd_Ok in Hf'. apply rd_Ok. split; [lia|].
           rewrite list_lookup_insert_ne by lia. tauto.
      * destruct (Hrow c' k Hc' ltac:(lia)) as [f' [Hf' Hin]].
        exists f'. split; [|apply elem_of_app; left; exact Hin].
        apply rd_Ok in Hf'. apply rd_Ok. split; [lia|].
        destruct (row_bounds pre ((c, f) :: suf) c' k Hinc Hc' ltac:(lia)) as [Hb2 _].
        pose proof (rows_disjoint c c' _ _ Hne Hb Hb2).
        rewrite list_lookup_insert_ne by lia. tauto.
    + intros c' f' Hin. apply elem_of_app in Hin. rewrite cnt_snoc. simpl.
      destruct Hin as [Hin|Hin].
      * destruct (Hfind c' f' Hin) as [k [Hk Hf']].
        pose proof (row_start_nonneg inc c') as Hnn'.
        exists k. split; [destruct (decide (c = c')); lia|].
        apply rd_Ok in Hf'. apply rd_Ok. split; [lia|].
        assert (0 <= c' < n_cells_ext) as Hc'.
        { apply (cells_in_range c' f'). rewrite Hinc. apply elem_of_app. left. exact Hin. }
        destruct (decide (c = c')) as [<-|Hne].
        -- rewrite list_lookup_insert_ne by lia. tauto.
        -- destruct (row_bounds pre ((c, f) :: suf) c' k Hinc Hc' Hk) as [Hb2 _].
           pose proof (rows_disjoint c c' _ _ Hne Hb Hb2).
           rewrite list_lookup_insert_ne by lia. tauto.
      * apply list_elem_of_singleton in Hin. inversion Hin. subst c' f'.
        exists (cnt pre c). pose proof (cnt_nonneg pre c).
        split; [destruct (decide (c = c)); [lia | congruence]|].
        apply rd_Ok. split; [lia|]. apply list_lookup_insert_eq. lia.
Qed.

End CsrScatter.

Lemma row_start_all (l : list (Z * Z)) (c : Z) :
  (forall x, x ∈ l -> x.1 < c) -> row_start l c = Z.of_nat (length l).
Proof.
  intros H. unfold row_start. induction l as [|x l IH]; [reflexivity|].
  rewrite filter_cons. destruct (decide (x.1 < c)) as [_|Hge].
  - simpl. rewrite Nat2Z.inj_succ, IH; [lia|].
    intros y Hy. apply H. right. exact Hy.
  - exfalso. apply Hge. apply H. left.
Qed.

(** The graph is the one of the mesh: row [c] lists the faces adjacent to
    cell [c]. *)
Definition csr_cell_faces (n_cells_ext : Z) (fc : list (Z * Z))
    (g : _csr_graph_t) : Prop :=
  (forall c, 0 <= c <= n_cells_ext ->
             rd (row_index g) c = Ok (row_start (incidences fc) c))
  /\ (forall c k, 0 <= c < n_cells_ext ->
                  0 <= k < cnt (incidences fc) c ->
                  exists f, rd (col_id g) (row_start (incidences fc) c + k) = Ok f
                            /\ touches fc f c)
  /\ (forall c f, touches fc f c ->
                  exists k, 0 <= k < cnt (incidences fc) c
                            /\ rd (col_id g) (row_start (incidences fc) c + k) = Ok f).

Lemma csr_graph_create_cell_face_spec (n_cells_ext n_faces : Z)
      (fc : list (Z * Z)) :
  0 <= n_cells_ext ->
  Z.of_nat (length fc) = n_faces ->
  (forall c f, touches fc f c -> 0 <= c < n_cells_ext) ->
  exists g, _csr_graph_create_cell_face n_cells_ext n_faces fc = Ok g
            /\ csr_cell_faces n_cells_ext fc g.
Proof.
  intros Hrows Hlen Hcells.
  assert (forall c f, (c, f) ∈ incidences fc -> 0 <= c < n_cells_ext) as Hcells'.
  { intros c f Hin. apply (Hcells c f). apply elem_of_incidences. exact Hin. }
  unfold _csr_graph_create_cell_face.
  rewrite (for_loop_faces_foldM (fun c _ st => incr st c) fc n_faces _ Hlen).
  destruct (count_fold n_cells_ext n_faces fc Hrows Hlen Hcells') as [ccount (Hcount & Hl & Hc)].
  rewrite Hcount. simpl mbind at 1.
  destruct (row_index_loop n_cells_ext n_faces fc Hrows Hlen Hcells' ccount Hl Hc)
    as (R & ncm & Hloop & HR & HRv).
  destruct (wr (BFT_MALLOC (n_cells_ext + 1)) 0 0) as [R0| |] eqn:ER0;
    try discriminate Hloop.
  simpl mbind at 1. simpl in Hloop. rewrite Hloop. simpl mbind at 1.
  rewrite (HRv n_cells_ext) by lia. simpl mbind at 1.
  assert (row_start (incidences fc) n_cells_ext
          = Z.of_nat (length (incidences fc))) as Hall.
  { apply row_start_all. intros [c f] Hin. simpl.
    apply (Hcells' c f Hin). }
  rewrite (for_loop_faces_foldM (scatter R) fc n_faces _ Hlen).
  destruct (scatter_fold n_cells_ext (incidences fc) R Hrows Hcells' HRv
              (replicate (Z.to_nat n_cells_ext) 0)
              (BFT_MALLOC (row_start (incidences fc) n_cells_ext)))
    as [[cc col] [Hsc (_ & _ & _ & Hrow & Hfind)]].
  { reflexivity. }
  { unfold BFT_MALLOC. rewrite length_replicate, Hall. lia. }
  rewrite Hsc. simpl. eexists. split; [reflexivity|].
  unfold csr_cell_faces. simpl. split; [exact HRv|]. split.
  - intros c k Hc0 Hk. destruct (Hrow c k Hc0 Hk) as [f [Hf Hin]].
    exists f. split; [exact Hf | apply elem_of_incidences; exact Hin].
  - intros c f Ht. apply Hfind. apply elem_of_incidences. exact Ht.
Qed.

(** ** Loops with [break] *)

(** Search loop: the state records whether an element was found, and the
    loop stops at the first one. *)
Lemma for_range_break_find (n : nat) (i : Z) (body : Z -> bool -> res (bool * bool)) :
  (forall j, i <= j < i + Z.of_nat n -> exists b, body j false = Ok (b, b)) ->
  exists b, for_range_break n i body false = Ok b
            /\ (b = true <->
                exists j, i <= j < i + Z.of_nat n /\ body j false = Ok (true, true)).
Proof.
  revert i. induction n as [|n IH]; intros i Hbody.
  - exists false. split; [reflexivity|]. split; [discriminate|].
    intros [j [Hj _]]. lia.
  - destruct (Hbody i ltac:(lia)) as [b Hb]. simpl. rewrite Hb. simpl.
    destruct b.
    + exists true. split; [reflexivity|]. split; [|reflexivity].
      intros _. exists i. split; [lia | exact Hb].
    + destruct (IH (i + 1)) as [b' [Hr Hiff]].
      { intros j Hj. apply Hbody. lia. }
      exists b'. split; [exact Hr|]. rewrite Hiff. split.
      * intros [j [Hj Hbj]]. exists j. split; [lia | exact Hbj].
      * intros [j [Hj Hbj]]. exists j. split; [|exact Hbj].
        destruct (decide (j = i)) as [->|Hne]; [congruence | lia].
Qed.

(** Check loop: the state records whether every element passed so far, and
    the loop stops at the first failure. *)
Lemma for_range_break_all (n : nat) (i : Z) (body : Z -> bool -> res (bool * bool)) :
  (forall j, i <= j < i + Z.of_nat n -> exists b, body j true = Ok (b, negb b)) ->
  exists b, for_range_break n i body true = Ok b
            /\ (b = true <->
                forall j, i <= j < i + Z.of_nat n -> body j true = Ok (true, false)).
Proof.
  revert i. induction n as [|n IH]; intros i Hbody.
  - exists true. split; [reflexivity|]. split; [|reflexivity].
    intros _ j Hj. lia.
  - destruct (Hbody i ltac:(lia)) as [b Hb]. simpl. rewrite Hb. simpl.
    destruct b; simpl.
    + destruct (IH (i + 1)) as [b' [Hr Hiff]].
      { intros j Hj. apply Hbody. lia. }
      exists b'. split; [exact Hr|]. rewrite Hiff. split.
      * intros Hall j Hj.
        destruct (decide (j = i)) as [->|Hne]; [exact Hb | apply Hall; lia].
      * intros Hall j Hj. apply Hall. lia.
    + exists false. split; [reflexivity|]. split; [discriminate|].
      intros Hall. specialize (Hall i ltac:(lia)). congruence.
Qed.

Lemma row_contains_spec (n_cells_ext : Z) (fc : list (Z * Z))
      (g : _csr_graph_t) (c f_id : Z) :
  csr_cell_faces n_cells_ext fc g ->
  0 <= c < n_cells_ext ->
  exists b, row_contains g c f_id = Ok b /\ (b = true <-> touches fc f_id c).
Proof.
  intros (HR & Hrow & Hfind) Hc. unfold row_contains.
  rewrite (HR c) by lia. simpl. rewrite (HR (c + 1)) by lia. simpl.
  rewrite row_start_succ.
  assert (forall j, row_start (incidences fc) c <= j
                    < row_start (incidences fc) c + cnt (incidences fc) c ->
                    exists f, rd (col_id g) j = Ok f /\ touches fc f c) as Hrow'.
  { intros j Hj.
    destruct (Hrow c (j - row_start (incidences fc) c) Hc ltac:(lia)) as [f [Hf Ht]].
    replace (row_start (incidences fc) c + (j - row_start (incidences fc) c))
      with j in Hf by lia.
    eauto. }
  clear Hrow.
  remember (row_start (incidences fc) c) as s eqn:Es.
  remember (cnt (incidences fc) c) as d eqn:Ed.
  replace (s + d - s) with d by lia.
  assert (0 <= d) as Hd by (subst d; apply cnt_nonneg).
  match goal with
  | |- exists b, for_range_break ?n ?i ?body false = _ /\ _ =>
      destruct (for_range_break_find n i body) as [b [Hr Hiff]]
  end.
  - intros j Hj. destruct (Hrow' j ltac:(lia)) as [f [Hf _]].
    rewrite Hf. simpl. eauto.
  - exists b. split; [exact Hr|]. rewrite Hiff. split.
    + intros [j [Hj Hb]].
      destruct (Hrow' j ltac:(lia)) as [f [Hf Ht]].
      rewrite Hf in Hb. simpl in Hb.
      inversion Hb as [Heq]. apply Z.eqb_eq in Heq. subst f. exact Ht.
    + intros Ht. destruct (Hfind c f_id Ht) as [k [Hk Hf]].
      rewrite <- Es, <- Ed in *.
      exists (s + k). split; [lia|]. rewrite Hf. simpl. rewrite Z.eqb_refl.
      reflexivity.
Qed.

(** Invariant rule for loops with [break]: [P] holds at the head of the
    loop, [Q] once it is left. *)
Lemma for_range_break_inv {S} (P : Z -> S -> Prop) (Q : S -> Prop) (n : nat)
      (i : Z) (body : Z -> S -> res (S * bool)) (s : S) :
  P i s ->
  (forall j s, i <= j < i + Z.of_nat n -> P j s ->
     exists s' b, body j s = Ok (s', b)
                  /\ (b = false -> P (j + 1) s') /\ (b = true -> Q s')) ->
  (forall s, P (i + Z.of_nat n) s -> Q s) ->
  exists s', for_range_break n i body s = Ok s' /\ Q s'.
Proof.
  revert i s. induction n as [|n IH]; intros i s HP Hstep Hend.
  - exists s. split; [reflexivity|]. apply Hend.
    replace (i + Z.of_nat 0) with i by lia. exact HP.
  - destruct (Hstep i s ltac:(lia) HP) as (s1 & b & Hb & Hcont & Hbrk).
    simpl. rewrite Hb. simpl. destruct b.
    + exists s1. split; [reflexivity | apply Hbrk; reflexivity].
    + apply (IH (i + 1) s1).
      * apply Hcont. reflexivity.
      * intros j s2 Hj. apply Hstep. lia.
      * intros s2 HP2. apply Hend.
        replace (i + Z.of_nat (Datatypes.S n)) with (i + 1 + Z.of_nat n) by lia.
        exact HP2.
Qed.

(** ** Independent face groups *)

(** Two faces share a cell. *)
Definition share_cell (fc : list (Z * Z)) (f f' : Z) : Prop :=
  exists c, touches fc f c /\ touches fc f' c.

Section IndependentGroups.

Variables (max_group_size n_cells_ext n_faces : Z) (fc : list (Z * Z))
          (cell_faces : _csr_graph_t).

Hypothesis max_pos : 1 <= max_group_size.
Hypothesis fc_length : Z.of_nat (length fc) = n_faces.
Hypothesis cells_in_range : forall f c, touches fc f c -> 0 <= c < n_cells_ext.
Hypothesis graph_ok : csr_cell_faces n_cells_ext fc cell_faces.

Lemma face_ok_spec (gfi : list Z) (cur : list Z) (f_id : Z) :
  (forall i f, cur !! i = Some f ->
               rd gfi (Z.of_nat i) = Ok f /\ 0 <= f < n_faces) ->
  exists b, face_ok cell_faces fc gfi (Z.of_nat (length cur)) f_id = Ok b
            /\ (b = true <-> forall f, f ∈ cur -> ~ share_cell fc f f_id).
Proof using All.
  intros Hcur. unfold face_ok.
  assert (forall j, 0 <= j < 0 + Z.of_nat (Z.to_nat (Z.of_nat (length cur))) ->
            exists f p b0 b1,
              cur !! Z.to_nat j = Some f
              /\ rd gfi j = Ok f /\ rd fc f = Ok p
              /\ row_contains cell_faces p.1 f_id = Ok b0
              /\ row_contains cell_faces p.2 f_id = Ok b1
              /\ (b0 = true <-> touches fc f_id p.1)
              /\ (b1 = true <-> touches fc f_id p.2)) as Hbody.
  { intros j Hj.
    destruct (lookup_lt_is_Some_2 cur (Z.to_nat j)) as [f Hf]; [lia|].
    destruct (Hcur _ _ Hf) as [Hg Hr]. rewrite Z2Nat.id in Hg by lia.
    destruct (rd_in_range fc f) as [p Hp]; [lia|].
    destruct (row_contains_spec n_cells_ext fc cell_faces p.1 f_id graph_ok)
      as [b0 [Hb0 Hi0]].
    { apply (cells_in_range f). exists p. auto. }
    destruct (row_contains_spec n_cells_ext fc cell_faces p.2 f_id graph_ok)
      as [b1 [Hb1 Hi1]].
    { apply (cells_in_range f). exists p. auto. }
    exists f, p, b0, b1. auto 10. }
  match goal with
  | |- exists b, for_range_break ?n ?i ?body true = _ /\ _ =>
      destruct (for_range_break_all n i body) as [b [Hr Hiff]]
  end.
  - intros j Hj.
    destruct (Hbody j Hj) as (f & [c0 c1] & b0 & b1 & _ & Hg & Hp & Hb0 & Hb1 & _).
    rewrite Hg. simpl. rewrite Hp. simpl. simpl in Hb0, Hb1.
    rewrite Hb0. simpl. rewrite Hb1. simpl. eauto.
  - exists b. split; [exact Hr|]. rewrite Hiff. split.
    + intros Hall f Hin [c [Hc Hc']].
      apply list_elem_of_lookup_1 in Hin. destruct Hin as [i Hi].
      pose proof (lookup_lt_Some _ _ _ Hi) as Hlt.
      specialize (Hall (Z.of_nat i) ltac:(lia)).
      destruct (Hbody (Z.of_nat i) ltac:(lia))
        as (f' & [c0 c1] & b0 & b1 & Hf' & Hg & Hp & Hb0 & Hb1 & Hi0 & Hi1).
      rewrite Nat2Z.id in Hf'. assert (f' = f) as -> by congruence.
      rewrite Hg in Hall. simpl in Hall. rewrite Hp in Hall. simpl in Hall.
      simpl in Hb0, Hb1, Hi0, Hi1.
      rewrite Hb0 in Hall. simpl in Hall. rewrite Hb1 in Hall. simpl in Hall.
      inversion Hall as [Hb]. apply negb_true_iff, orb_false_iff in Hb.
      destruct Hb as [-> ->].
      destruct Hc as [p [Hp' Hc]]. rewrite Hp in Hp'. inversion Hp'. subst p.
      simpl in Hc. destruct Hc as [<-|<-].
      * apply Hi0 in Hc'. discriminate.
      * apply Hi1 in Hc'. discriminate.
    + intros Hno j Hj.
      destruct (Hbody j Hj)
        as (f & [c0 c1] & b0 & b1 & Hf & Hg & Hp & Hb0 & Hb1 & Hi0 & Hi1).
      rewrite Hg. simpl. rewrite Hp. simpl. simpl in Hb0, Hb1, Hi0, Hi1.
      rewrite Hb0. simpl. rewrite Hb1. simpl.
      assert (f ∈ cur) as Hin by (eapply list_elem_of_lookup_2; exact Hf).
      specialize (Hno f Hin).
      destruct b0.
      { exfalso. apply Hno. exists c0. split; [|apply Hi0; reflexivity].
        exists (c0, c1). auto. }
      destruct b1.
      { exfalso. apply Hno. exists c1. split; [|apply Hi1; reflexivity].
        exists (c0, c1). auto. }
      reflexivity.
Qed.

End IndependentGroups.

Section GroupScan.

Variables (max_group_size n_cells_ext n_faces : Z) (fc : list (Z * Z))
          (cell_faces : _csr_graph_t) (s0 : ifg_state).

Hypothesis max_pos : 1 <= max_group_size.
Hypothesis fc_length : Z.of_nat (length fc) = n_faces.
Hypothesis cells_in_range : forall f c, touches fc f c -> 0 <= c < n_cells_ext.
Hypothesis graph_ok : csr_cell_faces n_cells_ext fc cell_faces.

Hypothesis fm0_length : Z.of_nat (length (face_marker s0)) = n_faces.
Hypothesis o2n0_length : Z.of_nat (length (old_to_new s0)) = n_faces.
Hypothesis fu0_range : 0 <= first_unmarked_face_id s0 <= n_faces.
Hypothesis fu0_marked :
  forall f, 0 <= f < first_unmarked_face_id s0 ->
            rd (face_marker s0) f <> Ok (-1).
Hypothesis group_fresh : 0 <= group_id s0.

(** No two faces of [l] share a cell. *)
Definition independent (l : list Z) : Prop :=
  forall f f', f ∈ l -> f' ∈ l -> f <> f' -> ~ share_cell fc f f'.

(** State of the scan of the faces below [j] for the current group, whose
    faces so far are [cur]. *)
Definition scan_facts (j : Z) (cur : list Z) (st : Z * list Z * ifg_state)
  : Prop :=
  let '(g_size, gfi, s) := st in
  g_size = Z.of_nat (length cur)
  /\ g_size <= max_group_size
  /\ Z.of_nat (length gfi) = max_group_size
  /\ group_id s = group_id s0
  /\ _n_groups_max s = _n_groups_max s0
  /\ _group_size s = _group_size s0
  /\ n_marked_faces s = n_marked_faces s0 + g_size
  /\ Z.of_nat (length (face_marker s)) = n_faces
  /\ Z.of_nat (length (old_to_new s)) = n_faces
  /\ first_unmarked_face_id s0 <= first_unmarked_face_id s <= n_faces
  /\ (forall f, 0 <= f < first_unmarked_face_id s ->
                rd (face_marker s) f <> Ok (-1))
  /\ NoDup cur
  /\ independent cur
  /\ (forall i f, cur !! i = Some f ->
        rd gfi (Z.of_nat i) = Ok f
        /\ 0 <= f < j /\ f < n_faces
        /\ rd (face_marker s) f = Ok (group_id s0)
        /\ rd (old_to_new s) f = Ok (n_marked_faces s0 + Z.of_nat i)
        /\ rd (face_marker s0) f = Ok (-1))
  /\ (forall f, f ∉ cur ->
        rd (face_marker s) f = rd (face_marker s0) f
        /\ rd (old_to_new s) f = rd (old_to_new s0) f)
  /\ ((exists f, first_unmarked_face_id s0 <= f < j
                 /\ rd (face_marker s0) f = Ok (-1)) -> 1 <= g_size).

Lemma scan_facts_weaken (j : Z) (cur : list Z) (st : Z * list Z * ifg_state) :
  scan_facts j cur st -> j <= n_faces -> 1 <= st.1.1 ->
  scan_facts n_faces cur st.
Proof using All.
  destruct st as [[g_size gfi] s]. simpl.
  intros (H1 & H2 & H3 & H4 & H5 & H6 & H7 & H8 & H9 & H10 & H11 & H12 & H13
          & H14 & H15 & H16) Hj Hg.
  repeat (split; [assumption|]).
  split; [|split; [exact H15 | intros _; exact Hg]].
  intros i f Hi. destruct (H14 i f Hi) as (? & ? & ? & ? & ? & ?).
  repeat split; try assumption; lia.
Qed.

Definition scan_body (f_id : Z) (st : Z * list Z * ifg_state)
  : res (Z * list Z * ifg_state * bool) :=
  let '(g_size, group_face_ids, s) := st in
  m ← rd (face_marker s) f_id;
  if m =? -1 then
    f_ok ← face_ok cell_faces fc group_face_ids g_size f_id;
    '(g_size, group_face_ids, s) ←
      (if f_ok : bool then
         fm ← wr (face_marker s) f_id (group_id s);
         gfi ← wr group_face_ids g_size f_id;
         o2n ← wr (old_to_new s) f_id (n_marked_faces s);
         mret (g_size + 1, gfi,
               {| first_unmarked_face_id :=
                    if first_unmarked_face_id s =? f_id then f_id + 1
                    else first_unmarked_face_id s;
                  n_marked_faces := n_marked_faces s + 1;
                  group_id := group_id s;
                  face_marker := fm;
                  old_to_new := o2n;
                  _n_groups_max := _n_groups_max s;
                  _group_size := _group_size s |})
       else mret (g_size, group_face_ids, s));
    mret (g_size, group_face_ids, s, g_size =? max_group_size)
  else mret (g_size, group_face_ids, s, false).

Lemma scan_step (j : Z) (cur : list Z) (st : Z * list Z * ifg_state) :
  first_unmarked_face_id s0 <= j < n_faces ->
  scan_facts j cur st -> st.1.1 < max_group_size ->
  exists st' cur' b,
    scan_body j st = Ok (st', b)
    /\ scan_facts (j + 1) cur' st'
    /\ (b = false -> st'.1.1 < max_group_size)
    /\ (b = true -> 1 <= st'.1.1).
Proof using All.
  destruct st as [[g_size gfi] s]. simpl.
  intros Hj (H1 & H2 & H3 & H4 & H5 & H6 & H7 & H8 & H9 & H10 & H11 & H12 & H13
             & H14 & H15 & H16) Hlt.
  destruct (rd_in_range (face_marker s) j) as [m Hm]; [lia|].
  rewrite Hm. simpl.
  destruct (Z.eqb_spec m (-1)) as [->|Hne].
  2: { (* face already in a group *)
    exists (g_size, gfi, s), cur, false. split; [reflexivity|].
    split; [|split; [intros _; exact Hlt | discriminate]].
    simpl. repeat (split; [assumption|]).
    split; [|split; [exact H15|]].
    - intros i f Hi. destruct (H14 i f Hi) as (? & ? & ? & ? & ? & ?).
      repeat split; try assumption; lia.
    - intros [f [Hf Hf0]]. apply H16.
      destruct (decide (f = j)) as [->|Hnj]; [|exists f; split; [lia | exact Hf0]].
      exfalso. destruct (decide (j ∈ cur)) as [Hin|Hnin].
      + apply list_elem_of_lookup_1 in Hin. destruct Hin as [i Hi].
        destruct (H14 i j Hi) as (_ & ? & _). lia.
      + destruct (H15 j Hnin) as [Heq _]. congruence. }
  (* unmarked face *)
  assert (j ∉ cur) as Hnin.
  { intros Hin. apply list_elem_of_lookup_1 in Hin. destruct Hin as [i Hi].
    destruct (H14 i j Hi) as (_ & ? & _). lia. }
  destruct (face_ok_spec max_group_size n_cells_ext n_faces fc cell_faces
              max_pos fc_length
              cells_in_range graph_ok gfi cur j) as [b [Hb Hiff]].
  { intros i f Hi. destruct (H14 i f Hi) as (? & ? & ? & _). split; [assumption | lia]. }
  rewrite H1. rewrite Hb. simpl. destruct b.
  2: { (* the face conflicts with the group *)
    simpl. rewrite <- H1.
    destruct (Z.eqb_spec g_size max_group_size) as [Heq|_]; [lia|].
    exists (g_size, gfi, s), cur, false. split; [reflexivity|].
    split; [|split; [intros _; exact Hlt | discriminate]].
    simpl. repeat (split; [assumption|]).
    split; [|split; [exact H15|]].
    - intros i f Hi. destruct (H14 i f Hi) as (? & ? & ? & ? & ? & ?).
      repeat split; try assumption; lia.
    - intros _. destruct cur as [|f0 cur]; [|simpl in H1; lia].
      exfalso. assert (false = true) as Habs; [|discriminate Habs].
      apply Hiff. intros f Hf. inversion Hf. }
  (* the face joins the group *)
  assert (forall f, f ∈ cur -> ~ share_cell fc f j) as Hind
    by (apply Hiff; reflexivity).
  rewrite wr_in_range by lia. simpl.
  rewrite wr_in_range by lia. simpl.
  rewrite wr_in_range by lia. simpl.
  eexists (_, _, _), (cur ++ [j]), _. split; [reflexivity|].
  assert (rd (face_marker s0) j = Ok (-1)) as Hm0.
  { destruct (H15 j Hnin) as [<- _]. exact Hm. }
  split; [|split].
  - simpl. rewrite length_app. simpl.
    split; [lia|]. split; [lia|].
    split; [rewrite length_insert; exact H3|].
    split; [exact H4|]. split; [exact H5|]. split; [exact H6|].
    split; [lia|].
    split; [rewrite length_insert; exact H8|].
    split; [rewrite length_insert; exact H9|].
    split; [destruct (Z.eqb_spec (first_unmarked_face_id s) j); lia|].
    split.
    { intros f Hf.
      assert (rd (<[Z.to_nat j := group_id s]> (face_marker s)) j = Ok (group_id s))
        as Hj'.
      { apply rd_Ok. split; [lia|]. apply list_lookup_insert_eq. lia. }
      destruct (decide (f = j)) as [->|Hfj]; [rewrite Hj'; intros Heq; inversion Heq; lia|].
      unfold rd. destruct (Z.ltb_spec f 0); [discriminate|].
      rewrite list_lookup_insert_ne by lia.
      assert (f < first_unmarked_face_id s) as Hlt'.
      { destruct (Z.eqb_spec (first_unmarked_face_id s) j); lia. }
      specialize (H11 f ltac:(lia)). unfold rd in H11.
      destruct (Z.ltb_spec f 0); [lia | exact H11]. }
    split; [apply NoDup_app; split; [exact H12|]; split;
            [intros x Hx Hx'; apply list_elem_of_singleton in Hx'; subst x;
             contradiction | apply NoDup_singleton]|].
    split.
    { intros f f' Hf Hf' Hff'. apply elem_of_app in Hf, Hf'.
      destruct Hf as [Hf|Hf], Hf' as [Hf'|Hf'].
      - apply H13; assumption.
      - apply list_elem_of_singleton in Hf'. subst f'. apply Hind. exact Hf.
      - apply list_elem_of_singleton in Hf. subst f.
        intros [c [Hc Hc']]. apply (Hind f' Hf'). exists c. auto.
      - apply list_elem_of_singleton in Hf, Hf'. congruence. }
    split.
    { intros i f Hi. apply lookup_app_Some in Hi.
      destruct Hi as [Hi|[Hlen Hi]].
      - destruct (H14 i f Hi) as (Hg & Hr & Hn & Hfm & Ho & Hf0).
        pose proof (lookup_lt_Some _ _ _ Hi) as Hil.
        assert (f <> j) as Hfj by lia.
        apply rd_Ok in Hg, Hfm, Ho.
        split; [apply rd_Ok; split; [lia|];
                rewrite list_lookup_insert_ne by lia; tauto|].
        split; [lia|]. split; [exact Hn|].
        split; [apply rd_Ok; split; [lia|];
                rewrite list_lookup_insert_ne by lia; tauto|].
        split; [apply rd_Ok; split; [lia|];
                rewrite list_lookup_insert_ne by lia; tauto | exact Hf0].
      - apply list_lookup_singleton_Some in Hi. destruct Hi as [Hi0 <-].
        assert (i = length cur) as -> by lia.
        split; [apply rd_Ok; split; [lia|]; rewrite Nat2Z.id;
                apply list_lookup_insert_eq; lia|].
        split; [lia|]. split; [lia|].
        split; [apply rd_Ok; split; [lia|]; rewrite <- H4;
                apply list_lookup_insert_eq; lia|].
        split; [|exact Hm0].
        apply rd_Ok. split; [lia|]. rewrite H7, H1.
        apply list_lookup_insert_eq. lia. }
    split.
    { intros f Hf. rewrite elem_of_app, list_elem_of_singleton in Hf.
      assert (f <> j) as Hfj by tauto.
      destruct (H15 f ltac:(tauto)) as [<- <-].
      unfold rd. destruct (Z.ltb_spec f 0); [auto|].
      rewrite !list_lookup_insert_ne by lia. auto. }
    intros _. lia.
  - simpl. intros Hbrk. apply Z.eqb_neq in Hbrk. lia.
  - simpl. intros _. lia.
Qed.

End GroupScan.

Lemma elem_of_concat {A} (x : A) (ls : list (list A)) :
  x ∈ concat ls <-> exists l, l ∈ ls /\ x ∈ l.
Proof.
  rewrite list_elem_of_In, in_concat. split; intros [l [H1 H2]]; exists l.
  - rewrite !list_elem_of_In. auto.
  - rewrite <- !list_elem_of_In. auto.
Qed.

Lemma concat_snoc {A} (ls : list (list A)) (l : list A) :
  concat (ls ++ [l]) = concat ls ++ l.
Proof. rewrite concat_app. simpl. rewrite app_nil_r. reflexivity. Qed.

Lemma BFT_REALLOC_length (a : list Z) (n : Z) :
  length (BFT_REALLOC a n) = Z.to_nat n.
Proof.
  unfold BFT_REALLOC. rewrite length_app, length_take, length_replicate. lia.
Qed.

Lemma BFT_REALLOC_lookup (a : list Z) (n : Z) (i : nat) :
  (i < length a)%nat -> (i < Z.to_nat n)%nat ->
  BFT_REALLOC a n !! i = a !! i.
Proof.
  intros Hi Hn. unfold BFT_REALLOC.
  rewrite lookup_app_l by (rewrite length_take; lia).
  apply lookup_take_lt. exact Hn.
Qed.

(** A duplicate-free list of faces shorter than [n] misses a face. *)
Lemma missing_face (l : list Z) (n : Z) :
  0 <= n -> NoDup l -> (forall f, f ∈ l -> 0 <= f < n) ->
  (Z.of_nat (length l) <= n)
  /\ (Z.of_nat (length l) <> n -> exists f, 0 <= f < n /\ f ∉ l).
Proof.
  intros Hn Hnd Hr.
  assert (Z.of_nat (length l) <= n) as Hle.
  { assert (l ⊆+ seqZ 0 n) as Hsub.
    { apply NoDup_submseteq; [exact Hnd|].
      intros f Hf. apply elem_of_seqZ. specialize (Hr f Hf). lia. }
    apply submseteq_length in Hsub. rewrite length_seqZ in Hsub. lia. }
  split; [exact Hle|]. intros Hne.
  destruct (decide (Forall (fun f => f ∈ l) (seqZ 0 n))) as [Hall|Hnall].
  - exfalso. rewrite Forall_forall in Hall.
    assert (seqZ 0 n ⊆+ l) as Hsub by (apply NoDup_submseteq; [apply NoDup_seqZ | exact Hall]).
    apply submseteq_length in Hsub. rewrite length_seqZ in Hsub. lia.
  - apply not_Forall_Exists in Hnall; [|intros f; apply _].
    apply Exists_exists in Hnall. destruct Hnall as [f [Hf Hnin]].
    exists f. apply elem_of_seqZ in Hf. split; [lia | exact Hnin].
Qed.

Section GroupLoop.

Variables (max_group_size n_cells_ext n_faces : Z) (fc : list (Z * Z))
          (cell_faces : _csr_graph_t).

Hypothesis max_pos : 1 <= max_group_size.
Hypothesis fc_length : Z.of_nat (length fc) = n_faces.
Hypothesis cells_in_range : forall f c, touches fc f c -> 0 <= c < n_cells_ext.
Hypothesis graph_ok : csr_cell_faces n_cells_ext fc cell_faces.

(** The groups completed so far, [groups], and the state of the loop. *)
Definition groups_inv (groups : list (list Z)) (s : ifg_state) : Prop :=
  Z.of_nat (length (face_marker s)) = n_faces
  /\ Z.of_nat (length (old_to_new s)) = n_faces
  /\ group_id s = Z.of_nat (length groups)
  /\ n_marked_faces s = Z.of_nat (length (concat groups))
  /\ 0 <= first_unmarked_face_id s <= n_faces
  /\ (forall f, 0 <= f < first_unmarked_face_id s ->
                rd (face_marker s) f <> Ok (-1))
  /\ group_id s < _n_groups_max s
  /\ Z.of_nat (length (_group_size s)) = _n_groups_max s
  /\ NoDup (concat groups)
  /\ (forall i f, concat groups !! i = Some f ->
        0 <= f < n_faces /\ rd (old_to_new s) f = Ok (Z.of_nat i))
  /\ (forall f, f ∉ concat groups -> 0 <= f < n_faces ->
                rd (face_marker s) f = Ok (-1))
  /\ (forall g l, groups !! g = Some l ->
        1 <= Z.of_nat (length l) <= max_group_size
        /\ (forall f, f ∈ l <-> rd (face_marker s) f = Ok (Z.of_nat g))
        /\ independent fc l
        /\ rd (_group_size s) (Z.of_nat g) = Ok (Z.of_nat (length l))).

Lemma groups_inv_marker (groups : list (list Z)) (s : ifg_state) (f m : Z) :
  groups_inv groups s -> rd (face_marker s) f = Ok m ->
  (f ∈ concat groups /\ 0 <= m < group_id s) \/ ((f ∉ concat groups) /\ m = -1).
Proof using All.
  intros (Hfm & _ & Hg & _ & _ & _ & _ & _ & _ & _ & Hun & Hgr) Hm.
  destruct (decide (f ∈ concat groups)) as [Hin|Hnin].
  - left. split; [exact Hin|].
    apply elem_of_concat in Hin. destruct Hin as [l [Hl Hf]].
    apply list_elem_of_lookup_1 in Hl. destruct Hl as [g Hl].
    destruct (Hgr g l Hl) as (_ & Hiff & _).
    apply Hiff in Hf. rewrite Hf in Hm. inversion Hm. subst m.
    apply lookup_lt_Some in Hl. lia.
  - right. split; [exact Hnin|].
    apply rd_lt in Hm as Hr. rewrite (Hun f Hnin) in Hm by lia. congruence.
Qed.

Lemma groups_inv_unmarked (groups : list (list Z)) (s : ifg_state) :
  groups_inv groups s ->
  n_marked_faces s <= n_faces
  /\ (n_marked_faces s <> n_faces ->
      exists f, first_unmarked_face_id s <= f < n_faces
                /\ rd (face_marker s) f = Ok (-1)).
Proof using All.
  intros Hinv.
  pose proof Hinv as (Hfm & _ & _ & Hnm & Hfu & Hfum & _ & _ & Hnd & Hd & Hun & _).
  destruct (missing_face (concat groups) n_faces) as [Hle Hex].
  - lia.
  - exact Hnd.
  - intros f Hf. apply list_elem_of_lookup_1 in Hf. destruct Hf as [i Hi].
    apply (Hd i f Hi).
  - split; [lia|]. intros Hne.
    destruct Hex as [f [Hr Hnin]]; [lia|].
    exists f. pose proof (Hun f Hnin Hr) as Hm. split; [|exact Hm].
    destruct (Z.lt_ge_cases f (first_unmarked_face_id s)) as [Hlt|Hge]; [|lia].
    exfalso. apply (Hfum f); [lia | exact Hm].
Qed.

(** One iteration of the grouping loop builds a non-empty group. *)
Lemma ifg_group_spec (groups : list (list Z)) (s0 : ifg_state) :
  groups_inv groups s0 ->
  n_marked_faces s0 <> n_faces ->
  exists s' cur,
    ifg_group max_group_size n_faces fc cell_faces s0 = Ok s'
    /\ groups_inv (groups ++ [cur]) s'
    /\ n_marked_faces s0 < n_marked_faces s'.
Proof using All.
  intros Hinv Hne.
  pose proof Hinv as (Hfm & Ho2n & Hg & Hnm & Hfu & Hfum & Hgmax & Hgs & Hnd
                      & Hd & Hun & Hgr).
  destruct (groups_inv_unmarked groups s0 Hinv) as [Hle Hex].
  specialize (Hex Hne).
  assert (0 <= group_id s0) as Hg0 by lia.
  unfold ifg_group.
  change (for_range_break ?n ?i _ ?s)
    with (for_range_break n i (scan_body max_group_size fc cell_faces) s).
  destruct (for_range_break_inv
              (fun j st => (exists cur, scan_facts max_group_size n_faces fc s0 j cur st)
                           /\ st.1.1 < max_group_size)
              (fun st => exists cur,
                   scan_facts max_group_size n_faces fc s0 n_faces cur st
                   /\ 1 <= st.1.1)
              (Z.to_nat (n_faces - first_unmarked_face_id s0))
              (first_unmarked_face_id s0)
              (scan_body max_group_size fc cell_faces)
              (0, replicate (Z.to_nat max_group_size) (-1), s0))
    as [[[g_size gfi] s1] [Hscan [cur [Hfacts Hpos]]]].
  - split; [|simpl; lia]. exists []. simpl.
    split; [reflexivity|]. split; [lia|].
    split; [rewrite length_replicate; lia|].
    do 3 (split; [reflexivity|]). split; [lia|].
    split; [exact Hfm|]. split; [exact Ho2n|]. split; [lia|].
    split; [exact Hfum|]. split; [apply NoDup_nil_2|].
    split; [intros f f' Hf; inversion Hf|].
    split; [intros i f Hi; discriminate|].
    split; [intros f _; auto|].
    intros [f [Hf _]]. lia.
  - intros j st Hj [[cur Hfacts] Hlt].
    destruct (scan_step max_group_size n_cells_ext n_faces fc cell_faces s0
                max_pos fc_length cells_in_range graph_ok Hfm Ho2n Hfu Hfum Hg0
                j cur st
                ltac:(lia) Hfacts Hlt)
      as (st' & cur' & b & Hbody & Hfacts' & Hcont & Hbrk).
    exists st', b. split; [exact Hbody|]. split.
    + intros Hb. split; [exists cur'; exact Hfacts' | apply Hcont; exact Hb].
    + intros Hb. exists cur'. split; [|apply Hbrk; exact Hb].
      apply (scan_facts_weaken max_group_size n_cells_ext n_faces fc cell_faces
               s0 max_pos fc_length cells_in_range graph_ok Hfm Ho2n Hfu Hfum
               Hg0 (j + 1));
        [exact Hfacts' | lia | apply Hbrk; exact Hb].
  - intros st [[cur Hfacts] Hlt]. exists cur.
    replace (first_unmarked_face_id s0
             + Z.of_nat (Z.to_nat (n_faces - first_unmarked_face_id s0)))
      with n_faces in Hfacts by lia.
    split; [exact Hfacts|].
    destruct st as [[g_size gfi] s1]. simpl in *.
    destruct Hfacts as (_ & _ & _ & _ & _ & _ & _ & _ & _ & _ & _ & _ & _ & _ & _ & Hprog).
    apply Hprog. exact Hex.
  - rewrite Hscan. simpl mbind at 1. simpl in Hpos.
    destruct Hfacts as (H1 & H2 & H3 & H4 & H5 & H6 & H7 & H8 & H9 & H10 & H11
                        & H12 & H13 & H14 & H15 & _).
    (* faces of the new group were unmarked, hence in no earlier group *)
    assert (forall f, f ∈ cur -> f ∉ concat groups) as Hdisj.
    { intros f Hf Hin. apply list_elem_of_lookup_1 in Hf. destruct Hf as [i Hi].
      destruct (H14 i f Hi) as (_ & _ & _ & _ & _ & Hf0).
      destruct (groups_inv_marker groups s0 f (-1) Hinv Hf0) as [[_ ?]|[? _]];
        [lia | contradiction]. }
    set (gs1 := if _n_groups_max s1 <=? group_id s1 + 1
                then (_n_groups_max s1 * 2,
                      BFT_REALLOC (_group_size s1) (_n_groups_max s1 * 2))
                else (_n_groups_max s1, _group_size s1)).
    assert (group_id s0 + 1 < gs1.1
            /\ Z.of_nat (length gs1.2) = gs1.1
            /\ forall i, (i < length (_group_size s0))%nat ->
                         gs1.2 !! i = _group_size s0 !! i) as (Hmax' & Hlen' & Hold).
    { unfold gs1. rewrite H4, H5, H6.
      destruct (Z.leb_spec (_n_groups_max s0) (group_id s0 + 1)); simpl.
      - split; [lia|]. split; [rewrite BFT_REALLOC_length; lia|].
        intros i Hi. apply BFT_REALLOC_lookup; lia.
      - split; [lia|]. split; [exact Hgs|]. reflexivity. }
    destruct gs1 as [n_max gs]. simpl in Hmax', Hlen', Hold.
    rewrite H4. rewrite wr_in_range by lia. simpl.
    eexists _, cur. split; [reflexivity|]. split; [|simpl; lia].
    unfold groups_inv. simpl.
    rewrite concat_snoc, !length_app. simpl.
    split; [exact H8|]. split; [exact H9|].
    split; [lia|]. split; [lia|]. split; [lia|]. split; [exact H11|].
    split; [lia|]. split; [rewrite length_insert; exact Hlen'|].
    split.
    { apply NoDup_app. split; [exact Hnd|]. split; [|exact H12].
      intros f Hf Hf'. apply (Hdisj f Hf' Hf). }
    split.
    { intros i f Hi. apply lookup_app_Some in Hi. destruct Hi as [Hi|[Hlen Hi]].
      - destruct (Hd i f Hi) as [Hr Ho]. split; [exact Hr|].
        assert (f ∉ cur) as Hnin.
        { intros Hf. apply (Hdisj f Hf). eapply list_elem_of_lookup_2. exact Hi. }
        destruct (H15 f Hnin) as [_ ->]. exact Ho.
      - destruct (H14 _ _ Hi) as (_ & Hr & Hn & _ & Ho & _).
        split; [lia|]. rewrite Ho. f_equal. lia. }
    split.
    { intros f Hnin Hr. rewrite elem_of_app in Hnin.
      destruct (H15 f ltac:(tauto)) as [-> _]. apply Hun; [tauto | exact Hr]. }
    intros g l Hl. apply lookup_app_Some in Hl. destruct Hl as [Hl|[Hlen Hl]].
    + destruct (Hgr g l Hl) as (Hsz & Hiff & Hind & Hsize).
      pose proof (lookup_lt_Some _ _ _ Hl) as Hgl.
      split; [exact Hsz|]. split; [|split; [exact Hind|]].
      * intros f. destruct (decide (f ∈ cur)) as [Hf|Hf].
        -- apply list_elem_of_lookup_1 in Hf as Hf'. destruct Hf' as [i Hi].
           destruct (H14 i f Hi) as (_ & _ & _ & Hm & _). rewrite Hm. split.
           ++ intros Hfl. exfalso. apply (Hdisj f Hf).
              apply elem_of_concat. exists l. split; [|exact Hfl].
              eapply list_elem_of_lookup_2. exact Hl.
           ++ intros Heq. inversion Heq. lia.
        -- destruct (H15 f Hf) as [-> _]. apply Hiff.
      * apply rd_Ok in Hsize. apply rd_Ok. split; [lia|].
        rewrite list_lookup_insert_ne by lia.
        rewrite Hold; [tauto|]. destruct Hsize as [_ Hsize].
        apply lookup_lt_Some in Hsize. lia.
    + apply list_lookup_singleton_Some in Hl. destruct Hl as [Hg' <-].
      assert (Z.of_nat g = group_id s0) as Hgeq by lia.
      split; [lia|]. split; [|split; [exact H13|]].
      * intros f. split.
        -- intros Hf. apply list_elem_of_lookup_1 in Hf. destruct Hf as [i Hi].
           destruct (H14 i f Hi) as (_ & _ & _ & Hm & _). rewrite Hm, Hgeq. reflexivity.
        -- intros Hm. destruct (decide (f ∈ cur)) as [Hf|Hf]; [exact Hf|].
           exfalso. destruct (H15 f Hf) as [Heq _]. rewrite Heq in Hm.
           destruct (groups_inv_marker groups s0 f _ Hinv Hm) as [[_ ?]|[_ ?]]; lia.
      * rewrite Hgeq. apply rd_Ok. split; [lia|].
        rewrite list_lookup_insert_eq by lia. f_equal. lia.
Qed.

End GroupLoop.

(** A duplicate-free list of [n] indices below [n] lists every index. *)
Lemma NoDup_range_Permutation (l : list Z) (n : Z) :
  NoDup l -> (forall f, f ∈ l -> 0 <= f < n) -> Z.of_nat (length l) = n ->
  l ≡ₚ seqZ 0 n.
Proof.
  intros Hnd Hr Hlen.
  apply submseteq_length_Permutation.
  - apply NoDup_submseteq; [exact Hnd|].
    intros f Hf. apply elem_of_seqZ. specialize (Hr f Hf). lia.
  - rewrite length_seqZ. lia.
Qed.

(** The loop that clears [face_marker] and sets [old_to_new] to the
    identity. *)
Lemma marker_init_loop (n : Z) :
  0 <= n ->
  exists fm o2n,
    for_loop 0 n
      (fun f_id '(fm, o2n) =>
         fm ← wr fm f_id (-1);
         o2n ← wr o2n f_id f_id;
         mret (fm, o2n))
      (BFT_MALLOC n, BFT_MALLOC n) = Ok (fm, o2n)
    /\ Z.of_nat (length fm) = n /\ Z.of_nat (length o2n) = n
    /\ forall f, 0 <= f < n -> rd fm f = Ok (-1).
Proof.
  intros Hn.
  destruct (for_loop_inv
              (fun j (st : list Z * list Z) =>
                 Z.of_nat (length st.1) = n /\ Z.of_nat (length st.2) = n
                 /\ forall f, 0 <= f < j -> rd st.1 f = Ok (-1))
              0 n
              (fun f_id '(fm, o2n) =>
                 fm ← wr fm f_id (-1);
                 o2n ← wr o2n f_id f_id;
                 mret (fm, o2n))
              (BFT_MALLOC n, BFT_MALLOC n) Hn)
    as [[fm o2n] [Hrun (H1 & H2 & H3)]].
  - simpl. rewrite !BFT_MALLOC_length by lia. repeat split. intros f Hf. lia.
  - intros j [fm o2n] Hj (H1 & H2 & H3). simpl in *.
    rewrite !wr_in_range by lia. simpl.
    eexists. split; [reflexivity|]. simpl.
    rewrite !length_insert. repeat split; try assumption.
    intros f Hf. destruct (decide (f = j)) as [->|Hne].
    + apply rd_Ok. split; [lia|]. apply list_lookup_insert_eq. lia.
    + specialize (H3 f ltac:(lia)). apply rd_Ok in H3. apply rd_Ok.
      split; [lia|]. rewrite list_lookup_insert_ne by lia. tauto.
  - exists fm, o2n. simpl in *. auto.
Qed.

(** The loop that inverts [old_to_new] writes the groups, one after the
    other, into [new_to_old]. *)
Lemma invert_loop (n : Z) (o2n n2o0 l : list Z) :
  Z.of_nat (length l) = n -> Z.of_nat (length n2o0) = n ->
  (forall f, 0 <= f < n -> f ∈ l) ->
  (forall i f, l !! i = Some f -> 0 <= f < n /\ rd o2n f = Ok (Z.of_nat i)) ->
  for_loop 0 n (fun f_id n2o => p ← rd o2n f_id; wr n2o p f_id) n2o0 = Ok l.
Proof.
  intros Hl Hn0 Hall Hd.
  destruct (for_loop_inv
              (fun j (n2o : list Z) =>
                 Z.of_nat (length n2o) = n
                 /\ forall i f, l !! i = Some f -> f < j -> n2o !! i = Some f)
              0 n (fun f_id n2o => p ← rd o2n f_id; wr n2o p f_id) n2o0)
    as [n2o [Hrun [Hlen Hcont]]].
  - lia.
  - split; [exact Hn0|]. intros i f Hi Hf. destruct (Hd i f Hi). lia.
  - intros j n2o Hj [Hlen Hcont].
    destruct (list_elem_of_lookup_1 _ _ (Hall j Hj)) as [i Hi].
    destruct (Hd i j Hi) as [_ Ho]. rewrite Ho. simpl.
    pose proof (lookup_lt_Some _ _ _ Hi) as Hil.
    rewrite wr_in_range by lia. eexists. split; [reflexivity|].
    rewrite length_insert. split; [exact Hlen|].
    intros i' f Hi' Hf. rewrite Nat2Z.id.
    destruct (decide (i' = i)) as [->|Hne].
    + rewrite list_lookup_insert_eq by lia. congruence.
    + rewrite list_lookup_insert_ne by lia. apply Hcont; [exact Hi'|].
      assert (f <> j); [|lia]. intros ->.
      destruct (Hd i' j Hi') as [_ Ho']. rewrite Ho in Ho'. inversion Ho'. lia.
  - rewrite Hrun. f_equal. apply list_eq. intros i.
    destruct (l !! i) as [f|] eqn:Hi.
    + destruct (Hd i f Hi). apply Hcont; [exact Hi | lia].
    + apply lookup_ge_None in Hi. apply lookup_ge_None. lia.
Qed.

Section GroupsTotal.

Variables (max_group_size n_cells_ext n_faces : Z) (fc : list (Z * Z)).

Hypothesis max_pos : 1 <= max_group_size.
Hypothesis cells_ext_nonneg : 0 <= n_cells_ext.
Hypothesis fc_length : Z.of_nat (length fc) = n_faces.
Hypothesis cells_in_range : forall f c, touches fc f c -> 0 <= c < n_cells_ext.

(** With at least [n_faces] units of fuel the grouping loop ends, with
    every face in a group. *)
Lemma ifg_loop_total (fuel : nat) :
  (Z.to_nat n_faces <= fuel)%nat ->
  exists s groups,
    ifg_loop fuel max_group_size n_cells_ext n_faces fc = Ok s
    /\ groups_inv max_group_size n_faces fc groups s
    /\ n_marked_faces s = n_faces.
Proof using All.
  intros Hfuel. unfold ifg_loop.
  destruct (csr_graph_create_cell_face_spec n_cells_ext n_faces fc
              cells_ext_nonneg fc_length)
    as [g [Hg Hgraph]].
  { intros c f. apply cells_in_range. }
  rewrite Hg. simpl mbind at 1.
  destruct (marker_init_loop n_faces ltac:(lia)) as (fm & o2n & Hinit & Hfm & Ho2n & Hm).
  rewrite Hinit. simpl mbind at 1.
  destruct (while_loop_inv
              (fun s => exists groups, groups_inv max_group_size n_faces fc groups s)
              (fun s => Z.to_nat (n_faces - n_marked_faces s))
              fuel
              (fun s => mret (negb (n_marked_faces s =? n_faces)))
              (ifg_group max_group_size n_faces fc g)
              {| first_unmarked_face_id := 0; n_marked_faces := 0; group_id := 0;
                 face_marker := fm; old_to_new := o2n; _n_groups_max := 4;
                 _group_size := BFT_MALLOC 4 |})
    as (s & Hrun & [groups Hinv] & Hcond).
  - exists []. unfold groups_inv. simpl.
    split; [exact Hfm|]. split; [exact Ho2n|].
    do 2 (split; [reflexivity|]). split; [lia|]. split; [intros f Hf; lia|].
    split; [lia|]. split; [reflexivity|]. split; [apply NoDup_nil_2|].
    split; [intros i f Hi; discriminate|].
    split; [intros f _ Hf; apply Hm; exact Hf|].
    intros i l Hl. discriminate.
  - simpl. lia.
  - intros s [groups Hinv]. eexists. split; [reflexivity|].
    intros Hne. apply negb_true_iff in Hne. apply Z.eqb_neq in Hne.
    destruct (ifg_group_spec max_group_size n_cells_ext n_faces fc g
                max_pos fc_length cells_in_range Hgraph groups s Hinv Hne)
      as (s' & cur & Hs' & Hinv' & Hlt).
    exists s'. split; [exact Hs'|]. split; [exists (groups ++ [cur]); exact Hinv'|].
    destruct (groups_inv_unmarked max_group_size n_cells_ext n_faces fc g
                max_pos fc_length cells_in_range Hgraph _ _ Hinv') as [Hle _].
    lia.
  - exists s, groups. split; [exact Hrun|]. split; [exact Hinv|].
    inversion Hcond as [Hc]. apply negb_false_iff in Hc. apply Z.eqb_eq in Hc.
    exact Hc.
Qed.

(** [_independent_face_groups] returns, and its three outputs describe a
    list of groups of faces: [new_to_old] is their concatenation,
    [n_groups] their number and [group_size] their sizes.  The groups hold
    every face once, are not empty, have at most [max_group_size] faces,
    and no two faces of a group share a cell. *)
Lemma independent_face_groups_total (fuel : nat) (new_to_old : list Z) :
  Z.of_nat (length new_to_old) = n_faces ->
  (Z.to_nat n_faces <= fuel)%nat ->
  exists groups,
    _independent_face_groups fuel max_group_size n_cells_ext n_faces fc
      new_to_old
    = Ok (concat groups, Z.of_nat (length groups),
          (fun l => Z.of_nat (length l)) <$> groups)
    /\ concat groups ≡ₚ seqZ 0 n_faces
    /\ (forall l, l ∈ groups ->
          1 <= Z.of_nat (length l) <= max_group_size /\ independent fc l)
    /\ (forall g g' l l' f, groups !! g = Some l -> groups !! g' = Some l' ->
          f ∈ l -> f ∈ l' -> g = g').
Proof using All.
  intros Hn2o Hfuel.
  destruct (ifg_loop_total fuel Hfuel) as (s & groups & Hrun & Hinv & Hall).
  pose proof Hinv as (Hfm & Ho2n & Hg & Hnm & Hfu & Hfum & Hgmax & Hgs & Hnd
                      & Hd & Hun & Hgr).
  assert (concat groups ≡ₚ seqZ 0 n_faces) as Hperm.
  { apply NoDup_range_Permutation; [exact Hnd | | lia].
    intros f Hf. apply list_elem_of_lookup_1 in Hf. destruct Hf as [i Hi].
    apply (Hd i f Hi). }
  exists groups. unfold _independent_face_groups. rewrite Hrun. simpl mbind at 1.
  rewrite (invert_loop n_faces (old_to_new s) new_to_old (concat groups)).
  - simpl. split; [|split; [exact Hperm|split]].
    + rewrite Hg. do 2 f_equal.
      unfold BFT_REALLOC. rewrite Nat2Z.id.
      replace (length groups - length (_group_size s))%nat with O by lia.
      simpl. rewrite app_nil_r. apply list_eq. intros i.
      rewrite list_lookup_fmap.
      destruct (groups !! i) as [l|] eqn:Hi; simpl.
      * destruct (Hgr i l Hi) as (_ & _ & _ & Hsz). apply rd_Ok in Hsz.
        rewrite Nat2Z.id in Hsz. apply lookup_lt_Some in Hi.
        rewrite lookup_take_lt by lia. tauto.
      * apply lookup_ge_None in Hi. apply lookup_ge_None.
        rewrite length_take. lia.
    + intros l Hl. apply list_elem_of_lookup_1 in Hl. destruct Hl as [g Hl].
      destruct (Hgr g l Hl) as (Hsz & Hiff & Hind & _).
      split; [exact Hsz | exact Hind].
    + intros g g' l l' f Hl Hl' Hf Hf'.
      destruct (Hgr g l Hl) as (_ & Hiff & _).
      destruct (Hgr g' l' Hl') as (_ & Hiff' & _).
      apply Hiff in Hf. apply Hiff' in Hf'. rewrite Hf in Hf'.
      inversion Hf'. lia.
  - lia.
  - exact Hn2o.
  - intros f Hf. rewrite Hperm. apply elem_of_seqZ. lia.
  - exact Hd.
Qed.

End GroupsTotal.

(** Cells of a face table whose entries are all below [n_cells_ext]. *)
Definition cells_below (n_cells_ext : Z) (fc : list (Z * Z)) : Prop :=
  Forall (fun p => (0 <= p.1 < n_cells_ext) /\ (0 <= p.2 < n_cells_ext)) fc.

Lemma cells_below_touches (n_cells_ext : Z) (fc : list (Z * Z)) :
  cells_below n_cells_ext fc ->
  forall f c, touches fc f c -> 0 <= c < n_cells_ext.
Proof.
  intros Hall f c [p [Hp Hc]]. apply rd_Ok in Hp. destruct Hp as [_ Hp].
  unfold cells_below in Hall. rewrite Forall_lookup in Hall.
  specialize (Hall _ _ Hp). destruct Hc as [<-|<-]; tauto.
Qed.

(** C6: [_independent_face_groups] returns whenever [max_group_size >= 1]
    and the loop is given [n_faces] iterations (the face table has
    [n_faces >= 0] entries, with cells below [n_cells_ext]).  Its outputs
    describe groups of faces: [new_to_old] is the concatenation of the
    groups in group order, every face is in one group and one only, every
    group has at most [max_group_size] faces (and at least one), and no two
    faces of a group share a cell. *)
Theorem independent_face_groups_correct (fuel : nat)
    (max_group_size n_cells_ext n_faces : Z) (face_cell : list (Z * Z))
    (new_to_old : list Z) :
  1 <= max_group_size ->
  0 <= n_cells_ext ->
  Z.of_nat (length face_cell) = n_faces ->
  cells_below n_cells_ext face_cell ->
  Z.of_nat (length new_to_old) = n_faces ->
  (Z.to_nat n_faces <= fuel)%nat ->
  exists groups,
    _independent_face_groups fuel max_group_size n_cells_ext n_faces face_cell
      new_to_old
    = Ok (concat groups, Z.of_nat (length groups),
          (fun l => Z.of_nat (length l)) <$> groups)
    /\ (forall f, 0 <= f < n_faces ->
          exists g l, groups !! g = Some l /\ f ∈ l
                      /\ forall g' l', groups !! g' = Some l' -> f ∈ l' -> g' = g)
    /\ (forall l, l ∈ groups -> 1 <= Z.of_nat (length l) <= max_group_size)
    /\ (forall l f f', l ∈ groups -> f ∈ l -> f' ∈ l -> f <> f' ->
          ~ share_cell face_cell f f').
Proof.
  intros Hmax Hext Hfc Hcells Hn2o Hfuel.
  destruct (independent_face_groups_total max_group_size n_cells_ext n_faces
              face_cell Hmax Hext Hfc (cells_below_touches _ _ Hcells)
              fuel new_to_old Hn2o Hfuel)
    as (groups & Hrun & Hperm & Hgroups & Huniq).
  exists groups. split; [exact Hrun|]. split; [|split].
  - intros f Hf.
    assert (f ∈ concat groups) as Hin.
    { rewrite Hperm. apply elem_of_seqZ. lia. }
    apply elem_of_concat in Hin. destruct Hin as [l [Hl Hfl]].
    apply list_elem_of_lookup_1 in Hl. destruct Hl as [g Hl].
    exists g, l. split; [exact Hl|]. split; [exact Hfl|].
    intros g' l' Hl' Hfl'. apply (Huniq g' g l' l f Hl' Hl Hfl' Hfl).
  - intros l Hl. apply (Hgroups l Hl).
  - intros l f f' Hl Hf Hf' Hne.
    destruct (Hgroups l Hl) as [_ Hind]. apply (Hind f f' Hf Hf' Hne).
Qed.

Lemma independent_face_groups_correct_witness :
  exists groups,
    _independent_face_groups 3 2 3 3 [(0, 1); (1, 2); (0, 2)] [0; 1; 2]
    = Ok (concat groups, Z.of_nat (length groups),
          (fun l => Z.of_nat (length l)) <$> groups)
    /\ (forall f, 0 <= f < 3 ->
          exists g l, groups !! g = Some l /\ f ∈ l
                      /\ forall g' l', groups !! g' = Some l' -> f ∈ l' -> g' = g)
    /\ (forall l, l ∈ groups -> 1 <= Z.of_nat (length l) <= 2)
    /\ (forall l f f', l ∈ groups -> f ∈ l -> f' ∈ l -> f <> f' ->
          ~ share_cell [(0, 1); (1, 2); (0, 2)] f f').
Proof.
  apply (independent_face_groups_correct 3 2 3 3 [(0, 1); (1, 2); (0, 2)]
           [0; 1; 2]).
  - lia.
  - lia.
  - reflexivity.
  - unfold cells_below. repeat constructor; simpl; lia.
  - reflexivity.
  - simpl. lia.
Defined.

(** ** Permutations returned by the renumbering algorithms *)

(** The table of sort keys built at the end of the multipass algorithm has
    one entry per face. *)
Lemma final_faces_keys_length (n_faces : Z) (i_face_cells : list (Z * Z))
      (f_t_id : list Z) (keys : list (list Z)) :
  final_faces_keys n_faces i_face_cells f_t_id = Ok keys ->
  length keys = Z.to_nat n_faces.
Proof.
  unfold final_faces_keys. intros Hrun.
  destruct (Z.le_gt_cases n_faces 0) as [Hle|Hgt].
  - rewrite for_loop_empty in Hrun by lia. inversion Hrun.
    replace (Z.to_nat n_faces) with O by lia. reflexivity.
  - apply (for_loop_inv_Ok (fun j (keys : list (list Z)) =>
                              length keys = Z.to_nat j)) in Hrun.
    + exact Hrun.
    + lia.
    + reflexivity.
    + intros j s s' Hj Hlen Hbody.
      repeat inv_ok Hbody. rewrite length_app, Hlen. simpl. lia.
Qed.

(** The numbering written by "build final numbering and index" is the
    head of [faces_list]. *)
Lemma multipass_build_index_new_to_old (n_faces n_i_threads n_groups : Z)
      (faces_list f_t_id new_to_old_i gi : list Z) :
  multipass_build_index n_faces n_i_threads n_groups faces_list f_t_id
  = Ok (new_to_old_i, gi) ->
  new_to_old_i = take (Z.to_nat n_faces) faces_list.
Proof.
  unfold multipass_build_index. intros Hrun.
  inv_ok Hrun. inv_ok Hrun. inv_ok Hrun.
  destruct a1 as [n2o gi1]. inv_ok Hrun. destruct a1 as [f_last gi2].
  inv_ok Hrun. inv_ok Hrun. clear - Ha1.
  destruct (Z.le_gt_cases n_faces 0) as [Hle|Hgt].
  - rewrite for_loop_empty in Ha1 by lia. inversion Ha1.
    unfold BFT_MALLOC. replace (Z.to_nat n_faces) with O by lia. reflexivity.
  - apply (for_loop_inv_Ok
             (fun j (st : list Z * list Z) =>
                length st.1 = Z.to_nat n_faces
                /\ forall i, (i < Z.to_nat j)%nat ->
                             exists v, st.1 !! i = Some v
                                       /\ faces_list !! i = Some v)) in Ha1.
    + simpl in Ha1. destruct Ha1 as [Hlen Hall]. apply list_eq. intros i.
      destruct (Nat.lt_ge_cases i (Z.to_nat n_faces)) as [Hlt|Hge].
      * destruct (Hall i Hlt) as [v [Hv Hf]].
        rewrite lookup_take_lt by lia. congruence.
      * rewrite (proj2 (lookup_ge_None _ _)) by lia.
        symmetry. apply lookup_ge_None. rewrite length_take. lia.
    + lia.
    + simpl. unfold BFT_MALLOC. rewrite length_replicate.
      split; [reflexivity|]. intros i Hi. lia.
    + intros j [n2o1 gi3] [n2o2 gi4] Hj [Hlen Hall] Hbody. simpl in *.
      inv_ok Hbody. inv_ok Hbody. inv_ok Hbody. inv_ok Hbody. inv_ok Hbody.
      inv_ok Hbody. inv_ok Hbody. inv_ok Hbody.
      apply wr_Ok in Ha0. destruct Ha0 as [Hr ->].
      rewrite length_insert. split; [exact Hlen|].
      intros i Hi. destruct (decide (i = Z.to_nat j)) as [->|Hne].
      * exists a. rewrite list_lookup_insert_eq by lia.
        apply rd_Ok in Ha. tauto.
      * destruct (Hall i ltac:(lia)) as [v [Hv Hf]].
        exists v. rewrite list_lookup_insert_ne by lia. tauto.
Qed.

(** Whenever the multipass algorithm returns a numbering, it is the sorted
    order of the faces' keys. *)
Lemma multipass_new_to_old (fuel : nat) (mesh : cs_mesh_t)
      (n_i_threads min_i_subset_size status : Z) (out : renum_out) :
  _renum_face_multipass fuel mesh n_i_threads min_i_subset_size
  = Ok (status, Some out) ->
  new_to_old out ≡ₚ seqZ 0 (n_i_faces mesh).
Proof.
  unfold _renum_face_multipass. intros Hrun.
  destruct (n_i_faces mesh <=? min_i_subset_size); [discriminate Hrun|].
  inv_ok Hrun. inv_ok Hrun. inv_ok Hrun. destruct a1 as [n_groups f_t_id].
  inv_ok Hrun. inv_ok Hrun. inv_ok Hrun. destruct a3 as [n2o gi].
  inv_ok Hrun. simpl.
  apply multipass_build_index_new_to_old in Ha4. subst n2o.
  apply final_faces_keys_length in Ha2.
  unfold memcpy in Ha3.
  destruct ((n_i_faces mesh <=? Z.of_nat (length (mp_faces_list a0)))
            && (n_i_faces mesh
                <=? Z.of_nat (length (cs_order_lnum_allocated_s a1))));
    [|discriminate Ha3].
  inversion Ha3. clear Ha3. subst a2.
  pose proof (cs_order_length a1) as Hlen.
  rewrite take_app_le by (rewrite length_take; lia).
  rewrite take_take, Nat.min_id, take_ge by lia.
  rewrite cs_order_Permutation. rewrite Ha2.
  destruct (Z.le_gt_cases (n_i_faces mesh) 0) as [Hle|Hgt].
  - replace (Z.to_nat (n_i_faces mesh)) with O by lia. simpl.
    unfold seqZ. replace (Z.to_nat (n_i_faces mesh)) with O by lia. reflexivity.
  - rewrite Z2Nat.id by lia. reflexivity.
Qed.

(** The boundary partitioner returns, and its numbering is the sorted order
    of the faces by cell. *)
Lemma b_faces_new_to_old (mesh : cs_mesh_t) (n_b_threads min_subset_size : Z)
      (n2o0 : list Z) :
  Z.of_nat (length (b_face_cells mesh)) = n_b_faces mesh ->
  Z.of_nat (length n2o0) = n_b_faces mesh ->
  1 <= n_b_threads ->
  exists retval gi,
    _renum_b_faces_no_share_cell_across_thread mesh n_b_threads
      min_subset_size n2o0
    = Ok (retval,
          {| new_to_old :=
               cs_order_lnum_allocated_s (b_face_keys (b_face_cells mesh));
             out_n_groups := 1; out_group_index := gi |}).
Proof.
  intros Hbfc Hn2o Ht.
  set (n := n_b_faces mesh) in *. set (bfc := b_face_cells mesh) in *.
  assert (0 <= n) as Hn by lia.
  unfold _renum_b_faces_no_share_cell_across_thread.
  fold n. fold bfc.
  rewrite (b_face_keys_loop bfc n Hbfc). simpl mbind at 1.
  set (order := cs_order_lnum_allocated_s (b_face_keys bfc)).
  assert (length order = length bfc) as Hlo.
  { unfold order. rewrite cs_order_length. apply b_face_keys_length. }
  rewrite copy_loop by lia.
  rewrite take_ge, drop_ge, app_nil_r by lia. simpl mbind at 1.
  destruct (b_subset_size_spec n n_b_threads min_subset_size Hn Ht)
    as [ss (Hss & Hcover & Hscen)].
  rewrite Hss. simpl mbind at 1.
  destruct (b_index_loop bfc order n n_b_threads ss Hn ltac:(lia)
              (b_order_new_cell_defined bfc n Hbfc))
    as (end_id & gi & bs & Hloop & _).
  cbv zeta in Hloop. rewrite Hloop. simpl.
  eexists _, gi. reflexivity.
Qed.

(** C7: on a mesh whose face tables have the announced sizes and whose
    interior faces have their cells below [n_cells_with_ghosts], every
    [new_to_old] array returned by the renumbering algorithms lists each
    index of [[0, n)] once: [_independent_face_groups] and the boundary
    partitioner always return one, and so does [_renum_face_multipass] each
    time it returns with status 0. *)
Theorem new_to_old_bijection (fuel : nat) (mesh : cs_mesh_t)
    (max_group_size n_i_threads min_i_subset_size n_b_threads
     min_b_subset_size : Z) (new_to_old_i new_to_old_b : list Z) :
  0 <= n_cells_with_ghosts mesh ->
  Z.of_nat (length (i_face_cells mesh)) = n_i_faces mesh ->
  cells_below (n_cells_with_ghosts mesh) (i_face_cells mesh) ->
  Z.of_nat (length (b_face_cells mesh)) = n_b_faces mesh ->
  Z.of_nat (length new_to_old_i) = n_i_faces mesh ->
  Z.of_nat (length new_to_old_b) = n_b_faces mesh ->
  1 <= max_group_size ->
  1 <= n_b_threads ->
  (Z.to_nat (n_i_faces mesh) <= fuel)%nat ->
  (exists n2o n_groups group_size,
      _independent_face_groups fuel max_group_size (n_cells_with_ghosts mesh)
        (n_i_faces mesh) (i_face_cells mesh) new_to_old_i
      = Ok (n2o, n_groups, group_size)
      /\ n2o ≡ₚ seqZ 0 (n_i_faces mesh))
  /\ (forall out,
        _renum_face_multipass fuel mesh n_i_threads min_i_subset_size
        = Ok (0, Some out) ->
        new_to_old out ≡ₚ seqZ 0 (n_i_faces mesh))
  /\ (exists retval out,
        _renum_b_faces_no_share_cell_across_thread mesh n_b_threads
          min_b_subset_size new_to_old_b
        = Ok (retval, out)
        /\ new_to_old out ≡ₚ seqZ 0 (n_b_faces mesh)).
Proof.
  intros Hext Hifc Hcells Hbfc Hn2oi Hn2ob Hmax Hbt Hfuel.
  split; [|split].
  - destruct (independent_face_groups_total max_group_size
                (n_cells_with_ghosts mesh) (n_i_faces mesh) (i_face_cells mesh)
                Hmax Hext Hifc (cells_below_touches _ _ Hcells)
                fuel new_to_old_i Hn2oi Hfuel)
      as (groups & Hrun & Hperm & _).
    eexists _, _, _. split; [exact Hrun | exact Hperm].
  - intros out Hrun. apply (multipass_new_to_old _ _ _ _ _ _ Hrun).
  - destruct (b_faces_new_to_old mesh n_b_threads min_b_subset_size
                new_to_old_b Hbfc Hn2ob Hbt) as (retval & gi & Hrun).
    eexists _, _. split; [exact Hrun|]. simpl.
    rewrite cs_order_Permutation, b_face_keys_length, Hbfc. reflexivity.
Qed.

Lemma new_to_old_bijection_witness :
  _renum_face_multipass 10 chain6_mesh 2 2
  = Ok (0, Some {| new_to_old := [0; 1; 3; 4; 2]; out_n_groups := 2;
                   out_group_index := [0; 2; 4; 5; 2; 4; -1; -1] |})
  /\ (exists n2o n_groups group_size,
        _independent_face_groups 10 2 (n_cells_with_ghosts chain6_mesh)
          (n_i_faces chain6_mesh) (i_face_cells chain6_mesh) [0; 1; 2; 3; 4]
        = Ok (n2o, n_groups, group_size)
        /\ n2o ≡ₚ seqZ 0 (n_i_faces chain6_mesh))
  /\ (forall out,
        _renum_face_multipass 10 chain6_mesh 2 2 = Ok (0, Some out) ->
        new_to_old out ≡ₚ seqZ 0 (n_i_faces chain6_mesh))
  /\ (exists retval out,
        _renum_b_faces_no_share_cell_across_thread chain6_mesh 2 1 [0; 1]
        = Ok (retval, out)
        /\ new_to_old out ≡ₚ seqZ 0 (n_b_faces chain6_mesh)).
Proof.
  split; [vm_compute; reflexivity|].
  apply (new_to_old_bijection 10 chain6_mesh 2 2 2 2 1 [0; 1; 2; 3; 4] [0; 1]).
  - simpl. lia.
  - reflexivity.
  - unfold cells_below. simpl. repeat constructor; simpl; lia.
  - reflexivity.
  - reflexivity.
  - reflexivity.
  - lia.
  - lia.
  - simpl. lia.
Defined.

(** ** Connectivity rewriter and the identity permutation *)

(** Two cells, one interior face, one boundary face on cell 1. *)
Definition two_cells_mesh : cs_mesh_t := mesh_of_faces 2 [(0, 1)] [1].


(** ** Conflicts in the index built by the multipass algorithm *)

(** Thirteen cells and fifteen interior faces; no two faces join the same
    pair of cells. *)
Definition conflict_mesh : cs_mesh_t :=
  mesh_of_faces 13
    [(12, 5); (0, 2); (12, 3); (0, 10); (11, 10); (10, 3); (8, 10); (11, 6);
     (4, 6); (5, 6); (3, 8); (7, 2); (9, 4); (7, 0); (9, 5)] [].

Definition conflict_config : config :=
  {| _cs_renumber_n_threads := 5;
     _min_i_subset_size := 3;
     _min_b_subset_size := 64;
     _i_faces_algorithm := CS_RENUMBER_I_FACES_MULTIPASS |}.

(** C1: on [conflict_mesh], with 5 threads and a minimum subset size of 3,
    [_renumber_for_threads] applies the multipass numbering and attaches an
    index of 3 groups in which, for group 1, thread 1 has the faces
    [[3, 6)] and thread 3 the faces [[6, 10)]: face 5 (cells 12 and 3) and
    face 8 (cells 12 and 5) both touch cell 12.  The index is not
    conflict-free, and the serial check of [_renumber_test] counts one
    error. *)
Theorem multipass_threads_share_cell :
  exists mesh' nb,
    _renumber_for_threads 5 conflict_config conflict_mesh = Ok mesh'
    /\ i_face_numbering mesh' = Some nb
    /\ i_face_cells mesh'
       = [(8, 10); (11, 10); (0, 2); (3, 8); (10, 3); (12, 3); (5, 6); (9, 5);
          (12, 5); (11, 6); (7, 0); (0, 10); (7, 2); (4, 6); (9, 4)]
    /\ n_threads nb = 5 /\ n_groups nb = 3
    /\ thread_range nb 1 1 = Ok (3, 6)
    /\ thread_range nb 3 1 = Ok (6, 10)
    /\ 12 ∈ range_cells (i_face_cells mesh') 3 6
    /\ 12 ∈ range_cells (i_face_cells mesh') 6 10
    /\ ~ conflict_free (i_face_cells mesh') nb
    /\ _renumber_test_i_faces mesh' = Ok 1.
Proof.
  eexists _, _. split; [vm_compute; reflexivity|].
  split; [reflexivity|]. split; [reflexivity|].
  split; [reflexivity|]. split; [reflexivity|].
  split; [reflexivity|]. split; [reflexivity|].
  assert (12 ∈ range_cells
            [(8, 10); (11, 10); (0, 2); (3, 8); (10, 3); (12, 3); (5, 6);
             (9, 5); (12, 5); (11, 6); (7, 0); (0, 10); (7, 2); (4, 6); (9, 4)]
            3 6) as H1.
  { vm_compute. repeat first [apply list_elem_of_here | apply list_elem_of_further]. }
  assert (12 ∈ range_cells
            [(8, 10); (11, 10); (0, 2); (3, 8); (10, 3); (12, 3); (5, 6);
             (9, 5); (12, 5); (11, 6); (7, 0); (0, 10); (7, 2); (4, 6); (9, 4)]
            6 10) as H2.
  { vm_compute. repeat first [apply list_elem_of_here | apply list_elem_of_further]. }
  split; [exact H1|]. split; [exact H2|]. split.
  - intros Hfree.
    apply (Hfree 1 1 3 3 6 6 10 12); simpl; try lia; try reflexivity;
      assumption.
  - vm_compute. reflexivity.
Qed.

(** * Further properties of the renumbering code *)

(** ** Gathering through a renumbering array *)

(** The array [new] holds, entry by entry, the values of [old] at the
    positions listed in [new_to_old]. *)
Definition follows {A} (new_to_old : list Z) (old new : list A) : Prop :=
  Forall2 (fun j v => rd old j = Ok v) new_to_old new.

Lemma follows_lookup {A} (new_to_old : list Z) (old new : list A) (i : nat)
      (j : Z) :
  follows new_to_old old new -> new_to_old !! i = Some j ->
  0 <= j /\ exists v, new !! i = Some v /\ old !! Z.to_nat j = Some v.
Proof.
  intros Hf Hj. unfold follows in Hf.
  destruct (Forall2_lookup_l _ _ _ _ _ Hf Hj) as [v [Hv Hr]].
  apply rd_Ok in Hr. split; [tauto|]. exists v. tauto.
Qed.

Lemma follows_omap {A} (new_to_old : list Z) (old new : list A) :
  follows new_to_old old new ->
  new = omap (fun j => old !! Z.to_nat j) new_to_old.
Proof.
  unfold follows. induction 1 as [|j v l r Hr _ IH]; [reflexivity|].
  apply rd_Ok in Hr. destruct Hr as [_ Hr].
  cbn [omap list_omap]. rewrite Hr. rewrite <- IH. reflexivity.
Qed.

Lemma omap_lookup_seqZ {A} (old : list A) :
  omap (fun j => old !! Z.to_nat j) (seqZ 0 (Z.of_nat (length old))) = old.
Proof.
  induction old as [|x old IH] using rev_ind; [reflexivity|].
  rewrite length_app. simpl length.
  replace (Z.of_nat (length old + 1)) with (Z.of_nat (length old) + 1) by lia.
  rewrite seqZ_app by lia. rewrite omap_app. simpl.
  replace (Z.to_nat (Z.of_nat 0 + (0 + Z.of_nat (length old))))
    with (length old) by lia.
  rewrite list_lookup_middle by reflexivity.
  f_equal. etransitivity; [|exact IH].
  apply list_omap_ext. apply Forall_Forall2_diag. apply Forall_forall.
  intros j Hj. apply elem_of_seqZ in Hj. apply lookup_app_l. lia.
Qed.

(** When [new_to_old] lists every position of [old] once, [new] is a
    rearrangement of [old]. *)
Lemma follows_Permutation {A} (new_to_old : list Z) (old new : list A) :
  follows new_to_old old new ->
  new_to_old ≡ₚ seqZ 0 (Z.of_nat (length old)) ->
  new ≡ₚ old.
Proof.
  intros Hf Hp. rewrite (follows_omap _ _ _ Hf).
  rewrite Hp. rewrite omap_lookup_seqZ. reflexivity.
Qed.

(** With the identity numbering nothing moves. *)
Lemma follows_identity {A} (old new : list A) :
  follows (seqZ 0 (Z.of_nat (length old))) old new -> new = old.
Proof.
  intros Hf. rewrite (follows_omap _ _ _ Hf). apply omap_lookup_seqZ.
Qed.

Lemma gather_follows {A} (n : Z) (new_to_old : list Z) (old dst : list A) :
  Z.of_nat (length new_to_old) = n -> Z.of_nat (length dst) = n ->
  Forall (fun j => 0 <= j < Z.of_nat (length old)) new_to_old ->
  exists new, gather n new_to_old old dst = Ok new
              /\ follows new_to_old old new.
Proof.
  intros Hn Hd Hall. unfold gather.
  destruct (for_loop_inv
              (fun i (dst' : list A) =>
                 Z.of_nat (length dst') = n
                 /\ forall k j, (Z.of_nat k < i) -> new_to_old !! k = Some j ->
                                exists v, dst' !! k = Some v /\ rd old j = Ok v)
              0 n
              (fun ii dst => j ← rd new_to_old ii; v ← rd old j; wr dst ii v)
              dst)
    as [new [Hrun [Hlen Hnew]]].
  - lia.
  - split; [exact Hd|]. intros k j Hk. lia.
  - intros i dst' Hi [Hlen Hk].
    destruct (rd_in_range new_to_old i ltac:(lia)) as [j Hj]. rewrite Hj. simpl.
    apply rd_Ok in Hj as Hj'. destruct Hj' as [_ Hj'].
    rewrite Forall_lookup in Hall. specialize (Hall _ _ Hj').
    destruct (rd_in_range old j Hall) as [v Hv]. rewrite Hv. simpl.
    rewrite wr_in_range by lia. eexists. split; [reflexivity|].
    rewrite length_insert. split; [exact Hlen|].
    intros k j' Hk' Hkj. destruct (decide (k = Z.to_nat i)) as [->|Hne].
    + exists v. rewrite list_lookup_insert_eq by lia. split; [reflexivity|].
      congruence.
    + rewrite list_lookup_insert_ne by lia. apply Hk; [lia | exact Hkj].
  - exists new. split; [exact Hrun|]. unfold follows.
    apply Forall2_same_length_lookup_2; [lia|].
    intros k j v Hj Hv. apply lookup_lt_Some in Hj as Hlt.
    destruct (Hnew k j ltac:(lia) Hj) as [v' [Hv' Hr]]. congruence.
Qed.

Lemma memcpy_all {A} (dst src : list A) (n : Z) :
  Z.of_nat (length dst) = n -> Z.of_nat (length src) = n ->
  memcpy dst src n = Ok src.
Proof.
  intros Hd Hs. unfold memcpy.
  rewrite (proj2 (Z.leb_le _ _)) by lia. rewrite (proj2 (Z.leb_le _ _)) by lia.
  simpl. rewrite take_ge, drop_ge, app_nil_r by lia. reflexivity.
Qed.

(** The global numbers created when there were none: the old local number
    of each entity, counted from 1. *)
Lemma global_num_created (n : Z) (new_to_old : list Z) :
  Z.of_nat (length new_to_old) = n ->
  _update_global_num n new_to_old None
  = Ok (Some ((fun j => j + 1) <$> new_to_old)).
Proof.
  intros Hn. unfold _update_global_num.
  destruct (for_loop_inv
              (fun i (g : list Z) =>
                 Z.of_nat (length g) = n
                 /\ forall k j, Z.of_nat k < i -> new_to_old !! k = Some j ->
                                g !! k = Some (j + 1))
              0 n (fun i g => j ← rd new_to_old i; wr g i (j + 1))
              (BFT_MALLOC n))
    as [g [Hrun [Hlen Hg]]].
  - lia.
  - split; [apply BFT_MALLOC_length; lia|]. intros k j Hk. lia.
  - intros i g Hi [Hlen Hg].
    destruct (rd_in_range new_to_old i ltac:(lia)) as [j Hj]. rewrite Hj. simpl.
    rewrite wr_in_range by lia. eexists. split; [reflexivity|].
    rewrite length_insert. split; [exact Hlen|].
    intros k j' Hk Hkj. destruct (decide (k = Z.to_nat i)) as [->|Hne].
    + rewrite list_lookup_insert_eq by lia. apply rd_Ok in Hj. f_equal.
      destruct Hj as [_ Hj]. congruence.
    + rewrite list_lookup_insert_ne by lia. apply Hg; [lia | exact Hkj].
  - rewrite Hrun. simpl. do 2 f_equal. apply list_eq. intros k.
    rewrite list_lookup_fmap.
    destruct (new_to_old !! k) as [j|] eqn:Hk; simpl.
    + apply lookup_lt_Some in Hk as Hlt. apply Hg; [lia | exact Hk].
    + apply lookup_ge_None in Hk. apply lookup_ge_None. lia.
Qed.

Lemma global_num_follows (n : Z) (new_to_old g : list Z) :
  Z.of_nat (length new_to_old) = n -> Z.of_nat (length g) = n ->
  Forall (fun j => 0 <= j < n) new_to_old ->
  exists g', _update_global_num n new_to_old (Some g) = Ok (Some g')
             /\ follows new_to_old g g'.
Proof.
  intros Hn Hg Hall. unfold _update_global_num.
  rewrite memcpy_all by (try apply BFT_MALLOC_length; lia). simpl.
  destruct (gather_follows n new_to_old g g Hn Hg) as [g' [Hrun Hf]].
  { rewrite Hg. exact Hall. }
  rewrite Hrun. exists g'. split; [reflexivity | exact Hf].
Qed.

(** X1: [_update_family] leaves a missing family array alone; otherwise the
    family of the entity now numbered [i] is the one the entity
    [new_to_old[i]] had.  A permutation only rearranges the families and the
    identity changes nothing. *)
Theorem update_family_follows (n : Z) (new_to_old family : list Z) :
  Z.of_nat (length new_to_old) = n ->
  Z.of_nat (length family) = n ->
  Forall (fun j => 0 <= j < n) new_to_old ->
  _update_family n new_to_old None = Ok None
  /\ exists family',
      _update_family n new_to_old (Some family) = Ok (Some family')
      /\ (forall i j, new_to_old !! i = Some j ->
                      0 <= j /\ family' !! i = family !! Z.to_nat j)
      /\ (new_to_old ≡ₚ seqZ 0 n -> family' ≡ₚ family)
      /\ (new_to_old = seqZ 0 n -> family' = family).
Proof.
  intros Hn Hfam Hall. split; [reflexivity|].
  unfold _update_family.
  rewrite memcpy_all by (try apply BFT_MALLOC_length; lia). simpl.
  destruct (gather_follows n new_to_old family family Hn Hfam) as [f' [Hrun Hf]].
  { rewrite Hfam. exact Hall. }
  rewrite Hrun. exists f'. split; [reflexivity|]. split; [|split].
  - intros i j Hj. destruct (follows_lookup _ _ _ _ _ Hf Hj) as [H0 [v [Hv Ho]]].
    split; [exact H0 | congruence].
  - intros Hp. apply (follows_Permutation new_to_old); [exact Hf|].
    rewrite Hfam. exact Hp.
  - intros Hid. apply follows_identity. rewrite Hfam, <- Hid. exact Hf.
Qed.

Lemma update_family_follows_witness :
  _update_family 3 [2; 0; 1] None = Ok None
  /\ exists family',
      _update_family 3 [2; 0; 1] (Some [7; 8; 9]) = Ok (Some family')
      /\ (forall i j, [2; 0; 1] !! i = Some j ->
                      0 <= j /\ family' !! i = [7; 8; 9] !! Z.to_nat j)
      /\ ([2; 0; 1] ≡ₚ seqZ 0 3 -> family' ≡ₚ [7; 8; 9])
      /\ ([2; 0; 1] = seqZ 0 3 -> family' = [7; 8; 9]).
Proof.
  apply (update_family_follows 3 [2; 0; 1] [7; 8; 9]).
  - reflexivity.
  - reflexivity.
  - repeat constructor; lia.
Defined.

(** X2: [_update_global_num] keeps track of the entities through successive
    renumberings: starting without global numbers, after a renumbering [p]
    followed by a renumbering [q] the entity numbered [i] carries the
    number [p[q[i]] + 1], its first local number counted from 1. *)
Theorem update_global_num_twice (n : Z) (p q : list Z) :
  Z.of_nat (length p) = n ->
  Z.of_nat (length q) = n ->
  Forall (fun j => 0 <= j < n) q ->
  exists g1 g2,
    _update_global_num n p None = Ok (Some g1)
    /\ _update_global_num n q (Some g1) = Ok (Some g2)
    /\ (forall i j, p !! i = Some j -> g1 !! i = Some (j + 1))
    /\ (forall i k j, q !! i = Some k -> p !! Z.to_nat k = Some j ->
                      g2 !! i = Some (j + 1)).
Proof.
  intros Hp Hq Hall.
  pose proof (global_num_created n p Hp) as H1.
  destruct (global_num_follows n q ((fun j => j + 1) <$> p) Hq) as [g2 [H2 Hf]].
  { rewrite length_fmap. exact Hp. }
  { exact Hall. }
  exists ((fun j => j + 1) <$> p), g2.
  split; [exact H1|]. split; [exact H2|]. split.
  - intros i j Hi. rewrite list_lookup_fmap, Hi. reflexivity.
  - intros i k j Hk Hj.
    destruct (follows_lookup _ _ _ _ _ Hf Hk) as [_ [v [Hv Ho]]].
    rewrite Hv. rewrite list_lookup_fmap, Hj in Ho. simpl in Ho. congruence.
Qed.

Lemma update_global_num_twice_witness :
  exists g1 g2,
    _update_global_num 3 [2; 0; 1] None = Ok (Some g1)
    /\ _update_global_num 3 [1; 2; 0] (Some g1) = Ok (Some g2)
    /\ (forall i j, [2; 0; 1] !! i = Some j -> g1 !! i = Some (j + 1))
    /\ (forall i k j, [1; 2; 0] !! i = Some k ->
                      [2; 0; 1] !! Z.to_nat k = Some j ->
                      g2 !! i = Some (j + 1)).
Proof.
  apply (update_global_num_twice 3 [2; 0; 1] [1; 2; 0]).
  - reflexivity.
  - reflexivity.
  - repeat constructor; lia.
Defined.

(** ** Renumbering of cells *)

(** [build_new_cell_id] inverts [new_to_old] on the cells and leaves the
    ghost cells where they are. *)
Lemma build_new_cell_id_inverse (n_cells n_cells_with_ghosts : Z)
      (new_to_old : list Z) :
  0 <= n_cells <= n_cells_with_ghosts ->
  take (Z.to_nat n_cells) new_to_old ≡ₚ seqZ 0 n_cells ->
  exists new_cell_id,
    build_new_cell_id n_cells n_cells_with_ghosts new_to_old = Ok new_cell_id
    /\ Z.of_nat (length new_cell_id) = n_cells_with_ghosts
    /\ (forall i j, 0 <= i < n_cells -> rd new_to_old i = Ok j ->
                    0 <= j < n_cells /\ rd new_cell_id j = Ok i)
    /\ (forall c, n_cells <= c < n_cells_with_ghosts -> rd new_cell_id c = Ok c).
Proof.
  intros Hn Hperm. unfold build_new_cell_id.
  assert (Z.of_nat (length (take (Z.to_nat n_cells) new_to_old)) = n_cells)
    as Hlen.
  { rewrite Hperm, length_seqZ. lia. }
  rewrite length_take in Hlen.
  assert (forall i j, 0 <= i < n_cells -> rd new_to_old i = Ok j ->
                      0 <= j < n_cells) as Hrange.
  { intros i j Hi Hj. apply rd_Ok in Hj. destruct Hj as [_ Hj].
    assert (j ∈ take (Z.to_nat n_cells) new_to_old) as Hin.
    { apply (list_elem_of_lookup_2 _ (Z.to_nat i)).
      rewrite lookup_take_lt by lia. exact Hj. }
    rewrite Hperm in Hin. apply elem_of_seqZ in Hin. lia. }
  assert (forall i k j, 0 <= i < n_cells -> 0 <= k < n_cells ->
                        rd new_to_old i = Ok j -> rd new_to_old k = Ok j ->
                        i = k) as Hinj.
  { intros i k j Hi Hk Hj1 Hj2.
    apply rd_Ok in Hj1. apply rd_Ok in Hj2.
    assert (NoDup (take (Z.to_nat n_cells) new_to_old)) as Hnd.
    { rewrite Hperm. apply NoDup_seqZ. }
    assert (Z.to_nat i = Z.to_nat k); [|lia].
    apply (NoDup_lookup _ _ _ j Hnd); rewrite lookup_take_lt by lia; tauto. }
  destruct (for_loop_inv
              (fun i (nci : list Z) =>
                 Z.of_nat (length nci) = n_cells_with_ghosts
                 /\ forall k j, 0 <= k < i -> rd new_to_old k = Ok j ->
                                rd nci j = Ok k)
              0 n_cells (fun ii nci => j ← rd new_to_old ii; wr nci j ii)
              (BFT_MALLOC n_cells_with_ghosts))
    as [nci [Hrun [Hl1 Hinv]]].
  - lia.
  - split; [apply BFT_MALLOC_length; lia|]. intros k j Hk. lia.
  - intros i nci Hi [Hl Hk].
    destruct (rd_in_range new_to_old i ltac:(lia)) as [j Hj]. rewrite Hj. simpl.
    pose proof (Hrange i j Hi Hj) as Hjr.
    rewrite wr_in_range by lia. eexists. split; [reflexivity|].
    rewrite length_insert. split; [exact Hl|].
    intros k j' Hk' Hkj. destruct (decide (k = i)) as [->|Hne].
    + assert (j' = j) as -> by congruence.
      apply rd_Ok. split; [lia|]. apply list_lookup_insert_eq. lia.
    + pose proof (Hrange k j' ltac:(lia) Hkj) as Hjr'.
      assert (j' <> j).
      { intros ->. apply Hne. apply (Hinj k i j); try lia; assumption. }
      specialize (Hk k j' ltac:(lia) Hkj). apply rd_Ok in Hk. apply rd_Ok.
      split; [lia|]. rewrite list_lookup_insert_ne by lia. tauto.
  - rewrite Hrun. simpl.
    destruct (for_loop_inv
                (fun i (nci' : list Z) =>
                   Z.of_nat (length nci') = n_cells_with_ghosts
                   /\ (forall k j, 0 <= k < n_cells -> rd new_to_old k = Ok j ->
                                   rd nci' j = Ok k)
                   /\ forall c, n_cells <= c < i -> rd nci' c = Ok c)
                n_cells n_cells_with_ghosts (fun ii nci => wr nci ii ii) nci)
      as [nci' [Hrun' (Hl2 & Hcells & Hghosts)]].
    + lia.
    + split; [exact Hl1|]. split; [exact Hinv|]. intros c Hc. lia.
    + intros i nci' Hi (Hl & Hc & Hg).
      rewrite wr_in_range by lia. eexists. split; [reflexivity|].
      rewrite length_insert. split; [exact Hl|]. split.
      * intros k j Hk Hkj. pose proof (Hrange k j Hk Hkj) as Hjr.
        specialize (Hc k j Hk Hkj). apply rd_Ok in Hc. apply rd_Ok.
        split; [lia|]. rewrite list_lookup_insert_ne by lia. tauto.
      * intros c Hci. apply rd_Ok. split; [lia|].
        destruct (decide (c = i)) as [->|Hne].
        -- apply list_lookup_insert_eq. lia.
        -- rewrite list_lookup_insert_ne by lia.
           specialize (Hg c ltac:(lia)). apply rd_Ok in Hg. tauto.
    + exists nci'. split; [exact Hrun'|]. split; [exact Hl2|].
      split; [|exact Hghosts].
      intros i j Hi Hj. split; [apply (Hrange i j Hi Hj) | apply (Hcells i j Hi Hj)].
Qed.

(** Old id of the cell now numbered [c]: ghost cells are not renumbered. *)
Definition old_cell (new_to_old : list Z) (n_cells c : Z) : res Z :=
  if c <? n_cells then rd new_to_old c else Ok c.

(** X3: After [_cs_renumber_update_cells] every interior face still joins the
    same two cells: the ids stored for face [f] are the new ids of the
    cells it had. *)
Theorem update_cells_keeps_face_cells (mesh mesh' : cs_mesh_t)
    (new_to_old : list Z) :
  0 <= n_cells mesh <= n_cells_with_ghosts mesh ->
  take (Z.to_nat (n_cells mesh)) new_to_old ≡ₚ seqZ 0 (n_cells mesh) ->
  _cs_renumber_update_cells mesh (Some new_to_old) = Ok mesh' ->
  n_i_faces mesh' = n_i_faces mesh
  /\ length (i_face_cells mesh') = length (i_face_cells mesh)
  /\ forall f c0 c1,
      0 <= f < n_i_faces mesh ->
      rd (i_face_cells mesh) f = Ok (c0, c1) ->
      exists c0' c1',
        rd (i_face_cells mesh') f = Ok (c0', c1')
        /\ old_cell new_to_old (n_cells mesh) c0' = Ok c0
        /\ old_cell new_to_old (n_cells mesh) c1' = Ok c1.
Proof.
  intros Hn Hperm Hrun. unfold _cs_renumber_update_cells in Hrun.
  destruct (build_new_cell_id_inverse _ _ new_to_old Hn Hperm)
    as (nci & Hnci & Hlen & Hcells & Hghosts).
  rewrite Hnci in Hrun. simpl mbind at 1 in Hrun.
  assert (forall c c', rd nci c = Ok c' ->
                       old_cell new_to_old (n_cells mesh) c' = Ok c) as Hold.
  { intros c c' Hc. apply rd_lt in Hc as Hr. unfold old_cell.
    destruct (Z.lt_ge_cases c (n_cells mesh)) as [Hlt|Hge].
    - assert (c ∈ take (Z.to_nat (n_cells mesh)) new_to_old) as Hin.
      { rewrite Hperm. apply elem_of_seqZ. lia. }
      apply list_elem_of_lookup_1 in Hin. destruct Hin as [i Hi].
      apply lookup_lt_Some in Hi as Hil. rewrite length_take in Hil.
      rewrite lookup_take_lt in Hi by lia.
      assert (rd new_to_old (Z.of_nat i) = Ok c) as Hrd.
      { apply rd_Ok. split; [lia|]. rewrite Nat2Z.id. exact Hi. }
      destruct (Hcells (Z.of_nat i) c ltac:(lia) Hrd) as [_ Hinv].
      assert (c' = Z.of_nat i) as -> by congruence.
      destruct (Z.ltb_spec (Z.of_nat i) (n_cells mesh)); [exact Hrd | lia].
    - rewrite (Hghosts c ltac:(lia)) in Hc. inversion Hc. subst c'.
      destruct (Z.ltb_spec c (n_cells mesh)); [lia | reflexivity]. }
  inv_ok Hrun. inv_ok Hrun. inv_ok Hrun. inv_ok Hrun. destruct a2 as [cci ccl].
  inv_ok Hrun. inv_ok Hrun. inv_ok Hrun. simpl.
  clear Ha1 Ha2 Ha3 Ha4.
  unfold memcpy in Ha.
  destruct ((n_i_faces mesh <=? Z.of_nat (length (replicate (Z.to_nat (n_i_faces mesh)) (0, 0))))
            && (n_i_faces mesh <=? Z.of_nat (length (i_face_cells mesh)))) eqn:Hsz;
    [|discriminate Ha].
  inversion Ha. clear Ha. subst a.
  apply andb_true_iff in Hsz. destruct Hsz as [_ Hsz]. apply Z.leb_le in Hsz.
  destruct (Z.le_gt_cases (n_i_faces mesh) 0) as [Hle|Hgt].
  { rewrite for_loop_empty in Ha0 by lia. inversion Ha0. subst a0.
    split; [reflexivity|]. split; [reflexivity|]. intros f c0 c1 Hf. lia. }
  apply (for_loop_inv_Ok
           (fun i (ifc : list (Z * Z)) =>
              length ifc = length (i_face_cells mesh)
              /\ forall f c0 c1, 0 <= f < i ->
                   rd (i_face_cells mesh) f = Ok (c0, c1) ->
                   exists c0' c1',
                     rd ifc f = Ok (c0', c1')
                     /\ rd nci c0 = Ok c0' /\ rd nci c1 = Ok c1')) in Ha0.
  - destruct Ha0 as [Hl Hall]. split; [reflexivity|]. split; [exact Hl|].
    intros f c0 c1 Hf Hfc. destruct (Hall f c0 c1 Hf Hfc) as (c0' & c1' & H1 & H2 & H3).
    exists c0', c1'. split; [exact H1|]. split; apply (Hold _ _); assumption.
  - lia.
  - split; [reflexivity|]. intros f c0 c1 Hf. lia.
  - intros i ifc ifc' Hi [Hl Hall] Hbody.
    inv_ok Hbody. destruct a as [ii jj]. inv_ok Hbody. inv_ok Hbody.
    apply wr_Ok in Hbody. destruct Hbody as [Hir ->].
    rewrite length_insert. split; [exact Hl|].
    assert (rd (i_face_cells mesh) i = Ok (ii, jj)) as Hii.
    { apply rd_Ok in Ha. apply rd_Ok. split; [lia|]. destruct Ha as [_ Ha].
      rewrite lookup_app_l in Ha by (rewrite length_take; lia).
      rewrite lookup_take_lt in Ha by lia. exact Ha. }
    intros f c0 c1 Hf Hfc. destruct (decide (f = i)) as [->|Hne].
    + rewrite Hii in Hfc. inversion Hfc. subst c0 c1.
      eexists _, _.
      split; [apply rd_Ok; split; [lia|]; apply list_lookup_insert_eq; lia|].
      split; assumption.
    + destruct (Hall f c0 c1 ltac:(lia) Hfc) as (c0' & c1' & H1 & H2 & H3).
      exists c0', c1'. split; [|split; assumption].
      apply rd_Ok in H1. apply rd_Ok. split; [lia|].
      rewrite list_lookup_insert_ne by lia. tauto.
Qed.

Lemma update_cells_keeps_face_cells_witness :
  exists mesh',
    _cs_renumber_update_cells two_cells_mesh (Some [1; 0]) = Ok mesh'
    /\ n_i_faces mesh' = n_i_faces two_cells_mesh
    /\ length (i_face_cells mesh') = length (i_face_cells two_cells_mesh)
    /\ forall f c0 c1,
        0 <= f < n_i_faces two_cells_mesh ->
        rd (i_face_cells two_cells_mesh) f = Ok (c0, c1) ->
        exists c0' c1',
          rd (i_face_cells mesh') f = Ok (c0', c1')
          /\ old_cell [1; 0] (n_cells two_cells_mesh) c0' = Ok c0
          /\ old_cell [1; 0] (n_cells two_cells_mesh) c1' = Ok c1.
Proof.
  eexists. split; [vm_compute; reflexivity|].
  apply (update_cells_keeps_face_cells two_cells_mesh _ [1; 0]).
  - simpl. lia.
  - simpl. apply (Permutation_swap 0 1 []).
  - vm_compute. reflexivity.
Defined.

(** ** Thread bounds from group sizes *)

Definition sum_sizes (sizes : list Z) : Z := foldr Z.add 0 sizes.

(** First face of group [g] when the groups follow each other. *)
Definition group_start (group_size : list Z) (g : Z) : Z :=
  sum_sizes (take (Z.to_nat g) group_size).

(** First face of thread [t] when [size] faces starting at [start] are
    dealt to [n_threads] threads, the first [size mod n_threads] threads
    taking one more. *)
Definition share_start (n_threads size start t : Z) : Z :=
  start + t * (size / n_threads) + Z.min t (size mod n_threads).

(** Range of thread [t] in a group of [size] faces starting at [start]. *)
Definition group_thread_range (n_threads size start t : Z) : Z * Z :=
  if 4 <? size / n_threads
  then (share_start n_threads size start t,
        share_start n_threads size start (t + 1))
  else if t =? 0 then (start, start + size) else (0, 0).

Lemma sum_sizes_app (l k : list Z) :
  sum_sizes (l ++ k) = sum_sizes l + sum_sizes k.
Proof.
  unfold sum_sizes. induction l as [|x l IH]; simpl; [reflexivity|].
  rewrite IH. lia.
Qed.

Lemma group_start_succ (group_size : list Z) (g size : Z) :
  0 <= g -> rd group_size g = Ok size ->
  group_start group_size (g + 1) = group_start group_size g + size.
Proof.
  intros Hg Hs. apply rd_Ok in Hs. destruct Hs as [_ Hs]. unfold group_start.
  replace (Z.to_nat (g + 1)) with (S (Z.to_nat g)) by lia.
  rewrite (take_S_r _ _ _ Hs), sum_sizes_app. simpl. lia.
Qed.

Lemma share_start_0 (n_threads size start : Z) :
  0 <= size -> 0 < n_threads -> share_start n_threads size start 0 = start.
Proof.
  intros Hs Hn. unfold share_start.
  pose proof (Z.mod_pos_bound size n_threads Hn). lia.
Qed.

Lemma share_start_all (n_threads size start : Z) :
  0 <= size -> 0 < n_threads ->
  share_start n_threads size start n_threads = start + size.
Proof.
  intros Hs Hn. unfold share_start.
  pose proof (Z.mod_pos_bound size n_threads Hn).
  pose proof (Z.div_mod size n_threads ltac:(lia)). nia.
Qed.

Lemma share_start_step (n_threads size start t : Z) :
  0 <= size -> 0 < n_threads -> 0 <= t ->
  share_start n_threads size start (t + 1)
  = share_start n_threads size start t + size / n_threads
    + (if t <? size mod n_threads then 1 else 0).
Proof.
  intros Hs Hn Ht. unfold share_start.
  destruct (Z.ltb_spec t (size mod n_threads)); lia.
Qed.

Lemma share_start_mono (n_threads size start t t' : Z) :
  0 <= size -> 0 < n_threads -> 0 <= t <= t' ->
  share_start n_threads size start t <= share_start n_threads size start t'.
Proof.
  intros Hs Hn Ht. unfold share_start.
  pose proof (Z.div_pos size n_threads Hs Hn). nia.
Qed.

(** The positions of the index are distinct for distinct (thread, group,
    start/end) triples. *)
Lemma gi_pos_inj (n_groups t g k t' g' k' : Z) :
  0 <= g < n_groups -> 0 <= g' < n_groups -> 0 <= k < 2 -> 0 <= k' < 2 ->
  gi_pos n_groups t g k = gi_pos n_groups t' g' k' ->
  t = t' /\ g = g' /\ k = k'.
Proof.
  unfold gi_pos. intros Hg Hg' Hk Hk' Heq.
  assert (t * n_groups + g = t' * n_groups + g' /\ k = k') as [Hsum ->] by lia.
  assert (t = t') as ->.
  { destruct (Z.lt_trichotomy t t') as [Hlt|[Heq'|Hgt]]; [|exact Heq'|].
    - assert ((t + 1) * n_groups <= t' * n_groups) by nia. lia.
    - assert ((t' + 1) * n_groups <= t * n_groups) by nia. lia. }
  repeat split. lia.
Qed.

Lemma gi_pos_range (n_groups n_threads t g k : Z) :
  0 <= g < n_groups -> 0 <= t < n_threads -> 0 <= k < 2 ->
  0 <= gi_pos n_groups t g k < n_threads * n_groups * 2.
Proof. unfold gi_pos. intros. nia. Qed.

Section ThreadBounds.

Variables (n_groups n_threads : Z) (group_size : list Z).

Hypothesis threads_pos : 0 < n_threads.
Hypothesis groups_nonneg : 0 <= n_groups.
Hypothesis sizes_nonneg : Forall (fun s => 0 <= s) group_size.

(** The index holds the ranges of the threads for group [g]. *)
Definition group_indexed (gi : list Z) (g : Z) : Prop :=
  forall t size, 0 <= t < n_threads -> rd group_size g = Ok size ->
    let r := group_thread_range n_threads size (group_start group_size g) t in
    rd gi (gi_pos n_groups t g 0) = Ok r.1
    /\ rd gi (gi_pos n_groups t g 1) = Ok r.2.

(** Entries of the other groups. *)
Definition other_groups_kept (gi gi' : list Z) (g : Z) : Prop :=
  forall t g' k, 0 <= g' < n_groups -> 0 <= g < n_groups -> g' <> g ->
                 0 <= k < 2 ->
                 rd gi' (gi_pos n_groups t g' k) = rd gi (gi_pos n_groups t g' k).

Lemma wr_gi_pos (gi : list Z) (t g k v : Z) :
  Z.of_nat (length gi) = n_threads * n_groups * 2 ->
  0 <= g < n_groups -> 0 <= t < n_threads -> 0 <= k < 2 ->
  exists gi', wr gi (gi_pos n_groups t g k) v = Ok gi'
              /\ Z.of_nat (length gi') = n_threads * n_groups * 2
              /\ rd gi' (gi_pos n_groups t g k) = Ok v
              /\ forall t' g' k', 0 <= g' < n_groups -> 0 <= k' < 2 ->
                   (t', g', k') <> (t, g, k) ->
                   rd gi' (gi_pos n_groups t' g' k')
                   = rd gi (gi_pos n_groups t' g' k').
Proof using All.
  intros Hlen Hg Ht Hk.
  pose proof (gi_pos_range n_groups n_threads t g k Hg Ht Hk) as Hr.
  rewrite wr_in_range by lia. eexists. split; [reflexivity|].
  rewrite length_insert. split; [exact Hlen|]. split.
  - apply rd_Ok. split; [lia|]. apply list_lookup_insert_eq. lia.
  - intros t' g' k' Hg' Hk' Hne. unfold rd.
    destruct (Z.ltb_spec (gi_pos n_groups t' g' k') 0); [reflexivity|].
    rewrite list_lookup_insert_ne; [reflexivity|].
    intros Heq. apply Hne.
    destruct (gi_pos_inj n_groups t g k t' g' k') as (-> & -> & ->);
      try assumption; [lia | reflexivity].
Qed.

(** Loop on the threads when every thread gets more than four faces. *)
Lemma share_loop (g size start : Z) (gi : list Z) :
  Z.of_nat (length gi) = n_threads * n_groups * 2 ->
  0 <= g < n_groups -> 0 <= size ->
  exists gi',
    for_loop 0 n_threads
      (fun k '(ip, gi) =>
         gi ← wr gi (k * (2 * n_groups) + g * 2) ip;
         let ip := if k <? Z.rem size n_threads
                   then ip + Z.quot size n_threads + 1
                   else ip + Z.quot size n_threads in
         gi ← wr gi (k * (2 * n_groups) + g * 2 + 1) ip;
         mret (ip, gi))
      (start, gi)
    = Ok (start + size, gi')
    /\ Z.of_nat (length gi') = n_threads * n_groups * 2
    /\ (forall t, 0 <= t < n_threads ->
          rd gi' (gi_pos n_groups t g 0) = Ok (share_start n_threads size start t)
          /\ rd gi' (gi_pos n_groups t g 1)
             = Ok (share_start n_threads size start (t + 1)))
    /\ other_groups_kept gi gi' g.
Proof using All.
  intros Hlen Hg Hsize.
  rewrite Z.quot_div_nonneg, Z.rem_mod_nonneg by lia.
  destruct (for_loop_inv
              (fun k (st : Z * list Z) =>
                 st.1 = share_start n_threads size start k
                 /\ Z.of_nat (length st.2) = n_threads * n_groups * 2
                 /\ (forall t, 0 <= t < k ->
                       rd st.2 (gi_pos n_groups t g 0)
                       = Ok (share_start n_threads size start t)
                       /\ rd st.2 (gi_pos n_groups t g 1)
                          = Ok (share_start n_threads size start (t + 1)))
                 /\ other_groups_kept gi st.2 g)
              0 n_threads
              (fun k '(ip, gi) =>
                 gi ← wr gi (k * (2 * n_groups) + g * 2) ip;
                 let ip := if k <? size mod n_threads
                           then ip + size / n_threads + 1
                           else ip + size / n_threads in
                 gi ← wr gi (k * (2 * n_groups) + g * 2 + 1) ip;
                 mret (ip, gi))
              (start, gi))
    as [[ip gi'] [Hrun (Hip & Hl & Hthreads & Hkept)]].
  - lia.
  - simpl. split; [symmetry; apply share_start_0; lia|]. split; [exact Hlen|].
    split; [intros t Ht; lia|]. intros t g' k _ _ _ _. reflexivity.
  - intros k [ip gi1] Hk (Hip & Hl & Hthreads & Hkept). simpl in *.
    replace (k * (2 * n_groups) + g * 2) with (gi_pos n_groups k g 0)
      by (unfold gi_pos; ring).
    replace (gi_pos n_groups k g 0 + 1) with (gi_pos n_groups k g 1)
      by (unfold gi_pos; ring).
    destruct (wr_gi_pos gi1 k g 0 ip Hl Hg Hk ltac:(lia))
      as (gi2 & Hw2 & Hl2 & Hr2 & Hf2).
    rewrite Hw2. simpl.
    set (ip' := if k <? size mod n_threads then ip + size / n_threads + 1
                else ip + size / n_threads).
    destruct (wr_gi_pos gi2 k g 1 ip' Hl2 Hg Hk ltac:(lia))
      as (gi3 & Hw3 & Hl3 & Hr3 & Hf3).
    rewrite Hw3. simpl. eexists. split; [reflexivity|]. simpl.
    assert (ip' = share_start n_threads size start (k + 1)) as Hip'.
    { rewrite share_start_step by lia. unfold ip'. rewrite Hip.
      destruct (k <? size mod n_threads); lia. }
    split; [exact Hip'|]. split; [exact Hl3|]. split.
    + intros t Ht. destruct (decide (t = k)) as [->|Hne].
      * split; [|rewrite Hr3, Hip'; reflexivity].
        rewrite Hf3 by (try lia; congruence). rewrite Hr2, Hip. reflexivity.
      * rewrite !Hf3 by (try lia; congruence).
        rewrite !Hf2 by (try lia; congruence). apply Hthreads. lia.
    + intros t g' k' Hg' Hg0 Hne Hk'.
      rewrite Hf3 by (try lia; congruence).
      rewrite Hf2 by (try lia; congruence). apply Hkept; assumption.
  - simpl in *. exists gi'. rewrite Hrun, Hip, share_start_all by lia.
    split; [reflexivity|]. split; [exact Hl|]. split; [|exact Hkept].
    intros t Ht. apply Hthreads. exact Ht.
Qed.

(** Loop on the threads when thread 0 takes the whole group. *)
Lemma idle_loop (g : Z) (gi : list Z) :
  Z.of_nat (length gi) = n_threads * n_groups * 2 ->
  0 <= g < n_groups ->
  exists gi',
    for_loop 1 n_threads
      (fun k gi =>
         gi ← wr gi (k * (2 * n_groups) + g * 2) 0;
         wr gi (k * (2 * n_groups) + g * 2 + 1) 0)
      gi
    = Ok gi'
    /\ Z.of_nat (length gi') = n_threads * n_groups * 2
    /\ (forall t k, 1 <= t < n_threads -> 0 <= k < 2 ->
                    rd gi' (gi_pos n_groups t g k) = Ok 0)
    /\ (forall t g' k, 0 <= g' < n_groups -> 0 <= k < 2 ->
                       (g' <> g \/ t = 0) ->
                       rd gi' (gi_pos n_groups t g' k)
                       = rd gi (gi_pos n_groups t g' k)).
Proof using All.
  intros Hlen Hg.
  destruct (for_loop_inv
              (fun i (gi' : list Z) =>
                 Z.of_nat (length gi') = n_threads * n_groups * 2
                 /\ (forall t k, 1 <= t < i -> 0 <= k < 2 ->
                                 rd gi' (gi_pos n_groups t g k) = Ok 0)
                 /\ (forall t g' k, 0 <= g' < n_groups -> 0 <= k < 2 ->
                                    (g' <> g \/ t = 0) ->
                                    rd gi' (gi_pos n_groups t g' k)
                                    = rd gi (gi_pos n_groups t g' k)))
              1 n_threads
              (fun k gi =>
                 gi ← wr gi (k * (2 * n_groups) + g * 2) 0;
                 wr gi (k * (2 * n_groups) + g * 2 + 1) 0)
              gi)
    as [gi' [Hrun (Hl & Hz & Hkept)]].
  - lia.
  - split; [exact Hlen|]. split; [intros t k Ht; lia|]. reflexivity.
  - intros i gi1 Hi (Hl & Hz & Hkept).
    replace (i * (2 * n_groups) + g * 2) with (gi_pos n_groups i g 0)
      by (unfold gi_pos; ring).
    replace (gi_pos n_groups i g 0 + 1) with (gi_pos n_groups i g 1)
      by (unfold gi_pos; ring).
    destruct (wr_gi_pos gi1 i g 0 0 Hl Hg ltac:(lia) ltac:(lia))
      as (gi2 & Hw2 & Hl2 & Hr2 & Hf2).
    rewrite Hw2. simpl.
    destruct (wr_gi_pos gi2 i g 1 0 Hl2 Hg ltac:(lia) ltac:(lia))
      as (gi3 & Hw3 & Hl3 & Hr3 & Hf3).
    exists gi3. split; [exact Hw3|]. split; [exact Hl3|]. split.
    + intros t k Ht Hk. destruct (decide (t = i)) as [->|Hne].
      * destruct (decide (k = 1)) as [->|Hk1]; [exact Hr3|].
        assert (k = 0) as -> by lia.
        rewrite Hf3 by (try lia; congruence). exact Hr2.
      * rewrite Hf3 by (try lia; congruence).
        rewrite Hf2 by (try lia; congruence). apply Hz; lia.
    + intros t g' k Hg' Hk Hor.
      rewrite Hf3 by (try lia; intros [= -> -> ->]; lia).
      rewrite Hf2 by (try lia; intros [= -> -> ->]; lia).
      apply Hkept; assumption.
  - exists gi'. auto.
Qed.

End ThreadBounds.

(** [_thread_bounds_by_group_size] fills the index with the ranges of
    [group_thread_range], group after group, and reports whether the group
    sizes add up to [n_faces]. *)
Lemma thread_bounds_indexed (n_faces n_groups n_threads : Z)
      (group_size group_index : list Z) :
  0 < n_threads -> 0 <= n_groups ->
  Z.of_nat (length group_size) = n_groups ->
  Forall (fun s => 0 <= s) group_size ->
  Z.of_nat (length group_index) = n_threads * n_groups * 2 ->
  exists gi,
    _thread_bounds_by_group_size n_faces n_groups n_threads group_size
      group_index
    = Ok (if sum_sizes group_size =? n_faces then 0 else -1, gi)
    /\ Z.of_nat (length gi) = n_threads * n_groups * 2
    /\ forall g, 0 <= g < n_groups ->
                 group_indexed n_groups n_threads group_size gi g.
Proof.
  intros Ht Hg Hsz Hpos Hlen. unfold _thread_bounds_by_group_size.
  destruct (for_loop_inv
              (fun g (st : Z * list Z) =>
                 st.1 = group_start group_size g
                 /\ Z.of_nat (length st.2) = n_threads * n_groups * 2
                 /\ forall g', 0 <= g' < g ->
                      group_indexed n_groups n_threads group_size st.2 g')
              0 n_groups
              (fun group_id '(ip, gi) =>
                 _group_size ← rd group_size group_id;
                 j ← c_div _group_size n_threads;
                 jr ← c_mod _group_size n_threads;
                 if 4 <? j then
                   for_loop 0 n_threads
                     (fun k '(ip, gi) =>
                        gi ← wr gi (k * (2 * n_groups) + group_id * 2) ip;
                        let ip := if k <? jr then ip + j + 1 else ip + j in
                        gi ← wr gi (k * (2 * n_groups) + group_id * 2 + 1) ip;
                        mret (ip, gi))
                     (ip, gi)
                 else
                   gi ← wr gi (group_id * 2) ip;
                   let ip := ip + _group_size in
                   gi ← wr gi (group_id * 2 + 1) ip;
                   gi ← for_loop 1 n_threads
                       (fun k gi =>
                          gi ← wr gi (k * (2 * n_groups) + group_id * 2) 0;
                          wr gi (k * (2 * n_groups) + group_id * 2 + 1) 0)
                       gi;
                   mret (ip, gi))
              (0, group_index))
    as [[ip gi] [Hrun (Hip & Hl & Hall)]].
  - exact Hg.
  - simpl. split; [reflexivity|]. split; [exact Hlen|]. intros g' Hg'. lia.
  - intros g [ip gi] Hgr (Hip & Hl & Hall). simpl in Hip, Hl, Hall.
    cbv beta iota.
    destruct (rd_in_range group_size g ltac:(lia)) as [size Hsize].
    rewrite Hsize. simpl mbind at 1.
    assert (0 <= size) as Hs0.
    { apply rd_Ok in Hsize. destruct Hsize as [_ Hsize].
      rewrite Forall_lookup in Hpos. apply (Hpos _ _ Hsize). }
    unfold c_div, c_mod. destruct (Z.eqb_spec n_threads 0) as [|_]; [lia|].
    simpl mbind at 1. simpl mbind at 1.
    assert (forall gi' g', 0 <= g' < g ->
              other_groups_kept n_groups gi gi' g ->
              group_indexed n_groups n_threads group_size gi' g') as Hkeep.
    { intros gi' g' Hg' Hkept t sz Htr Hsz'.
      destruct (Hall g' Hg' t sz Htr Hsz') as [H0 H1]. simpl.
      rewrite !Hkept by lia. split; assumption. }
    destruct (Z.ltb_spec 4 (Z.quot size n_threads)) as [Hbig|Hsmall].
    + destruct (share_loop n_groups n_threads group_size Ht Hg Hpos g size ip gi Hl
                  ltac:(lia) Hs0) as (gi' & Hloop & Hl' & Hthreads & Hkept).
      exists (ip + size, gi'). split; [exact Hloop|]. simpl.
      split; [rewrite (group_start_succ _ _ size) by (try lia; assumption); lia|].
      split; [exact Hl'|].
      intros g' Hg'. destruct (decide (g' = g)) as [->|Hne].
      * intros t sz Htr Hsz'. assert (sz = size) as -> by congruence.
        unfold group_thread_range.
        rewrite Z.quot_div_nonneg in Hbig by lia.
        rewrite (proj2 (Z.ltb_lt _ _) Hbig). simpl. rewrite <- Hip.
        apply Hthreads. exact Htr.
      * apply Hkeep; [lia | exact Hkept].
    + destruct (wr_gi_pos n_groups n_threads group_size Ht Hg Hpos gi 0 g 0 ip Hl
                  ltac:(lia) ltac:(lia) ltac:(lia))
        as (gi2 & Hw2 & Hl2 & Hr2 & Hf2).
      replace (gi_pos n_groups 0 g 0) with (g * 2) in Hw2
        by (unfold gi_pos; ring).
      rewrite Hw2. simpl mbind at 1.
      destruct (wr_gi_pos n_groups n_threads group_size Ht Hg Hpos gi2 0 g 1
                  (ip + size) Hl2 ltac:(lia) ltac:(lia) ltac:(lia))
        as (gi3 & Hw3 & Hl3 & Hr3 & Hf3).
      replace (gi_pos n_groups 0 g 1) with (g * 2 + 1) in Hw3
        by (unfold gi_pos; ring).
      rewrite Hw3. simpl mbind at 1.
      destruct (idle_loop n_groups n_threads group_size Ht Hg Hpos g gi3 Hl3
                  ltac:(lia)) as (gi4 & Hloop & Hl4 & Hz & Hkept).
      rewrite Hloop. eexists. split; [reflexivity|]. simpl.
      split; [rewrite (group_start_succ _ _ size) by (try lia; assumption); lia|].
      split; [exact Hl4|].
      intros g' Hg'. destruct (decide (g' = g)) as [->|Hne].
      * intros t sz Htr Hsz'. assert (sz = size) as -> by congruence.
        unfold group_thread_range.
        rewrite Z.quot_div_nonneg in Hsmall by lia.
        rewrite (proj2 (Z.ltb_ge _ _) Hsmall).
        destruct (Z.eqb_spec t 0) as [->|Ht0]; simpl.
        -- rewrite !Hkept by (try lia; right; reflexivity).
           rewrite Hf3 by (try lia; congruence).
           rewrite Hr2, Hr3, Hip. split; reflexivity.
        -- split; apply Hz; lia.
      * apply Hkeep; [lia|].
        intros t g'' k Hg'' Hg0 Hne' Hk.
        rewrite Hkept by (try lia; left; exact Hne').
        rewrite Hf3 by (try lia; intros [= -> -> ->]; lia).
        rewrite Hf2 by (try lia; intros [= -> -> ->]; lia). reflexivity.
  - cbv zeta. cbv zeta in Hrun. rewrite Hrun. simpl in Hip, Hl, Hall. simpl.
    assert (ip = sum_sizes group_size) as ->.
    { rewrite Hip. unfold group_start. rewrite take_ge by lia. reflexivity. }
    exists gi. split; [reflexivity|]. split; [exact Hl | exact Hall].
Qed.

(** The ranges of [group_thread_range] cut the faces of the group in
    consecutive pieces, one per thread. *)
Lemma group_thread_range_inside (n_threads size start t : Z) :
  0 < n_threads -> 0 <= size -> 0 <= t < n_threads ->
  let r := group_thread_range n_threads size start t in
  r.1 <= r.2 /\ (r.1 < r.2 -> start <= r.1 /\ r.2 <= start + size).
Proof.
  intros Hn Hs Ht. unfold group_thread_range.
  destruct (4 <? size / n_threads).
  - simpl.
    pose proof (share_start_mono n_threads size start t (t + 1) Hs Hn ltac:(lia)).
    pose proof (share_start_mono n_threads size start 0 t Hs Hn ltac:(lia)) as H0.
    pose proof (share_start_mono n_threads size start (t + 1) n_threads Hs Hn
                  ltac:(lia)) as H1.
    rewrite share_start_0 in H0 by lia. rewrite share_start_all in H1 by lia.
    lia.
  - destruct (t =? 0); simpl; lia.
Qed.

Lemma share_start_find (n_threads size start p : Z) (k : nat) :
  0 < n_threads -> 0 <= size -> start <= p ->
  p < share_start n_threads size start (Z.of_nat k) ->
  exists t, 0 <= t < Z.of_nat k
            /\ share_start n_threads size start t <= p
               < share_start n_threads size start (t + 1).
Proof.
  intros Hn Hs Hp. induction k as [|k IH]; intros Hlt.
  - rewrite share_start_0 in Hlt by lia. lia.
  - destruct (Z.lt_ge_cases p (share_start n_threads size start (Z.of_nat k)))
      as [Hlo|Hhi].
    + destruct (IH Hlo) as [t [Ht Hin]]. exists t. split; [lia | exact Hin].
    + exists (Z.of_nat k). split; [lia|].
      replace (Z.of_nat k + 1) with (Z.of_nat (S k)) by lia. lia.
Qed.

Lemma group_thread_range_cover (n_threads size start p : Z) :
  0 < n_threads -> 0 <= size -> start <= p < start + size ->
  exists t, 0 <= t < n_threads
            /\ (group_thread_range n_threads size start t).1 <= p
               < (group_thread_range n_threads size start t).2.
Proof.
  intros Hn Hs Hp. unfold group_thread_range.
  destruct (4 <? size / n_threads).
  - destruct (share_start_find n_threads size start p (Z.to_nat n_threads))
      as [t [Ht Hin]]; try lia.
    { rewrite Z2Nat.id by lia. rewrite share_start_all by lia. lia. }
    exists t. split; [lia | exact Hin].
  - exists 0. split; [lia|]. simpl. lia.
Qed.

Lemma group_thread_range_disjoint (n_threads size start t t' p : Z) :
  0 < n_threads -> 0 <= size -> 0 <= t < n_threads -> 0 <= t' < n_threads ->
  (group_thread_range n_threads size start t).1 <= p
    < (group_thread_range n_threads size start t).2 ->
  (group_thread_range n_threads size start t').1 <= p
    < (group_thread_range n_threads size start t').2 ->
  t = t'.
Proof.
  intros Hn Hs Ht Ht'. unfold group_thread_range.
  destruct (4 <? size / n_threads).
  - simpl. intros H1 H2.
    destruct (Z.lt_trichotomy t t') as [Hlt|[Heq|Hgt]]; [|exact Heq|].
    + pose proof (share_start_mono n_threads size start (t + 1) t' Hs Hn
                    ltac:(lia)). lia.
    + pose proof (share_start_mono n_threads size start (t' + 1) t Hs Hn
                    ltac:(lia)). lia.
  - destruct (Z.eqb_spec t 0), (Z.eqb_spec t' 0); simpl; lia.
Qed.

(** X4: [_thread_bounds_by_group_size] returns 0 exactly when the group sizes
    add up to [n_faces].  In the index it fills, the ranges of the threads
    for a group lie inside the faces of the group (or are empty), and every
    face of the group is in the range of one thread and one only. *)
Theorem thread_bounds_partition (n_faces n_groups n_threads : Z)
    (group_size group_index : list Z) :
  0 < n_threads -> 0 <= n_groups ->
  Z.of_nat (length group_size) = n_groups ->
  Forall (fun s => 0 <= s) group_size ->
  Z.of_nat (length group_index) = n_threads * n_groups * 2 ->
  exists status gi,
    _thread_bounds_by_group_size n_faces n_groups n_threads group_size
      group_index = Ok (status, gi)
    /\ (status = 0 <-> sum_sizes group_size = n_faces)
    /\ (status = 0 \/ status = -1)
    /\ forall g size,
        0 <= g < n_groups -> rd group_size g = Ok size ->
        let first := group_start group_size g in
        (forall t, 0 <= t < n_threads ->
           exists s e, rd gi (gi_pos n_groups t g 0) = Ok s
                       /\ rd gi (gi_pos n_groups t g 1) = Ok e
                       /\ s <= e
                       /\ (s < e -> first <= s /\ e <= first + size))
        /\ (forall p, first <= p < first + size ->
              exists t s e,
                0 <= t < n_threads
                /\ rd gi (gi_pos n_groups t g 0) = Ok s
                /\ rd gi (gi_pos n_groups t g 1) = Ok e
                /\ s <= p < e
                /\ forall t' s' e',
                     0 <= t' < n_threads ->
                     rd gi (gi_pos n_groups t' g 0) = Ok s' ->
                     rd gi (gi_pos n_groups t' g 1) = Ok e' ->
                     s' <= p < e' -> t' = t).
Proof.
  intros Ht Hg Hsz Hpos Hlen.
  destruct (thread_bounds_indexed n_faces n_groups n_threads group_size
              group_index Ht Hg Hsz Hpos Hlen) as (gi & Hrun & Hl & Hall).
  eexists _, gi. split; [exact Hrun|]. split; [|split].
  - destruct (Z.eqb_spec (sum_sizes group_size) n_faces); split; intros; lia.
  - destruct (sum_sizes group_size =? n_faces); [left | right]; reflexivity.
  - intros g size Hgr Hsize first.
    assert (0 <= size) as Hs0.
    { apply rd_Ok in Hsize. destruct Hsize as [_ Hsize].
      rewrite Forall_lookup in Hpos. apply (Hpos _ _ Hsize). }
    split.
    + intros t Htr. destruct (Hall g Hgr t size Htr Hsize) as [H0 H1].
      eexists _, _. split; [exact H0|]. split; [exact H1|].
      apply group_thread_range_inside; assumption.
    + intros p Hp.
      destruct (group_thread_range_cover n_threads size first p Ht Hs0 Hp)
        as [t [Htr Hin]].
      destruct (Hall g Hgr t size Htr Hsize) as [H0 H1].
      eexists t, _, _. split; [exact Htr|]. split; [exact H0|].
      split; [exact H1|]. split; [exact Hin|].
      intros t' s' e' Htr' Hs' He' Hin'.
      destruct (Hall g Hgr t' size Htr' Hsize) as [H0' H1'].
      rewrite H0' in Hs'. rewrite H1' in He'.
      inversion Hs'. inversion He'. subst s' e'.
      apply (group_thread_range_disjoint n_threads size first t' t p);
        assumption.
Qed.

Lemma thread_bounds_partition_witness :
  exists status gi,
    _thread_bounds_by_group_size 13 2 2 [11; 2] (BFT_MALLOC 8)
    = Ok (status, gi)
    /\ (status = 0 <-> sum_sizes [11; 2] = 13)
    /\ (status = 0 \/ status = -1)
    /\ forall g size,
        0 <= g < 2 -> rd [11; 2] g = Ok size ->
        let first := group_start [11; 2] g in
        (forall t, 0 <= t < 2 ->
           exists s e, rd gi (gi_pos 2 t g 0) = Ok s
                       /\ rd gi (gi_pos 2 t g 1) = Ok e
                       /\ s <= e
                       /\ (s < e -> first <= s /\ e <= first + size))
        /\ (forall p, first <= p < first + size ->
              exists t s e,
                0 <= t < 2
                /\ rd gi (gi_pos 2 t g 0) = Ok s
                /\ rd gi (gi_pos 2 t g 1) = Ok e
                /\ s <= p < e
                /\ forall t' s' e',
                     0 <= t' < 2 ->
                     rd gi (gi_pos 2 t' g 0) = Ok s' ->
                     rd gi (gi_pos 2 t' g 1) = Ok e' ->
                     s' <= p < e' -> t' = t).
Proof.
  apply (thread_bounds_partition 13 2 2 [11; 2] (BFT_MALLOC 8)).
  - lia.
  - lia.
  - reflexivity.
  - repeat constructor; lia.
  - reflexivity.
Defined.

(** ** The block algorithm for interior faces *)

(** Sizes of a list of groups, as stored in [group_size]. *)
Definition group_sizes (groups : list (list Z)) : list Z :=
  (fun l => Z.of_nat (length l)) <$> groups.

Lemma sum_group_sizes (groups : list (list Z)) :
  sum_sizes (group_sizes groups) = Z.of_nat (length (concat groups)).
Proof.
  induction groups as [|l groups IH]; [reflexivity|].
  simpl. rewrite length_app. unfold sum_sizes in *. simpl in *. lia.
Qed.

Lemma group_sizes_nonneg (groups : list (list Z)) :
  Forall (fun s => 0 <= s) (group_sizes groups).
Proof.
  unfold group_sizes. apply Forall_fmap, Forall_forall. intros l _. simpl. lia.
Qed.

Lemma sum_sizes_nonneg (sizes : list Z) :
  Forall (fun s => 0 <= s) sizes -> 0 <= sum_sizes sizes.
Proof.
  unfold sum_sizes. induction 1 as [|x l Hx _ IH]; simpl; lia.
Qed.

(** The faces of group [g] are found, in [concat groups], from position
    [group_start] on. *)
Lemma concat_group_block (groups : list (list Z)) (g : nat) (l : list Z)
      (i : Z) (f : Z) :
  groups !! g = Some l ->
  group_start (group_sizes groups) (Z.of_nat g) <= i
    < group_start (group_sizes groups) (Z.of_nat g) + Z.of_nat (length l) ->
  rd (concat groups) i = Ok f ->
  f ∈ l.
Proof.
  revert g i. induction groups as [|l0 groups IH]; intros g i Hl Hi Hf;
    [discriminate|].
  apply rd_Ok in Hf. destruct Hf as [Hi0 Hf]. unfold group_start in Hi.
  rewrite Nat2Z.id in Hi. destruct g as [|g]; simpl in Hl, Hi, Hf.
  - inversion Hl. subst l0. unfold sum_sizes in Hi. simpl in Hi.
    rewrite lookup_app_l in Hf by lia.
    eapply list_elem_of_lookup_2. exact Hf.
  - fold (sum_sizes (take g (group_sizes groups))) in Hi.
    pose proof (sum_sizes_nonneg (take g (group_sizes groups))
                  (Forall_take _ _ _ (group_sizes_nonneg groups))) as Hpos.
    rewrite lookup_app_r in Hf by lia.
    apply (IH g (i - Z.of_nat (length l0))).
    + exact Hl.
    + unfold group_start. rewrite Nat2Z.id. lia.
    + apply rd_Ok. split; [lia|].
      replace (Z.to_nat (i - Z.of_nat (length l0)))
        with (Z.to_nat i - length l0)%nat by lia.
      exact Hf.
Qed.

Lemma elem_of_range_cells (fc : list (Z * Z)) (s e c : Z) :
  0 <= s -> c ∈ range_cells fc s e ->
  exists i p, s <= i < e /\ rd fc i = Ok p /\ (c = p.1 \/ c = p.2).
Proof.
  intros Hs Hc. unfold range_cells in Hc.
  apply list_elem_of_In, in_flat_map in Hc. destruct Hc as [p [Hp Hc]].
  apply list_elem_of_In, list_elem_of_lookup_1 in Hp. destruct Hp as [k Hk].
  apply lookup_take_Some in Hk. destruct Hk as [Hk Hlt].
  rewrite lookup_drop in Hk.
  exists (s + Z.of_nat k), p. split; [lia|]. split.
  - apply rd_Ok. split; [lia|].
    replace (Z.to_nat (s + Z.of_nat k)) with (Z.to_nat s + k)%nat by lia.
    exact Hk.
  - simpl in Hc. destruct Hc as [<-|[<-|[]]]; auto.
Qed.

(** The loop that lowers [max_group_size] by steps of 64 never divides by
    zero when the size it starts from is not a multiple of 64. *)
Lemma block_size_loop (n_i_faces n_i_threads min_i_subset_size mgs : Z) :
  mgs mod 64 <> 0 ->
  exists mgs',
    while_loop (Z.to_nat (mgs - min_i_subset_size))
      (fun mgs =>
         q ← c_div n_i_faces mgs;
         mret ((q <? 2 * n_i_threads) && (min_i_subset_size <? mgs)))
      (fun mgs => mret (mgs - 64))
      mgs = Ok mgs'.
Proof.
  intros Hmod.
  destruct (while_loop_inv
              (fun m => m mod 64 = mgs mod 64)
              (fun m => Z.to_nat (m - min_i_subset_size))
              (Z.to_nat (mgs - min_i_subset_size))
              (fun mgs =>
                 q ← c_div n_i_faces mgs;
                 mret ((q <? 2 * n_i_threads) && (min_i_subset_size <? mgs)))
              (fun mgs => mret (mgs - 64))
              mgs)
    as (mgs' & Hrun & _).
  - reflexivity.
  - lia.
  - intros m Hm. unfold c_div.
    destruct (Z.eqb_spec m 0) as [->|Hne].
    { rewrite Z.mod_0_l in Hm by lia. congruence. }
    eexists. split; [reflexivity|]. intros Hb.
    apply andb_true_iff in Hb. destruct Hb as [_ Hb]. apply Z.ltb_lt in Hb.
    exists (m - 64). split; [reflexivity|]. split; [|lia].
    rewrite <- Hm. replace (m - 64) with (m + (-1) * 64) by lia.
    apply Z.mod_add. lia.
  - exists mgs'. exact Hrun.
Qed.

(** What the block algorithm returns on a well-formed face table. *)
Lemma block_renumbering_spec (fuel : nat) (min_i_subset_size : Z)
    (mesh : cs_mesh_t) (n_i_threads max_group_size : Z)
    (new_to_old_i : list Z) :
  1 <= n_i_threads ->
  max_group_size mod 64 <> 0 ->
  0 <= n_cells_with_ghosts mesh ->
  Z.of_nat (length (i_face_cells mesh)) = n_i_faces mesh ->
  cells_below (n_cells_with_ghosts mesh) (i_face_cells mesh) ->
  Z.of_nat (length new_to_old_i) = n_i_faces mesh ->
  (Z.to_nat (n_i_faces mesh) <= fuel)%nat ->
  exists out,
    _renum_i_faces_no_share_cell_in_block fuel min_i_subset_size mesh
      n_i_threads max_group_size new_to_old_i = Ok (0, out)
    /\ new_to_old out ≡ₚ seqZ 0 (n_i_faces mesh)
    /\ (1 <= n_i_faces mesh -> 1 <= out_n_groups out)
    /\ Z.of_nat (length (out_group_index out))
       = n_i_threads * out_n_groups out * 2
    /\ (exists group_size,
          Z.of_nat (length group_size) = out_n_groups out
          /\ Forall (fun s => 0 <= s) group_size
          /\ sum_sizes group_size = n_i_faces mesh
          /\ forall g, 0 <= g < out_n_groups out ->
               group_indexed (out_n_groups out) n_i_threads group_size
                 (out_group_index out) g)
    /\ forall face_cells,
        follows (new_to_old out) (i_face_cells mesh) face_cells ->
        conflict_free face_cells
          (cs_numbering_create_threaded n_i_threads (out_n_groups out)
             (out_group_index out)).
Proof.
  intros Ht Hmod Hext Hifc Hcells Hn2o Hfuel.
  unfold _renum_i_faces_no_share_cell_in_block.
  destruct (block_size_loop (n_i_faces mesh) n_i_threads min_i_subset_size
              max_group_size Hmod) as [mgs Hloop].
  rewrite Hloop. simpl mbind at 1. cbv zeta.
  set (mgs' := if (if mgs <? min_i_subset_size then min_i_subset_size else mgs)
                  <? n_i_threads * 2
               then n_i_threads * 2
               else if mgs <? min_i_subset_size then min_i_subset_size else mgs).
  assert (1 <= mgs') as Hmax.
  { unfold mgs'.
    destruct (Z.ltb_spec (if mgs <? min_i_subset_size then min_i_subset_size
                          else mgs) (n_i_threads * 2)); lia. }
  destruct (independent_face_groups_total mgs' (n_cells_with_ghosts mesh)
              (n_i_faces mesh) (i_face_cells mesh) Hmax Hext Hifc
              (cells_below_touches _ _ Hcells) fuel new_to_old_i Hn2o Hfuel)
    as (groups & Hrun & Hperm & Hgroups & _).
  rewrite Hrun. simpl mbind at 1.
  fold (group_sizes groups).
  assert (Z.of_nat (length (concat groups)) = n_i_faces mesh) as Hlen.
  { rewrite Hperm, length_seqZ. lia. }
  destruct (thread_bounds_indexed (n_i_faces mesh) (Z.of_nat (length groups))
              n_i_threads (group_sizes groups)
              (BFT_MALLOC (n_i_threads * Z.of_nat (length groups) * 2)))
    as (gi & Hbounds & Hgil & Hindexed).
  { lia. }
  { lia. }
  { unfold group_sizes. rewrite length_fmap. reflexivity. }
  { apply group_sizes_nonneg. }
  { apply BFT_MALLOC_length. lia. }
  rewrite Hbounds. simpl.
  rewrite sum_group_sizes, Hlen, Z.eqb_refl.
  eexists. split; [reflexivity|]. simpl. split; [exact Hperm|].
  split; [intros Hpos; destruct groups; [simpl in Hlen; lia | simpl; lia]|].
  split; [exact Hgil|].
  split.
  { exists (group_sizes groups).
    split; [unfold group_sizes; rewrite length_fmap; reflexivity|].
    split; [apply group_sizes_nonneg|].
    split; [rewrite sum_group_sizes; exact Hlen | exact Hindexed]. }
  intros fc' Hfollows g t1 t2 s1 e1 s2 e2 c Hg Ht1 Ht2 Hne Hr1 Hr2 Hc1 Hc2.
  simpl in Hg, Ht1, Ht2.
  (* the two ranges are the ones of the index for group [g] *)
  assert (exists l, groups !! Z.to_nat g = Some l) as [l Hl].
  { apply lookup_lt_is_Some. lia. }
  assert (rd (group_sizes groups) g = Ok (Z.of_nat (length l))) as Hsize.
  { apply rd_Ok. split; [lia|]. unfold group_sizes.
    rewrite list_lookup_fmap, Hl. reflexivity. }
  set (first := group_start (group_sizes groups) g) in *.
  assert (forall t s e,
             0 <= t < n_i_threads ->
             thread_range
               (cs_numbering_create_threaded n_i_threads
                  (Z.of_nat (length groups)) gi) t g = Ok (s, e) ->
             (s, e) = group_thread_range n_i_threads (Z.of_nat (length l))
                        first t) as Hrange.
  { intros t s e Htr Hr. unfold thread_range in Hr. simpl in Hr.
    rewrite take_ge in Hr by lia.
    destruct (Hindexed g Hg t _ Htr Hsize) as [H0 H1].
    fold first in H0, H1. rewrite H0 in Hr. simpl in Hr.
    rewrite H1 in Hr. simpl in Hr. inversion Hr.
    destruct (group_thread_range n_i_threads (Z.of_nat (length l)) first t).
    reflexivity. }
  pose proof (Hrange t1 s1 e1 Ht1 Hr1) as Hg1.
  pose proof (Hrange t2 s2 e2 Ht2 Hr2) as Hg2.
  assert (0 <= first) as Hfirst.
  { apply sum_sizes_nonneg, Forall_take, group_sizes_nonneg. }
  (* a face of a range is a face of the group *)
  assert (forall t s e,
             0 <= t < n_i_threads ->
             (s, e) = group_thread_range n_i_threads (Z.of_nat (length l))
                        first t ->
             c ∈ range_cells fc' s e ->
             exists i f, s <= i < e /\ rd (concat groups) i = Ok f
                         /\ f ∈ l /\ touches (i_face_cells mesh) f c) as Hface.
  { intros t s e Htr Hse Hc.
    pose proof (group_thread_range_inside n_i_threads (Z.of_nat (length l))
                  first t ltac:(lia) ltac:(lia) Htr) as Hin.
    rewrite <- Hse in Hin. simpl in Hin. destruct Hin as [Hle Hin].
    destruct (Z.eq_dec s e) as [->|Hse'].
    { unfold range_cells in Hc. rewrite Z.sub_diag in Hc. simpl in Hc.
      inversion Hc. }
    specialize (Hin ltac:(lia)).
    destruct (elem_of_range_cells fc' s e c ltac:(lia) Hc)
      as (i & p & Hi & Hp & Hcp).
    apply rd_Ok in Hp. destruct Hp as [_ Hp].
    destruct (Forall2_lookup_r _ _ _ _ _ Hfollows Hp) as [f [Hf Hrd]].
    assert (rd (concat groups) i = Ok f) as Hcf.
    { apply rd_Ok. split; [lia | exact Hf]. }
    exists i, f. split; [exact Hi|]. split; [exact Hcf|]. split.
    - apply (concat_group_block groups (Z.to_nat g) l i f Hl); [|exact Hcf].
      rewrite Z2Nat.id by lia. fold first. lia.
    - exists p. split; [exact Hrd|]. destruct Hcp as [->| ->]; auto. }
  destruct (Hface t1 s1 e1 Ht1 Hg1 Hc1) as (i1 & f1 & Hi1 & Hf1 & Hl1 & Hc1').
  destruct (Hface t2 s2 e2 Ht2 Hg2 Hc2) as (i2 & f2 & Hi2 & Hf2 & Hl2 & Hc2').
  assert (i1 <> i2) as Hi.
  { intros ->. apply Hne.
    apply (group_thread_range_disjoint n_i_threads (Z.of_nat (length l)) first
             t1 t2 i2); try lia; [rewrite <- Hg1 | rewrite <- Hg2]; simpl; lia. }
  assert (f1 <> f2) as Hf.
  { intros ->. apply Hi.
    apply rd_Ok in Hf1. apply rd_Ok in Hf2.
    assert (NoDup (concat groups)) as Hnd.
    { rewrite Hperm. apply NoDup_seqZ. }
    assert (Z.to_nat i1 = Z.to_nat i2); [|lia].
    apply (NoDup_lookup _ _ _ f2 Hnd); tauto. }
  destruct (Hgroups l (list_elem_of_lookup_2 _ _ _ Hl)) as [_ Hind].
  apply (Hind f1 f2 Hl1 Hl2 Hf). exists c. split; assumption.
Qed.


(** X5: The block algorithm always succeeds on a well-formed face table
    when [max_group_size] is not a multiple of 64 (it is lowered by steps
    of 64 and used as a divisor), and the index it returns is
    conflict-free: once the faces are stored in the new order, the ranges
    of two threads in a group never touch the same cell. *)
Theorem block_renumbering_conflict_free (fuel : nat) (min_i_subset_size : Z)
    (mesh : cs_mesh_t) (n_i_threads max_group_size : Z)
    (new_to_old_i : list Z) :
  1 <= n_i_threads ->
  max_group_size mod 64 <> 0 ->
  0 <= n_cells_with_ghosts mesh ->
  Z.of_nat (length (i_face_cells mesh)) = n_i_faces mesh ->
  cells_below (n_cells_with_ghosts mesh) (i_face_cells mesh) ->
  Z.of_nat (length new_to_old_i) = n_i_faces mesh ->
  (Z.to_nat (n_i_faces mesh) <= fuel)%nat ->
  exists out,
    _renum_i_faces_no_share_cell_in_block fuel min_i_subset_size mesh
      n_i_threads max_group_size new_to_old_i = Ok (0, out)
    /\ new_to_old out ≡ₚ seqZ 0 (n_i_faces mesh)
    /\ forall face_cells,
        follows (new_to_old out) (i_face_cells mesh) face_cells ->
        conflict_free face_cells
          (cs_numbering_create_threaded n_i_threads (out_n_groups out)
             (out_group_index out)).
Proof.
  intros Ht Hmod Hext Hifc Hcells Hn2o Hfuel.
  destruct (block_renumbering_spec fuel min_i_subset_size mesh n_i_threads
              max_group_size new_to_old_i Ht Hmod Hext Hifc Hcells Hn2o Hfuel)
    as (out & Hrun & Hperm & _ & _ & _ & Hfree).
  exists out. split; [exact Hrun|]. split; [exact Hperm|].
  intros face_cells Hf. apply Hfree. exact Hf.
Qed.

Lemma block_renumbering_conflict_free_witness :
  exists out,
    _renum_i_faces_no_share_cell_in_block 5 64 chain6_mesh 2 1014
      [0; 1; 2; 3; 4] = Ok (0, out)
    /\ new_to_old out ≡ₚ seqZ 0 (n_i_faces chain6_mesh)
    /\ forall face_cells,
        follows (new_to_old out) (i_face_cells chain6_mesh) face_cells ->
        conflict_free face_cells
          (cs_numbering_create_threaded 2 (out_n_groups out)
             (out_group_index out)).
Proof.
  apply (block_renumbering_conflict_free 5 64 chain6_mesh 2 1014
           [0; 1; 2; 3; 4]).
  - lia.
  - vm_compute. discriminate.
  - simpl. lia.
  - reflexivity.
  - unfold cells_below. simpl. repeat constructor; simpl; lia.
  - reflexivity.
  - simpl. lia.
Defined.

(** ** The check of the numbering for threads *)

(** Inversion of [m ≫= f = Ok b], naming the intermediate result. *)
Ltac bind_inv H a Ha :=
  apply bind_Ok in H; destruct H as [a [Ha H]].

Lemma for_loop_inv_Ok_max {S} (P : Z -> S -> Prop) (lo hi : Z)
      (body : Z -> S -> res S) (s s' : S) :
  for_loop lo hi body s = Ok s' ->
  P lo s ->
  (forall j s s', lo <= j < hi -> P j s -> body j s = Ok s' -> P (j + 1) s') ->
  P (Z.max lo hi) s'.
Proof.
  intros Hrun HP Hstep. destruct (Z.le_gt_cases hi lo) as [Hle|Hgt].
  - rewrite for_loop_empty in Hrun by lia. inversion Hrun. subst s'.
    rewrite Z.max_l by lia. exact HP.
  - rewrite Z.max_r by lia.
    apply (for_loop_inv_Ok P lo hi body s s'); [lia | assumption..].
Qed.

Section SerialTest.

Variables (fc : list (Z * Z)) (nb : cs_numbering_t) (n_cells_ext : Z).

(** Cell [c] belongs to a face of the range of thread [t] in group [g]. *)
Definition range_touches (g t c : Z) : Prop :=
  exists s e i p, thread_range nb t g = Ok (s, e) /\ 0 <= s <= i /\ i < e
                  /\ rd fc i = Ok p /\ (c = p.1 \/ c = p.2).

(** The loop on the faces of one range, in the serial test. *)
Definition serial_faces (t_id s e : Z) (st : Z * list Z) : res (Z * list Z) :=
  for_loop s e
    (fun f_id '(face_errors, acc) =>
       '(c_id_0, c_id_1) ← rd fc f_id;
       a0 ← rd acc c_id_0;
       a1 ← rd acc c_id_1;
       let bad :=
         ((-1 <? a0) && negb (a0 =? t_id))
         || ((-1 <? a1) && negb (a1 =? t_id)) in
       acc ← wr acc c_id_0 t_id;
       acc ← wr acc c_id_1 t_id;
       mret (if bad then face_errors + 1 else face_errors, acc))
    st.

Lemma serial_faces_spec (T0 : Z -> Z -> Prop) (t s e fe fe' : Z)
      (acc acc' : list Z) :
  0 <= t -> 0 <= fe ->
  (forall t' c, T0 t' c -> 0 <= t') ->
  (fe = 0 -> forall t' c, T0 t' c -> rd acc c = Ok t') ->
  serial_faces t s e (fe, acc) = Ok (fe', acc') ->
  fe <= fe'
  /\ (s < e -> 0 <= s)
  /\ (fe' = 0 ->
      forall t' c,
        (T0 t' c
         \/ (t' = t /\ exists i p, s <= i < e /\ rd fc i = Ok p
                                   /\ (c = p.1 \/ c = p.2))) ->
        rd acc' c = Ok t').
Proof using All.
  intros Ht Hfe HT0 Hacc Hrun. unfold serial_faces in Hrun.
  apply (for_loop_inv_Ok_max
           (fun j (st : Z * list Z) =>
              fe <= st.1
              /\ (s < j -> 0 <= s)
              /\ (st.1 = 0 ->
                  forall t' c,
                    (T0 t' c
                     \/ (t' = t /\ exists i p, s <= i < j /\ rd fc i = Ok p
                                               /\ (c = p.1 \/ c = p.2))) ->
                    rd st.2 c = Ok t')) ) in Hrun.
  - simpl in Hrun. destruct Hrun as (H1 & H2 & H3).
    split; [exact H1|]. split; [intros; apply H2; lia|].
    intros Hz t' c [HT|[-> (i & p & Hi & Hp & Hc)]].
    + apply H3; [exact Hz | left; exact HT].
    + apply H3; [exact Hz|]. right. split; [reflexivity|].
      exists i, p. split; [lia | tauto].
  - simpl. split; [lia|]. split; [lia|].
    intros Hz t' c [HT|[_ (i & p & Hi & _)]]; [|lia].
    apply Hacc; [lia | exact HT].
  - intros j [fe1 acc1] [fe2 acc2] Hj (Hle & Hs & Hgood) Hbody. simpl in *.
    bind_inv Hbody cc Ha. destruct cc as [c0 c1].
    bind_inv Hbody a0 Ha0. bind_inv Hbody a1 Ha1.
    bind_inv Hbody accA Ha2. bind_inv Hbody accB Ha3.
    inversion Hbody. clear Hbody. subst fe2 acc2.
    apply rd_lt in Ha as Hjr.
    apply wr_Ok in Ha2. destruct Ha2 as [Hc0 ->].
    apply wr_Ok in Ha3. destruct Ha3 as [Hc1 ->].
    rewrite length_insert in Hc1.
    set (bad := ((-1 <? a0) && negb (a0 =? t))
                || ((-1 <? a1) && negb (a1 =? t))) in *.
    split; [destruct bad; lia|]. split; [lia|].
    intros Hz t' c Hin.
    assert (bad = false /\ fe1 = 0) as [Hbad ->].
    { destruct bad; [lia | split; [reflexivity | exact Hz]]. }
    specialize (Hgood eq_refl).
    apply orb_false_iff in Hbad. destruct Hbad as [Hb0 Hb1].
    assert (forall cx ax, rd acc1 cx = Ok ax ->
              (-1 <? ax) && negb (ax =? t) = false ->
              forall t'', 0 <= t'' -> rd acc1 cx = Ok t'' -> t'' = t) as Hsame.
    { intros cx ax Hax Hb t'' Ht'' Hrd. assert (ax = t'') as -> by congruence.
      apply andb_false_iff in Hb. destruct Hb as [Hb|Hb].
      - apply Z.ltb_ge in Hb. lia.
      - apply negb_false_iff, Z.eqb_eq in Hb. exact Hb. }
    assert (rd (<[Z.to_nat c1:=t]> (<[Z.to_nat c0:=t]> acc1)) c0 = Ok t) as Hn0.
    { apply rd_Ok. split; [lia|]. destruct (decide (c1 = c0)) as [->|Hne].
      - apply list_lookup_insert_eq. rewrite length_insert. lia.
      - rewrite list_lookup_insert_ne by lia. apply list_lookup_insert_eq. lia. }
    assert (rd (<[Z.to_nat c1:=t]> (<[Z.to_nat c0:=t]> acc1)) c1 = Ok t) as Hn1.
    { apply rd_Ok. split; [lia|]. apply list_lookup_insert_eq.
      rewrite length_insert. lia. }
    assert (forall t'', 0 <= t'' -> rd acc1 c = Ok t'' ->
              rd (<[Z.to_nat c1:=t]> (<[Z.to_nat c0:=t]> acc1)) c = Ok t'')
      as Hold.
    { intros t'' Ht'' Hrd.
      destruct (decide (c = c0)) as [->|Hne0].
      { rewrite (Hsame c0 a0 Ha0 Hb0 t'' Ht'' Hrd). exact Hn0. }
      destruct (decide (c = c1)) as [->|Hne1].
      { rewrite (Hsame c1 a1 Ha1 Hb1 t'' Ht'' Hrd). exact Hn1. }
      apply rd_Ok in Hrd. apply rd_Ok. split; [tauto|].
      rewrite !list_lookup_insert_ne by lia. tauto. }
    destruct Hin as [HT|[-> (i & p & Hi & Hp & Hc)]].
    + apply Hold; [apply (HT0 _ _ HT)|]. apply Hgood. left. exact HT.
    + destruct (decide (i = j)) as [->|Hne].
      * rewrite Ha in Hp. inversion Hp. subst p. simpl in Hc.
        destruct Hc as [->| ->]; assumption.
      * apply Hold; [exact Ht|]. apply Hgood. right. split; [reflexivity|].
        exists i, p. split; [lia | tauto].
Qed.

End SerialTest.

Section SerialTestLoops.

Variables (fc : list (Z * Z)) (nb : cs_numbering_t) (n_cells_ext : Z).

(** The loop on the threads of group [g_id], in the serial test. *)
Definition serial_threads (g_id : Z) (st : Z * list Z) : res (Z * list Z) :=
  for_loop 0 (n_threads nb)
    (fun t_id st =>
       '(s, e) ← thread_range nb t_id g_id;
       serial_faces fc t_id s e st)
    st.

(** Ranges that are not empty start at a valid face. *)
Definition ranges_start_ok (g t : Z) : Prop :=
  forall s e, thread_range nb t g = Ok (s, e) -> s < e -> 0 <= s.

Lemma serial_threads_spec (g fe fe' : Z) (acc' : list Z) :
  0 <= fe ->
  serial_threads g (fe, replicate (Z.to_nat n_cells_ext) (-1)) = Ok (fe', acc') ->
  fe <= fe'
  /\ (forall t, 0 <= t < n_threads nb -> ranges_start_ok g t)
  /\ (fe' = 0 ->
      forall t c, 0 <= t < n_threads nb -> range_touches fc nb g t c ->
                  rd acc' c = Ok t).
Proof using All.
  intros Hfe Hrun. unfold serial_threads in Hrun.
  apply (for_loop_inv_Ok_max
           (fun t (st : Z * list Z) =>
              fe <= st.1
              /\ (forall t', 0 <= t' < t -> ranges_start_ok g t')
              /\ (st.1 = 0 ->
                  forall t' c, 0 <= t' < t -> range_touches fc nb g t' c ->
                               rd st.2 c = Ok t')) ) in Hrun.
  - simpl in Hrun. destruct Hrun as (H1 & H2 & H3).
    split; [exact H1|]. split; [intros t Ht; apply H2; lia|].
    intros Hz t c Ht. apply H3; [exact Hz | lia].
  - simpl. split; [lia|]. split; intros; lia.
  - intros t [fe1 acc1] [fe2 acc2] Ht (Hle & Hstart & Hgood) Hbody.
    simpl in Hle, Hstart, Hgood.
    bind_inv Hbody se Hse. destruct se as [s e].
    apply (serial_faces_spec fc nb n_cells_ext
             (fun t' c => 0 <= t' < t /\ range_touches fc nb g t' c))
      in Hbody; [| lia | lia | intros t' c [? _]; lia |].
    2: { intros Hz t' c [Ht' Hc]. apply Hgood; assumption. }
    destruct Hbody as (Hle' & Hs & Hgood'). simpl.
    split; [lia|]. split.
    + intros t' Ht' s' e' Hr Hlt. destruct (decide (t' = t)) as [->|Hne].
      * rewrite Hse in Hr. inversion Hr. subst s' e'. apply Hs. exact Hlt.
      * apply (Hstart t' ltac:(lia) s' e' Hr Hlt).
    + intros Hz t' c Ht' Hc. apply Hgood'; [exact Hz|].
      destruct (decide (t' = t)) as [->|Hne]; [right | left; split; [lia | exact Hc]].
      split; [reflexivity|].
      destruct Hc as (s' & e' & i & p & Hr & Hi & Hie & Hp & Hcp).
      rewrite Hse in Hr. inversion Hr. subst s' e'.
      exists i, p. split; [lia | tauto].
Qed.

(** The serial test: the loop on the groups. *)
Definition serial_groups (face_errors : Z) : res Z :=
  for_loop 0 (n_groups nb)
    (fun g_id face_errors =>
       '(face_errors, _) ←
         serial_threads g_id
           (face_errors, replicate (Z.to_nat n_cells_ext) (-1));
       mret face_errors)
    face_errors.

Lemma serial_groups_spec (fe' : Z) :
  serial_groups 0 = Ok fe' ->
  0 <= fe'
  /\ (forall g t, 0 <= g < n_groups nb -> 0 <= t < n_threads nb ->
                  ranges_start_ok g t)
  /\ (fe' = 0 ->
      forall g t1 t2 c,
        0 <= g < n_groups nb ->
        0 <= t1 < n_threads nb -> 0 <= t2 < n_threads nb ->
        range_touches fc nb g t1 c -> range_touches fc nb g t2 c -> t1 = t2).
Proof using All.
  intros Hrun. unfold serial_groups in Hrun.
  apply (for_loop_inv_Ok_max
           (fun g (fe : Z) =>
              0 <= fe
              /\ (forall g' t, 0 <= g' < g -> 0 <= t < n_threads nb ->
                               ranges_start_ok g' t)
              /\ (fe = 0 ->
                  forall g' t1 t2 c,
                    0 <= g' < g ->
                    0 <= t1 < n_threads nb -> 0 <= t2 < n_threads nb ->
                    range_touches fc nb g' t1 c ->
                    range_touches fc nb g' t2 c -> t1 = t2)) ) in Hrun.
  - destruct Hrun as (H1 & H2 & H3).
    split; [exact H1|]. split; [intros g t Hg; apply H2; lia|].
    intros Hz g t1 t2 c Hg. apply H3; [exact Hz | lia].
  - split; [lia|]. split; intros; lia.
  - intros g fe1 fe2 Hg (Hle & Hstart & Hgood) Hbody.
    bind_inv Hbody st Hst. destruct st as [fe3 acc3].
    inversion Hbody. clear Hbody. subst fe3.
    apply serial_threads_spec in Hst; [|exact Hle].
    destruct Hst as (Hle' & Hstart' & Hgood').
    split; [lia|]. split.
    + intros g' t Hg' Ht. destruct (decide (g' = g)) as [->|Hne].
      * apply Hstart'. exact Ht.
      * apply Hstart; [lia | exact Ht].
    + intros Hz g' t1 t2 c Hg' Ht1 Ht2 Hc1 Hc2.
      destruct (decide (g' = g)) as [->|Hne].
      * pose proof (Hgood' Hz t1 c Ht1 Hc1) as Hr1.
        pose proof (Hgood' Hz t2 c Ht2 Hc2) as Hr2. congruence.
      * apply (Hgood ltac:(lia) g' t1 t2 c); try assumption. lia.
Qed.

End SerialTestLoops.

Lemma range_cells_empty (face_cells : list (Z * Z)) (s e : Z) :
  e <= s -> range_cells face_cells s e = [].
Proof.
  intros Hle. unfold range_cells.
  replace (Z.to_nat (e - s)) with O by lia. reflexivity.
Qed.

(** [chain6_mesh] with an index of two groups for two threads: faces 0-1
    and 3-4 in the first group, face 2 in the second. *)
Definition chain6_threaded : cs_mesh_t :=
  set_i_face_numbering chain6_mesh
    (Some (cs_numbering_create_threaded 2 2 [0; 2; 2; 3; 3; 5; -1; -1])).

(** X6: The check of [_renumber_test] for interior faces is sound: when it runs
    to the end and counts no error, no cell is touched by the ranges of two
    different threads of a group. *)
Theorem renumber_test_sound (mesh : cs_mesh_t) (nb : cs_numbering_t) :
  i_face_numbering mesh = Some nb ->
  type nb = CS_NUMBERING_THREADS ->
  _renumber_test_i_faces mesh = Ok 0 ->
  conflict_free (i_face_cells mesh) nb.
Proof.
  intros Hnb Htype Hrun. unfold _renumber_test_i_faces in Hrun.
  rewrite Hnb, Htype in Hrun.
  bind_inv Hrun accumulator Hacc. bind_inv Hrun counter Hcount.
  cbv zeta in Hrun.
  destruct (Z.eqb_spec (n_i_faces mesh * 2 - counter) 0) as [Heq|Hne];
    [|inversion Hrun; lia].
  rewrite Heq in Hrun.
  apply (serial_groups_spec (i_face_cells mesh) nb (n_cells_with_ghosts mesh))
    in Hrun.
  destruct Hrun as (_ & Hstart & Hgood). specialize (Hgood eq_refl).
  intros g t1 t2 s1 e1 s2 e2 c Hg Ht1 Ht2 Hne Hr1 Hr2 Hc1 Hc2.
  assert (forall t s e, 0 <= t < n_threads nb ->
            thread_range nb t g = Ok (s, e) ->
            c ∈ range_cells (i_face_cells mesh) s e ->
            range_touches (i_face_cells mesh) nb g t c) as Htouch.
  { intros t s e Ht Hr Hc.
    destruct (Z.le_gt_cases e s) as [Hle|Hlt].
    { rewrite range_cells_empty in Hc by lia. inversion Hc. }
    pose proof (Hstart g t Hg Ht s e Hr ltac:(lia)) as Hs.
    destruct (elem_of_range_cells _ s e c Hs Hc) as (i & p & Hi & Hp & Hcp).
    exists s, e, i, p. split; [exact Hr|]. split; [lia|]. split; [lia|].
    split; assumption. }
  apply Hne. apply (Hgood g t1 t2 c Hg Ht1 Ht2).
  - apply (Htouch t1 s1 e1 Ht1 Hr1 Hc1).
  - apply (Htouch t2 s2 e2 Ht2 Hr2 Hc2).
Qed.

Lemma renumber_test_sound_witness :
  conflict_free (i_face_cells chain6_threaded)
    (cs_numbering_create_threaded 2 2 [0; 2; 2; 3; 3; 5; -1; -1]).
Proof.
  apply (renumber_test_sound chain6_threaded).
  - reflexivity.
  - reflexivity.
  - vm_compute. reflexivity.
Defined.

(** ** Assignment of faces to threads in a pass *)

(** The thread bounds do not decrease. *)
Definition index_monotone (t_cell_index : list Z) : Prop :=
  forall i j x y, 0 <= i <= j -> rd t_cell_index i = Ok x ->
                  rd t_cell_index j = Ok y -> x <= y.

(** Face [f_id] got thread [t_id] of group [g_id]. *)
Definition assigned_to (n_i_threads g_id : Z) (a : pass_arrays) (f_id t_id : Z)
  : Prop :=
  0 <= t_id /\ rd (f_t_id a) f_id = Ok (t_id + g_id * n_i_threads).

(** Both cells of the face are in the cell range of thread [t_id]. *)
Definition in_thread_cells (t_cell_index : list Z) (t_id : Z) (c : Z * Z)
  : Prop :=
  exists lo hi, rd t_cell_index t_id = Ok lo
                /\ rd t_cell_index (t_id + 1) = Ok hi
                /\ lo <= c.1 /\ c.2 < hi.

Lemma assign_in_thread_cells (n_i_threads n_g_i_threads g_id faces_list_size : Z)
      (faces_list : list Z) (l_face_cells : list (Z * Z))
      (a a' : pass_arrays) (t_cell_index : list Z) :
  0 <= g_id * n_i_threads ->
  NoDup (take (Z.to_nat faces_list_size) faces_list) ->
  _renum_face_multipass_assign n_i_threads n_g_i_threads g_id faces_list_size
    faces_list l_face_cells a t_cell_index = Ok a' ->
  forall fl_id f_id,
    0 <= fl_id < faces_list_size -> rd faces_list fl_id = Ok f_id ->
    exists c,
      rd l_face_cells f_id = Ok c
      /\ (rd (f_t_id a') f_id = Ok (-1)
          \/ exists t_id, assigned_to n_i_threads g_id a' f_id t_id
                          /\ in_thread_cells t_cell_index t_id c).
Proof.
  intros Hg Hnd Hrun. unfold _renum_face_multipass_assign in Hrun.
  bind_inv Hrun reset Hreset. destruct reset as [ntf tfl].
  bind_inv Hrun st Hloop. destruct st as [t_last a1].
  inversion Hrun. clear Hrun. subst a1.
  destruct (Z.le_gt_cases faces_list_size 0) as [Hle|Hgt].
  { intros fl_id f_id Hfl. lia. }
  refine (for_loop_inv_Ok
           (fun j (st : Z * pass_arrays) =>
              forall fl_id f_id,
                0 <= fl_id < j -> rd faces_list fl_id = Ok f_id ->
                exists c,
                  rd l_face_cells f_id = Ok c
                  /\ (rd (f_t_id st.2) f_id = Ok (-1)
                      \/ exists t_id,
                           assigned_to n_i_threads g_id st.2 f_id t_id
                           /\ in_thread_cells t_cell_index t_id c))
           0 faces_list_size _ _ (t_last, a') _ Hloop _ _).
  - lia.
  - intros fl_id f_id Hfl. lia.
  - intros j [t0 a0] [t1 a1] Hj Hinv Hbody. simpl in Hinv. simpl.
    bind_inv Hbody f_j Hfj. bind_inv Hbody cc Hcc. destruct cc as [c0 c1].
    bind_inv Hbody t Hthread. bind_inv Hbody u Hassert.
    bind_inv Hbody lo Hlo. bind_inv Hbody ok Hok.
    (* the faces seen before are other faces *)
    assert (forall fl_id f_id, 0 <= fl_id < j ->
              rd faces_list fl_id = Ok f_id -> f_id <> f_j) as Hother.
    { intros fl_id f_id Hfl Hf ->.
      apply rd_Ok in Hf. apply rd_Ok in Hfj.
      assert (Z.to_nat fl_id = Z.to_nat j); [|lia].
      apply (NoDup_lookup _ _ _ f_j Hnd); rewrite lookup_take_lt by lia; tauto. }
    assert (forall fti v,
              wr (f_t_id a0) f_j v = Ok fti ->
              forall f_id w, f_id <> f_j -> rd (f_t_id a0) f_id = Ok w ->
                             rd fti f_id = Ok w) as Hkeep.
    { intros fti v Hw f_id w Hne Hr. rewrite (rd_wr_other _ _ _ _ _ Hw); auto. }
    destruct ok.
    + bind_inv Hbody fti Hfti. bind_inv Hbody n Hn. bind_inv Hbody ntf' Hntf.
      bind_inv Hbody tfl' Htfl. inversion Hbody. clear Hbody. subst t1 a1.
      simpl. intros fl_id f_id Hfl Hf.
      destruct (decide (fl_id = j)) as [->|Hne].
      * assert (f_id = f_j) as -> by congruence.
        exists (c0, c1). split; [exact Hcc|]. right. exists t.
        split.
        -- split; [apply rd_lt in Hlo; lia|]. simpl.
           apply (rd_wr_same _ _ _ _ Hfti).
        -- destruct (Z.leb_spec lo c0) as [Hlo0|]; [|discriminate Hok].
           bind_inv Hok hi Hhi. inversion Hok as [Hlt].
           apply Z.ltb_lt in Hlt.
           exists lo, hi. simpl. auto.
      * destruct (Hinv fl_id f_id ltac:(lia) Hf) as [c [Hc Hcase]].
        pose proof (Hother fl_id f_id ltac:(lia) Hf) as Hfne.
        exists c. split; [exact Hc|].
        destruct Hcase as [Hm|[t' [[Ht' Has] Hin]]].
        -- left. apply (Hkeep _ _ Hfti); assumption.
        -- right. exists t'. split; [|exact Hin]. split; [exact Ht'|]. simpl.
           apply (Hkeep _ _ Hfti); assumption.
    + bind_inv Hbody fti Hfti. inversion Hbody. clear Hbody. subst t1 a1.
      simpl. intros fl_id f_id Hfl Hf.
      destruct (decide (fl_id = j)) as [->|Hne].
      * assert (f_id = f_j) as -> by congruence.
        exists (c0, c1). split; [exact Hcc|]. left.
        apply (rd_wr_same _ _ _ _ Hfti).
      * destruct (Hinv fl_id f_id ltac:(lia) Hf) as [c [Hc Hcase]].
        pose proof (Hother fl_id f_id ltac:(lia) Hf) as Hfne.
        exists c. split; [exact Hc|].
        destruct Hcase as [Hm|[t' [[Ht' Has] Hin]]].
        -- left. apply (Hkeep _ _ Hfti); assumption.
        -- right. exists t'. split; [|exact Hin]. split; [exact Ht'|]. simpl.
           apply (Hkeep _ _ Hfti); assumption.
Qed.

(** X7: Each face assigned by [_renum_face_multipass_assign] has its two cells
    in the cell range of its thread, in every call that returns.  When
    moreover the bounds of the active threads do not decrease, two faces
    assigned to different active threads have no cell in common. *)
Theorem assign_conflict_free
    (n_i_threads n_g_i_threads g_id faces_list_size : Z)
    (faces_list : list Z) (l_face_cells : list (Z * Z))
    (a a' : pass_arrays) (t_cell_index : list Z) :
  0 <= g_id * n_i_threads ->
  NoDup (take (Z.to_nat faces_list_size) faces_list) ->
  Forall (fun c : Z * Z => c.1 <= c.2) l_face_cells ->
  _renum_face_multipass_assign n_i_threads n_g_i_threads g_id faces_list_size
    faces_list l_face_cells a t_cell_index = Ok a' ->
  (forall fl_id f_id t_id c,
      0 <= fl_id < faces_list_size -> rd faces_list fl_id = Ok f_id ->
      assigned_to n_i_threads g_id a' f_id t_id ->
      rd l_face_cells f_id = Ok c ->
      in_thread_cells t_cell_index t_id c)
  /\ (StronglySorted Z.le
        (take (Z.to_nat (n_g_i_threads + 1)) t_cell_index) ->
      forall fl1 fl2 f1 f2 t1 t2 c1 c2 x,
        0 <= fl1 < faces_list_size -> 0 <= fl2 < faces_list_size ->
        rd faces_list fl1 = Ok f1 -> rd faces_list fl2 = Ok f2 ->
        assigned_to n_i_threads g_id a' f1 t1 ->
        assigned_to n_i_threads g_id a' f2 t2 ->
        t1 < n_g_i_threads -> t2 < n_g_i_threads -> t1 <> t2 ->
        rd l_face_cells f1 = Ok c1 -> rd l_face_cells f2 = Ok c2 ->
        (x = c1.1 \/ x = c1.2) -> (x = c2.1 \/ x = c2.2) -> False).
Proof.
  intros Hg Hnd Hord Hrun.
  pose proof (assign_in_thread_cells _ _ _ _ _ _ _ _ _ Hg Hnd Hrun) as Hall.
  assert (forall fl_id f_id t_id c,
            0 <= fl_id < faces_list_size -> rd faces_list fl_id = Ok f_id ->
            assigned_to n_i_threads g_id a' f_id t_id ->
            rd l_face_cells f_id = Ok c ->
            in_thread_cells t_cell_index t_id c) as Hin.
  { intros fl_id f_id t_id c Hfl Hf [Ht Has] Hc.
    destruct (Hall fl_id f_id Hfl Hf) as [c' [Hc' Hcase]].
    assert (c' = c) as -> by congruence.
    destruct Hcase as [Hm|[t' [[Ht' Has'] Hin]]].
    - rewrite Has in Hm. inversion Hm. lia.
    - rewrite Has in Has'. inversion Has'.
      assert (t' = t_id) as -> by lia. exact Hin. }
  split; [exact Hin|]. intros Hsorted.
  assert (forall t t' lo hi, 0 <= t -> t < t' -> t' < n_g_i_threads ->
            rd t_cell_index (t + 1) = Ok hi -> rd t_cell_index t' = Ok lo ->
            hi <= lo) as Hbounds.
  { intros t t' lo hi Ht Hlt Hlt' Hhi Hlo.
    apply rd_Ok in Hhi. apply rd_Ok in Hlo.
    destruct (decide (t + 1 = t')) as [<-|Hne]; [destruct Hhi, Hlo; assert (Some hi = Some lo) by congruence; assert (hi = lo) by congruence; lia|].
    apply (StronglySorted_lookup_lt Z.le _ (Z.to_nat (t + 1)) (Z.to_nat t')
             hi lo Hsorted); [| |lia].
    - rewrite lookup_take_lt by lia. tauto.
    - rewrite lookup_take_lt by lia. tauto. }
  intros fl1 fl2 f1 f2 t1 t2 c1 c2 x Hfl1 Hfl2 Hf1 Hf2 Ha1 Ha2 Ht1 Ht2 Hne
         Hc1 Hc2 Hx1 Hx2.
  destruct (Hin fl1 f1 t1 c1 Hfl1 Hf1 Ha1 Hc1) as (lo1 & hi1 & Hlo1 & Hhi1 & Hl1 & Hh1).
  destruct (Hin fl2 f2 t2 c2 Hfl2 Hf2 Ha2 Hc2) as (lo2 & hi2 & Hlo2 & Hhi2 & Hl2 & Hh2).
  rewrite Forall_lookup in Hord.
  apply rd_Ok in Hc1. apply rd_Ok in Hc2.
  pose proof (Hord _ _ (proj2 Hc1)) as Ho1. pose proof (Hord _ _ (proj2 Hc2)) as Ho2.
  simpl in Ho1, Ho2.
  destruct Ha1 as [Ht1' _], Ha2 as [Ht2' _].
  destruct (Z.lt_trichotomy t1 t2) as [Hlt|[Heq|Hgt]]; [|lia|].
  - pose proof (Hbounds t1 t2 lo2 hi1 Ht1' Hlt Ht2 Hhi1 Hlo2). lia.
  - pose proof (Hbounds t2 t1 lo1 hi2 Ht2' Hgt Ht1 Hhi2 Hlo1). lia.
Qed.

Lemma assign_conflict_free_witness :
  exists a',
    _renum_face_multipass_assign 2 2 0 5 [0; 1; 2; 3; 4]
      [(0, 1); (1, 2); (2, 3); (3, 4); (4, 5)]
      {| f_t_id := [-1; -1; -1; -1; -1]; n_t_faces := [0; 0];
         t_face_last := [0; 0] |} [0; 3; 6] = Ok a'
    /\ f_t_id a' = [0; 0; -1; 1; 1]
    /\ (forall fl_id f_id t_id c,
          0 <= fl_id < 5 -> rd [0; 1; 2; 3; 4] fl_id = Ok f_id ->
          assigned_to 2 0 a' f_id t_id ->
          rd [(0, 1); (1, 2); (2, 3); (3, 4); (4, 5)] f_id = Ok c ->
          in_thread_cells [0; 3; 6] t_id c)
    /\ (forall fl1 fl2 f1 f2 t1 t2 c1 c2 x,
          0 <= fl1 < 5 -> 0 <= fl2 < 5 ->
          rd [0; 1; 2; 3; 4] fl1 = Ok f1 -> rd [0; 1; 2; 3; 4] fl2 = Ok f2 ->
          assigned_to 2 0 a' f1 t1 -> assigned_to 2 0 a' f2 t2 ->
          t1 < 2 -> t2 < 2 -> t1 <> t2 ->
          rd [(0, 1); (1, 2); (2, 3); (3, 4); (4, 5)] f1 = Ok c1 ->
          rd [(0, 1); (1, 2); (2, 3); (3, 4); (4, 5)] f2 = Ok c2 ->
          (x = c1.1 \/ x = c1.2) -> (x = c2.1 \/ x = c2.2) -> False).
Proof.
  eexists. split; [vm_compute; reflexivity|]. split; [reflexivity|].
  destruct (assign_conflict_free 2 2 0 5 [0; 1; 2; 3; 4]
              [(0, 1); (1, 2); (2, 3); (3, 4); (4, 5)]
              {| f_t_id := [-1; -1; -1; -1; -1]; n_t_faces := [0; 0];
                 t_face_last := [0; 0] |}
              {| f_t_id := [0; 0; -1; 1; 1]; n_t_faces := [2; 2];
                 t_face_last := [1; 4] |} [0; 3; 6])
    as [Hin Hfree].
  - lia.
  - apply (bool_decide_unpack _). vm_compute. exact I.
  - repeat constructor; simpl; lia.
  - vm_compute. reflexivity.
  - split; [exact Hin|]. apply Hfree. simpl. repeat constructor; lia.
Defined.

Lemma StronglySorted_from_lookup (l : list Z) :
  (forall i j x y, (i < j)%nat -> l !! i = Some x -> l !! j = Some y -> x <= y) ->
  StronglySorted Z.le l.
Proof.
  induction l as [|a l IH]; intros Hl; constructor.
  - apply IH. intros i j x y Hij Hi Hj. apply (Hl (S i) (S j)); [lia | assumption..].
  - apply Forall_forall. intros y Hy. apply list_elem_of_lookup_1 in Hy.
    destruct Hy as [j Hj]. apply (Hl O (S j)); [lia | reflexivity | exact Hj].
Qed.

(** X8: The initial distribution of a pass gives thread [t] the cells from
    [t * group_size] on, capped by the number of cells: the bounds start at
    0, end at [n_f_cells] and do not decrease. *)
Theorem initial_cell_index_sorted (n_g_i_threads group_size n_f_cells : Z)
    (t_cell_index : list Z) :
  1 <= n_g_i_threads < Z.of_nat (length t_cell_index) ->
  0 <= group_size -> 0 <= n_f_cells ->
  exists tci,
    initial_cell_index n_g_i_threads group_size n_f_cells t_cell_index = Ok tci
    /\ length tci = length t_cell_index
    /\ (forall t, 0 <= t < n_g_i_threads ->
                  rd tci t = Ok (Z.min (t * group_size) n_f_cells))
    /\ rd tci n_g_i_threads = Ok n_f_cells
    /\ StronglySorted Z.le (take (Z.to_nat (n_g_i_threads + 1)) tci).
Proof.
  intros Hn Hgs Hnf. unfold initial_cell_index.
  rewrite wr_in_range by lia. simpl mbind at 1.
  destruct (for_loop_inv
              (fun t (tci : list Z) =>
                 length tci = length t_cell_index
                 /\ forall t', 0 <= t' < t ->
                      rd tci t' = Ok (Z.min (t' * group_size) n_f_cells))
              1 n_g_i_threads
              (fun t_id tci =>
                 p ← rd tci (t_id - 1);
                 wr tci t_id (if n_f_cells <? p + group_size then n_f_cells
                              else p + group_size))
              (<[Z.to_nat 0:=0]> t_cell_index))
    as [tci [Hrun [Hlen Hall]]].
  - lia.
  - split; [apply length_insert|]. intros t' Ht'. assert (t' = 0) as -> by lia.
    apply rd_Ok. split; [lia|]. rewrite list_lookup_insert_eq by lia.
    f_equal. lia.
  - intros t tci [Hlen Hall] Ht. destruct Ht as [Hlen' Hall'].
    rewrite (Hall' (t - 1)) by lia. simpl.
    rewrite wr_in_range by lia. eexists. split; [reflexivity|].
    rewrite length_insert. split; [exact Hlen'|].
    intros t' Ht'. apply rd_Ok. split; [lia|].
    destruct (decide (t' = t)) as [->|Hne].
    + rewrite list_lookup_insert_eq by lia. f_equal.
      destruct (Z.ltb_spec n_f_cells
                  (Z.min ((t - 1) * group_size) n_f_cells + group_size)); nia.
    + rewrite list_lookup_insert_ne by lia.
      specialize (Hall' t' ltac:(lia)). apply rd_Ok in Hall'. tauto.
  - rewrite Hrun. simpl. rewrite wr_in_range by lia.
    eexists. split; [reflexivity|]. rewrite length_insert.
    split; [exact Hlen|].
    assert (forall t, 0 <= t < n_g_i_threads ->
              rd (<[Z.to_nat n_g_i_threads:=n_f_cells]> tci) t
              = Ok (Z.min (t * group_size) n_f_cells)) as Hlow.
    { intros t Ht. specialize (Hall t Ht). apply rd_Ok in Hall. apply rd_Ok.
      split; [lia|]. rewrite list_lookup_insert_ne by lia. tauto. }
    assert (rd (<[Z.to_nat n_g_i_threads:=n_f_cells]> tci) n_g_i_threads
            = Ok n_f_cells) as Hlast.
    { apply rd_Ok. split; [lia|]. apply list_lookup_insert_eq. lia. }
    split; [exact Hlow|]. split; [exact Hlast|].
    apply StronglySorted_from_lookup. intros i j x y Hij Hi Hj.
    apply lookup_take_Some in Hi. apply lookup_take_Some in Hj.
    destruct Hi as [Hi Hil], Hj as [Hj Hjl].
    assert (rd (<[Z.to_nat n_g_i_threads:=n_f_cells]> tci) (Z.of_nat i) = Ok x)
      as Hx by (apply rd_Ok; rewrite Nat2Z.id; split; [lia | exact Hi]).
    assert (rd (<[Z.to_nat n_g_i_threads:=n_f_cells]> tci) (Z.of_nat j) = Ok y)
      as Hy by (apply rd_Ok; rewrite Nat2Z.id; split; [lia | exact Hj]).
    rewrite Hlow in Hx by lia. inversion Hx. subst x.
    destruct (decide (Z.of_nat j = n_g_i_threads)) as [Heq|Hne].
    + rewrite Heq, Hlast in Hy. inversion Hy. lia.
    + rewrite Hlow in Hy by lia. inversion Hy. nia.
Qed.

Lemma initial_cell_index_sorted_witness :
  exists tci,
    initial_cell_index 4 3 13 (BFT_MALLOC 6) = Ok tci
    /\ length tci = length (BFT_MALLOC 6)
    /\ (forall t, 0 <= t < 4 -> rd tci t = Ok (Z.min (t * 3) 13))
    /\ rd tci 4 = Ok 13
    /\ StronglySorted Z.le (take (Z.to_nat (4 + 1)) tci).
Proof.
  apply (initial_cell_index_sorted 4 3 13 (BFT_MALLOC 6)).
  - simpl. lia.
  - lia.
  - lia.
Defined.

(** ** Renumbering of a face -> vertices connectivity *)

(** Entry [j] of an index array. *)
Definition idx_at (idx : list Z) (j : Z) : Z := default 0 (idx !! Z.to_nat j).

(** Number of entries of entity [j] in an index / list pair. *)
Definition seg_size (idx : list Z) (j : Z) : Z :=
  idx_at idx (j + 1) - idx_at idx j.

(** The entries of entity [j] in a 1-based index / list pair. *)
Definition segment (idx lst : list Z) (j : Z) : list Z :=
  take (Z.to_nat (seg_size idx j)) (drop (Z.to_nat (idx_at idx j - 1)) lst).

(** Position of the first entry of the entity numbered [ii] once the
    entities are stored in the order [new_to_old]. *)
Definition new_start (idx new_to_old : list Z) (ii : Z) : Z :=
  sum_sizes (seg_size idx <$> take (Z.to_nat ii) new_to_old).

Lemma sum_sizes_Permutation (l k : list Z) :
  l ≡ₚ k -> sum_sizes l = sum_sizes k.
Proof.
  unfold sum_sizes. induction 1; simpl; lia.
Qed.

Lemma rd_idx_at (idx : list Z) (j : Z) :
  0 <= j < Z.of_nat (length idx) -> rd idx j = Ok (idx_at idx j).
Proof.
  intros Hj. apply rd_Ok. split; [lia|]. unfold idx_at.
  destruct (lookup_lt_is_Some_2 idx (Z.to_nat j) ltac:(lia)) as [v Hv].
  rewrite Hv. reflexivity.
Qed.

Lemma idx_at_mono (idx : list Z) (i j : Z) :
  StronglySorted Z.le idx -> 0 <= i <= j -> j < Z.of_nat (length idx) ->
  idx_at idx i <= idx_at idx j.
Proof.
  intros Hs Hij Hj.
  pose proof (rd_idx_at idx i ltac:(lia)) as Hi.
  pose proof (rd_idx_at idx j ltac:(lia)) as Hj'.
  apply rd_Ok in Hi. apply rd_Ok in Hj'.
  destruct (decide (i = j)) as [->|Hne]; [lia|].
  apply (StronglySorted_lookup_lt Z.le idx (Z.to_nat i) (Z.to_nat j) _ _ Hs);
    [tauto | tauto | lia].
Qed.

Lemma sum_seg_sizes (idx : list Z) (k : nat) :
  sum_sizes (seg_size idx <$> seqZ 0 (Z.of_nat k))
  = idx_at idx (Z.of_nat k) - idx_at idx 0.
Proof.
  induction k as [|k IH]; [rewrite Z.sub_diag; reflexivity|].
  replace (Z.of_nat (S k)) with (Z.of_nat k + 1) by lia.
  rewrite seqZ_app by lia. rewrite fmap_app, sum_sizes_app, IH.
  simpl. unfold sum_sizes, seg_size. simpl.
  replace (Z.of_nat 0 + (0 + Z.of_nat k)) with (Z.of_nat k) by lia. lia.
Qed.

Section NewStart.

Variables (n : Z) (idx new_to_old : list Z).

Hypothesis n_nonneg : 0 <= n.
Hypothesis idx_length : Z.of_nat (length idx) = n + 1.
Hypothesis idx_sorted : StronglySorted Z.le idx.
Hypothesis n2o_perm : new_to_old ≡ₚ seqZ 0 n.

Lemma n2o_length : Z.of_nat (length new_to_old) = n.
Proof using All. rewrite n2o_perm, length_seqZ. lia. Qed.

Lemma n2o_range (i j : Z) :
  rd new_to_old i = Ok j -> 0 <= j < n.
Proof using All.
  intros Hj. apply rd_Ok in Hj. destruct Hj as [_ Hj].
  apply list_elem_of_lookup_2 in Hj. rewrite n2o_perm in Hj.
  apply elem_of_seqZ in Hj. lia.
Qed.

Lemma seg_size_nonneg (j : Z) : 0 <= j < n -> 0 <= seg_size idx j.
Proof using All.
  intros Hj. unfold seg_size.
  pose proof (idx_at_mono idx j (j + 1) idx_sorted ltac:(lia) ltac:(lia)). lia.
Qed.

Lemma seg_sizes_nonneg (l : list Z) :
  (forall j, j ∈ l -> 0 <= j < n) ->
  Forall (fun s => 0 <= s) (seg_size idx <$> l).
Proof using All.
  intros Hl. apply Forall_fmap, Forall_forall. intros j Hj. simpl.
  apply seg_size_nonneg, Hl, Hj.
Qed.

Lemma new_start_0 : new_start idx new_to_old 0 = 0.
Proof using All. reflexivity. Qed.

Lemma new_start_succ (ii j : Z) :
  0 <= ii -> rd new_to_old ii = Ok j ->
  new_start idx new_to_old (ii + 1)
  = new_start idx new_to_old ii + seg_size idx j.
Proof using All.
  intros Hi Hj. apply rd_Ok in Hj. destruct Hj as [_ Hj]. unfold new_start.
  replace (Z.to_nat (ii + 1)) with (S (Z.to_nat ii)) by lia.
  rewrite (take_S_r _ _ _ Hj), fmap_app, sum_sizes_app.
  unfold sum_sizes. simpl. lia.
Qed.

Lemma new_start_nonneg (ii : Z) : 0 <= new_start idx new_to_old ii.
Proof using All.
  unfold new_start. apply sum_sizes_nonneg, seg_sizes_nonneg.
  intros j Hj. apply elem_of_take in Hj. destruct Hj as [i [Hj _]].
  apply (n2o_range (Z.of_nat i)). apply rd_Ok. rewrite Nat2Z.id.
  split; [lia | exact Hj].
Qed.

Lemma new_start_mono (i ii : Z) :
  0 <= i <= ii -> new_start idx new_to_old i <= new_start idx new_to_old ii.
Proof using All.
  intros Hi. unfold new_start.
  replace (take (Z.to_nat ii) new_to_old)
    with (take (Z.to_nat i) new_to_old
          ++ take (Z.to_nat ii - Z.to_nat i) (drop (Z.to_nat i) new_to_old)).
  2: { rewrite take_take_drop. f_equal. lia. }
  rewrite fmap_app, sum_sizes_app.
  assert (0 <= sum_sizes
                 (seg_size idx
                    <$> take (Z.to_nat ii - Z.to_nat i)
                          (drop (Z.to_nat i) new_to_old))); [|lia].
  apply sum_sizes_nonneg, seg_sizes_nonneg.
  intros j Hj. apply elem_of_take in Hj. destruct Hj as [k [Hj _]].
  rewrite lookup_drop in Hj.
  apply (n2o_range (Z.of_nat (Z.to_nat i + k))). apply rd_Ok.
  rewrite Nat2Z.id. split; [lia | exact Hj].
Qed.

Lemma new_start_all :
  new_start idx new_to_old n = idx_at idx n - idx_at idx 0.
Proof using All.
  unfold new_start. rewrite take_ge by (pose proof n2o_length; lia).
  rewrite (sum_sizes_Permutation _ (seg_size idx <$> seqZ 0 n)).
  - assert (0 <= n) by (pose proof n2o_length; lia).
    rewrite <- (Z2Nat.id n) at 1 by lia. rewrite sum_seg_sizes.
    rewrite Z2Nat.id by lia. reflexivity.
  - apply fmap_Permutation. exact n2o_perm.
Qed.

End NewStart.

Lemma memcpy_prefix (src : list Z) (n : Z) :
  0 <= n <= Z.of_nat (length src) ->
  memcpy (BFT_MALLOC n) src n = Ok (take (Z.to_nat n) src).
Proof.
  intros Hn. unfold memcpy. rewrite BFT_MALLOC_length by lia.
  rewrite Z.leb_refl. rewrite (proj2 (Z.leb_le _ _)) by lia. simpl.
  rewrite drop_ge, app_nil_r; [reflexivity|].
  unfold BFT_MALLOC. rewrite length_replicate. lia.
Qed.

Lemma rd_take {A} (l : list A) (n p : Z) :
  p < n -> rd (take (Z.to_nat n) l) p = rd l p.
Proof.
  intros Hp. unfold rd. destruct (Z.ltb_spec p 0); [reflexivity|].
  rewrite lookup_take_lt by lia. reflexivity.
Qed.

(** Copy of the entries of one entity, as done by [_update_face_vertices]
    (the entries are not translated). *)
Lemma copy_sublist_spec (idx_old lst_old : list Z) (jj start_id : Z)
      (lst : list Z) :
  0 <= jj -> jj + 1 < Z.of_nat (length idx_old) ->
  1 <= idx_at idx_old jj <= idx_at idx_old (jj + 1) ->
  idx_at idx_old (jj + 1) - 1 <= Z.of_nat (length lst_old) ->
  0 <= start_id ->
  start_id + seg_size idx_old jj <= Z.of_nat (length lst) ->
  exists lst',
    copy_sublist (fun v => mret v) idx_old lst_old jj start_id lst
    = Ok (seg_size idx_old jj, lst')
    /\ length lst' = length lst
    /\ (forall k, 0 <= k < seg_size idx_old jj ->
                  rd lst' (start_id + k)
                  = rd lst_old (idx_at idx_old jj - 1 + k))
    /\ (forall p, p < start_id \/ start_id + seg_size idx_old jj <= p ->
                  rd lst' p = rd lst p).
Proof.
  intros Hjj Hlen Hlo Hhi Hstart Hfit. unfold copy_sublist.
  rewrite !rd_idx_at by lia. simpl mbind at 1. simpl mbind at 1.
  fold (seg_size idx_old jj). unfold seg_size in Hfit |- *.
  set (lo := idx_at idx_old jj) in *. set (hi := idx_at idx_old (jj + 1)) in *.
  destruct (for_loop_inv
              (fun kk (l : list Z) =>
                 length l = length lst
                 /\ (forall k, 0 <= k < kk ->
                               rd l (start_id + k) = rd lst_old (lo - 1 + k))
                 /\ (forall p, p < start_id \/ start_id + kk <= p ->
                               rd l p = rd lst p))
              0 (hi - lo)
              (fun kk lst =>
                 v ← rd lst_old (lo - 1 + kk);
                 wr lst (start_id + kk) v)
              lst)
    as [lst' [Hrun (Hl & Hcopy & Hframe)]].
  - lia.
  - split; [reflexivity|]. split; [intros k Hk; lia | reflexivity].
  - intros kk l Hkk (Hl & Hcopy & Hframe).
    destruct (rd_in_range lst_old (lo - 1 + kk) ltac:(lia)) as [v Hv].
    rewrite Hv. simpl. rewrite wr_in_range by lia.
    eexists. split; [reflexivity|]. rewrite length_insert.
    split; [exact Hl|]. split.
    + intros k Hk. destruct (decide (k = kk)) as [->|Hne].
      * rewrite Hv. apply rd_Ok. split; [lia|].
        apply list_lookup_insert_eq. lia.
      * rewrite <- Hcopy by lia. unfold rd.
        destruct (start_id + k <? 0); [reflexivity|].
        rewrite list_lookup_insert_ne by lia. reflexivity.
    + intros p Hp. rewrite <- Hframe by lia. unfold rd.
      destruct (Z.ltb_spec p 0); [reflexivity|].
      rewrite list_lookup_insert_ne by lia. reflexivity.
  - rewrite Hrun. simpl. exists lst'. split; [reflexivity|].
    split; [exact Hl|]. split; [exact Hcopy | exact Hframe].
Qed.

Section RenumberIndexed.

Variables (n : Z) (idx lst new_to_old : list Z).

Hypothesis n_nonneg : 0 <= n.
Hypothesis idx_length : Z.of_nat (length idx) = n + 1.
Hypothesis idx_sorted : StronglySorted Z.le idx.
Hypothesis idx_first : 1 <= idx_at idx 0.
Hypothesis lst_length : idx_at idx n - 1 <= Z.of_nat (length lst).
Hypothesis n2o_perm : new_to_old ≡ₚ seqZ 0 n.

Let start := new_start idx new_to_old.

(** State of the loop of [renumber_indexed] before entity [ii]. *)
Definition indexed_upto (ii : Z) (st : Z * list Z * list Z) : Prop :=
  let '(start_id, idx', lst') := st in
  start_id = start ii
  /\ Z.of_nat (length idx') = n + 1
  /\ length lst' = length lst
  /\ (forall i, 0 <= i <= ii -> rd idx' i = Ok (1 + start i))
  /\ (forall i j k, 0 <= i < ii -> rd new_to_old i = Ok j ->
                    0 <= k < seg_size idx j ->
                    rd lst' (start i + k) = rd lst (idx_at idx j - 1 + k)).

Lemma renumber_indexed_loop :
  exists idx' lst',
    renumber_indexed (fun v => mret v) n new_to_old idx lst = Ok (idx', lst')
    /\ indexed_upto n (start n, idx', lst').
Proof using All.
  unfold renumber_indexed.
  rewrite rd_idx_at by lia. simpl mbind at 1.
  rewrite (memcpy_all (BFT_MALLOC (n + 1)) idx (n + 1))
    by (try apply BFT_MALLOC_length; lia).
  simpl mbind at 1.
  pose proof (idx_at_mono idx 0 n idx_sorted ltac:(lia) ltac:(lia)) as Hmono.
  rewrite memcpy_prefix by lia. simpl mbind at 1.
  rewrite wr_in_range by lia. simpl mbind at 1.
  set (cs := idx_at idx n - 1) in *.
  pose proof (n2o_length n idx new_to_old n_nonneg idx_length idx_sorted n2o_perm)
    as Hn2o.
  pose proof (new_start_all n idx new_to_old n_nonneg idx_length idx_sorted
                n2o_perm) as Hall.
  destruct (for_loop_inv indexed_upto 0 n
              (fun ii '(start_id, idx1, lst1) =>
                 jj ← rd new_to_old ii;
                 '(n, lst1) ← copy_sublist (fun v => mret v) idx
                                (take (Z.to_nat cs) lst) jj start_id lst1;
                 let start_id := start_id + n in
                 idx1 ← wr idx1 (ii + 1) (start_id + 1);
                 mret (start_id, idx1, lst1))
              (0, <[Z.to_nat 0:=1]> idx, lst))
    as [[[s' idx'] lst'] [Hrun Hinv]].
  - exact n_nonneg.
  - unfold indexed_upto. split; [reflexivity|].
    split; [rewrite length_insert; exact idx_length|]. split; [reflexivity|].
    split.
    + intros i Hi. assert (i = 0) as -> by lia.
      apply rd_Ok. split; [lia|]. rewrite list_lookup_insert_eq by lia.
      reflexivity.
    + intros i j k Hi. lia.
  - intros ii [[s1 idx1] lst1] Hii (Hs & Hl1 & Hl2 & Hidx & Hlst).
    destruct (rd_in_range new_to_old ii ltac:(lia)) as [jj Hjj].
    rewrite Hjj. simpl mbind at 1.
    pose proof (n2o_range n idx new_to_old n_nonneg idx_length idx_sorted
                  n2o_perm ii jj Hjj) as Hjr.
    pose proof (new_start_succ n idx new_to_old n_nonneg idx_length idx_sorted
                  n2o_perm ii jj ltac:(lia) Hjj) as Hsucc.
    pose proof (new_start_mono n idx new_to_old n_nonneg idx_length idx_sorted
                  n2o_perm (ii + 1) n ltac:(lia)) as Hle.
    pose proof (new_start_nonneg n idx new_to_old n_nonneg idx_length
                  idx_sorted n2o_perm ii) as Hpos.
    fold start in Hsucc, Hle, Hpos, Hall.
    pose proof (idx_at_mono idx 0 jj idx_sorted ltac:(lia) ltac:(lia)).
    pose proof (idx_at_mono idx jj (jj + 1) idx_sorted ltac:(lia) ltac:(lia)).
    pose proof (idx_at_mono idx (jj + 1) n idx_sorted ltac:(lia) ltac:(lia)).
    destruct (copy_sublist_spec idx (take (Z.to_nat cs) lst) jj s1 lst1)
      as (lst2 & Hcopy & Hl3 & Hnew & Hframe); try lia.
    { rewrite length_take. unfold cs in *. lia. }
    rewrite Hcopy. simpl mbind at 1. cbv zeta.
    rewrite wr_in_range by lia. simpl.
    eexists. split; [reflexivity|]. unfold indexed_upto.
    split; [lia|]. split; [rewrite length_insert; exact Hl1|].
    split; [lia|]. split.
    + intros i Hi. apply rd_Ok. split; [lia|].
      destruct (decide (i = ii + 1)) as [->|Hne].
      * rewrite list_lookup_insert_eq by lia. f_equal. lia.
      * rewrite list_lookup_insert_ne by lia.
        specialize (Hidx i ltac:(lia)). apply rd_Ok in Hidx. tauto.
    + intros i j k Hi Hj Hk. destruct (decide (i = ii)) as [->|Hne].
      * assert (j = jj) as -> by congruence.
        rewrite <- Hs. rewrite Hnew by lia. apply rd_take.
        unfold cs, seg_size in *. lia.
      * pose proof (new_start_succ n idx new_to_old n_nonneg idx_length
                      idx_sorted n2o_perm i j ltac:(lia) Hj) as Hsi.
        pose proof (new_start_mono n idx new_to_old n_nonneg idx_length
                      idx_sorted n2o_perm (i + 1) ii ltac:(lia)) as Hlei.
        fold start in Hsi, Hlei.
        rewrite Hframe by lia. apply Hlst; [lia | assumption..].
  - cbv zeta in Hrun. cbv zeta. rewrite Hrun. simpl.
    exists idx', lst'. split; [reflexivity|].
    unfold indexed_upto in Hinv |- *. destruct Hinv as (Hs & Hrest).
    split; [reflexivity | exact Hrest].
Qed.

End RenumberIndexed.

(** X9: [_update_face_vertices] does nothing without a renumbering array or
    without a face -> vertices list.  Otherwise, for a well-formed 1-based
    index and a permutation [new_to_old], the vertices of the face now
    numbered [i] are those of the face [new_to_old[i]], in the same order;
    the new index starts at 1. *)
Theorem update_face_vertices_follows (n_faces : Z)
    (face_vtx_idx face_vtx new_to_old : list Z) :
  0 <= n_faces ->
  Z.of_nat (length face_vtx_idx) = n_faces + 1 ->
  StronglySorted Z.le face_vtx_idx ->
  1 <= idx_at face_vtx_idx 0 ->
  idx_at face_vtx_idx n_faces - 1 <= Z.of_nat (length face_vtx) ->
  new_to_old ≡ₚ seqZ 0 n_faces ->
  _update_face_vertices n_faces face_vtx_idx None (Some new_to_old)
  = Ok (face_vtx_idx, None)
  /\ _update_face_vertices n_faces face_vtx_idx (Some face_vtx) None
     = Ok (face_vtx_idx, Some face_vtx)
  /\ exists idx' vtx',
      _update_face_vertices n_faces face_vtx_idx (Some face_vtx)
        (Some new_to_old) = Ok (idx', Some vtx')
      /\ length idx' = length face_vtx_idx
      /\ length vtx' = length face_vtx
      /\ idx_at idx' 0 = 1
      /\ forall i j, 0 <= i < n_faces -> rd new_to_old i = Ok j ->
                     segment idx' vtx' i = segment face_vtx_idx face_vtx j.
Proof.
  intros Hn Hlen Hsorted Hfirst Hfit Hperm.
  split; [reflexivity|]. split; [reflexivity|].
  destruct (renumber_indexed_loop n_faces face_vtx_idx face_vtx new_to_old
              Hn Hlen Hsorted Hfirst Hfit Hperm)
    as (idx' & vtx' & Hrun & Hs & Hl1 & Hl2 & Hidx & Hlst).
  exists idx', vtx'. unfold _update_face_vertices. rewrite Hrun. simpl.
  split; [reflexivity|]. split; [lia|]. split; [exact Hl2|].
  assert (forall i, 0 <= i <= n_faces ->
            idx_at idx' i = 1 + new_start face_vtx_idx new_to_old i) as Hat.
  { intros i Hi. specialize (Hidx i Hi). apply rd_Ok in Hidx.
    unfold idx_at. destruct Hidx as [_ ->]. reflexivity. }
  split; [rewrite Hat by lia; reflexivity|].
  intros i j Hi Hj.
  pose proof (n2o_range n_faces face_vtx_idx new_to_old Hn Hlen Hsorted Hperm
                i j Hj) as Hjr.
  pose proof (new_start_succ n_faces face_vtx_idx new_to_old Hn Hlen Hsorted
                Hperm i j ltac:(lia) Hj) as Hsucc.
  pose proof (new_start_nonneg n_faces face_vtx_idx new_to_old Hn Hlen Hsorted
                Hperm i) as Hpos.
  pose proof (seg_size_nonneg n_faces face_vtx_idx new_to_old Hn Hlen Hsorted
                Hperm j Hjr) as Hsz.
  pose proof (idx_at_mono face_vtx_idx 0 j Hsorted ltac:(lia) ltac:(lia)).
  unfold segment.
  assert (seg_size idx' i = seg_size face_vtx_idx j) as ->.
  { unfold seg_size at 1. rewrite !Hat by lia. lia. }
  rewrite Hat by lia.
  apply list_eq. intros k.
  destruct (Nat.lt_ge_cases k (Z.to_nat (seg_size face_vtx_idx j))) as [Hk|Hk].
  - rewrite !lookup_take_lt by lia. rewrite !lookup_drop.
    specialize (Hlst i j (Z.of_nat k) Hi Hj ltac:(lia)).
    unfold rd in Hlst.
    destruct (Z.ltb_spec (new_start face_vtx_idx new_to_old i + Z.of_nat k) 0);
      [lia|].
    destruct (Z.ltb_spec (idx_at face_vtx_idx j - 1 + Z.of_nat k) 0); [lia|].
    replace (Z.to_nat (1 + new_start face_vtx_idx new_to_old i - 1) + k)%nat
      with (Z.to_nat (new_start face_vtx_idx new_to_old i + Z.of_nat k)) by lia.
    replace (Z.to_nat (idx_at face_vtx_idx j - 1) + k)%nat
      with (Z.to_nat (idx_at face_vtx_idx j - 1 + Z.of_nat k)) by lia.
    destruct (vtx' !! _), (face_vtx !! _); congruence.
  - rewrite !lookup_take_ge by lia. reflexivity.
Qed.

Lemma update_face_vertices_follows_witness :
  _update_face_vertices 3 [1; 4; 6; 10] None (Some [2; 0; 1])
  = Ok ([1; 4; 6; 10], None)
  /\ _update_face_vertices 3 [1; 4; 6; 10]
       (Some [11; 12; 13; 21; 22; 31; 32; 33; 34]) None
     = Ok ([1; 4; 6; 10], Some [11; 12; 13; 21; 22; 31; 32; 33; 34])
  /\ exists idx' vtx',
      _update_face_vertices 3 [1; 4; 6; 10]
        (Some [11; 12; 13; 21; 22; 31; 32; 33; 34]) (Some [2; 0; 1])
      = Ok (idx', Some vtx')
      /\ length idx' = length [1; 4; 6; 10]
      /\ length vtx' = length [11; 12; 13; 21; 22; 31; 32; 33; 34]
      /\ idx_at idx' 0 = 1
      /\ forall i j, 0 <= i < 3 -> rd [2; 0; 1] i = Ok j ->
                     segment idx' vtx' i
                     = segment [1; 4; 6; 10]
                         [11; 12; 13; 21; 22; 31; 32; 33; 34] j.
Proof.
  apply (update_face_vertices_follows 3 [1; 4; 6; 10]
           [11; 12; 13; 21; 22; 31; 32; 33; 34] [2; 0; 1]).
  - lia.
  - reflexivity.
  - repeat constructor; lia.
  - vm_compute. discriminate.
  - vm_compute. discriminate.
  - apply (bool_decide_unpack _). vm_compute. exact I.
Defined.

(** ** Renumbering of faces *)

(** An optional array of [n] entries. *)
Definition opt_length (n : Z) (a : option (list Z)) : Prop :=
  match a with
  | None => True
  | Some l => Z.of_nat (length l) = n
  end.

(** A face -> vertices connectivity for [n] faces: when the list is
    present, the index is 1-based, does not decrease and stays inside the
    list. *)
Definition vtx_ok (n : Z) (idx : list Z) (lst : option (list Z)) : Prop :=
  match lst with
  | None => True
  | Some l =>
      Z.of_nat (length idx) = n + 1
      /\ StronglySorted Z.le idx
      /\ 1 <= idx_at idx 0
      /\ idx_at idx n - 1 <= Z.of_nat (length l)
  end.

(** An optional array follows the renumbering. *)
Definition opt_follows (new_to_old : list Z) (old new : option (list Z))
  : Prop :=
  match old, new with
  | Some o, Some n => follows new_to_old o n
  | None, None => True
  | _, _ => False
  end.

(** The vertices of the faces follow the renumbering. *)
Definition vtx_follows (n : Z) (new_to_old idx : list Z)
    (lst : option (list Z)) (idx' : list Z) (lst' : option (list Z)) : Prop :=
  match lst, lst' with
  | Some l, Some l' =>
      forall i j, 0 <= i < n -> rd new_to_old i = Ok j ->
                  segment idx' l' i = segment idx l j
  | None, None => idx' = idx
  | _, _ => False
  end.

Lemma perm_in_range (n : Z) (new_to_old : list Z) :
  new_to_old ≡ₚ seqZ 0 n -> Forall (fun j => 0 <= j < n) new_to_old.
Proof.
  intros Hp. apply Forall_forall. intros j Hj. rewrite Hp in Hj.
  apply elem_of_seqZ in Hj. lia.
Qed.

Lemma perm_length (n : Z) (new_to_old : list Z) :
  0 <= n -> new_to_old ≡ₚ seqZ 0 n -> Z.of_nat (length new_to_old) = n.
Proof. intros Hn Hp. rewrite Hp, length_seqZ. lia. Qed.

Lemma update_family_total (n : Z) (new_to_old : list Z)
      (family : option (list Z)) :
  0 <= n -> new_to_old ≡ₚ seqZ 0 n -> opt_length n family ->
  exists family', _update_family n new_to_old family = Ok family'
                  /\ opt_follows new_to_old family family'.
Proof.
  intros Hn Hp Hlen. destruct family as [fam|]; [|exists None; split; reflexivity].
  simpl in Hlen. unfold _update_family.
  rewrite memcpy_all by (try apply BFT_MALLOC_length; lia). simpl.
  destruct (gather_follows n new_to_old fam fam) as [f' [Hrun Hf]].
  - apply perm_length; assumption.
  - exact Hlen.
  - rewrite Hlen. apply perm_in_range. exact Hp.
  - rewrite Hrun. exists (Some f'). split; [reflexivity | exact Hf].
Qed.

Lemma update_global_num_total (n : Z) (new_to_old : list Z)
      (global_num : option (list Z)) :
  0 <= n -> new_to_old ≡ₚ seqZ 0 n -> opt_length n global_num ->
  exists g', _update_global_num n new_to_old global_num = Ok (Some g')
             /\ match global_num with
                | Some g => follows new_to_old g g'
                | None => g' = (fun j => j + 1) <$> new_to_old
                end.
Proof.
  intros Hn Hp Hlen. pose proof (perm_length n new_to_old Hn Hp) as Hl.
  destruct global_num as [g|].
  - destruct (global_num_follows n new_to_old g Hl Hlen (perm_in_range _ _ Hp))
      as [g' [Hrun Hf]].
    exists g'. split; assumption.
  - eexists. split; [apply global_num_created; exact Hl | reflexivity].
Qed.

Lemma update_face_vertices_total (n : Z) (idx : list Z)
      (lst : option (list Z)) (new_to_old : list Z) :
  0 <= n -> new_to_old ≡ₚ seqZ 0 n -> vtx_ok n idx lst ->
  exists idx' lst',
    _update_face_vertices n idx lst (Some new_to_old) = Ok (idx', lst')
    /\ vtx_follows n new_to_old idx lst idx' lst'.
Proof.
  intros Hn Hp Hok. destruct lst as [l|].
  - destruct Hok as (Hlen & Hsorted & Hfirst & Hfit).
    destruct (renumber_indexed_loop n idx l new_to_old Hn Hlen Hsorted Hfirst
                Hfit Hp) as (idx' & l' & Hrun & Hs & Hl1 & Hl2 & Hidx & Hlst).
    exists idx', (Some l'). unfold _update_face_vertices. rewrite Hrun.
    split; [reflexivity|]. simpl.
    assert (forall i, 0 <= i <= n ->
              idx_at idx' i = 1 + new_start idx new_to_old i) as Hat.
    { intros i Hi. specialize (Hidx i Hi). apply rd_Ok in Hidx.
      unfold idx_at. destruct Hidx as [_ ->]. reflexivity. }
    intros i j Hi Hj.
    pose proof (n2o_range n idx new_to_old Hn Hlen Hsorted Hp i j Hj) as Hjr.
    pose proof (new_start_succ n idx new_to_old Hn Hlen Hsorted Hp i j
                  ltac:(lia) Hj) as Hsucc.
    pose proof (new_start_nonneg n idx new_to_old Hn Hlen Hsorted Hp i) as Hpos.
    pose proof (seg_size_nonneg n idx new_to_old Hn Hlen Hsorted Hp j Hjr)
      as Hsz.
    pose proof (idx_at_mono idx 0 j Hsorted ltac:(lia) ltac:(lia)).
    unfold segment.
    assert (seg_size idx' i = seg_size idx j) as ->.
    { unfold seg_size at 1. rewrite !Hat by lia. lia. }
    rewrite Hat by lia.
    apply list_eq. intros k.
    destruct (Nat.lt_ge_cases k (Z.to_nat (seg_size idx j))) as [Hk|Hk].
    + rewrite !lookup_take_lt by lia. rewrite !lookup_drop.
      specialize (Hlst i j (Z.of_nat k) Hi Hj ltac:(lia)).
      unfold rd in Hlst.
      destruct (Z.ltb_spec (new_start idx new_to_old i + Z.of_nat k) 0); [lia|].
      destruct (Z.ltb_spec (idx_at idx j - 1 + Z.of_nat k) 0); [lia|].
      replace (Z.to_nat (1 + new_start idx new_to_old i - 1) + k)%nat
        with (Z.to_nat (new_start idx new_to_old i + Z.of_nat k)) by lia.
      replace (Z.to_nat (idx_at idx j - 1) + k)%nat
        with (Z.to_nat (idx_at idx j - 1 + Z.of_nat k)) by lia.
      destruct (l' !! _), (l !! _); congruence.
    + rewrite !lookup_take_ge by lia. reflexivity.
  - exists idx, None. split; reflexivity.
Qed.

(** What [_cs_renumber_update_faces] returns for two permutations, on a
    mesh whose face arrays have the announced sizes. *)
Lemma update_faces_spec (mesh : cs_mesh_t)
      (new_to_old_i new_to_old_b : list Z) :
  0 <= n_i_faces mesh -> 0 <= n_b_faces mesh ->
  Z.of_nat (length (i_face_cells mesh)) = n_i_faces mesh ->
  Z.of_nat (length (b_face_cells mesh)) = n_b_faces mesh ->
  vtx_ok (n_i_faces mesh) (i_face_vtx_idx mesh) (i_face_vtx_lst mesh) ->
  vtx_ok (n_b_faces mesh) (b_face_vtx_idx mesh) (b_face_vtx_lst mesh) ->
  opt_length (n_i_faces mesh) (i_face_family mesh) ->
  opt_length (n_b_faces mesh) (b_face_family mesh) ->
  opt_length (n_i_faces mesh) (global_i_face_num mesh) ->
  opt_length (n_b_faces mesh) (global_b_face_num mesh) ->
  new_to_old_i ≡ₚ seqZ 0 (n_i_faces mesh) ->
  new_to_old_b ≡ₚ seqZ 0 (n_b_faces mesh) ->
  exists mesh',
    _cs_renumber_update_faces mesh (Some new_to_old_i) (Some new_to_old_b)
    = Ok mesh'
    /\ follows new_to_old_i (i_face_cells mesh) (i_face_cells mesh')
    /\ follows new_to_old_b (b_face_cells mesh) (b_face_cells mesh')
    /\ vtx_follows (n_i_faces mesh) new_to_old_i (i_face_vtx_idx mesh)
         (i_face_vtx_lst mesh) (i_face_vtx_idx mesh') (i_face_vtx_lst mesh')
    /\ vtx_follows (n_b_faces mesh) new_to_old_b (b_face_vtx_idx mesh)
         (b_face_vtx_lst mesh) (b_face_vtx_idx mesh') (b_face_vtx_lst mesh')
    /\ opt_follows new_to_old_i (i_face_family mesh) (i_face_family mesh')
    /\ opt_follows new_to_old_b (b_face_family mesh) (b_face_family mesh')
    /\ n_i_faces mesh' = n_i_faces mesh /\ n_b_faces mesh' = n_b_faces mesh
    /\ n_cells mesh' = n_cells mesh
    /\ n_cells_with_ghosts mesh' = n_cells_with_ghosts mesh
    /\ i_face_numbering mesh' = i_face_numbering mesh
    /\ b_face_numbering mesh' = b_face_numbering mesh.
Proof.
  intros Hni Hnb Hifc Hbfc Hvi Hvb Hfi Hfb Hgi Hgb Hpi Hpb.
  unfold _cs_renumber_update_faces.
  (* interior faces *)
  assert (memcpy (replicate (Z.to_nat (n_i_faces mesh)) (0, 0))
            (i_face_cells mesh) (n_i_faces mesh) = Ok (i_face_cells mesh))
    as Hcopy_i by (apply memcpy_all; try rewrite length_replicate; lia).
  rewrite (bind_Ok_l _ _ _ Hcopy_i). cbv beta.
  destruct (gather_follows (n_i_faces mesh) new_to_old_i (i_face_cells mesh)
              (i_face_cells mesh)) as [ifc [Hgi' Hfoli]];
    [apply perm_length; assumption | exact Hifc
     | rewrite Hifc; apply perm_in_range; exact Hpi |].
  rewrite (bind_Ok_l _ _ _ Hgi'). cbv beta.
  destruct (update_face_vertices_total _ _ _ _ Hni Hpi Hvi)
    as (idx_i & lst_i & Hvti & Hvfi).
  rewrite (bind_Ok_l _ _ _ Hvti). cbv beta iota.
  destruct (update_family_total _ _ _ Hni Hpi Hfi) as (fam_i & Hfami & Hffi).
  rewrite (bind_Ok_l _ _ _ Hfami). cbv beta.
  destruct (update_global_num_total _ _ _ Hni Hpi Hgi) as (gn_i & Hgni & _).
  rewrite (bind_Ok_l _ _ _ Hgni). cbv beta.
  rewrite (bind_Ok_l (mret _) _ _ eq_refl). cbv beta.
  cbn [n_b_faces b_face_cells b_face_vtx_idx b_face_vtx_lst b_face_family
       global_b_face_num].
  (* boundary faces *)
  assert (memcpy (BFT_MALLOC (n_b_faces mesh)) (b_face_cells mesh)
            (n_b_faces mesh) = Ok (b_face_cells mesh))
    as Hcopy_b by (apply memcpy_all; try apply BFT_MALLOC_length; lia).
  rewrite (bind_Ok_l _ _ _ Hcopy_b). cbv beta.
  destruct (gather_follows (n_b_faces mesh) new_to_old_b (b_face_cells mesh)
              (b_face_cells mesh)) as [bfc [Hgb' Hfolb]];
    [apply perm_length; assumption | exact Hbfc
     | rewrite Hbfc; apply perm_in_range; exact Hpb |].
  rewrite (bind_Ok_l _ _ _ Hgb'). cbv beta.
  destruct (update_face_vertices_total _ _ _ _ Hnb Hpb Hvb)
    as (idx_b & lst_b & Hvtb & Hvfb).
  rewrite (bind_Ok_l _ _ _ Hvtb). cbv beta iota.
  destruct (update_family_total _ _ _ Hnb Hpb Hfb) as (fam_b & Hfamb & Hffb).
  rewrite (bind_Ok_l _ _ _ Hfamb). cbv beta.
  destruct (update_global_num_total _ _ _ Hnb Hpb Hgb) as (gn_b & Hgnb & _).
  rewrite (bind_Ok_l _ _ _ Hgnb). cbv beta.
  eexists. split; [reflexivity|]. simpl.
  split; [exact Hfoli|]. split; [exact Hfolb|].
  repeat (split; [assumption || reflexivity|]). reflexivity.
Qed.

(** X10: On a mesh whose face arrays have the announced sizes,
    [_cs_renumber_update_faces] with two permutations always returns, and
    every face array follows its permutation: cells, vertices, families and
    global numbers of the face now numbered [i] are those of the face
    [new_to_old[i]].  The faces are only rearranged, and the identity
    leaves the face -> cells arrays as they were. *)
Theorem update_faces_follows (mesh : cs_mesh_t)
    (new_to_old_i new_to_old_b : list Z) :
  0 <= n_i_faces mesh -> 0 <= n_b_faces mesh ->
  Z.of_nat (length (i_face_cells mesh)) = n_i_faces mesh ->
  Z.of_nat (length (b_face_cells mesh)) = n_b_faces mesh ->
  vtx_ok (n_i_faces mesh) (i_face_vtx_idx mesh) (i_face_vtx_lst mesh) ->
  vtx_ok (n_b_faces mesh) (b_face_vtx_idx mesh) (b_face_vtx_lst mesh) ->
  opt_length (n_i_faces mesh) (i_face_family mesh) ->
  opt_length (n_b_faces mesh) (b_face_family mesh) ->
  opt_length (n_i_faces mesh) (global_i_face_num mesh) ->
  opt_length (n_b_faces mesh) (global_b_face_num mesh) ->
  new_to_old_i ≡ₚ seqZ 0 (n_i_faces mesh) ->
  new_to_old_b ≡ₚ seqZ 0 (n_b_faces mesh) ->
  exists mesh',
    _cs_renumber_update_faces mesh (Some new_to_old_i) (Some new_to_old_b)
    = Ok mesh'
    /\ follows new_to_old_i (i_face_cells mesh) (i_face_cells mesh')
    /\ follows new_to_old_b (b_face_cells mesh) (b_face_cells mesh')
    /\ i_face_cells mesh' ≡ₚ i_face_cells mesh
    /\ b_face_cells mesh' ≡ₚ b_face_cells mesh
    /\ (new_to_old_i = seqZ 0 (n_i_faces mesh) ->
        i_face_cells mesh' = i_face_cells mesh)
    /\ (new_to_old_b = seqZ 0 (n_b_faces mesh) ->
        b_face_cells mesh' = b_face_cells mesh)
    /\ vtx_follows (n_i_faces mesh) new_to_old_i (i_face_vtx_idx mesh)
         (i_face_vtx_lst mesh) (i_face_vtx_idx mesh') (i_face_vtx_lst mesh')
    /\ vtx_follows (n_b_faces mesh) new_to_old_b (b_face_vtx_idx mesh)
         (b_face_vtx_lst mesh) (b_face_vtx_idx mesh') (b_face_vtx_lst mesh')
    /\ opt_follows new_to_old_i (i_face_family mesh) (i_face_family mesh')
    /\ opt_follows new_to_old_b (b_face_family mesh) (b_face_family mesh')
    /\ n_i_faces mesh' = n_i_faces mesh /\ n_b_faces mesh' = n_b_faces mesh
    /\ n_cells mesh' = n_cells mesh
    /\ i_face_numbering mesh' = i_face_numbering mesh
    /\ b_face_numbering mesh' = b_face_numbering mesh.
Proof.
  intros Hni Hnb Hifc Hbfc Hvi Hvb Hfi Hfb Hgi Hgb Hpi Hpb.
  destruct (update_faces_spec mesh new_to_old_i new_to_old_b Hni Hnb Hifc Hbfc
              Hvi Hvb Hfi Hfb Hgi Hgb Hpi Hpb)
    as (mesh' & Hrun & Hfoli & Hfolb & Hvfi & Hvfb & Hffi & Hffb & Hrest).
  exists mesh'. split; [exact Hrun|].
  split; [exact Hfoli|]. split; [exact Hfolb|].
  split; [apply (follows_Permutation new_to_old_i);
          [exact Hfoli | rewrite Hifc; exact Hpi]|].
  split; [apply (follows_Permutation new_to_old_b);
          [exact Hfolb | rewrite Hbfc; exact Hpb]|].
  split; [intros Hid; apply follows_identity; rewrite Hifc, <- Hid; exact Hfoli|].
  split; [intros Hid; apply follows_identity; rewrite Hbfc, <- Hid; exact Hfolb|].
  split; [exact Hvfi|]. split; [exact Hvfb|].
  split; [exact Hffi|]. split; [exact Hffb|].
  destruct Hrest as (H1 & H2 & H3 & _ & H4 & H5). auto.
Qed.

(** Three cells in a row, with vertices, families and no global numbers. *)
Definition row3_mesh : cs_mesh_t :=
  {| n_domains := 1;
     n_cells := 3;
     n_i_faces := 2;
     n_b_faces := 3;
     n_cells_with_ghosts := 3;
     i_face_cells := [(0, 1); (1, 2)];
     b_face_cells := [0; 2; 1];
     i_face_vtx_idx := [1; 4; 8];
     i_face_vtx_lst := Some [1; 2; 3; 4; 5; 6; 7];
     b_face_vtx_idx := [1; 4; 7; 10];
     b_face_vtx_lst := Some [1; 2; 8; 5; 6; 9; 3; 4; 10];
     cell_cells_idx := [];
     cell_cells_lst := None;
     cell_family := None;
     i_face_family := Some [1; 1];
     b_face_family := Some [2; 3; 4];
     global_cell_num := None;
     global_i_face_num := None;
     global_b_face_num := Some [10; 20; 30];
     i_face_numbering := None;
     b_face_numbering := None |}.

Lemma update_faces_follows_witness :
  exists mesh',
    _cs_renumber_update_faces row3_mesh (Some [1; 0]) (Some [0; 2; 1])
    = Ok mesh'
    /\ follows [1; 0] (i_face_cells row3_mesh) (i_face_cells mesh')
    /\ follows [0; 2; 1] (b_face_cells row3_mesh) (b_face_cells mesh')
    /\ i_face_cells mesh' ≡ₚ i_face_cells row3_mesh
    /\ b_face_cells mesh' ≡ₚ b_face_cells row3_mesh
    /\ ([1; 0] = seqZ 0 (n_i_faces row3_mesh) ->
        i_face_cells mesh' = i_face_cells row3_mesh)
    /\ ([0; 2; 1] = seqZ 0 (n_b_faces row3_mesh) ->
        b_face_cells mesh' = b_face_cells row3_mesh)
    /\ vtx_follows (n_i_faces row3_mesh) [1; 0] (i_face_vtx_idx row3_mesh)
         (i_face_vtx_lst row3_mesh) (i_face_vtx_idx mesh')
         (i_face_vtx_lst mesh')
    /\ vtx_follows (n_b_faces row3_mesh) [0; 2; 1] (b_face_vtx_idx row3_mesh)
         (b_face_vtx_lst row3_mesh) (b_face_vtx_idx mesh')
         (b_face_vtx_lst mesh')
    /\ opt_follows [1; 0] (i_face_family row3_mesh) (i_face_family mesh')
    /\ opt_follows [0; 2; 1] (b_face_family row3_mesh) (b_face_family mesh')
    /\ n_i_faces mesh' = n_i_faces row3_mesh
    /\ n_b_faces mesh' = n_b_faces row3_mesh
    /\ n_cells mesh' = n_cells row3_mesh
    /\ i_face_numbering mesh' = i_face_numbering row3_mesh
    /\ b_face_numbering mesh' = b_face_numbering row3_mesh.
Proof.
  apply (update_faces_follows row3_mesh [1; 0] [0; 2; 1]).
  - simpl. lia.
  - simpl. lia.
  - reflexivity.
  - reflexivity.
  - simpl. repeat split; try (repeat constructor; lia); vm_compute; discriminate.
  - simpl. repeat split; try (repeat constructor; lia); vm_compute; discriminate.
  - reflexivity.
  - reflexivity.
  - exact I.
  - reflexivity.
  - apply (bool_decide_unpack _). vm_compute. exact I.
  - apply (bool_decide_unpack _). vm_compute. exact I.
Defined.

(** ** The whole renumbering for threads, block algorithm *)

(** What the boundary faces renumbering returns: the sorted order of the
    faces, and thread bounds [bs] that never separate two faces of a
    cell. *)
Lemma b_faces_index_spec (mesh : cs_mesh_t) (n_b_threads min_subset_size : Z)
      (n2o0 : list Z) :
  let n := n_b_faces mesh in
  let bfc := b_face_cells mesh in
  let n2o := cs_order_lnum_allocated_s (b_face_keys bfc) in
  Z.of_nat (length bfc) = n ->
  Z.of_nat (length n2o0) = n ->
  1 <= n_b_threads ->
  exists gi (bs : list Z),
    _renum_b_faces_no_share_cell_across_thread mesh n_b_threads
      min_subset_size n2o0
    = Ok (if n <? 1 then -1 else 0,
          {| new_to_old := n2o; out_n_groups := 1; out_group_index := gi |})
    /\ Z.of_nat (length gi) = n_b_threads * 2
    /\ bs !! O = Some 0
    /\ bs !! Z.to_nat n_b_threads = Some n
    /\ (forall t, 0 <= t < n_b_threads ->
          exists s e, bs !! Z.to_nat t = Some s
                      /\ bs !! Z.to_nat (t + 1) = Some e
                      /\ 0 <= s <= e /\ e <= n
                      /\ rd gi (t * 2) = Ok s
                      /\ rd gi (t * 2 + 1) = Ok e)
    /\ (forall t s e i j c,
          0 <= t ->
          bs !! Z.to_nat t = Some s -> bs !! Z.to_nat (t + 1) = Some e ->
          new_cell bfc n2o i = Ok c -> new_cell bfc n2o j = Ok c ->
          s <= i < e -> s <= j < e).
Proof.
  intros n bfc n2o Hbfc Hn2o Ht.
  assert (0 <= n) as Hn by lia.
  unfold _renum_b_faces_no_share_cell_across_thread.
  fold n. fold bfc.
  rewrite (b_face_keys_loop bfc n Hbfc). simpl mbind at 1. fold n2o.
  assert (length n2o = length bfc) as Hlo.
  { unfold n2o. rewrite cs_order_length. apply b_face_keys_length. }
  rewrite copy_loop by lia.
  rewrite take_ge, drop_ge, app_nil_r by lia. simpl mbind at 1.
  destruct (b_subset_size_spec n n_b_threads min_subset_size Hn Ht)
    as [ss (Hss & Hcover & _)].
  rewrite Hss. simpl mbind at 1.
  destruct (b_index_loop bfc n2o n n_b_threads ss Hn ltac:(lia)
              (b_order_new_cell_defined bfc n Hbfc))
    as (end_id & gi & bs & Hloop & Hlast & Hlen & H0 & Hgil & Hb & Hk & _).
  cbv zeta in Hloop. rewrite Hloop. simpl.
  exists gi, bs. split; [reflexivity|]. split; [exact Hgil|].
  split; [exact H0|].
  assert (end_id = n) as ->.
  { destruct (Hk (n_b_threads - 1)) as (s & e & _ & He & _ & Hge & _); [lia|].
    replace (n_b_threads - 1 + 1) with n_b_threads in * by lia.
    assert (e = end_id) as -> by congruence.
    destruct (Hb _ _ Hlast) as [Hr _].
    destruct Hge as [?|?]; [assumption | nia]. }
  split; [exact Hlast|].
  split.
  { intros t Hlt. destruct (Hk t Hlt) as (s & e & Hs & He & Hse & _ & Hrs & Hre).
    exists s, e. destruct (Hb _ _ Hs) as [Hsr _], (Hb _ _ He) as [Her _].
    repeat (split; [assumption || lia|]). exact Hre. }
  intros t s e i j c Ht0 Hs He Hi Hj Hie.
  destruct (Hb _ _ Hs) as [Hsr Hsc'], (Hb _ _ He) as [Her Hec].
  assert (0 <= j < n) as Hjr.
  { unfold new_cell in Hj. apply bind_Ok in Hj. destruct Hj as [f [Hf _]].
    apply rd_lt in Hf. lia. }
  split.
  - destruct (Z.le_gt_cases s j) as [|Hlt]; [assumption|]. exfalso.
    apply (b_order_no_split bfc n Hbfc s j i c); try assumption; try lia.
    apply Hsc'. lia.
  - destruct (Z.lt_ge_cases j e) as [|Hge]; [assumption|]. exfalso.
    apply (b_order_no_split bfc n Hbfc e i j c); try assumption; try lia.
    apply Hec. lia.
Qed.

Lemma follows_new_cell (new_to_old old new : list Z) (i c : Z) :
  follows new_to_old old new -> rd new i = Ok c ->
  new_cell old new_to_old i = Ok c.
Proof.
  intros Hf Hc. apply rd_Ok in Hc. destruct Hc as [Hi Hc].
  destruct (Forall2_lookup_r _ _ _ _ _ Hf Hc) as [j [Hj Hrd]].
  unfold new_cell. rewrite (proj2 (rd_Ok new_to_old i j) (conj Hi Hj)).
  exact Hrd.
Qed.

Lemma identity_numbering_spec (n : Z) :
  0 <= n -> identity_numbering n = Ok (seqZ 0 n).
Proof.
  intros Hn. unfold identity_numbering.
  destruct (for_loop_inv
              (fun j a => Z.of_nat (length a) = n
                          /\ forall k, 0 <= k < j -> a !! Z.to_nat k = Some k)
              0 n (fun ii a => wr a ii ii) (BFT_MALLOC n) Hn)
    as [a [Hrun [Hlen Hall]]].
  - split; [apply BFT_MALLOC_length; exact Hn | intros k Hk; lia].
  - intros j a Hj [Hlen Hall]. eexists. split; [apply wr_in_range; lia|].
    split; [rewrite length_insert; exact Hlen|].
    intros k Hk. destruct (Z.eq_dec k j) as [->|Hne].
    + apply list_lookup_insert_eq. lia.
    + rewrite list_lookup_insert_ne by lia. apply Hall. lia.
  - rewrite Hrun. f_equal. apply list_eq. intros i.
    destruct (Z.lt_ge_cases (Z.of_nat i) n) as [Hi|Hi].
    + rewrite lookup_seqZ_lt by lia.
      rewrite <- (Nat2Z.id i) at 1. rewrite Hall by lia. reflexivity.
    + rewrite lookup_seqZ_ge by lia. apply lookup_ge_None. lia.
Qed.

(** What [_renumber_for_threads] does with the block algorithm. *)
Lemma renumber_for_threads_block_spec (fuel : nat) (cfg : config)
    (mesh : cs_mesh_t) :
  2 <= _cs_renumber_n_threads cfg ->
  _i_faces_algorithm cfg = CS_RENUMBER_I_FACES_BLOCK ->
  1 <= n_i_faces mesh -> 1 <= n_b_faces mesh ->
  0 <= n_cells_with_ghosts mesh ->
  Z.of_nat (length (i_face_cells mesh)) = n_i_faces mesh ->
  Z.of_nat (length (b_face_cells mesh)) = n_b_faces mesh ->
  cells_below (n_cells_with_ghosts mesh) (i_face_cells mesh) ->
  vtx_ok (n_i_faces mesh) (i_face_vtx_idx mesh) (i_face_vtx_lst mesh) ->
  vtx_ok (n_b_faces mesh) (b_face_vtx_idx mesh) (b_face_vtx_lst mesh) ->
  opt_length (n_i_faces mesh) (i_face_family mesh) ->
  opt_length (n_b_faces mesh) (b_face_family mesh) ->
  opt_length (n_i_faces mesh) (global_i_face_num mesh) ->
  opt_length (n_b_faces mesh) (global_b_face_num mesh) ->
  (Z.to_nat (n_i_faces mesh) <= fuel)%nat ->
  exists mesh' out,
    let nb := cs_numbering_create_threaded (_cs_renumber_n_threads cfg)
                (out_n_groups out) (out_group_index out) in
    _renumber_for_threads fuel cfg mesh = Ok mesh'
    /\ i_face_numbering mesh' = Some nb
    /\ conflict_free (i_face_cells mesh') nb
    /\ i_face_cells mesh' ≡ₚ i_face_cells mesh
    /\ b_face_cells mesh' ≡ₚ b_face_cells mesh
    /\ n_cells mesh' = n_cells mesh
    /\ n_cells_with_ghosts mesh' = n_cells_with_ghosts mesh
    /\ n_i_faces mesh' = n_i_faces mesh
    /\ Z.of_nat (length (out_group_index out))
       = _cs_renumber_n_threads cfg * out_n_groups out * 2
    /\ (exists gi_b (bs : list Z),
          b_face_numbering mesh'
          = Some (cs_numbering_create_threaded (_cs_renumber_n_threads cfg)
                    1 gi_b)
          /\ n_b_faces mesh' = n_b_faces mesh
          /\ Z.of_nat (length gi_b) = _cs_renumber_n_threads cfg * 2
          /\ bs !! O = Some 0
          /\ bs !! Z.to_nat (_cs_renumber_n_threads cfg)
             = Some (n_b_faces mesh)
          /\ (forall t, 0 <= t < _cs_renumber_n_threads cfg ->
                exists s e, bs !! Z.to_nat t = Some s
                            /\ bs !! Z.to_nat (t + 1) = Some e
                            /\ 0 <= s <= e /\ e <= n_b_faces mesh
                            /\ rd gi_b (t * 2) = Ok s
                            /\ rd gi_b (t * 2 + 1) = Ok e)
          /\ (forall t s e i j c,
                0 <= t ->
                bs !! Z.to_nat t = Some s ->
                bs !! Z.to_nat (t + 1) = Some e ->
                rd (b_face_cells mesh') i = Ok c ->
                rd (b_face_cells mesh') j = Ok c ->
                s <= i < e -> s <= j < e))
    /\ exists group_size,
         Z.of_nat (length group_size) = out_n_groups out
         /\ Forall (fun s => 0 <= s) group_size
         /\ sum_sizes group_size = n_i_faces mesh
         /\ forall g, 0 <= g < out_n_groups out ->
              group_indexed (out_n_groups out) (_cs_renumber_n_threads cfg)
                group_size (out_group_index out) g.
Proof.
  intros Ht Halg Hni Hnb Hext Hifc Hbfc Hcells Hvi Hvb Hfi Hfb Hgi Hgb Hfuel.
  unfold _renumber_for_threads.
  destruct (Z.ltb_spec (_cs_renumber_n_threads cfg) 2) as [Hlt|_]; [lia|].
  rewrite (bind_Ok_l _ _ _ (identity_numbering_spec _ Hext)).
  rewrite (bind_Ok_l _ _ _ (identity_numbering_spec (n_i_faces mesh) ltac:(lia))).
  rewrite (bind_Ok_l _ _ _ (identity_numbering_spec (n_b_faces mesh) ltac:(lia))).
  destruct (block_renumbering_spec fuel (_min_i_subset_size cfg) mesh
              (_cs_renumber_n_threads cfg) 1014 (seqZ 0 (n_i_faces mesh)))
    as (out & Hrun & Hperm & Hgroups & Hgil & Hsizes & Hfree);
    try assumption; try lia.
  { vm_compute. discriminate. }
  { rewrite length_seqZ. lia. }
  assert (renum_i_faces fuel cfg mesh (_cs_renumber_n_threads cfg)
            (seqZ 0 (n_i_faces mesh)) = Ok (0, Some out)) as Hri.
  { unfold renum_i_faces. rewrite Halg. rewrite Hrun. reflexivity. }
  rewrite (bind_Ok_l _ _ _ Hri). cbv beta iota zeta.
  assert (plan_numbering (plan_of (_cs_renumber_n_threads cfg) (0, Some out))
            (i_face_numbering mesh)
          = Some (cs_numbering_create_threaded (_cs_renumber_n_threads cfg)
                    (out_n_groups out) (out_group_index out))) as Hplan.
  { unfold plan_numbering, plan_of. cbn [plan_n_groups plan_n_threads
      plan_group_index default].
    destruct (Z.ltb_spec 1 (out_n_groups out * _cs_renumber_n_threads cfg));
      [reflexivity | specialize (Hgroups Hni); nia]. }
  rewrite Hplan.
  set (nb := cs_numbering_create_threaded (_cs_renumber_n_threads cfg)
               (out_n_groups out) (out_group_index out)) in *.
  set (mesh1 := set_i_face_numbering mesh (Some nb)).
  destruct (b_faces_index_spec mesh1 (_cs_renumber_n_threads cfg)
              (_min_b_subset_size cfg) (seqZ 0 (n_b_faces mesh)))
    as (gi & bs & Hb & Hbgil & Hbs0 & Hbsn & Hbt & Hbsplit).
  { exact Hbfc. }
  { rewrite length_seqZ. simpl. lia. }
  { lia. }
  change (n_b_faces mesh1) with (n_b_faces mesh) in *.
  change (b_face_cells mesh1) with (b_face_cells mesh) in *.
  destruct (Z.ltb_spec (n_b_faces mesh) 1) as [Hlt|_]; [lia|].
  rewrite (bind_Ok_l _ _ _ Hb). cbv beta iota zeta.
  set (n2o_b := cs_order_lnum_allocated_s (b_face_keys (b_face_cells mesh)))
    in *.
  assert (plan_numbering
            (plan_of (_cs_renumber_n_threads cfg)
               (0, Some {| new_to_old := n2o_b; out_n_groups := 1;
                           out_group_index := gi |}))
            (b_face_numbering mesh1)
          = Some (cs_numbering_create_threaded (_cs_renumber_n_threads cfg)
                    1 gi)) as Hplan_b.
  { unfold plan_numbering, plan_of. cbn [plan_n_groups plan_n_threads
      plan_group_index default out_n_groups out_group_index].
    destruct (Z.ltb_spec 1 (1 * _cs_renumber_n_threads cfg));
      [reflexivity | lia]. }
  rewrite Hplan_b.
  cbn [plan_of plan_new_to_old new_to_old out_n_groups out_group_index].
  replace (bool_decide (is_Some (Some (new_to_old out)))) with true
    by (symmetry; apply bool_decide_eq_true; eauto).
  cbn [orb].
  set (mesh2 := set_b_face_numbering mesh1 _).
  destruct (update_faces_spec mesh2 (new_to_old out) n2o_b)
    as (mesh' & Hupd & Hfoli & Hfolb & _ & _ & _ & _ & Hnif & Hnbf & Hnc & Hng
        & Hin & Hbn);
    try assumption; try (simpl; lia).
  { unfold n2o_b. rewrite cs_order_Permutation, b_face_keys_length.
    simpl. rewrite Hbfc. reflexivity. }
  rewrite (bind_Ok_l _ _ _ Hupd). simpl.
  exists mesh', out. cbv zeta. fold nb. split; [reflexivity|].
  split; [exact Hin|].
  split; [apply Hfree; exact Hfoli|].
  split; [apply (follows_Permutation (new_to_old out));
          [exact Hfoli | simpl; rewrite Hifc; exact Hperm]|].
  split.
  { apply (follows_Permutation n2o_b); [exact Hfolb|].
    unfold n2o_b. rewrite cs_order_Permutation, b_face_keys_length.
    reflexivity. }
  split; [exact Hnc|]. split; [exact Hng|]. split; [exact Hnif|].
  split; [exact Hgil|]. split; [|exact Hsizes].
  exists gi, bs. split; [exact Hbn|]. split; [exact Hnbf|].
  split; [exact Hbgil|]. split; [exact Hbs0|]. split; [exact Hbsn|].
  split; [exact Hbt|].
  intros t s e i j c Ht0 Hs He Hi Hj Hie.
  apply (Hbsplit t s e i j c Ht0 Hs He); [| |exact Hie].
  - apply (follows_new_cell n2o_b _ _ i c Hfolb Hi).
  - apply (follows_new_cell n2o_b _ _ j c Hfolb Hj).
Qed.


(** X11: With at least two threads and the block algorithm,
    [_renumber_for_threads] always succeeds on a well-formed mesh that has
    interior and boundary faces: the interior faces get a threaded
    numbering in which two threads of a group never touch the same cell,
    and the faces -> cells arrays are only rearranged. *)
Theorem renumber_for_threads_block (fuel : nat) (cfg : config)
    (mesh : cs_mesh_t) :
  2 <= _cs_renumber_n_threads cfg ->
  _i_faces_algorithm cfg = CS_RENUMBER_I_FACES_BLOCK ->
  1 <= n_i_faces mesh -> 1 <= n_b_faces mesh ->
  0 <= n_cells_with_ghosts mesh ->
  Z.of_nat (length (i_face_cells mesh)) = n_i_faces mesh ->
  Z.of_nat (length (b_face_cells mesh)) = n_b_faces mesh ->
  cells_below (n_cells_with_ghosts mesh) (i_face_cells mesh) ->
  vtx_ok (n_i_faces mesh) (i_face_vtx_idx mesh) (i_face_vtx_lst mesh) ->
  vtx_ok (n_b_faces mesh) (b_face_vtx_idx mesh) (b_face_vtx_lst mesh) ->
  opt_length (n_i_faces mesh) (i_face_family mesh) ->
  opt_length (n_b_faces mesh) (b_face_family mesh) ->
  opt_length (n_i_faces mesh) (global_i_face_num mesh) ->
  opt_length (n_b_faces mesh) (global_b_face_num mesh) ->
  (Z.to_nat (n_i_faces mesh) <= fuel)%nat ->
  exists mesh' nb,
    _renumber_for_threads fuel cfg mesh = Ok mesh'
    /\ i_face_numbering mesh' = Some nb
    /\ type nb = CS_NUMBERING_THREADS
    /\ n_threads nb = _cs_renumber_n_threads cfg
    /\ conflict_free (i_face_cells mesh') nb
    /\ i_face_cells mesh' ≡ₚ i_face_cells mesh
    /\ b_face_cells mesh' ≡ₚ b_face_cells mesh
    /\ n_cells mesh' = n_cells mesh.
Proof.
  intros Ht Halg Hni Hnb Hext Hifc Hbfc Hcells Hvi Hvb Hfi Hfb Hgi Hgb Hfuel.
  destruct (renumber_for_threads_block_spec fuel cfg mesh Ht Halg Hni Hnb Hext
              Hifc Hbfc Hcells Hvi Hvb Hfi Hfb Hgi Hgb Hfuel)
    as (mesh' & out & Hrun & Hin & Hfree & Hpi & Hpb & Hnc & _).
  exists mesh', (cs_numbering_create_threaded (_cs_renumber_n_threads cfg)
                   (out_n_groups out) (out_group_index out)).
  split; [exact Hrun|]. split; [exact Hin|].
  split; [reflexivity|]. split; [reflexivity|].
  split; [exact Hfree|]. split; [exact Hpi|]. split; [exact Hpb | exact Hnc].
Qed.

(** Two threads, block algorithm, default subset sizes. *)
Definition block_config : config :=
  {| _cs_renumber_n_threads := 2;
     _min_i_subset_size := 64;
     _min_b_subset_size := 64;
     _i_faces_algorithm := CS_RENUMBER_I_FACES_BLOCK |}.

Lemma renumber_for_threads_block_witness :
  exists mesh' nb,
    _renumber_for_threads 2 block_config row3_mesh = Ok mesh'
    /\ i_face_numbering mesh' = Some nb
    /\ type nb = CS_NUMBERING_THREADS
    /\ n_threads nb = _cs_renumber_n_threads block_config
    /\ conflict_free (i_face_cells mesh') nb
    /\ i_face_cells mesh' ≡ₚ i_face_cells row3_mesh
    /\ b_face_cells mesh' ≡ₚ b_face_cells row3_mesh
    /\ n_cells mesh' = n_cells row3_mesh.
Proof.
  apply (renumber_for_threads_block 2 block_config row3_mesh).
  - simpl. lia.
  - reflexivity.
  - simpl. lia.
  - simpl. lia.
  - simpl. lia.
  - reflexivity.
  - reflexivity.
  - repeat constructor; simpl; lia.
  - simpl. repeat split; try (repeat constructor; lia); vm_compute; discriminate.
  - simpl. repeat split; try (repeat constructor; lia); vm_compute; discriminate.
  - reflexivity.
  - reflexivity.
  - exact I.
  - reflexivity.
  - simpl. lia.
Defined.

(** ** The cell -> faces graph *)

Lemma incidences_from_length (i : Z) (fc : list (Z * Z)) :
  Z.of_nat (length (incidences_from i fc)) = 2 * Z.of_nat (length fc).
Proof.
  revert i. induction fc as [|p fc IH]; intros i; [reflexivity|].
  cbn [incidences_from length]. rewrite !Nat2Z.inj_succ, IH. lia.
Qed.

(** X12: On a face table whose cells are valid, [_csr_graph_create_cell_face]
    builds a graph with one row per cell: the row index starts at 0, ends
    at twice the number of faces, and the entries of row [c] are faces
    adjacent to cell [c], every such face being listed. *)
Theorem csr_graph_rows (n_cells_ext n_faces : Z) (face_cell : list (Z * Z)) :
  0 <= n_cells_ext ->
  Z.of_nat (length face_cell) = n_faces ->
  cells_below n_cells_ext face_cell ->
  exists g,
    _csr_graph_create_cell_face n_cells_ext n_faces face_cell = Ok g
    /\ rd (row_index g) 0 = Ok 0
    /\ rd (row_index g) n_cells_ext = Ok (2 * n_faces)
    /\ forall c, 0 <= c < n_cells_ext ->
        exists s e,
          rd (row_index g) c = Ok s /\ rd (row_index g) (c + 1) = Ok e
          /\ 0 <= s <= e
          /\ (forall p, s <= p < e ->
                exists f, rd (col_id g) p = Ok f /\ touches face_cell f c)
          /\ (forall f, touches face_cell f c ->
                exists p, s <= p < e /\ rd (col_id g) p = Ok f).
Proof.
  intros Hrows Hlen Hcells.
  assert (forall c f, touches face_cell f c -> 0 <= c < n_cells_ext) as Ht.
  { intros c f. apply (cells_below_touches _ _ Hcells). }
  destruct (csr_graph_create_cell_face_spec n_cells_ext n_faces face_cell
              Hrows Hlen Ht) as (g & Hrun & Hidx & Hrow & Hfind).
  set (inc := incidences face_cell) in *.
  assert (forall x, x ∈ inc -> 0 <= x.1 < n_cells_ext) as Hinc.
  { intros [c f] Hin. simpl. apply (Ht c f). apply elem_of_incidences.
    exact Hin. }
  exists g. split; [exact Hrun|]. split.
  { rewrite Hidx by lia. f_equal. apply row_start_0.
    intros x Hx. apply Hinc. exact Hx. }
  split.
  { rewrite Hidx by lia. f_equal. rewrite row_start_all.
    - unfold inc, incidences. rewrite incidences_from_length. lia.
    - intros x Hx. apply Hinc. exact Hx. }
  intros c Hc. exists (row_start inc c), (row_start inc (c + 1)).
  split; [apply Hidx; lia|]. split; [apply Hidx; lia|].
  pose proof (row_start_nonneg inc c) as Hs.
  pose proof (row_start_succ inc c) as Hsucc.
  pose proof (cnt_nonneg inc c) as Hcnt.
  split; [lia|]. split.
  - intros p Hp. destruct (Hrow c (p - row_start inc c) Hc ltac:(lia))
      as [f [Hf Htf]].
    exists f. split; [|exact Htf].
    replace p with (row_start inc c + (p - row_start inc c)) by lia. exact Hf.
  - intros f Htf. destruct (Hfind c f Htf) as [k [Hk Hf]].
    exists (row_start inc c + k). split; [lia | exact Hf].
Qed.

Lemma csr_graph_rows_witness :
  exists g,
    _csr_graph_create_cell_face 3 2 [(0, 1); (1, 2)] = Ok g
    /\ rd (row_index g) 0 = Ok 0
    /\ rd (row_index g) 3 = Ok (2 * 2)
    /\ forall c, 0 <= c < 3 ->
        exists s e,
          rd (row_index g) c = Ok s /\ rd (row_index g) (c + 1) = Ok e
          /\ 0 <= s <= e
          /\ (forall p, s <= p < e ->
                exists f, rd (col_id g) p = Ok f
                          /\ touches [(0, 1); (1, 2)] f c)
          /\ (forall f, touches [(0, 1); (1, 2)] f c ->
                exists p, s <= p < e /\ rd (col_id g) p = Ok f).
Proof.
  apply (csr_graph_rows 3 2 [(0, 1); (1, 2)]).
  - lia.
  - reflexivity.
  - repeat constructor; simpl; lia.
Defined.

(** ** Cells of the remaining faces *)

(** The faces still to handle exist, with cells below [n_f_cells_prev]. *)
Definition remaining_ok (n_f_cells_prev : Z) (l_face_cells : list (Z * Z))
    (faces : list Z) : Prop :=
  Forall (fun f => exists c, rd l_face_cells f = Ok c
                             /\ 0 <= c.1 < n_f_cells_prev
                             /\ 0 <= c.2 < n_f_cells_prev) faces.

(** State of [new_cell_id] when [n] new ids have been given: the ids given
    are [0 .. n-1], each to one cell. *)
Definition ids_given (n : Z) (new_cell_id : list Z) : Prop :=
  n = Z.of_nat (length (filter (fun v => 0 <= v) new_cell_id))
  /\ (forall c v, rd new_cell_id c = Ok v -> v = -1 \/ 0 <= v < n)
  /\ (forall c c' v, rd new_cell_id c = Ok v -> rd new_cell_id c' = Ok v ->
                     0 <= v -> c = c')
  /\ (forall k, 0 <= k < n -> exists c, rd new_cell_id c = Ok k).

Lemma filter_insert_new (P : Z -> Prop) `{!forall x, Decision (P x)}
      (l : list Z) (i : nat) (x y : Z) :
  l !! i = Some y -> ~ P y -> P x ->
  length (filter P (<[i := x]> l)) = S (length (filter P l)).
Proof.
  intros Hl Hy Hx.
  rewrite <- (take_drop_middle l i y Hl) at 2.
  rewrite insert_take_drop by (apply lookup_lt_Some in Hl; exact Hl).
  rewrite !filter_app, !filter_cons, !length_app.
  destruct (decide (P x)); [|contradiction].
  destruct (decide (P y)); [contradiction|]. simpl. lia.
Qed.

(** [if (new_cell_id[c] < 0) new_cell_id[c] = n_f_cells_new++;] *)
Lemma new_id_step (n : Z) (nci : list Z) (c : Z) :
  ids_given n nci -> 0 <= c < Z.of_nat (length nci) ->
  exists v n' nci' r,
    rd nci c = Ok v
    /\ (if v <? 0
        then nci1 ← wr nci c n; mret (n + 1, nci1)
        else mret (n, nci)) = Ok (n', nci')
    /\ ids_given n' nci'
    /\ length nci' = length nci
    /\ rd nci' c = Ok r /\ 0 <= r
    /\ forall c' v', rd nci c' = Ok v' -> 0 <= v' -> rd nci' c' = Ok v'.
Proof.
  intros (Hn & Hrange & Hinj & Hsurj) Hc.
  destruct (rd_in_range nci c Hc) as [v Hv]. exists v.
  destruct (Z.ltb_spec v 0) as [Hneg|Hpos].
  - rewrite (wr_in_range nci c n Hc). simpl.
    exists (n + 1), (<[Z.to_nat c := n]> nci), n.
    assert (wr nci c n = Ok (<[Z.to_nat c := n]> nci)) as Hw
      by (apply wr_in_range; exact Hc).
    pose proof (rd_wr_same _ _ _ _ Hw) as Hsame.
    assert (0 <= n) as Hn0 by lia.
    split; [exact Hv|]. split; [reflexivity|]. split.
    { split.
      - apply rd_Ok in Hv. destruct Hv as [_ Hv].
        rewrite (filter_insert_new (fun v => 0 <= v) nci _ n v Hv); lia.
      - split; [|split].
        + intros c' v' Hr. destruct (Z.eq_dec c c') as [<-|Hne].
          * rewrite Hsame in Hr. inversion Hr. lia.
          * rewrite (rd_wr_other _ _ _ _ _ Hw Hne) in Hr.
            destruct (Hrange c' v' Hr); lia.
        + intros c1 c2 v' H1 H2 Hv'.
          destruct (Z.eq_dec c c1) as [<-|Hne1], (Z.eq_dec c c2) as [<-|Hne2];
            try reflexivity.
          * rewrite Hsame in H1. inversion H1. subst v'.
            rewrite (rd_wr_other _ _ _ _ _ Hw Hne2) in H2.
            destruct (Hrange c2 n H2); lia.
          * rewrite Hsame in H2. inversion H2. subst v'.
            rewrite (rd_wr_other _ _ _ _ _ Hw Hne1) in H1.
            destruct (Hrange c1 n H1); lia.
          * rewrite (rd_wr_other _ _ _ _ _ Hw Hne1) in H1.
            rewrite (rd_wr_other _ _ _ _ _ Hw Hne2) in H2.
            apply (Hinj c1 c2 v' H1 H2 Hv').
        + intros k Hk. destruct (Z.eq_dec k n) as [->|Hne].
          * exists c. exact Hsame.
          * destruct (Hsurj k ltac:(lia)) as [c' Hc'].
            exists c'. rewrite (rd_wr_other _ _ _ _ _ Hw); [exact Hc'|].
            intros <-. rewrite Hv in Hc'. inversion Hc'. lia. }
    split; [apply length_insert|]. split; [exact Hsame|]. split; [lia|].
    intros c' v' Hr Hv'. rewrite (rd_wr_other _ _ _ _ _ Hw); [exact Hr|].
    intros <-. rewrite Hv in Hr. inversion Hr. lia.
  - exists n, nci, v. split; [exact Hv|]. split; [reflexivity|].
    split; [repeat split; assumption|]. split; [reflexivity|].
    split; [exact Hv|]. split; [lia|]. intros c' v' Hr _. exact Hr.
Qed.

Lemma NoDup_take_rd (l : list Z) (size i j f : Z) :
  NoDup (take (Z.to_nat size) l) ->
  0 <= i < size -> 0 <= j < size ->
  rd l i = Ok f -> rd l j = Ok f -> i = j.
Proof.
  intros Hnd Hi Hj H1 H2. apply rd_Ok in H1, H2.
  destruct H1 as [_ H1], H2 as [_ H2].
  assert (Z.to_nat i = Z.to_nat j); [|lia].
  apply (NoDup_lookup _ _ _ f Hnd); rewrite lookup_take_lt by lia; assumption.
Qed.

Lemma rd_elem_of_take (l : list Z) (size i f : Z) :
  0 <= i < size -> rd l i = Ok f -> f ∈ take (Z.to_nat size) l.
Proof.
  intros Hi H. apply rd_Ok in H. destruct H as [_ H].
  apply (list_elem_of_lookup_2 _ (Z.to_nat i)).
  rewrite lookup_take_lt by lia. exact H.
Qed.

(** X13: [_renum_face_multipass_remaining] renames the cells of the remaining
    faces with the ids [0 .. n_f_cells_new - 1], in the order in which the
    faces list meets them: different cells get different ids, every id is
    used, each remaining face holds the new ids of its two cells, lowest
    first, and the other faces are left alone.  The new number of cells
    is at most the previous one. *)
Theorem remaining_compacts (n_f_cells_prev faces_list_size : Z)
    (faces_list : list Z) (l_face_cells : list (Z * Z)) :
  0 <= faces_list_size <= Z.of_nat (length faces_list) ->
  NoDup (take (Z.to_nat faces_list_size) faces_list) ->
  remaining_ok n_f_cells_prev l_face_cells
    (take (Z.to_nat faces_list_size) faces_list) ->
  exists n_f_cells_new l_face_cells' new_cell_id,
    _renum_face_multipass_remaining n_f_cells_prev faces_list_size faces_list
      l_face_cells = Ok (n_f_cells_new, l_face_cells')
    /\ length l_face_cells' = length l_face_cells
    /\ 0 <= n_f_cells_new <= Z.max 0 n_f_cells_prev
    /\ (forall fl_id f_id c,
          0 <= fl_id < faces_list_size ->
          rd faces_list fl_id = Ok f_id -> rd l_face_cells f_id = Ok c ->
          exists r0 r1,
            rd new_cell_id c.1 = Ok r0 /\ rd new_cell_id c.2 = Ok r1
            /\ 0 <= r0 < n_f_cells_new /\ 0 <= r1 < n_f_cells_new
            /\ rd l_face_cells' f_id = Ok (Z.min r0 r1, Z.max r0 r1))
    /\ (forall c c' r, rd new_cell_id c = Ok r -> rd new_cell_id c' = Ok r ->
                       0 <= r -> c = c')
    /\ (forall k, 0 <= k < n_f_cells_new ->
                  exists c, rd new_cell_id c = Ok k)
    /\ (forall f_id, f_id ∉ take (Z.to_nat faces_list_size) faces_list ->
                     rd l_face_cells' f_id = rd l_face_cells f_id).
Proof.
  intros Hsize Hnd Hok.
  unfold _renum_face_multipass_remaining.
  destruct (for_loop_inv
    (fun j (st : Z * list Z * list (Z * Z)) =>
       ids_given st.1.1 st.1.2
       /\ length st.1.2 = Z.to_nat n_f_cells_prev
       /\ length st.2 = length l_face_cells
       /\ (forall fl_id f_id c,
             0 <= fl_id < j ->
             rd faces_list fl_id = Ok f_id -> rd l_face_cells f_id = Ok c ->
             exists r0 r1,
               rd st.1.2 c.1 = Ok r0 /\ rd st.1.2 c.2 = Ok r1
               /\ 0 <= r0 /\ 0 <= r1
               /\ rd st.2 f_id = Ok (Z.min r0 r1, Z.max r0 r1))
       /\ (forall f_id,
             (forall fl_id, 0 <= fl_id < j -> rd faces_list fl_id <> Ok f_id) ->
             rd st.2 f_id = rd l_face_cells f_id))
    0 faces_list_size
    (fun fl_id '(n_f_cells_new, new_cell_id, l_face_cells) =>
       f_id ← rd faces_list fl_id;
       '(c_id_0, c_id_1) ← rd l_face_cells f_id;
       v0 ← rd new_cell_id c_id_0;
       '(n_f_cells_new, new_cell_id) ←
         (if v0 <? 0
          then nci ← wr new_cell_id c_id_0 n_f_cells_new;
               mret (n_f_cells_new + 1, nci)
          else mret (n_f_cells_new, new_cell_id));
       v1 ← rd new_cell_id c_id_1;
       '(n_f_cells_new, new_cell_id) ←
         (if v1 <? 0
          then nci ← wr new_cell_id c_id_1 n_f_cells_new;
               mret (n_f_cells_new + 1, nci)
          else mret (n_f_cells_new, new_cell_id));
       v0 ← rd new_cell_id c_id_0;
       v1 ← rd new_cell_id c_id_1;
       l_face_cells ←
         wr l_face_cells f_id (if v0 <? v1 then (v0, v1) else (v1, v0));
       mret (n_f_cells_new, new_cell_id, l_face_cells))
    (0, replicate (Z.to_nat n_f_cells_prev) (-1), l_face_cells))
    as [[[n nci] lfc] [Hrun (Hids & Hlen & Hlfc & Hdone & Hrest)]].
  - lia.
  - cbn [fst snd]. split; [|split; [apply length_replicate|split; [reflexivity|]]].
    + split; [|split; [|split]].
      * induction (Z.to_nat n_f_cells_prev) as [|k IH]; [reflexivity|].
        cbn [replicate]. rewrite filter_cons.
        destruct (decide (0 <= -1)); [lia | exact IH].
      * intros c v Hr. apply rd_Ok in Hr. destruct Hr as [_ Hr].
        apply lookup_replicate in Hr. left. apply Hr.
      * intros c c' v Hr _ Hv. apply rd_Ok in Hr. destruct Hr as [_ Hr].
        apply lookup_replicate in Hr. lia.
      * intros k Hk. lia.
    + split; [intros fl_id f_id c Hfl; lia | intros f_id _; reflexivity].
  - intros j [[n nci] lfc] Hj (Hids & Hlen & Hlfc & Hdone & Hrest).
    cbn [fst snd] in *.
    destruct (rd_in_range faces_list j ltac:(lia)) as [f Hf].
    rewrite (bind_Ok_l _ _ _ Hf).
    pose proof (rd_elem_of_take _ _ _ _ Hj Hf) as Hin.
    unfold remaining_ok in Hok. rewrite Forall_forall in Hok.
    destruct (Hok f Hin) as ([c0 c1] & Hc & Hc0 & Hc1). cbn [fst snd] in *.
    assert (rd lfc f = Ok (c0, c1)) as Hcur.
    { rewrite Hrest; [exact Hc|]. intros fl_id Hfl Hfl'.
      pose proof (NoDup_take_rd faces_list faces_list_size fl_id j f Hnd
                    ltac:(lia) Hj Hfl' Hf). lia. }
    rewrite (bind_Ok_l _ _ _ Hcur). cbv beta iota.
    destruct (new_id_step n nci c0 Hids ltac:(lia))
      as (v0 & n1 & nci1 & r0 & Hv0 & Hstep0 & Hids1 & Hlen1 & Hr0 & Hr0pos
          & Hkeep0).
    rewrite (bind_Ok_l _ _ _ Hv0). rewrite (bind_Ok_l _ _ _ Hstep0).
    cbv beta iota.
    destruct (new_id_step n1 nci1 c1 Hids1 ltac:(lia))
      as (v1 & n2 & nci2 & r1 & Hv1 & Hstep1 & Hids2 & Hlen2 & Hr1 & Hr1pos
          & Hkeep1).
    rewrite (bind_Ok_l _ _ _ Hv1). rewrite (bind_Ok_l _ _ _ Hstep1).
    cbv beta iota.
    pose proof (Hkeep1 c0 r0 Hr0 Hr0pos) as Hr0'.
    rewrite (bind_Ok_l _ _ _ Hr0'). rewrite (bind_Ok_l _ _ _ Hr1).
    assert (0 <= f < Z.of_nat (length lfc)) as Hfr.
    { apply rd_Ok in Hcur. destruct Hcur as [Hf0 Hcur].
      apply lookup_lt_Some in Hcur. lia. }
    set (p := if r0 <? r1 then (r0, r1) else (r1, r0)).
    assert (p = (Z.min r0 r1, Z.max r0 r1)) as Hp.
    { unfold p. destruct (Z.ltb_spec r0 r1); f_equal; lia. }
    assert (wr lfc f p = Ok (<[Z.to_nat f := p]> lfc)) as Hw
      by (apply wr_in_range; exact Hfr).
    rewrite (bind_Ok_l _ _ _ Hw). eexists. split; [reflexivity|].
    cbn [fst snd]. split; [exact Hids2|]. split; [lia|].
    split; [rewrite length_insert; exact Hlfc|]. split.
    + intros fl_id f' c Hfl Hf' Hc'.
      destruct (Z.eq_dec fl_id j) as [->|Hne].
      * rewrite Hf in Hf'. inversion Hf'. subst f'.
        rewrite Hc in Hc'. inversion Hc'. subst c. cbn [fst snd].
        exists r0, r1. repeat (split; [assumption|]).
        rewrite (rd_wr_same _ _ _ _ Hw). rewrite Hp. reflexivity.
      * destruct (Hdone fl_id f' c ltac:(lia) Hf' Hc')
          as (q0 & q1 & Hq0 & Hq1 & Hq0p & Hq1p & Hq).
        exists q0, q1.
        split; [apply Hkeep1; [apply Hkeep0|]; assumption|].
        split; [apply Hkeep1; [apply Hkeep0|]; assumption|].
        split; [exact Hq0p|]. split; [exact Hq1p|].
        rewrite (rd_wr_other _ _ _ _ _ Hw); [exact Hq|].
        intros <-.
        pose proof (NoDup_take_rd faces_list faces_list_size fl_id j f Hnd
                      ltac:(lia) Hj Hf' Hf). lia.
    + intros f' Hf'. rewrite (rd_wr_other _ _ _ _ _ Hw).
      * apply Hrest. intros fl_id Hfl. apply Hf'. lia.
      * intros <-. apply (Hf' j ltac:(lia)). exact Hf.
  - cbn [fst snd] in *. rewrite Hrun. exists n, lfc, nci.
    split; [reflexivity|]. split; [exact Hlfc|].
    destruct Hids as (Hn & Hrange & Hinj & Hsurj).
    split.
    { pose proof (length_filter (fun v => 0 <= v) nci). lia. }
    split.
    { intros fl_id f c Hfl Hf Hc.
      destruct (Hdone fl_id f c Hfl Hf Hc)
        as (r0 & r1 & Hr0 & Hr1 & Hr0p & Hr1p & Hr).
      exists r0, r1. split; [exact Hr0|]. split; [exact Hr1|].
      destruct (Hrange _ _ Hr0), (Hrange _ _ Hr1); try lia.
      repeat (split; [lia|]). exact Hr. }
    split; [exact Hinj|]. split; [exact Hsurj|].
    intros f Hnin. apply Hrest. intros fl_id Hfl Hf. apply Hnin.
    apply (rd_elem_of_take _ _ fl_id _ Hfl Hf).
Qed.

Lemma remaining_compacts_witness :
  exists n_f_cells_new l_face_cells' new_cell_id,
    _renum_face_multipass_remaining 6 2 [3; 1; 0]
      [(0, 1); (2, 5); (1, 2); (4, 5)] = Ok (n_f_cells_new, l_face_cells')
    /\ length l_face_cells' = length [(0, 1); (2, 5); (1, 2); (4, 5)]
    /\ 0 <= n_f_cells_new <= Z.max 0 6
    /\ (forall fl_id f_id c,
          0 <= fl_id < 2 ->
          rd [3; 1; 0] fl_id = Ok f_id ->
          rd [(0, 1); (2, 5); (1, 2); (4, 5)] f_id = Ok c ->
          exists r0 r1,
            rd new_cell_id c.1 = Ok r0 /\ rd new_cell_id c.2 = Ok r1
            /\ 0 <= r0 < n_f_cells_new /\ 0 <= r1 < n_f_cells_new
            /\ rd l_face_cells' f_id = Ok (Z.min r0 r1, Z.max r0 r1))
    /\ (forall c c' r, rd new_cell_id c = Ok r -> rd new_cell_id c' = Ok r ->
                       0 <= r -> c = c')
    /\ (forall k, 0 <= k < n_f_cells_new ->
                  exists c, rd new_cell_id c = Ok k)
    /\ (forall f_id, f_id ∉ take (Z.to_nat 2) [3; 1; 0] ->
                     rd l_face_cells' f_id
                     = rd [(0, 1); (2, 5); (1, 2); (4, 5)] f_id).
Proof.
  apply (remaining_compacts 6 2 [3; 1; 0] [(0, 1); (2, 5); (1, 2); (4, 5)]).
  - simpl. lia.
  - apply (bool_decide_unpack _). vm_compute. exact I.
  - repeat constructor; eexists; (split; [reflexivity | simpl; lia]).
Defined.

(** ** Completeness of the interior faces check *)

(** Number of faces in the range of thread [t_id] for group [g_id]. *)
Definition range_size (nb : cs_numbering_t) (g_id t_id : Z) : Z :=
  match thread_range nb t_id g_id with
  | Ok (s, e) => Z.max 0 (e - s)
  | _ => 0
  end.

Definition group_faces (nb : cs_numbering_t) (g_id : Z) : Z :=
  sum_sizes (range_size nb g_id <$> seqZ 0 (n_threads nb)).

(** Number of faces in the ranges of the index, a face being counted as
    many times as there are ranges that hold it. *)
Definition index_faces (nb : cs_numbering_t) : Z :=
  sum_sizes (group_faces nb <$> seqZ 0 (n_groups nb)).

(** Every range of the index can be read, and holds valid faces unless it is
    empty. *)
Definition ranges_ok (n_faces : Z) (nb : cs_numbering_t) : Prop :=
  forall g t, 0 <= g < n_groups nb -> 0 <= t < n_threads nb ->
    exists s e, thread_range nb t g = Ok (s, e)
                /\ (s < e -> 0 <= s /\ e <= n_faces).

Lemma sum_sizes_insert (l : list Z) (i : nat) (v w : Z) :
  l !! i = Some v -> sum_sizes (<[i := w]> l) = sum_sizes l - v + w.
Proof.
  intros Hl. rewrite <- (take_drop_middle l i v Hl) at 2.
  rewrite insert_take_drop by (apply lookup_lt_Some in Hl; exact Hl).
  rewrite !sum_sizes_app. unfold sum_sizes. simpl. lia.
Qed.

Lemma sum_sizes_snoc_seqZ (f : Z -> Z) (k : Z) :
  0 <= k ->
  sum_sizes (f <$> seqZ 0 (k + 1)) = sum_sizes (f <$> seqZ 0 k) + f k.
Proof.
  intros Hk. rewrite seqZ_app by lia. rewrite fmap_app, sum_sizes_app.
  assert (seqZ (0 + k) 1 = [k]) as -> by (unfold seqZ; simpl; f_equal; lia).
  unfold sum_sizes. simpl. lia.
Qed.

Lemma sum_sizes_replicate_0 (n : nat) : sum_sizes (replicate n 0) = 0.
Proof. induction n as [|n IH]; [reflexivity|]. exact IH. Qed.

Lemma incr_sum (acc : list Z) (c : Z) :
  0 <= c < Z.of_nat (length acc) ->
  exists acc', incr acc c = Ok acc' /\ length acc' = length acc
               /\ sum_sizes acc' = sum_sizes acc + 1.
Proof.
  intros Hc. unfold incr. destruct (rd_in_range acc c Hc) as [v Hv].
  rewrite (bind_Ok_l _ _ _ Hv). rewrite (wr_in_range _ _ _ Hc).
  eexists. split; [reflexivity|]. split; [apply length_insert|].
  apply rd_Ok in Hv. destruct Hv as [_ Hv].
  rewrite (sum_sizes_insert _ _ v _ Hv). lia.
Qed.

(** The first loop on the faces of a range adds 2 per face. *)
Lemma count_range (fc : list (Z * Z)) (n_cells_ext s e : Z) (acc : list Z) :
  cells_below n_cells_ext fc ->
  Z.of_nat (length acc) = n_cells_ext ->
  (s < e -> 0 <= s /\ e <= Z.of_nat (length fc)) ->
  exists acc',
    for_loop s e
      (fun f_id acc =>
         '(c_id_0, c_id_1) ← rd fc f_id;
         acc ← incr acc c_id_0;
         incr acc c_id_1) acc = Ok acc'
    /\ Z.of_nat (length acc') = n_cells_ext
    /\ sum_sizes acc' = sum_sizes acc + 2 * Z.max 0 (e - s).
Proof.
  intros Hcells Hlen Hse.
  destruct (Z.le_gt_cases e s) as [Hle|Hlt].
  { rewrite for_loop_empty by lia. exists acc.
    split; [reflexivity|]. split; [exact Hlen | lia]. }
  specialize (Hse ltac:(lia)).
  destruct (for_loop_inv
              (fun j (a : list Z) =>
                 Z.of_nat (length a) = n_cells_ext
                 /\ sum_sizes a = sum_sizes acc + 2 * (j - s))
              s e
              (fun f_id acc =>
                 '(c_id_0, c_id_1) ← rd fc f_id;
                 acc ← incr acc c_id_0;
                 incr acc c_id_1) acc) as [acc' [Hrun [Hl Hs]]].
  - lia.
  - split; [exact Hlen | lia].
  - intros j a Hj [Hl Hs].
    destruct (rd_in_range fc j ltac:(lia)) as [[c0 c1] Hp].
    rewrite (bind_Ok_l _ _ _ Hp). cbv beta iota.
    assert ((0 <= c0 < n_cells_ext) /\ (0 <= c1 < n_cells_ext)) as [Hc0 Hc1].
    { apply rd_Ok in Hp. destruct Hp as [_ Hp].
      unfold cells_below in Hcells. rewrite Forall_lookup in Hcells.
      apply (Hcells _ _ Hp). }
    destruct (incr_sum a c0 ltac:(lia)) as (a1 & Hi1 & Hl1 & Hs1).
    rewrite (bind_Ok_l _ _ _ Hi1).
    destruct (incr_sum a1 c1 ltac:(lia)) as (a2 & Hi2 & Hl2 & Hs2).
    exists a2. split; [exact Hi2|]. split; lia.
  - exists acc'. split; [exact Hrun|]. split; [exact Hl | lia].
Qed.

Lemma count_groups (fc : list (Z * Z)) (nb : cs_numbering_t)
      (n_cells_ext : Z) :
  0 <= n_cells_ext ->
  cells_below n_cells_ext fc ->
  ranges_ok (Z.of_nat (length fc)) nb ->
  exists acc,
    for_groups_threads (n_groups nb) (n_threads nb)
      (fun g_id t_id acc =>
         '(s, e) ← thread_range nb t_id g_id;
         for_loop s e
           (fun f_id acc =>
              '(c_id_0, c_id_1) ← rd fc f_id;
              acc ← incr acc c_id_0;
              incr acc c_id_1)
           acc)
      (replicate (Z.to_nat n_cells_ext) 0) = Ok acc
    /\ Z.of_nat (length acc) = n_cells_ext
    /\ sum_sizes acc = 2 * index_faces nb.
Proof.
  intros Hext Hcells Hok. unfold for_groups_threads, index_faces.
  destruct (Z.le_gt_cases 0 (n_groups nb)) as [Hg|Hg].
  2: { rewrite for_loop_empty by lia. eexists. split; [reflexivity|].
       rewrite length_replicate, sum_sizes_replicate_0.
       split; [lia|]. rewrite seqZ_nil by lia. reflexivity. }
  destruct (for_loop_inv
              (fun g (a : list Z) =>
                 Z.of_nat (length a) = n_cells_ext
                 /\ sum_sizes a
                    = 2 * sum_sizes (group_faces nb <$> seqZ 0 g))
              0 (n_groups nb)
              (fun g_id s =>
                 for_loop 0 (n_threads nb)
                   (fun t_id acc =>
                      '(s, e) ← thread_range nb t_id g_id;
                      for_loop s e
                        (fun f_id acc =>
                           '(c_id_0, c_id_1) ← rd fc f_id;
                           acc ← incr acc c_id_0;
                           incr acc c_id_1)
                        acc) s)
              (replicate (Z.to_nat n_cells_ext) 0) Hg)
    as [acc [Hrun [Hl Hs]]].
  - rewrite length_replicate, sum_sizes_replicate_0. split; [lia | reflexivity].
  - intros g a Hgr [Hl Hs].
    rewrite sum_sizes_snoc_seqZ by lia. unfold group_faces at 2.
    destruct (Z.le_gt_cases 0 (n_threads nb)) as [Ht|Ht].
    2: { rewrite for_loop_empty by lia. exists a. split; [reflexivity|].
         split; [exact Hl|]. rewrite (seqZ_nil 0 (n_threads nb)) by lia.
         rewrite Hs. unfold sum_sizes at 3. simpl. lia. }
    destruct (for_loop_inv
                (fun t (a' : list Z) =>
                   Z.of_nat (length a') = n_cells_ext
                   /\ sum_sizes a'
                      = sum_sizes a
                        + 2 * sum_sizes (range_size nb g <$> seqZ 0 t))
                0 (n_threads nb)
                (fun t_id acc =>
                   '(s, e) ← thread_range nb t_id g;
                   for_loop s e
                     (fun f_id acc =>
                        '(c_id_0, c_id_1) ← rd fc f_id;
                        acc ← incr acc c_id_0;
                        incr acc c_id_1)
                     acc) a Ht)
      as [a' [Hrun' [Hl' Hs']]].
    + split; [exact Hl|]. unfold sum_sizes at 3. simpl. lia.
    + intros t a1 Htr [Hl1 Hs1].
      destruct (Hok g t Hgr Htr) as (s & e & Hr & Hse).
      rewrite (bind_Ok_l _ _ _ Hr). cbv beta iota.
      destruct (count_range fc n_cells_ext s e a1 Hcells Hl1 Hse)
        as (a2 & Hrun2 & Hl2 & Hs2).
      exists a2. split; [exact Hrun2|]. split; [exact Hl2|].
      rewrite sum_sizes_snoc_seqZ by lia. unfold range_size at 2.
      rewrite Hr. lia.
    + exists a'. split; [exact Hrun'|]. split; [exact Hl'|]. lia.
  - exists acc. split; [exact Hrun|]. split; [exact Hl | exact Hs].
Qed.

(** [for (c = 0; c < n; c++) counter += accumulator[c];] *)
Lemma counter_loop (acc : list Z) (n : Z) :
  Z.of_nat (length acc) = n ->
  for_loop 0 n (fun c_id counter => v ← rd acc c_id; mret (counter + v)) 0
  = Ok (sum_sizes acc).
Proof.
  intros Hlen.
  destruct (for_loop_inv
              (fun j counter => counter = sum_sizes (take (Z.to_nat j) acc))
              0 n
              (fun c_id counter => v ← rd acc c_id; mret (counter + v)) 0)
    as [counter [Hrun Hc]].
  - lia.
  - reflexivity.
  - intros j counter Hj ->.
    destruct (rd_in_range acc j ltac:(lia)) as [v Hv].
    rewrite (bind_Ok_l _ _ _ Hv). eexists. split; [reflexivity|].
    apply rd_Ok in Hv. destruct Hv as [_ Hv].
    replace (Z.to_nat (j + 1)) with (S (Z.to_nat j)) by lia.
    rewrite (take_S_r _ _ _ Hv), sum_sizes_app. unfold sum_sizes at 3.
    simpl. lia.
  - rewrite Hrun, Hc. rewrite take_ge by lia. reflexivity.
Qed.

Lemma range_cells_elem_of (fc : list (Z * Z)) (s e i c : Z) (p : Z * Z) :
  0 <= s <= i -> i < e -> rd fc i = Ok p -> c = p.1 \/ c = p.2 ->
  c ∈ range_cells fc s e.
Proof.
  intros Hs He Hp Hc. unfold range_cells.
  apply list_elem_of_In, in_flat_map. exists p. split.
  - apply list_elem_of_In. apply rd_Ok in Hp. destruct Hp as [_ Hp].
    apply (list_elem_of_lookup_2 _ (Z.to_nat (i - s))).
    rewrite lookup_take_lt by lia. rewrite lookup_drop.
    replace (Z.to_nat s + Z.to_nat (i - s))%nat with (Z.to_nat i) by lia.
    exact Hp.
  - simpl. destruct Hc as [->| ->]; auto.
Qed.

(** What the serial test has written in the accumulator when it reaches
    thread [t] of group [g] without an error: the last thread whose range
    touches the cell. *)
Definition marked_upto (fc : list (Z * Z)) (nb : cs_numbering_t)
    (g t : Z) (acc : list Z) : Prop :=
  forall c v, rd acc c = Ok v ->
              v = -1 \/ (0 <= v <= t /\ range_touches fc nb g v c).

Lemma serial_faces_pass (fc : list (Z * Z)) (nb : cs_numbering_t)
      (n_cells_ext g t s e : Z) (acc : list Z) :
  cells_below n_cells_ext fc ->
  conflict_free fc nb ->
  0 <= g < n_groups nb -> 0 <= t < n_threads nb ->
  thread_range nb t g = Ok (s, e) ->
  (s < e -> 0 <= s /\ e <= Z.of_nat (length fc)) ->
  Z.of_nat (length acc) = n_cells_ext ->
  marked_upto fc nb g t acc ->
  exists acc',
    serial_faces fc t s e (0, acc) = Ok (0, acc')
    /\ Z.of_nat (length acc') = n_cells_ext
    /\ marked_upto fc nb g t acc'.
Proof.
  intros Hcells Hfree Hg Ht Hr Hse Hlen Hmark. unfold serial_faces.
  destruct (Z.le_gt_cases e s) as [Hle|Hlt].
  { rewrite for_loop_empty by lia. exists acc. auto. }
  specialize (Hse ltac:(lia)).
  destruct (for_loop_inv
              (fun (j : Z) (st : Z * list Z) =>
                 st.1 = 0 /\ Z.of_nat (length st.2) = n_cells_ext
                 /\ marked_upto fc nb g t st.2)
              s e
              (fun f_id '(face_errors, acc) =>
                 '(c_id_0, c_id_1) ← rd fc f_id;
                 a0 ← rd acc c_id_0;
                 a1 ← rd acc c_id_1;
                 let bad :=
                   ((-1 <? a0) && negb (a0 =? t))
                   || ((-1 <? a1) && negb (a1 =? t)) in
                 acc ← wr acc c_id_0 t;
                 acc ← wr acc c_id_1 t;
                 mret (if bad then face_errors + 1 else face_errors, acc))
              (0, acc))
    as [[fe acc'] [Hrun (Hfe & Hl & Hm)]].
  - lia.
  - auto.
  - intros j [fe a] Hj (Hfe & Hl & Hm). cbn [fst snd] in *. subst fe.
    destruct (rd_in_range fc j ltac:(lia)) as [[c0 c1] Hp].
    rewrite (bind_Ok_l _ _ _ Hp). cbv beta iota.
    assert ((0 <= c0 < n_cells_ext) /\ (0 <= c1 < n_cells_ext)) as [Hc0 Hc1].
    { apply rd_Ok in Hp. destruct Hp as [_ Hp].
      unfold cells_below in Hcells. rewrite Forall_lookup in Hcells.
      apply (Hcells _ _ Hp). }
    assert (forall c, c = c0 \/ c = c1 -> range_touches fc nb g t c) as Htouch.
    { intros c Hc. exists s, e, j, (c0, c1). split; [exact Hr|].
      split; [lia|]. split; [lia|]. split; [exact Hp | exact Hc]. }
    assert (forall c a', c = c0 \/ c = c1 -> rd a c = Ok a' ->
              (-1 <? a') && negb (a' =? t) = false) as Hgood.
    { intros c a' Hc Ha'.
      destruct (Z.ltb_spec (-1) a') as [Hpos|Hneg]; [|reflexivity].
      destruct (Z.eqb_spec a' t) as [Heq|Hne]; [reflexivity|]. exfalso.
      destruct (Hm c a' Ha') as [Hv|[Hv Hta]]; [lia|].
      destruct Hta as (s1 & e1 & i1 & p1 & Hr1 & Hs1 & He1 & Hp1 & Hcp1).
      apply (Hfree g a' t s1 e1 s e c Hg ltac:(lia) Ht Hne Hr1 Hr).
      - apply (range_cells_elem_of fc s1 e1 i1 c p1); assumption.
      - apply (range_cells_elem_of fc s e j c (c0, c1)); try assumption; lia. }
    destruct (rd_in_range a c0 ltac:(lia)) as [a0 Ha0].
    destruct (rd_in_range a c1 ltac:(lia)) as [a1 Ha1].
    rewrite (bind_Ok_l _ _ _ Ha0). rewrite (bind_Ok_l _ _ _ Ha1).
    cbv zeta.
    rewrite (Hgood c0 a0 (or_introl eq_refl) Ha0).
    rewrite (Hgood c1 a1 (or_intror eq_refl) Ha1). cbn [orb].
    assert (wr a c0 t = Ok (<[Z.to_nat c0 := t]> a)) as Hw0
      by (apply wr_in_range; lia).
    rewrite (bind_Ok_l _ _ _ Hw0).
    assert (wr (<[Z.to_nat c0 := t]> a) c1 t
            = Ok (<[Z.to_nat c1 := t]> (<[Z.to_nat c0 := t]> a))) as Hw1
      by (apply wr_in_range; rewrite length_insert; lia).
    rewrite (bind_Ok_l _ _ _ Hw1).
    eexists. split; [reflexivity|]. cbn [fst snd].
    split; [reflexivity|]. split; [rewrite !length_insert; exact Hl|].
    intros c v Hv.
    destruct (Z.eq_dec c1 c) as [<-|Hne1].
    { rewrite (rd_wr_same _ _ _ _ Hw1) in Hv. inversion Hv. subst v.
      right. split; [lia|]. apply Htouch. auto. }
    rewrite (rd_wr_other _ _ _ _ _ Hw1 Hne1) in Hv.
    destruct (Z.eq_dec c0 c) as [<-|Hne0].
    { rewrite (rd_wr_same _ _ _ _ Hw0) in Hv. inversion Hv. subst v.
      right. split; [lia|]. apply Htouch. auto. }
    rewrite (rd_wr_other _ _ _ _ _ Hw0 Hne0) in Hv.
    apply (Hm c v Hv).
  - cbn [fst snd] in *. subst fe. exists acc'. auto.
Qed.

Lemma serial_threads_pass (fc : list (Z * Z)) (nb : cs_numbering_t)
      (n_cells_ext g : Z) :
  cells_below n_cells_ext fc ->
  conflict_free fc nb ->
  ranges_ok (Z.of_nat (length fc)) nb ->
  0 <= n_cells_ext ->
  0 <= g < n_groups nb ->
  exists acc',
    serial_threads fc nb g (0, replicate (Z.to_nat n_cells_ext) (-1))
    = Ok (0, acc').
Proof.
  intros Hcells Hfree Hok Hext Hg. unfold serial_threads.
  destruct (Z.le_gt_cases 0 (n_threads nb)) as [Ht|Ht].
  2: { rewrite for_loop_empty by lia. eexists. reflexivity. }
  destruct (for_loop_inv
              (fun (t : Z) (st : Z * list Z) =>
                 st.1 = 0 /\ Z.of_nat (length st.2) = n_cells_ext
                 /\ marked_upto fc nb g (t - 1) st.2)
              0 (n_threads nb)
              (fun t_id st =>
                 '(s, e) ← thread_range nb t_id g;
                 serial_faces fc t_id s e st)
              (0, replicate (Z.to_nat n_cells_ext) (-1)) Ht)
    as [[fe acc'] [Hrun (Hfe & _)]].
  - cbn [fst snd]. split; [reflexivity|]. rewrite length_replicate.
    split; [lia|]. intros c v Hv. left.
    apply rd_Ok in Hv. destruct Hv as [_ Hv].
    apply lookup_replicate in Hv. apply Hv.
  - intros t [fe a] Htr (Hfe & Hl & Hm). cbn [fst snd] in *. subst fe.
    destruct (Hok g t Hg Htr) as (s & e & Hr & Hse).
    rewrite (bind_Ok_l _ _ _ Hr). cbv beta iota.
    destruct (serial_faces_pass fc nb n_cells_ext g t s e a Hcells Hfree Hg
                Htr Hr Hse Hl) as (a' & Hrun & Hl' & Hm').
    { intros c v Hv. destruct (Hm c v Hv) as [Hneg|[Hv' Hto]];
        [left; exact Hneg | right; split; [lia | exact Hto]]. }
    exists (0, a'). split; [exact Hrun|]. cbn [fst snd].
    split; [reflexivity|]. split; [exact Hl'|].
    replace (t + 1 - 1) with t by lia. exact Hm'.
  - cbn [fst snd] in Hfe. subst fe. exists acc'. exact Hrun.
Qed.

Lemma serial_groups_pass (fc : list (Z * Z)) (nb : cs_numbering_t)
      (n_cells_ext : Z) :
  cells_below n_cells_ext fc ->
  conflict_free fc nb ->
  ranges_ok (Z.of_nat (length fc)) nb ->
  0 <= n_cells_ext ->
  serial_groups fc nb n_cells_ext 0 = Ok 0.
Proof.
  intros Hcells Hfree Hok Hext. unfold serial_groups.
  destruct (Z.le_gt_cases 0 (n_groups nb)) as [Hg|Hg].
  2: { rewrite for_loop_empty by lia. reflexivity. }
  destruct (for_loop_inv (fun (g : Z) (fe : Z) => fe = 0) 0 (n_groups nb)
              (fun g_id face_errors =>
                 '(face_errors, _) ←
                   serial_threads fc nb g_id
                     (face_errors, replicate (Z.to_nat n_cells_ext) (-1));
                 mret face_errors) 0 Hg) as [fe [Hrun Hfe]].
  - reflexivity.
  - intros g fe Hgr ->.
    destruct (serial_threads_pass fc nb n_cells_ext g Hcells Hfree Hok Hext
                Hgr) as [acc' Hrun].
    rewrite (bind_Ok_l _ _ _ Hrun). exists 0. split; reflexivity.
  - rewrite Hrun, Hfe. reflexivity.
Qed.

(** X14: The interior faces check of [_renumber_test] accepts every threaded
    numbering whose ranges hold valid faces, [n_i_faces] in total, and never
    put a cell in the ranges of two threads of a group: it then runs to
    the end and counts no error. *)
Theorem renumber_test_complete (mesh : cs_mesh_t) (nb : cs_numbering_t) :
  i_face_numbering mesh = Some nb ->
  type nb = CS_NUMBERING_THREADS ->
  0 <= n_cells_with_ghosts mesh ->
  Z.of_nat (length (i_face_cells mesh)) = n_i_faces mesh ->
  cells_below (n_cells_with_ghosts mesh) (i_face_cells mesh) ->
  ranges_ok (n_i_faces mesh) nb ->
  index_faces nb = n_i_faces mesh ->
  conflict_free (i_face_cells mesh) nb ->
  _renumber_test_i_faces mesh = Ok 0.
Proof.
  intros Hnb Htype Hext Hlen Hcells Hok Hcount Hfree.
  unfold _renumber_test_i_faces. rewrite Hnb, Htype.
  rewrite <- Hlen in Hok.
  destruct (count_groups (i_face_cells mesh) nb (n_cells_with_ghosts mesh)
              Hext Hcells Hok) as (acc & Hrun & Hl & Hsum).
  rewrite (bind_Ok_l _ _ _ Hrun).
  rewrite (bind_Ok_l _ _ _ (counter_loop acc _ Hl)). cbv zeta.
  replace (n_i_faces mesh * 2 - sum_sizes acc) with 0 by lia.
  rewrite Z.eqb_refl.
  exact (serial_groups_pass (i_face_cells mesh) nb (n_cells_with_ghosts mesh)
           Hcells Hfree Hok Hext).
Qed.

Lemma renumber_test_complete_witness :
  _renumber_test_i_faces chain6_threaded = Ok 0.
Proof.
  apply (renumber_test_complete chain6_threaded
           (cs_numbering_create_threaded 2 2 [0; 2; 2; 3; 3; 5; -1; -1])).
  - reflexivity.
  - reflexivity.
  - simpl. lia.
  - reflexivity.
  - repeat constructor; simpl; lia.
  - intros g t Hg Ht. simpl in Hg, Ht.
    assert (g = 0 \/ g = 1) as [-> | ->] by lia;
      (assert (t = 0 \/ t = 1) as [-> | ->] by lia);
      eexists _, _; (split; [reflexivity | simpl; lia]).
  - reflexivity.
  - intros g t1 t2 s1 e1 s2 e2 c Hg Ht1 Ht2 Hne Hr1 Hr2 Hc1 Hc2.
    simpl in Hg, Ht1, Ht2.
    assert (g = 0 \/ g = 1) as [-> | ->] by lia;
      (assert (t1 = 0 \/ t1 = 1) as [-> | ->] by lia);
      (assert (t2 = 0 \/ t2 = 1) as [-> | ->] by lia);
      try lia;
      vm_compute in Hr1; vm_compute in Hr2;
      inversion Hr1; inversion Hr2; subst s1 e1 s2 e2;
      unfold range_cells in Hc1, Hc2; simpl in Hc1, Hc2;
      repeat match goal with
             | H : _ ∈ _ :: _ |- _ =>
                 apply elem_of_cons in H; destruct H as [H|H]
             | H : _ ∈ [] |- _ => inversion H
             end; lia.
Defined.

(** ** The check accepts the block renumbering *)

(** Faces in the ranges of the first [k] threads, for a group handled by
    [_thread_bounds_by_group_size]. *)
Lemma group_thread_range_sizes (n_threads size start : Z) (k : nat) :
  0 < n_threads -> 0 <= size -> Z.of_nat k <= n_threads ->
  sum_sizes ((fun t => Z.max 0 ((group_thread_range n_threads size start t).2
                                - (group_thread_range n_threads size start t).1))
             <$> seqZ 0 (Z.of_nat k))
  = if 4 <? size / n_threads
    then share_start n_threads size start (Z.of_nat k) - start
    else if (k =? 0)%nat then 0 else size.
Proof.
  intros Hn Hs. induction k as [|k IH]; intros Hk.
  - simpl. rewrite share_start_0 by lia.
    destruct (4 <? size / n_threads); unfold sum_sizes; simpl; lia.
  - replace (Z.of_nat (S k)) with (Z.of_nat k + 1) by lia.
    rewrite sum_sizes_snoc_seqZ by lia. rewrite IH by lia.
    unfold group_thread_range.
    destruct (4 <? size / n_threads) eqn:E.
    + cbn [fst snd].
      pose proof (share_start_mono n_threads size start (Z.of_nat k)
                    (Z.of_nat k + 1) Hs Hn ltac:(lia)). lia.
    + destruct k as [|k]; simpl (_ =? _)%nat; cbn [fst snd].
      * simpl. lia.
      * destruct (Z.eqb_spec (Z.of_nat (S k)) 0); [lia|]. cbn [fst snd]. lia.
Qed.

Lemma group_start_le_total (sizes : list Z) (g : Z) :
  Forall (fun s => 0 <= s) sizes ->
  0 <= group_start sizes g <= sum_sizes sizes.
Proof.
  intros Hpos. unfold group_start.
  rewrite <- (take_drop (Z.to_nat g) sizes) at 3. rewrite sum_sizes_app.
  pose proof (sum_sizes_nonneg _ (Forall_take _ (Z.to_nat g) _ Hpos)).
  pose proof (sum_sizes_nonneg _ (Forall_drop _ (Z.to_nat g) _ Hpos)). lia.
Qed.

(** The index filled by [_thread_bounds_by_group_size] holds valid ranges
    that count every face once. *)
Lemma indexed_ranges (n n_i_threads n_g : Z) (sizes gi : list Z) :
  0 < n_i_threads -> 0 <= n_g ->
  Z.of_nat (length sizes) = n_g ->
  Forall (fun s => 0 <= s) sizes ->
  sum_sizes sizes = n ->
  Z.of_nat (length gi) = n_i_threads * n_g * 2 ->
  (forall g, 0 <= g < n_g ->
             group_indexed n_g n_i_threads sizes gi g) ->
  ranges_ok n (cs_numbering_create_threaded n_i_threads n_g gi)
  /\ index_faces (cs_numbering_create_threaded n_i_threads n_g gi) = n.
Proof.
  intros Ht Hg Hlen Hpos Hsum Hgil Hidx.
  set (nb := cs_numbering_create_threaded n_i_threads n_g gi).
  assert (forall g t size, 0 <= g < n_g -> 0 <= t < n_i_threads ->
            rd sizes g = Ok size ->
            thread_range nb t g
            = Ok (group_thread_range n_i_threads size (group_start sizes g) t))
    as Hrange.
  { intros g t size Hgr Htr Hsize. unfold thread_range, nb. simpl.
    rewrite take_ge by lia.
    destruct (Hidx g Hgr t size Htr Hsize) as [H0 H1].
    rewrite H0. simpl. rewrite H1. simpl.
    destruct (group_thread_range n_i_threads size (group_start sizes g) t).
    reflexivity. }
  assert (forall g, 0 <= g < n_g ->
            exists size, rd sizes g = Ok size /\ 0 <= size) as Hsize.
  { intros g Hgr. destruct (rd_in_range sizes g ltac:(lia)) as [size Hs].
    exists size. split; [exact Hs|].
    apply rd_Ok in Hs. destruct Hs as [_ Hs].
    rewrite Forall_lookup in Hpos. apply (Hpos _ _ Hs). }
  split.
  - intros g t Hgr Htr. simpl in Hgr, Htr.
    destruct (Hsize g Hgr) as (size & Hs & Hs0).
    rewrite (Hrange g t size Hgr Htr Hs).
    pose proof (group_thread_range_inside n_i_threads size (group_start sizes g)
                  t Ht Hs0 Htr) as Hin.
    destruct (group_thread_range n_i_threads size (group_start sizes g) t)
      as [s e]. simpl in Hin.
    exists s, e. split; [reflexivity|]. intros Hlt.
    destruct Hin as [_ Hin]. specialize (Hin Hlt).
    pose proof (group_start_le_total sizes g Hpos).
    pose proof (group_start_le_total sizes (g + 1) Hpos).
    rewrite (group_start_succ sizes g size ltac:(lia) Hs) in *. lia.
  - unfold index_faces. change (n_groups nb) with n_g.
    assert (forall k : nat, Z.of_nat k <= n_g ->
              sum_sizes (group_faces nb <$> seqZ 0 (Z.of_nat k))
              = group_start sizes (Z.of_nat k)) as Hgroups.
    { induction k as [|k IH]; intros Hk; [reflexivity|].
      replace (Z.of_nat (S k)) with (Z.of_nat k + 1) by lia.
      rewrite sum_sizes_snoc_seqZ by lia. rewrite IH by lia.
      destruct (Hsize (Z.of_nat k) ltac:(lia)) as (size & Hs & Hs0).
      rewrite (group_start_succ sizes (Z.of_nat k) size ltac:(lia) Hs).
      f_equal. unfold group_faces. change (n_threads nb) with n_i_threads.
      assert (forall j : nat, Z.of_nat j <= n_i_threads ->
                sum_sizes (range_size nb (Z.of_nat k) <$> seqZ 0 (Z.of_nat j))
                = sum_sizes
                    ((fun t => Z.max 0
                        ((group_thread_range n_i_threads size
                            (group_start sizes (Z.of_nat k)) t).2
                         - (group_thread_range n_i_threads size
                              (group_start sizes (Z.of_nat k)) t).1))
                     <$> seqZ 0 (Z.of_nat j))) as Hsame.
      { induction j as [|j IHj]; intros Hj; [reflexivity|].
        replace (Z.of_nat (S j)) with (Z.of_nat j + 1) by lia.
        rewrite !sum_sizes_snoc_seqZ by lia. rewrite IHj by lia.
        f_equal. unfold range_size.
        rewrite (Hrange (Z.of_nat k) (Z.of_nat j) size ltac:(lia) ltac:(lia) Hs).
        destruct (group_thread_range n_i_threads size
                    (group_start sizes (Z.of_nat k)) (Z.of_nat j)).
        reflexivity. }
      specialize (Hsame (Z.to_nat n_i_threads) ltac:(lia)).
      rewrite Z2Nat.id in Hsame by lia. rewrite Hsame.
      pose proof (group_thread_range_sizes n_i_threads size
                    (group_start sizes (Z.of_nat k)) (Z.to_nat n_i_threads)
                    Ht Hs0 ltac:(lia)) as Hsz.
      rewrite Z2Nat.id in Hsz by lia. rewrite Hsz.
      rewrite share_start_all by lia.
      destruct (4 <? size / n_i_threads); [lia|].
      destruct (Nat.eqb_spec (Z.to_nat n_i_threads) 0); [lia | reflexivity]. }
    specialize (Hgroups (Z.to_nat n_g) ltac:(lia)).
    rewrite Z2Nat.id in Hgroups by lia. rewrite Hgroups.
    unfold group_start. rewrite take_ge by lia. exact Hsum.
Qed.

(** X15: With at least two threads and the block algorithm, the mesh that
    [_renumber_for_threads] returns for a well-formed mesh with interior and
    boundary faces passes the interior faces check of [_renumber_test]. *)
Theorem renumber_for_threads_block_checked (fuel : nat) (cfg : config)
    (mesh : cs_mesh_t) :
  2 <= _cs_renumber_n_threads cfg ->
  _i_faces_algorithm cfg = CS_RENUMBER_I_FACES_BLOCK ->
  1 <= n_i_faces mesh -> 1 <= n_b_faces mesh ->
  0 <= n_cells_with_ghosts mesh ->
  Z.of_nat (length (i_face_cells mesh)) = n_i_faces mesh ->
  Z.of_nat (length (b_face_cells mesh)) = n_b_faces mesh ->
  cells_below (n_cells_with_ghosts mesh) (i_face_cells mesh) ->
  vtx_ok (n_i_faces mesh) (i_face_vtx_idx mesh) (i_face_vtx_lst mesh) ->
  vtx_ok (n_b_faces mesh) (b_face_vtx_idx mesh) (b_face_vtx_lst mesh) ->
  opt_length (n_i_faces mesh) (i_face_family mesh) ->
  opt_length (n_b_faces mesh) (b_face_family mesh) ->
  opt_length (n_i_faces mesh) (global_i_face_num mesh) ->
  opt_length (n_b_faces mesh) (global_b_face_num mesh) ->
  (Z.to_nat (n_i_faces mesh) <= fuel)%nat ->
  exists mesh',
    _renumber_for_threads fuel cfg mesh = Ok mesh'
    /\ _renumber_test_i_faces mesh' = Ok 0.
Proof.
  intros Ht Halg Hni Hnb Hext Hifc Hbfc Hcells Hvi Hvb Hfi Hfb Hgi Hgb Hfuel.
  destruct (renumber_for_threads_block_spec fuel cfg mesh Ht Halg Hni Hnb Hext
              Hifc Hbfc Hcells Hvi Hvb Hfi Hfb Hgi Hgb Hfuel)
    as (mesh' & out & Hrun & Hin & Hfree & Hpi & _ & _ & Hng & Hnif & Hgil
        & _ & sizes & Hsl & Hspos & Hssum & Hidx).
  exists mesh'. split; [exact Hrun|].
  set (nb := cs_numbering_create_threaded (_cs_renumber_n_threads cfg)
               (out_n_groups out) (out_group_index out)) in *.
  destruct (indexed_ranges (n_i_faces mesh) (_cs_renumber_n_threads cfg)
              (out_n_groups out) sizes (out_group_index out))
    as [Hok Hcount]; try assumption; try lia.
  fold nb in Hok, Hcount.
  assert (Z.of_nat (length (i_face_cells mesh')) = n_i_faces mesh) as Hlen.
  { rewrite Hpi. exact Hifc. }
  assert (cells_below (n_cells_with_ghosts mesh') (i_face_cells mesh'))
    as Hcells'.
  { unfold cells_below. rewrite Hng, Hpi. exact Hcells. }
  unfold _renumber_test_i_faces. rewrite Hin.
  change (type nb) with CS_NUMBERING_THREADS. cbv iota.
  rewrite <- Hlen in Hok.
  destruct (count_groups (i_face_cells mesh') nb (n_cells_with_ghosts mesh')
              ltac:(lia) Hcells' Hok) as (acc & Hacc & Hl & Hsum).
  rewrite (bind_Ok_l _ _ _ Hacc).
  rewrite (bind_Ok_l _ _ _ (counter_loop acc _ Hl)). cbv zeta.
  replace (n_i_faces mesh' * 2 - sum_sizes acc) with 0 by lia.
  rewrite Z.eqb_refl.
  exact (serial_groups_pass (i_face_cells mesh') nb (n_cells_with_ghosts mesh')
           Hcells' Hfree Hok ltac:(lia)).
Qed.

Lemma renumber_for_threads_block_checked_witness :
  exists mesh',
    _renumber_for_threads 2 block_config row3_mesh = Ok mesh'
    /\ _renumber_test_i_faces mesh' = Ok 0.
Proof.
  apply (renumber_for_threads_block_checked 2 block_config row3_mesh).
  - simpl. lia.
  - reflexivity.
  - simpl. lia.
  - simpl. lia.
  - simpl. lia.
  - reflexivity.
  - reflexivity.
  - repeat constructor; simpl; lia.
  - simpl. repeat split; try (repeat constructor; lia); vm_compute; discriminate.
  - simpl. repeat split; try (repeat constructor; lia); vm_compute; discriminate.
  - reflexivity.
  - reflexivity.
  - exact I.
  - reflexivity.
  - simpl. lia.
Defined.

(** ** List of the remaining faces *)

(** Face [f_id] has no thread yet. *)
Definition unassigned (f_t_id : list Z) (f_id : Z) : Prop :=
  exists t, rd f_t_id f_id = Ok t /\ t < 0.

#[local] Instance unassigned_dec (f_t_id : list Z) (f_id : Z) :
  Decision (unassigned f_t_id f_id).
Proof.
  unfold unassigned. destruct (rd f_t_id f_id) as [t| |] eqn:E.
  - destruct (decide (t < 0)) as [Hlt|Hge].
    + left. exists t. auto.
    + right. intros [t' [Ht' Hlt]]. inversion Ht'. lia.
  - right. intros [t' [Ht' _]]. discriminate.
  - right. intros [t' [Ht' _]]. discriminate.
Defined.

(** X16: The update of the list of remaining faces keeps, at the head of
    [faces_list] and in the same order, the faces of the list that have no
    thread yet, and returns their number; the length of the array does not
    change, and distinct faces stay distinct. *)
Theorem update_remaining_list_filters (faces_list_size : Z)
    (faces_list f_t_id : list Z) :
  0 <= faces_list_size <= Z.of_nat (length faces_list) ->
  Forall (fun f => 0 <= f < Z.of_nat (length f_t_id))
    (take (Z.to_nat faces_list_size) faces_list) ->
  exists faces_list_size_new faces_list',
    update_remaining_list faces_list_size faces_list f_t_id
    = Ok (faces_list_size_new, faces_list')
    /\ 0 <= faces_list_size_new <= faces_list_size
    /\ length faces_list' = length faces_list
    /\ take (Z.to_nat faces_list_size_new) faces_list'
       = filter (unassigned f_t_id) (take (Z.to_nat faces_list_size) faces_list)
    /\ (NoDup (take (Z.to_nat faces_list_size) faces_list) ->
        NoDup (take (Z.to_nat faces_list_size_new) faces_list')).
Proof.
  intros Hsize Hvalid. unfold update_remaining_list.
  destruct (for_loop_inv
    (fun j (st : Z * list Z) =>
       0 <= st.1 <= j
       /\ length st.2 = length faces_list
       /\ take (Z.to_nat st.1) st.2
          = filter (unassigned f_t_id) (take (Z.to_nat j) faces_list)
       /\ drop (Z.to_nat j) st.2 = drop (Z.to_nat j) faces_list)
    0 faces_list_size
    (fun fl_id '(faces_list_size_new, faces_list) =>
       f_id ← rd faces_list fl_id;
       t ← rd f_t_id f_id;
       if t <? 0 then
         fl ← wr faces_list faces_list_size_new f_id;
         mret (faces_list_size_new + 1, fl)
       else mret (faces_list_size_new, faces_list))
    (0, faces_list)) as [[n fl] [Hrun (Hn & Hlen & Htake & _)]].
  - lia.
  - cbn [fst snd]. split; [lia|]. split; [reflexivity|].
    split; reflexivity.
  - intros j [n fl] Hj (Hn & Hlen & Htake & Hdrop). cbn [fst snd] in *.
    assert (exists f, faces_list !! Z.to_nat j = Some f) as [f Hf0].
    { apply lookup_lt_is_Some. lia. }
    assert (rd fl j = Ok f) as Hf.
    { apply rd_Ok. split; [lia|].
      rewrite <- (Nat.add_0_r (Z.to_nat j)). rewrite <- lookup_drop, Hdrop.
      rewrite lookup_drop, Nat.add_0_r. exact Hf0. }
    rewrite (bind_Ok_l _ _ _ Hf).
    assert (0 <= f < Z.of_nat (length f_t_id)) as Hfr.
    { rewrite Forall_lookup in Hvalid. apply (Hvalid (Z.to_nat j)).
      rewrite lookup_take_lt by lia. exact Hf0. }
    destruct (rd_in_range f_t_id f Hfr) as [t Ht].
    rewrite (bind_Ok_l _ _ _ Ht).
    replace (Z.to_nat (j + 1)) with (S (Z.to_nat j)) by lia.
    rewrite (take_S_r _ _ _ Hf0), filter_app, filter_cons, filter_nil.
    destruct (Z.ltb_spec t 0) as [Hneg|Hpos].
    + rewrite (wr_in_range fl n f ltac:(lia)). eexists. split; [reflexivity|].
      cbn [fst snd]. split; [lia|]. split; [rewrite length_insert; exact Hlen|].
      destruct (decide (unassigned f_t_id f)) as [_|Hno].
      2: { exfalso. apply Hno. exists t. auto. }
      split.
      * replace (Z.to_nat (n + 1)) with (S (Z.to_nat n)) by lia.
        rewrite (take_S_r _ _ f)
          by (apply list_lookup_insert_eq; lia).
        rewrite take_insert_ge by lia. rewrite Htake. reflexivity.
      * rewrite drop_insert_lt by lia.
        apply (f_equal (drop 1)) in Hdrop. rewrite !drop_drop in Hdrop.
        replace (Z.to_nat j + 1)%nat with (S (Z.to_nat j)) in Hdrop by lia.
        exact Hdrop.
    + eexists. split; [reflexivity|]. cbn [fst snd].
      split; [lia|]. split; [exact Hlen|].
      destruct (decide (unassigned f_t_id f)) as [[t' [Ht' Hlt]]|_].
      { rewrite Ht in Ht'. inversion Ht'. lia. }
      split.
      * rewrite app_nil_r. exact Htake.
      * apply (f_equal (drop 1)) in Hdrop. rewrite !drop_drop in Hdrop.
        replace (Z.to_nat j + 1)%nat with (S (Z.to_nat j)) in Hdrop by lia.
        exact Hdrop.
  - cbn [fst snd] in *. rewrite Hrun. exists n, fl.
    split; [reflexivity|]. split; [lia|]. split; [exact Hlen|].
    split; [exact Htake|]. intros Hnd. rewrite Htake.
    apply NoDup_filter. exact Hnd.
Qed.

Lemma update_remaining_list_filters_witness :
  exists faces_list_size_new faces_list',
    update_remaining_list 4 [3; 1; 0; 2; 7] [-1; 5; 4; -1]
    = Ok (faces_list_size_new, faces_list')
    /\ 0 <= faces_list_size_new <= 4
    /\ length faces_list' = length [3; 1; 0; 2; 7]
    /\ take (Z.to_nat faces_list_size_new) faces_list'
       = filter (unassigned [-1; 5; 4; -1]) (take (Z.to_nat 4) [3; 1; 0; 2; 7])
    /\ (NoDup (take (Z.to_nat 4) [3; 1; 0; 2; 7]) ->
        NoDup (take (Z.to_nat faces_list_size_new) faces_list')).
Proof.
  apply (update_remaining_list_filters 4 [3; 1; 0; 2; 7] [-1; 5; 4; -1]).
  - simpl. lia.
  - repeat constructor; simpl; lia.
Defined.

(** ** Extreme values of a vector *)

(** [_compute_local_minmax_gnum], both output pointers being given: returns
    [(min, max)].  [var[0]] is read before the loop. *)
Definition _compute_local_minmax_gnum (n_vals : Z) (var : list Z)
  : res (Z * Z) :=
  v0 ← rd var 0;
  for_loop 1 n_vals
    (fun i '(_min, _max) =>
       v ← rd var i;
       mret (CS_MIN _min v, CS_MAX _max v))
    (v0, v0).

(** X17: On an empty vector [_compute_local_minmax_gnum] reads [var[0]]
    outside the array, whatever [n_vals] is (0 included).  For a vector of
    at least [n_vals >= 1] values it returns two of its first [n_vals]
    values, one below and one above all the others. *)
Theorem compute_local_minmax_bounds (n_vals : Z) (var : list Z) :
  _compute_local_minmax_gnum n_vals [] = Fault
  /\ (1 <= n_vals <= Z.of_nat (length var) ->
      exists _min _max,
        _compute_local_minmax_gnum n_vals var = Ok (_min, _max)
        /\ (forall i v, 0 <= i < n_vals -> rd var i = Ok v ->
                        _min <= v <= _max)
        /\ (exists i, 0 <= i < n_vals /\ rd var i = Ok _min)
        /\ (exists i, 0 <= i < n_vals /\ rd var i = Ok _max)).
Proof.
  split; [reflexivity|]. intros Hn. unfold _compute_local_minmax_gnum.
  destruct (rd_in_range var 0 ltac:(lia)) as [v0 Hv0].
  rewrite (bind_Ok_l _ _ _ Hv0).
  destruct (for_loop_inv
    (fun j (st : Z * Z) =>
       (forall i v, 0 <= i < j -> rd var i = Ok v -> st.1 <= v <= st.2)
       /\ (exists i, 0 <= i < j /\ rd var i = Ok st.1)
       /\ (exists i, 0 <= i < j /\ rd var i = Ok st.2))
    1 n_vals
    (fun i '(_min, _max) =>
       v ← rd var i;
       mret (CS_MIN _min v, CS_MAX _max v))
    (v0, v0)) as [[mn mx] [Hrun Hinv]].
  - lia.
  - cbn [fst snd]. split; [|split; exists 0; split; try lia; exact Hv0].
    intros i v Hi Hv. assert (i = 0) as -> by lia.
    rewrite Hv0 in Hv. inversion Hv. lia.
  - intros j [mn mx] Hj (Hb & [i1 [Hi1 Hmn]] & [i2 [Hi2 Hmx]]).
    cbn [fst snd] in *.
    destruct (rd_in_range var j ltac:(lia)) as [v Hv].
    rewrite (bind_Ok_l _ _ _ Hv). eexists. split; [reflexivity|].
    cbn [fst snd]. unfold CS_MIN, CS_MAX. split; [|split].
    + intros i w Hi Hw. destruct (Z.eq_dec i j) as [->|Hne].
      * rewrite Hv in Hw. inversion Hw. subst w.
        destruct (Z.ltb_spec mn v), (Z.ltb_spec mx v); lia.
      * specialize (Hb i w ltac:(lia) Hw).
        destruct (Z.ltb_spec mn v), (Z.ltb_spec mx v); lia.
    + destruct (Z.ltb_spec mn v).
      * exists i1. split; [lia | exact Hmn].
      * exists j. split; [lia | exact Hv].
    + destruct (Z.ltb_spec mx v).
      * exists j. split; [lia | exact Hv].
      * exists i2. split; [lia | exact Hmx].
  - exists mn, mx. split; [exact Hrun|]. exact Hinv.
Qed.

Lemma compute_local_minmax_bounds_witness :
  _compute_local_minmax_gnum 0 [] = Fault
  /\ _compute_local_minmax_gnum 4 [] = Fault
  /\ exists _min _max,
      _compute_local_minmax_gnum 4 [5; 2; 9; 4] = Ok (_min, _max)
      /\ (forall i v, 0 <= i < 4 -> rd [5; 2; 9; 4] i = Ok v ->
                      _min <= v <= _max)
      /\ (exists i, 0 <= i < 4 /\ rd [5; 2; 9; 4] i = Ok _min)
      /\ (exists i, 0 <= i < 4 /\ rd [5; 2; 9; 4] i = Ok _max).
Proof.
  split; [exact (proj1 (compute_local_minmax_bounds 0 [])) |].
  destruct (compute_local_minmax_bounds 4 [5; 2; 9; 4]) as [Hempty Hbounds].
  split; [exact Hempty|]. apply Hbounds. simpl. lia.
Defined.

(** ** The index built by the multipass algorithm *)

(** Number of positions whose tag is below [k], in the list of the tags of
    the faces in their final order. *)
Definition below (tags : list Z) (k : Z) : Z :=
  Z.of_nat (length (filter (fun x => x < k) tags)).

(** Range of the positions tagged [k] when the tags do not decrease, or
    [(-1, -1)] when there is none. *)
Definition tag_range (tags : list Z) (k : Z) : Z * Z :=
  if below tags k <? below tags (k + 1)
  then (below tags k, below tags (k + 1))
  else (-1, -1).

(** End recorded for tag [k] when the positions before [j] are marked. *)
Definition tag_end (tags : list Z) (j k : Z) : Z :=
  if below tags k <? Z.min j (below tags (k + 1))
  then Z.min j (below tags (k + 1))
  else -1.

Lemma below_cons (x : Z) (tags : list Z) (k : Z) :
  below (x :: tags) k = (if x <? k then 1 else 0) + below tags k.
Proof.
  unfold below. rewrite filter_cons.
  destruct (decide (x < k)), (Z.ltb_spec x k); simpl; lia.
Qed.

Lemma below_nonneg (tags : list Z) (k : Z) : 0 <= below tags k.
Proof. unfold below. lia. Qed.

Lemma below_le_length (tags : list Z) (k : Z) :
  below tags k <= Z.of_nat (length tags).
Proof.
  unfold below. pose proof (length_filter (fun x => x < k) tags). lia.
Qed.

Lemma below_mono (tags : list Z) (k k' : Z) :
  k <= k' -> below tags k <= below tags k'.
Proof.
  intros Hk. induction tags as [|x tags IH]; [reflexivity|].
  rewrite !below_cons.
  destruct (Z.ltb_spec x k), (Z.ltb_spec x k'); lia.
Qed.

Lemma below_least (tags : list Z) (k : Z) :
  Forall (fun x => k <= x) tags -> below tags k = 0.
Proof.
  induction 1 as [|x tags Hx _ IH]; [reflexivity|].
  rewrite below_cons, IH. destruct (Z.ltb_spec x k); lia.
Qed.

(** In a list that does not decrease, the positions tagged [v] follow the
    positions with a lower tag. *)
Lemma sorted_tag_block (tags : list Z) (i : nat) (v : Z) :
  StronglySorted Z.le tags -> tags !! i = Some v ->
  below tags v <= Z.of_nat i < below tags (v + 1).
Proof.
  intros Hs. revert i. induction Hs as [|x tags Hs IH Hx]; intros i Hi;
    [discriminate|].
  rewrite !below_cons. destruct i as [|i]; simpl in Hi.
  - inversion Hi. subst x. rewrite (below_least tags v Hx).
    pose proof (below_nonneg tags (v + 1)).
    destruct (Z.ltb_spec v v), (Z.ltb_spec v (v + 1)); lia.
  - specialize (IH i Hi).
    assert (x <= v) as Hle.
    { rewrite Forall_lookup in Hx. apply (Hx i v Hi). }
    destruct (Z.ltb_spec x v), (Z.ltb_spec x (v + 1)); lia.
Qed.

Lemma sorted_block_tag (tags : list Z) (i k : Z) :
  StronglySorted Z.le tags ->
  below tags k <= i < below tags (k + 1) ->
  rd tags i = Ok k.
Proof.
  intros Hs Hi.
  pose proof (below_nonneg tags k). pose proof (below_le_length tags (k + 1)).
  destruct (rd_in_range tags i ltac:(lia)) as [v Hv].
  rewrite Hv. f_equal. apply rd_Ok in Hv. destruct Hv as [_ Hv].
  pose proof (sorted_tag_block tags _ v Hs Hv) as Hb.
  rewrite Z2Nat.id in Hb by lia.
  destruct (Z.lt_trichotomy v k) as [Hlt|[Heq|Hgt]]; [|exact Heq|].
  - pose proof (below_mono tags (v + 1) k ltac:(lia)). lia.
  - pose proof (below_mono tags (k + 1) v ltac:(lia)). lia.
Qed.

Lemma for_groups_threads_inv {S} (P : Z -> S -> Prop) (n_g n_t : Z)
      (body : Z -> Z -> S -> res S) (s : S) :
  0 <= n_g -> 0 <= n_t -> P 0 s ->
  (forall g t s, 0 <= g < n_g -> 0 <= t < n_t -> P (g * n_t + t) s ->
     exists s', body g t s = Ok s' /\ P (g * n_t + t + 1) s') ->
  exists s', for_groups_threads n_g n_t body s = Ok s' /\ P (n_g * n_t) s'.
Proof.
  intros Hg Ht H0 Hstep. unfold for_groups_threads.
  destruct (for_loop_inv (fun g s => P (g * n_t) s) 0 n_g
              (fun g_id s =>
                 for_loop 0 n_t (fun t_id s => body g_id t_id s) s) s Hg)
    as [s' [Hrun HP]].
  - exact H0.
  - intros g s1 Hgr HP.
    destruct (for_loop_inv (fun t s => P (g * n_t + t) s) 0 n_t
                (fun t_id s => body g t_id s) s1 Ht) as [s2 [Hrun2 HP2]].
    + replace (g * n_t + 0) with (g * n_t) by lia. exact HP.
    + intros t s2 Htr HP2. destruct (Hstep g t s2 Hgr Htr HP2) as [s3 [Hb HP3]].
      exists s3. split; [exact Hb|].
      replace (g * n_t + (t + 1)) with (g * n_t + t + 1) by lia. exact HP3.
    + exists s2. split; [exact Hrun2|].
      replace ((g + 1) * n_t) with (g * n_t + n_t) by lia. exact HP2.
  - exists s'. split; [exact Hrun | exact HP].
Qed.

(** Entries of the index for the (group, thread) pairs, numbered
    [g * n_t + t]: starts [lo k] and ends [hi k]. *)
Definition index_entries (n_g n_t : Z) (gi : list Z) (lo hi : Z -> Z) : Prop :=
  Z.of_nat (length gi) = n_t * n_g * 2
  /\ forall g t, 0 <= g < n_g -> 0 <= t < n_t ->
       rd gi (gi_pos n_g t g 0) = Ok (lo (g * n_t + t))
       /\ rd gi (gi_pos n_g t g 1) = Ok (hi (g * n_t + t)).

Lemma pair_number_inj (n_t g t g' t' : Z) :
  0 <= t < n_t -> 0 <= t' < n_t ->
  g * n_t + t = g' * n_t + t' -> g = g' /\ t = t'.
Proof.
  intros Ht Ht' Heq.
  assert (g = g'); [|lia].
  destruct (Z.lt_trichotomy g g') as [Hlt|[Heq'|Hgt]]; [|exact Heq'|].
  - assert ((g + 1) * n_t <= g' * n_t) by nia. lia.
  - assert ((g' + 1) * n_t <= g * n_t) by nia. lia.
Qed.

(** Writing the start or the end of one pair. *)
Lemma index_entries_wr (n_g n_t : Z) (gi : list Z) (lo hi : Z -> Z)
      (g t k v : Z) :
  0 < n_t -> 0 <= n_g ->
  index_entries n_g n_t gi lo hi ->
  0 <= g < n_g -> 0 <= t < n_t -> 0 <= k < 2 ->
  exists gi',
    wr gi (gi_pos n_g t g k) v = Ok gi'
    /\ index_entries n_g n_t gi'
         (fun p => if (k =? 0) && (p =? g * n_t + t) then v else lo p)
         (fun p => if (k =? 1) && (p =? g * n_t + t) then v else hi p).
Proof.
  intros Hnt Hng [Hlen Hall] Hg Ht Hk.
  destruct (wr_gi_pos n_g n_t [] Hnt Hng (Forall_nil_2 _) gi t g k v Hlen Hg Ht Hk)
    as (gi' & Hw & Hlen' & Hsame & Hother).
  exists gi'. split; [exact Hw|]. split; [exact Hlen'|].
  intros g' t' Hg' Ht'.
  destruct (Z.eqb_spec (g' * n_t + t') (g * n_t + t)) as [Heq|Hne].
  - destruct (pair_number_inj n_t g' t' g t Ht' Ht Heq) as [-> ->].
    destruct (Hall g t Hg Ht) as [H0 H1].
    assert (k = 0 \/ k = 1) as [-> | ->] by lia; simpl.
    + split; [exact Hsame|]. rewrite Hother; [exact H1 | lia | lia |].
      intros Heq'. inversion Heq'.
    + split; [|exact Hsame]. rewrite Hother; [exact H0 | lia | lia |].
      intros Heq'. inversion Heq'.
  - rewrite !andb_false_r. destruct (Hall g' t' Hg' Ht') as [H0 H1].
    split; (rewrite Hother; [assumption | lia | lia |]);
      intros Heq'; inversion Heq'; subst; lia.
Qed.

Lemma index_entries_ext (n_g n_t : Z) (gi : list Z) (lo hi lo' hi' : Z -> Z) :
  index_entries n_g n_t gi lo hi ->
  (forall p, 0 <= p < n_g * n_t -> lo p = lo' p /\ hi p = hi' p) ->
  index_entries n_g n_t gi lo' hi'.
Proof.
  intros [Hlen Hall] Hext. split; [exact Hlen|].
  intros g t Hg Ht. destruct (Hall g t Hg Ht) as [H0 H1].
  destruct (Hext (g * n_t + t) ltac:(nia)) as [<- <-]. auto.
Qed.

Section BuildIndex.

Variables (n_faces n_i_threads n_groups : Z) (faces_list f_t_id tags : list Z).

Hypothesis threads_pos : 1 <= n_i_threads.
Hypothesis groups_pos : 1 <= n_groups.
Hypothesis tags_length : Z.of_nat (length tags) = n_faces.
Hypothesis tags_of_faces :
  Forall2 (fun f t => rd f_t_id f = Ok t)
    (take (Z.to_nat n_faces) faces_list) tags.
Hypothesis tags_sorted : StronglySorted Z.le tags.
Hypothesis tags_range :
  Forall (fun t => 0 <= t < n_groups * n_i_threads) tags.

Lemma index_init_loop (gi : list Z) :
  Z.of_nat (length gi) = n_i_threads * n_groups * 2 ->
  exists gi',
    for_groups_threads n_groups n_i_threads
      (fun g_id t_id gi =>
         gi ← wr gi (gi_pos n_groups t_id g_id 0) (-1);
         wr gi (gi_pos n_groups t_id g_id 1) (-1))
      gi = Ok gi'
    /\ index_entries n_groups n_i_threads gi' (fun _ => -1) (fun _ => -1).
Proof using All.
  intros Hlen.
  destruct (for_groups_threads_inv
    (fun k (gi : list Z) =>
       Z.of_nat (length gi) = n_i_threads * n_groups * 2
       /\ forall g t, 0 <= g < n_groups -> 0 <= t < n_i_threads ->
            g * n_i_threads + t < k ->
            rd gi (gi_pos n_groups t g 0) = Ok (-1)
            /\ rd gi (gi_pos n_groups t g 1) = Ok (-1))
    n_groups n_i_threads
    (fun g_id t_id gi =>
       gi ← wr gi (gi_pos n_groups t_id g_id 0) (-1);
       wr gi (gi_pos n_groups t_id g_id 1) (-1))
    gi) as [gi' [Hrun [Hlen' Hall]]].
  - lia.
  - lia.
  - split; [exact Hlen|]. intros g t Hg Ht Hk. nia.
  - intros g t gi0 Hg Ht [Hlen0 Hall].
    destruct (wr_gi_pos n_groups n_i_threads [] ltac:(lia) ltac:(lia)
                (Forall_nil_2 _) gi0 t g 0 (-1) Hlen0 Hg Ht ltac:(lia))
      as (gi1 & Hw1 & Hlen1 & Hsame1 & Hother1).
    rewrite (bind_Ok_l _ _ _ Hw1).
    destruct (wr_gi_pos n_groups n_i_threads [] ltac:(lia) ltac:(lia)
                (Forall_nil_2 _) gi1 t g 1 (-1) Hlen1 Hg Ht ltac:(lia))
      as (gi2 & Hw2 & Hlen2 & Hsame2 & Hother2).
    exists gi2. split; [exact Hw2|]. split; [exact Hlen2|].
    intros g' t' Hg' Ht' Hk.
    destruct (Z.eq_dec (g' * n_i_threads + t') (g * n_i_threads + t))
      as [Heq|Hne].
    + destruct (pair_number_inj n_i_threads g' t' g t Ht' Ht Heq) as [-> ->].
      split; [|exact Hsame2].
      rewrite Hother2; [exact Hsame1 | lia | lia |].
      intros Heq'. inversion Heq'.
    + destruct (Hall g' t' Hg' Ht' ltac:(lia)) as [H0 H1].
      split.
      * rewrite Hother2; [rewrite Hother1; [exact H0 | lia | lia |] | lia | lia |];
          intros Heq'; inversion Heq'; subst; lia.
      * rewrite Hother2; [rewrite Hother1; [exact H1 | lia | lia |] | lia | lia |];
          intros Heq'; inversion Heq'; subst; lia.
  - exists gi'. split; [exact Hrun|]. split; [exact Hlen'|].
    intros g t Hg Ht. apply (Hall g t Hg Ht). nia.
Qed.

Lemma tag_of_position (j : Z) :
  0 <= j < n_faces ->
  exists f v, rd faces_list j = Ok f /\ rd f_t_id f = Ok v
              /\ rd tags j = Ok v
              /\ 0 <= v < n_groups * n_i_threads
              /\ below tags v <= j < below tags (v + 1).
Proof using All.
  intros Hj.
  destruct (rd_in_range tags j ltac:(lia)) as [v Hv].
  pose proof Hv as Hv'. apply rd_Ok in Hv'. destruct Hv' as [_ Hv'].
  destruct (Forall2_lookup_r _ _ _ _ _ tags_of_faces Hv') as [f [Hf Hft]].
  apply lookup_take_Some in Hf. destruct Hf as [Hf _].
  exists f, v. split; [apply rd_Ok; split; [lia | exact Hf]|].
  split; [exact Hft|]. split; [exact Hv|]. split.
  - rewrite Forall_lookup in tags_range. apply (tags_range _ _ Hv').
  - pose proof (sorted_tag_block tags _ v tags_sorted Hv') as Hb.
    rewrite Z2Nat.id in Hb by lia. exact Hb.
Qed.

Lemma tag_pair (v : Z) :
  0 <= v < n_groups * n_i_threads ->
  c_mod v n_i_threads = Ok (v mod n_i_threads)
  /\ c_div (v - v mod n_i_threads) n_i_threads = Ok (v / n_i_threads)
  /\ 0 <= v mod n_i_threads < n_i_threads
  /\ 0 <= v / n_i_threads < n_groups
  /\ v / n_i_threads * n_i_threads + v mod n_i_threads = v.
Proof using All.
  intros Hv. unfold c_mod, c_div.
  destruct (Z.eqb_spec n_i_threads 0) as [Hz|_]; [lia|].
  pose proof (Z.mod_pos_bound v n_i_threads ltac:(lia)) as Hm.
  pose proof (Z.div_mod v n_i_threads ltac:(lia)) as Hdm.
  assert (0 <= v / n_i_threads) as Hd0 by (apply Z.div_pos; lia).
  assert (v / n_i_threads < n_groups) as Hd1.
  { apply Z.div_lt_upper_bound; lia. }
  split; [rewrite Z.rem_mod_nonneg by lia; reflexivity|].
  split.
  { f_equal. replace (v - v mod n_i_threads)
      with (v / n_i_threads * n_i_threads) by lia.
    apply Z.quot_mul. lia. }
  split; [exact Hm|]. split; [lia | lia].
Qed.

Lemma index_mark_loop (gi : list Z) :
  index_entries n_groups n_i_threads gi (fun _ => -1) (fun _ => -1) ->
  exists n2o gi',
    for_loop 0 n_faces
      (fun fl_id '(n2o, gi) =>
         f_id ← rd faces_list fl_id;
         n2o ← wr n2o fl_id f_id;
         t ← rd f_t_id f_id;
         (if -1 <? t then mret tt else Fault);;
         t_id ← c_mod t n_i_threads;
         g_id ← c_div (t - t_id) n_i_threads;
         gi ← wr gi (gi_pos n_groups t_id g_id 1) (fl_id + 1);
         mret (n2o, gi))
      (BFT_MALLOC n_faces, gi) = Ok (n2o, gi')
    /\ index_entries n_groups n_i_threads gi' (fun _ => -1)
         (tag_end tags n_faces).
Proof using All.
  intros Hinit.
  destruct (for_loop_inv
    (fun j (st : list Z * list Z) =>
       Z.of_nat (length st.1) = n_faces
       /\ index_entries n_groups n_i_threads st.2 (fun _ => -1)
            (tag_end tags j))
    0 n_faces
    (fun fl_id '(n2o, gi) =>
       f_id ← rd faces_list fl_id;
       n2o ← wr n2o fl_id f_id;
       t ← rd f_t_id f_id;
       (if -1 <? t then mret tt else Fault);;
       t_id ← c_mod t n_i_threads;
       g_id ← c_div (t - t_id) n_i_threads;
       gi ← wr gi (gi_pos n_groups t_id g_id 1) (fl_id + 1);
       mret (n2o, gi))
    (BFT_MALLOC n_faces, gi)) as [[n2o gi'] [Hrun [_ Hent]]].
  - lia.
  - cbn [fst snd]. split; [apply BFT_MALLOC_length; lia|].
    apply (index_entries_ext _ _ _ _ _ _ _ Hinit). intros p _.
    split; [reflexivity|]. unfold tag_end.
    pose proof (below_nonneg tags p).
    destruct (Z.ltb_spec (below tags p) (Z.min 0 (below tags (p + 1)))); lia.
  - intros j [n2o gi0] Hj [Hlen Hent]. cbn [fst snd] in *.
    destruct (tag_of_position j Hj) as (f & v & Hf & Hft & _ & Hv & Hblock).
    rewrite (bind_Ok_l _ _ _ Hf).
    rewrite (bind_Ok_l _ _ _ (wr_in_range n2o j f ltac:(lia))).
    rewrite (bind_Ok_l _ _ _ Hft).
    destruct (Z.ltb_spec (-1) v) as [_|Hneg]; [|lia].
    rewrite (bind_Ok_l (mret tt) _ tt eq_refl).
    destruct (tag_pair v Hv) as (Hmod & Hdiv & Ht & Hg & Hpair).
    rewrite (bind_Ok_l _ _ _ Hmod). rewrite (bind_Ok_l _ _ _ Hdiv).
    destruct (index_entries_wr n_groups n_i_threads gi0 _ _
                (v / n_i_threads) (v mod n_i_threads) 1 (j + 1)
                ltac:(lia) ltac:(lia) Hent Hg Ht ltac:(lia))
      as (gi1 & Hw & Hent1).
    rewrite (bind_Ok_l _ _ _ Hw). eexists. split; [reflexivity|].
    cbn [fst snd]. split; [rewrite length_insert; exact Hlen|].
    apply (index_entries_ext _ _ _ _ _ _ _ Hent1). intros p Hp.
    split; [reflexivity|]. rewrite Hpair. simpl.
    unfold tag_end.
    pose proof (below_mono tags p (p + 1) ltac:(lia)).
    destruct (Z.eqb_spec p v) as [->|Hne].
    + destruct (Z.ltb_spec (below tags v) (Z.min (j + 1) (below tags (v + 1))));
        lia.
    + assert (below tags (p + 1) <= j \/ j < below tags p) as Hout.
      { destruct (Z.lt_trichotomy p v) as [Hlt|[Heq|Hgt]]; [|lia|].
        - left. pose proof (below_mono tags (p + 1) v ltac:(lia)). lia.
        - right. pose proof (below_mono tags (v + 1) p ltac:(lia)). lia. }
      destruct (Z.ltb_spec (below tags p) (Z.min j (below tags (p + 1)))),
        (Z.ltb_spec (below tags p) (Z.min (j + 1) (below tags (p + 1))));
        lia.
  - exists n2o, gi'. split; [exact Hrun | exact Hent].
Qed.

Lemma index_start_loop (gi : list Z) :
  index_entries n_groups n_i_threads gi (fun _ => -1)
    (tag_end tags n_faces) ->
  exists f_id gi',
    for_groups_threads n_groups n_i_threads
      (fun g_id t_id '(f_id, gi) =>
         gi ← wr gi (gi_pos n_groups t_id g_id 0) f_id;
         e ← rd gi (gi_pos n_groups t_id g_id 1);
         mret (CS_MAX e f_id, gi))
      (0, gi) = Ok (f_id, gi')
    /\ index_entries n_groups n_i_threads gi' (below tags)
         (tag_end tags n_faces).
Proof using All.
  intros Hmark.
  destruct (for_groups_threads_inv
    (fun k (st : Z * list Z) =>
       st.1 = below tags k
       /\ index_entries n_groups n_i_threads st.2
            (fun p => if p <? k then below tags p else -1)
            (tag_end tags n_faces))
    n_groups n_i_threads
    (fun g_id t_id '(f_id, gi) =>
       gi ← wr gi (gi_pos n_groups t_id g_id 0) f_id;
       e ← rd gi (gi_pos n_groups t_id g_id 1);
       mret (CS_MAX e f_id, gi))
    (0, gi)) as [[f_id gi'] [Hrun [_ Hent]]].
  - lia.
  - lia.
  - cbn [fst snd]. split.
    + symmetry. apply below_least.
      apply (Forall_impl _ _ _ tags_range). intros x Hx. lia.
    + apply (index_entries_ext _ _ _ _ _ _ _ Hmark). intros p Hp.
      destruct (Z.ltb_spec p 0); [lia|]. auto.
  - intros g t [f gi0] Hg Ht [Hf Hent]. cbn [fst snd] in *. subst f.
    set (k := g * n_i_threads + t) in *.
    destruct (index_entries_wr n_groups n_i_threads gi0 _ _ g t 0
                (below tags k) ltac:(lia) ltac:(lia) Hent Hg Ht ltac:(lia))
      as (gi1 & Hw & Hent1).
    rewrite (bind_Ok_l _ _ _ Hw).
    pose proof Hent1 as [Hlen1 Hall1].
    destruct (Hall1 g t Hg Ht) as [_ He]. fold k in He.
    rewrite (bind_Ok_l _ _ _ He). eexists. split; [reflexivity|].
    cbn [fst snd]. simpl (1 =? 1). simpl (0 =? 1). cbn [andb].
    pose proof (below_mono tags k (k + 1) ltac:(lia)).
    pose proof (below_le_length tags (k + 1)).
    pose proof (below_nonneg tags k).
    split.
    + unfold CS_MAX, tag_end. simpl.
      destruct (Z.ltb_spec (below tags k)
                  (Z.min n_faces (below tags (k + 1))));
        match goal with
        | |- context [?a <? ?b] => destruct (Z.ltb_spec a b)
        end; lia.
    + apply (index_entries_ext _ _ _ _ _ _ _ Hent1).
      intros p Hp. fold k. split; [|reflexivity]. simpl.
      destruct (Z.eqb_spec p k) as [Heq|Hne], (Z.ltb_spec p k),
        (Z.ltb_spec p (k + 1)); try lia; try reflexivity.
      rewrite Heq. reflexivity.
  - exists f_id, gi'. split; [exact Hrun|].
    apply (index_entries_ext _ _ _ _ _ _ _ Hent). intros p Hp.
    destruct (Z.ltb_spec p (n_groups * n_i_threads)); [|lia]. auto.
Qed.

Lemma index_unused_loop (gi : list Z) :
  index_entries n_groups n_i_threads gi (below tags) (tag_end tags n_faces) ->
  exists gi',
    for_groups_threads n_groups n_i_threads
      (fun g_id t_id gi =>
         e ← rd gi (gi_pos n_groups t_id g_id 1);
         if e <? 0 then wr gi (gi_pos n_groups t_id g_id 0) (-1) else mret gi)
      gi = Ok gi'
    /\ index_entries n_groups n_i_threads gi'
         (fun p => (tag_range tags p).1) (fun p => (tag_range tags p).2).
Proof using All.
  intros Hstart.
  assert (forall p, tag_end tags n_faces p = (tag_range tags p).2) as Hend.
  { intros p. unfold tag_end, tag_range.
    pose proof (below_le_length tags (p + 1)).
    rewrite Z.min_r by lia.
    destruct (below tags p <? below tags (p + 1)); reflexivity. }
  destruct (for_groups_threads_inv
    (fun k (gi : list Z) =>
       index_entries n_groups n_i_threads gi
         (fun p => if p <? k then (tag_range tags p).1 else below tags p)
         (tag_end tags n_faces))
    n_groups n_i_threads
    (fun g_id t_id gi =>
       e ← rd gi (gi_pos n_groups t_id g_id 1);
       if e <? 0 then wr gi (gi_pos n_groups t_id g_id 0) (-1) else mret gi)
    gi) as [gi' [Hrun Hent]].
  - lia.
  - lia.
  - apply (index_entries_ext _ _ _ _ _ _ _ Hstart). intros p Hp.
    destruct (Z.ltb_spec p 0); [lia|]. auto.
  - intros g t gi0 Hg Ht Hent.
    set (k := g * n_i_threads + t) in *.
    pose proof Hent as [Hlen Hall].
    destruct (Hall g t Hg Ht) as [_ He]. fold k in He.
    rewrite (bind_Ok_l _ _ _ He).
    pose proof (below_mono tags k (k + 1) ltac:(lia)).
    pose proof (below_le_length tags (k + 1)).
    pose proof (below_nonneg tags k).
    assert (tag_end tags n_faces k < 0 <-> ~ below tags k < below tags (k + 1))
      as Hneg.
    { unfold tag_end. rewrite Z.min_r by lia.
      destruct (Z.ltb_spec (below tags k) (below tags (k + 1))); lia. }
    destruct (Z.ltb_spec (tag_end tags n_faces k) 0) as [Hlt|Hge].
    + destruct (index_entries_wr n_groups n_i_threads gi0 _ _ g t 0 (-1)
                  ltac:(lia) ltac:(lia) Hent Hg Ht ltac:(lia))
        as (gi1 & Hw & Hent1).
      exists gi1. split; [exact Hw|].
      apply (index_entries_ext _ _ _ _ _ _ _ Hent1).
      intros p Hp. fold k. split; [|reflexivity]. simpl.
      unfold tag_range.
      destruct (Z.eqb_spec p k) as [Heq|Hne], (Z.ltb_spec p k),
        (Z.ltb_spec p (k + 1)); try lia; try reflexivity.
      rewrite Heq.
      destruct (Z.ltb_spec (below tags k) (below tags (k + 1))); [lia|].
      reflexivity.
    + exists gi0. split; [reflexivity|].
      apply (index_entries_ext _ _ _ _ _ _ _ Hent).
      intros p Hp. split; [|reflexivity].
      unfold tag_range.
      destruct (Z.eq_dec p k) as [Heq|Hne], (Z.ltb_spec p k),
        (Z.ltb_spec p (k + 1)); try lia; try reflexivity.
      rewrite Heq.
      destruct (Z.ltb_spec (below tags k) (below tags (k + 1))); [|lia].
      reflexivity.
  - exists gi'. split; [exact Hrun|].
    apply (index_entries_ext _ _ _ _ _ _ _ Hent). intros p Hp.
    destruct (Z.ltb_spec p (n_groups * n_i_threads)); [|lia].
    split; [reflexivity | apply Hend].
Qed.

(** The index built from tags that do not decrease along [faces_list]. *)
Lemma multipass_build_index_spec :
  exists gi,
    multipass_build_index n_faces n_i_threads n_groups faces_list f_t_id
    = Ok (take (Z.to_nat n_faces) faces_list, gi)
    /\ index_entries n_groups n_i_threads gi
         (fun p => (tag_range tags p).1) (fun p => (tag_range tags p).2).
Proof using All.
  assert (exists n2o gi,
            multipass_build_index n_faces n_i_threads n_groups faces_list
              f_t_id = Ok (n2o, gi)
            /\ index_entries n_groups n_i_threads gi
                 (fun p => (tag_range tags p).1)
                 (fun p => (tag_range tags p).2)) as (n2o & gi & Hrun & Hent).
  { unfold multipass_build_index.
    assert (Z.of_nat (length (BFT_MALLOC (n_groups * n_i_threads * 2)))
            = n_i_threads * n_groups * 2) as Hlen0.
    { rewrite BFT_MALLOC_length; nia. }
    rewrite (bind_Ok_l _ _ _
               (wr_in_range (BFT_MALLOC (n_groups * n_i_threads * 2)) 0 0
                  ltac:(nia))).
    destruct (index_init_loop
                (<[Z.to_nat 0 := 0]> (BFT_MALLOC (n_groups * n_i_threads * 2))))
      as (gi1 & Hrun1 & Hent1).
    { rewrite length_insert. exact Hlen0. }
    rewrite (bind_Ok_l _ _ _ Hrun1).
    destruct (index_mark_loop gi1 Hent1) as (n2o & gi2 & Hrun2 & Hent2).
    rewrite (bind_Ok_l _ _ _ Hrun2). cbv beta iota.
    destruct (index_start_loop gi2 Hent2) as (f_id & gi3 & Hrun3 & Hent3).
    rewrite (bind_Ok_l _ _ _ Hrun3). cbv beta iota.
    destruct (index_unused_loop gi3 Hent3) as (gi4 & Hrun4 & Hent4).
    rewrite (bind_Ok_l _ _ _ Hrun4).
    exists n2o, gi4. split; [reflexivity | exact Hent4]. }
  exists gi. split; [|exact Hent].
  rewrite Hrun. f_equal. f_equal.
  apply (multipass_build_index_new_to_old _ _ _ _ _ _ _ Hrun).
Qed.

End BuildIndex.

(** X18: When the tags of the faces do not decrease along the sorted list of
    faces, the index built at the end of [_renum_face_multipass] represents
    the assignment: the range of thread [t] in group [g] holds exactly the
    positions of the faces tagged [t + g * n_i_threads], and a pair without
    face gets the range [-1, -1].  The numbering returned is the head of
    the list of faces. *)
Theorem multipass_index_partition (n_faces n_i_threads n_groups : Z)
    (faces_list f_t_id tags : list Z) :
  1 <= n_i_threads -> 1 <= n_groups ->
  Z.of_nat (length tags) = n_faces ->
  Forall2 (fun f t => rd f_t_id f = Ok t)
    (take (Z.to_nat n_faces) faces_list) tags ->
  StronglySorted Z.le tags ->
  Forall (fun t => 0 <= t < n_groups * n_i_threads) tags ->
  exists gi,
    multipass_build_index n_faces n_i_threads n_groups faces_list f_t_id
    = Ok (take (Z.to_nat n_faces) faces_list, gi)
    /\ Z.of_nat (length gi) = n_i_threads * n_groups * 2
    /\ (forall fl tag, rd tags fl = Ok tag ->
          exists s e,
            rd gi (gi_pos n_groups (tag mod n_i_threads) (tag / n_i_threads) 0)
            = Ok s
            /\ rd gi (gi_pos n_groups (tag mod n_i_threads)
                        (tag / n_i_threads) 1) = Ok e
            /\ s <= fl < e)
    /\ (forall g t s e fl,
          0 <= g < n_groups -> 0 <= t < n_i_threads ->
          rd gi (gi_pos n_groups t g 0) = Ok s ->
          rd gi (gi_pos n_groups t g 1) = Ok e ->
          s <= fl < e -> rd tags fl = Ok (t + g * n_i_threads))
    /\ (forall g t,
          0 <= g < n_groups -> 0 <= t < n_i_threads ->
          (forall fl, rd tags fl <> Ok (t + g * n_i_threads)) ->
          rd gi (gi_pos n_groups t g 0) = Ok (-1)
          /\ rd gi (gi_pos n_groups t g 1) = Ok (-1)).
Proof.
  intros Ht Hg Hlen Htags Hsorted Hrange.
  destruct (multipass_build_index_spec n_faces n_i_threads n_groups faces_list
              f_t_id tags Ht Hg Hlen Htags Hsorted Hrange)
    as (gi & Hrun & Hgil & Hent).
  exists gi. split; [exact Hrun|]. split; [exact Hgil|]. split; [|split].
  - intros fl tag Hfl. pose proof Hfl as Hfl'.
    apply rd_Ok in Hfl'. destruct Hfl' as [Hfl0 Hfl'].
    assert (0 <= tag < n_groups * n_i_threads) as Htag.
    { rewrite Forall_lookup in Hrange. apply (Hrange _ _ Hfl'). }
    destruct (tag_pair n_faces n_i_threads n_groups faces_list f_t_id tags
                Ht Hg Hlen Htags Hsorted Hrange tag Htag)
      as (_ & _ & Htr & Hgr & Hpair).
    destruct (Hent _ _ Hgr Htr) as [H0 H1]. rewrite Hpair in H0, H1.
    pose proof (sorted_tag_block tags _ tag Hsorted Hfl') as Hb.
    rewrite Z2Nat.id in Hb by lia.
    unfold tag_range in H0, H1.
    destruct (Z.ltb_spec (below tags tag) (below tags (tag + 1))); [|lia].
    eexists _, _. split; [exact H0|]. split; [exact H1|]. simpl. lia.
  - intros g t s e fl Hgr Htr Hs He Hfl.
    destruct (Hent g t Hgr Htr) as [H0 H1].
    rewrite H0 in Hs. rewrite H1 in He. inversion Hs. inversion He.
    subst s e. unfold tag_range in Hfl.
    replace (t + g * n_i_threads) with (g * n_i_threads + t) by lia.
    destruct (Z.ltb_spec (below tags (g * n_i_threads + t))
                (below tags (g * n_i_threads + t + 1))); simpl in Hfl; [|lia].
    apply (sorted_block_tag tags fl _ Hsorted Hfl).
  - intros g t Hgr Htr Hnone.
    destruct (Hent g t Hgr Htr) as [H0 H1]. unfold tag_range in H0, H1.
    destruct (Z.ltb_spec (below tags (g * n_i_threads + t))
                (below tags (g * n_i_threads + t + 1))) as [Hlt|_];
      [|split; assumption].
    exfalso. apply (Hnone (below tags (g * n_i_threads + t))).
    replace (t + g * n_i_threads) with (g * n_i_threads + t) by lia.
    apply (sorted_block_tag tags _ _ Hsorted). lia.
Qed.

Lemma multipass_index_partition_witness :
  exists gi,
    multipass_build_index 5 2 2 [4; 0; 2; 1; 3] [0; 2; 1; 2; 0]
    = Ok (take (Z.to_nat 5) [4; 0; 2; 1; 3], gi)
    /\ Z.of_nat (length gi) = 2 * 2 * 2
    /\ (forall fl tag, rd [0; 0; 1; 2; 2] fl = Ok tag ->
          exists s e,
            rd gi (gi_pos 2 (tag mod 2) (tag / 2) 0) = Ok s
            /\ rd gi (gi_pos 2 (tag mod 2) (tag / 2) 1) = Ok e
            /\ s <= fl < e)
    /\ (forall g t s e fl,
          0 <= g < 2 -> 0 <= t < 2 ->
          rd gi (gi_pos 2 t g 0) = Ok s ->
          rd gi (gi_pos 2 t g 1) = Ok e ->
          s <= fl < e -> rd [0; 0; 1; 2; 2] fl = Ok (t + g * 2))
    /\ (forall g t,
          0 <= g < 2 -> 0 <= t < 2 ->
          (forall fl, rd [0; 0; 1; 2; 2] fl <> Ok (t + g * 2)) ->
          rd gi (gi_pos 2 t g 0) = Ok (-1)
          /\ rd gi (gi_pos 2 t g 1) = Ok (-1)).
Proof.
  apply (multipass_index_partition 5 2 2 [4; 0; 2; 1; 3] [0; 2; 1; 2; 0]
           [0; 0; 1; 2; 2]).
  - lia.
  - lia.
  - reflexivity.
  - repeat constructor.
  - repeat constructor; lia.
  - repeat constructor; lia.
Defined.

(** ** The check for boundary faces *)

(** The loop on the faces of one range, in the serial test for boundary
    faces. *)
Definition b_serial_faces (bfc : list Z) (t_id s e : Z) (st : Z * list Z)
  : res (Z * list Z) :=
  for_loop s e
    (fun f_id '(face_errors, acc) =>
       c_id ← rd bfc f_id;
       a ← rd acc c_id;
       let bad := (-1 <? a) && negb (a =? t_id) in
       acc ← wr acc c_id t_id;
       mret (if bad then face_errors + 1 else face_errors, acc))
    st.

Definition b_serial_threads (bfc : list Z) (nb : cs_numbering_t) (g_id : Z)
    (st : Z * list Z) : res (Z * list Z) :=
  for_loop 0 (n_threads nb)
    (fun t_id st =>
       '(s, e) ← thread_range nb t_id g_id;
       b_serial_faces bfc t_id s e st)
    st.

Definition b_serial_groups (bfc : list Z) (nb : cs_numbering_t)
    (n_cells_ext face_errors : Z) : res Z :=
  for_loop 0 (n_groups nb)
    (fun g_id face_errors =>
       '(face_errors, _) ←
         b_serial_threads bfc nb g_id
           (face_errors, replicate (Z.to_nat n_cells_ext) (-1));
       mret face_errors)
    face_errors.

(** The check of [_renumber_test] for boundary faces numbered for threads:
    returns [face_errors[1]].  The accumulator has one entry per cell,
    ghost cells included, but the counter only adds the entries of the
    [n_cells] true cells. *)
Definition _renumber_test_b_faces (mesh : cs_mesh_t) : res Z :=
  match b_face_numbering mesh with
  | None => mret 0
  | Some nb =>
      match type nb with
      | CS_NUMBERING_THREADS =>
          let n_cells_ext := n_cells_with_ghosts mesh in
          accumulator ← for_groups_threads (n_groups nb) (n_threads nb)
              (fun g_id t_id acc =>
                 '(s, e) ← thread_range nb t_id g_id;
                 for_loop s e
                   (fun f_id acc =>
                      c_id ← rd (b_face_cells mesh) f_id;
                      incr acc c_id)
                   acc)
              (replicate (Z.to_nat n_cells_ext) 0);
          counter ← for_loop 0 (n_cells mesh)
              (fun c_id counter => v ← rd accumulator c_id; mret (counter + v))
              0;
          let face_errors := n_b_faces mesh - counter in
          (* additional serial test *)
          if face_errors =? 0 then
            b_serial_groups (b_face_cells mesh) nb n_cells_ext face_errors
          else mret face_errors
      | _ => mret 0
      end
  end.

(** Cells of the boundary faces of [[s, e)]. *)
Definition b_range_cells (bfc : list Z) (s e : Z) : list Z :=
  take (Z.to_nat (e - s)) (drop (Z.to_nat s) bfc).

(** Within a group, the ranges of two distinct threads have no cell in
    common. *)
Definition b_conflict_free (bfc : list Z) (nb : cs_numbering_t) : Prop :=
  forall g_id t1 t2 s1 e1 s2 e2 c,
    0 <= g_id < n_groups nb ->
    0 <= t1 < n_threads nb -> 0 <= t2 < n_threads nb -> t1 <> t2 ->
    thread_range nb t1 g_id = Ok (s1, e1) ->
    thread_range nb t2 g_id = Ok (s2, e2) ->
    c ∈ b_range_cells bfc s1 e1 ->
    c ∈ b_range_cells bfc s2 e2 -> False.

(** Cell [c] is the cell of a face of the range of thread [t] in group
    [g]. *)
Definition b_range_touches (bfc : list Z) (nb : cs_numbering_t) (g t c : Z)
  : Prop :=
  exists s e i, thread_range nb t g = Ok (s, e) /\ 0 <= s <= i /\ i < e
                /\ rd bfc i = Ok c.

Lemma b_range_cells_elem_of (bfc : list Z) (s e i c : Z) :
  0 <= s <= i -> i < e -> rd bfc i = Ok c -> c ∈ b_range_cells bfc s e.
Proof.
  intros Hs He Hc. unfold b_range_cells.
  apply rd_Ok in Hc. destruct Hc as [_ Hc].
  apply (list_elem_of_lookup_2 _ (Z.to_nat (i - s))).
  rewrite lookup_take_lt by lia. rewrite lookup_drop.
  replace (Z.to_nat s + Z.to_nat (i - s))%nat with (Z.to_nat i) by lia.
  exact Hc.
Qed.

Lemma elem_of_b_range_cells (bfc : list Z) (s e c : Z) :
  0 <= s -> c ∈ b_range_cells bfc s e ->
  exists i, s <= i < e /\ rd bfc i = Ok c.
Proof.
  intros Hs Hc. unfold b_range_cells in Hc.
  apply list_elem_of_lookup_1 in Hc. destruct Hc as [k Hk].
  apply lookup_take_Some in Hk. destruct Hk as [Hk Hlt].
  rewrite lookup_drop in Hk.
  exists (s + Z.of_nat k). split; [lia|].
  apply rd_Ok. split; [lia|].
  replace (Z.to_nat (s + Z.of_nat k)) with (Z.to_nat s + k)%nat by lia.
  exact Hk.
Qed.

Lemma b_serial_faces_spec (bfc : list Z) (T0 : Z -> Z -> Prop)
      (t s e fe fe' : Z) (acc acc' : list Z) :
  0 <= t -> 0 <= fe ->
  (forall t' c, T0 t' c -> 0 <= t') ->
  (fe = 0 -> forall t' c, T0 t' c -> rd acc c = Ok t') ->
  b_serial_faces bfc t s e (fe, acc) = Ok (fe', acc') ->
  fe <= fe'
  /\ (s < e -> 0 <= s)
  /\ (fe' = 0 ->
      forall t' c,
        (T0 t' c \/ (t' = t /\ exists i, s <= i < e /\ rd bfc i = Ok c)) ->
        rd acc' c = Ok t').
Proof.
  intros Ht Hfe HT0 Hacc Hrun. unfold b_serial_faces in Hrun.
  apply (for_loop_inv_Ok_max
           (fun j (st : Z * list Z) =>
              fe <= st.1
              /\ (s < j -> 0 <= s)
              /\ (st.1 = 0 ->
                  forall t' c,
                    (T0 t' c
                     \/ (t' = t /\ exists i, s <= i < j /\ rd bfc i = Ok c)) ->
                    rd st.2 c = Ok t')) ) in Hrun.
  - cbn [fst snd] in Hrun. destruct Hrun as (H1 & H2 & H3).
    split; [exact H1|]. split; [intros; apply H2; lia|].
    intros Hz t' c [HT|[-> (i & Hi & Hc)]].
    + apply H3; [exact Hz | left; exact HT].
    + apply H3; [exact Hz|]. right. split; [reflexivity|].
      exists i. split; [lia | exact Hc].
  - cbn [fst snd]. split; [lia|]. split; [lia|].
    intros Hz t' c [HT|[_ (i & Hi & _)]]; [|lia].
    apply Hacc; [lia | exact HT].
  - intros j [fe1 acc1] [fe2 acc2] Hj (Hle & Hs & Hgood) Hbody.
    cbn [fst snd] in *.
    bind_inv Hbody c0 Ha. bind_inv Hbody a0 Ha0. bind_inv Hbody accA Ha2.
    inversion Hbody. clear Hbody. subst fe2 acc2.
    apply rd_lt in Ha as Hjr.
    set (bad := (-1 <? a0) && negb (a0 =? t)) in *.
    split; [destruct bad; lia|]. split; [lia|].
    intros Hz t' c Hin.
    assert (bad = false /\ fe1 = 0) as [Hbad ->].
    { destruct bad; [lia | split; [reflexivity | exact Hz]]. }
    specialize (Hgood eq_refl).
    pose proof (rd_wr_same _ _ _ _ Ha2) as Hn0.
    assert (forall t'', 0 <= t'' -> rd acc1 c = Ok t'' -> rd accA c = Ok t'')
      as Hold.
    { intros t'' Ht'' Hrd. destruct (Z.eq_dec c0 c) as [->|Hne].
      - rewrite Hn0. f_equal. assert (a0 = t'') as -> by congruence.
        apply andb_false_iff in Hbad. destruct Hbad as [Hb|Hb].
        + apply Z.ltb_ge in Hb. lia.
        + apply negb_false_iff, Z.eqb_eq in Hb. lia.
      - rewrite (rd_wr_other _ _ _ _ _ Ha2 Hne). exact Hrd. }
    destruct Hin as [HT|[-> (i & Hi & Hc)]].
    + apply Hold; [apply (HT0 _ _ HT)|]. apply Hgood. left. exact HT.
    + destruct (Z.eq_dec i j) as [->|Hne].
      * rewrite Ha in Hc. inversion Hc. subst c. exact Hn0.
      * apply Hold; [exact Ht|]. apply Hgood. right. split; [reflexivity|].
        exists i. split; [lia | exact Hc].
Qed.

Lemma b_serial_threads_spec (bfc : list Z) (nb : cs_numbering_t)
      (n_cells_ext g fe fe' : Z) (acc' : list Z) :
  0 <= fe ->
  b_serial_threads bfc nb g (fe, replicate (Z.to_nat n_cells_ext) (-1))
  = Ok (fe', acc') ->
  fe <= fe'
  /\ (forall t, 0 <= t < n_threads nb -> ranges_start_ok nb g t)
  /\ (fe' = 0 ->
      forall t c, 0 <= t < n_threads nb -> b_range_touches bfc nb g t c ->
                  rd acc' c = Ok t).
Proof.
  intros Hfe Hrun. unfold b_serial_threads in Hrun.
  apply (for_loop_inv_Ok_max
           (fun t (st : Z * list Z) =>
              fe <= st.1
              /\ (forall t', 0 <= t' < t -> ranges_start_ok nb g t')
              /\ (st.1 = 0 ->
                  forall t' c, 0 <= t' < t -> b_range_touches bfc nb g t' c ->
                               rd st.2 c = Ok t')) ) in Hrun.
  - cbn [fst snd] in Hrun. destruct Hrun as (H1 & H2 & H3).
    split; [exact H1|]. split; [intros t Ht; apply H2; lia|].
    intros Hz t c Ht. apply H3; [exact Hz | lia].
  - cbn [fst snd]. split; [lia|]. split; intros; lia.
  - intros t [fe1 acc1] [fe2 acc2] Ht (Hle & Hstart & Hgood) Hbody.
    cbn [fst snd] in Hle, Hstart, Hgood.
    bind_inv Hbody se Hse. destruct se as [s e].
    apply (b_serial_faces_spec bfc
             (fun t' c => 0 <= t' < t /\ b_range_touches bfc nb g t' c))
      in Hbody; [| lia | lia | intros t' c [? _]; lia |].
    2: { intros Hz t' c [Ht' Hc]. apply Hgood; assumption. }
    destruct Hbody as (Hle' & Hs & Hgood'). cbn [fst snd].
    split; [lia|]. split.
    + intros t' Ht' s' e' Hr Hlt. destruct (Z.eq_dec t' t) as [->|Hne].
      * rewrite Hse in Hr. inversion Hr. subst s' e'. apply Hs. exact Hlt.
      * apply (Hstart t' ltac:(lia) s' e' Hr Hlt).
    + intros Hz t' c Ht' Hc. apply Hgood'; [exact Hz|].
      destruct (Z.eq_dec t' t) as [->|Hne];
        [right | left; split; [lia | exact Hc]].
      split; [reflexivity|].
      destruct Hc as (s' & e' & i & Hr & Hi & Hie & Hp).
      rewrite Hse in Hr. inversion Hr. subst s' e'.
      exists i. split; [lia | exact Hp].
Qed.

Lemma b_serial_groups_spec (bfc : list Z) (nb : cs_numbering_t)
      (n_cells_ext fe' : Z) :
  b_serial_groups bfc nb n_cells_ext 0 = Ok fe' ->
  0 <= fe'
  /\ (forall g t, 0 <= g < n_groups nb -> 0 <= t < n_threads nb ->
                  ranges_start_ok nb g t)
  /\ (fe' = 0 ->
      forall g t1 t2 c,
        0 <= g < n_groups nb ->
        0 <= t1 < n_threads nb -> 0 <= t2 < n_threads nb ->
        b_range_touches bfc nb g t1 c -> b_range_touches bfc nb g t2 c ->
        t1 = t2).
Proof.
  intros Hrun. unfold b_serial_groups in Hrun.
  apply (for_loop_inv_Ok_max
           (fun g (fe : Z) =>
              0 <= fe
              /\ (forall g' t, 0 <= g' < g -> 0 <= t < n_threads nb ->
                               ranges_start_ok nb g' t)
              /\ (fe = 0 ->
                  forall g' t1 t2 c,
                    0 <= g' < g ->
                    0 <= t1 < n_threads nb -> 0 <= t2 < n_threads nb ->
                    b_range_touches bfc nb g' t1 c ->
                    b_range_touches bfc nb g' t2 c -> t1 = t2)) ) in Hrun.
  - destruct Hrun as (H1 & H2 & H3).
    split; [exact H1|]. split; [intros g t Hg; apply H2; lia|].
    intros Hz g t1 t2 c Hg. apply H3; [exact Hz | lia].
  - split; [lia|]. split; intros; lia.
  - intros g fe1 fe2 Hg (Hle & Hstart & Hgood) Hbody.
    bind_inv Hbody st Hst. destruct st as [fe3 acc3].
    inversion Hbody. clear Hbody. subst fe3.
    apply b_serial_threads_spec in Hst; [|exact Hle].
    destruct Hst as (Hle' & Hstart' & Hgood').
    split; [lia|]. split.
    + intros g' t Hg' Ht. destruct (Z.eq_dec g' g) as [->|Hne].
      * apply Hstart'. exact Ht.
      * apply Hstart; [lia | exact Ht].
    + intros Hz g' t1 t2 c Hg' Ht1 Ht2 Hc1 Hc2.
      destruct (Z.eq_dec g' g) as [->|Hne].
      * pose proof (Hgood' Hz t1 c Ht1 Hc1) as Hr1.
        pose proof (Hgood' Hz t2 c Ht2 Hc2) as Hr2. congruence.
      * apply (Hgood ltac:(lia) g' t1 t2 c); try assumption. lia.
Qed.

(** X19: The boundary faces check of [_renumber_test] is sound for a threaded
    numbering: when it runs to the end and counts no error, no cell has
    boundary faces in the ranges of two different threads of a group. *)
Theorem renumber_test_b_sound (mesh : cs_mesh_t) (nb : cs_numbering_t) :
  b_face_numbering mesh = Some nb ->
  type nb = CS_NUMBERING_THREADS ->
  _renumber_test_b_faces mesh = Ok 0 ->
  b_conflict_free (b_face_cells mesh) nb.
Proof.
  intros Hnb Htype Hrun. unfold _renumber_test_b_faces in Hrun.
  rewrite Hnb, Htype in Hrun.
  bind_inv Hrun accumulator Hacc. bind_inv Hrun counter Hcount.
  cbv zeta in Hrun.
  destruct (Z.eqb_spec (n_b_faces mesh - counter) 0) as [Heq|Hne];
    [|inversion Hrun; lia].
  rewrite Heq in Hrun.
  apply b_serial_groups_spec in Hrun.
  destruct Hrun as (_ & Hstart & Hgood). specialize (Hgood eq_refl).
  intros g t1 t2 s1 e1 s2 e2 c Hg Ht1 Ht2 Hne Hr1 Hr2 Hc1 Hc2.
  assert (forall t s e, 0 <= t < n_threads nb ->
            thread_range nb t g = Ok (s, e) ->
            c ∈ b_range_cells (b_face_cells mesh) s e ->
            b_range_touches (b_face_cells mesh) nb g t c) as Htouch.
  { intros t s e Ht Hr Hc.
    destruct (Z.le_gt_cases e s) as [Hle|Hlt].
    { unfold b_range_cells in Hc. replace (Z.to_nat (e - s)) with O in Hc by lia.
      inversion Hc. }
    pose proof (Hstart g t Hg Ht s e Hr ltac:(lia)) as Hs.
    destruct (elem_of_b_range_cells _ s e c Hs Hc) as (i & Hi & Hp).
    exists s, e, i. split; [exact Hr|]. split; [lia|]. split; [lia|].
    exact Hp. }
  apply Hne. apply (Hgood g t1 t2 c Hg Ht1 Ht2).
  - apply (Htouch t1 s1 e1 Ht1 Hr1 Hc1).
  - apply (Htouch t2 s2 e2 Ht2 Hr2 Hc2).
Qed.

Definition row3_b_threaded : cs_mesh_t :=
  set_b_face_numbering row3_mesh
    (Some (cs_numbering_create_threaded 2 1 [0; 2; 2; 3])).

Lemma renumber_test_b_sound_witness :
  b_conflict_free (b_face_cells row3_b_threaded)
    (cs_numbering_create_threaded 2 1 [0; 2; 2; 3]).
Proof.
  apply (renumber_test_b_sound row3_b_threaded).
  - reflexivity.
  - reflexivity.
  - vm_compute. reflexivity.
Defined.

Lemma incr_sum_take (acc : list Z) (n c : Z) :
  0 <= c < n -> n <= Z.of_nat (length acc) ->
  exists acc', incr acc c = Ok acc' /\ length acc' = length acc
               /\ sum_sizes (take (Z.to_nat n) acc')
                  = sum_sizes (take (Z.to_nat n) acc) + 1.
Proof.
  intros Hc Hn. unfold incr. destruct (rd_in_range acc c ltac:(lia)) as [v Hv].
  rewrite (bind_Ok_l _ _ _ Hv). rewrite wr_in_range by lia.
  eexists. split; [reflexivity|]. split; [apply length_insert|].
  apply rd_Ok in Hv. destruct Hv as [_ Hv].
  rewrite take_insert_lt by lia.
  rewrite (sum_sizes_insert _ _ v).
  - lia.
  - rewrite lookup_take_lt by lia. exact Hv.
Qed.

Lemma counter_loop_take (acc : list Z) (n : Z) :
  0 <= n <= Z.of_nat (length acc) ->
  for_loop 0 n (fun c_id counter => v ← rd acc c_id; mret (counter + v)) 0
  = Ok (sum_sizes (take (Z.to_nat n) acc)).
Proof.
  intros Hlen.
  destruct (for_loop_inv
              (fun j counter => counter = sum_sizes (take (Z.to_nat j) acc))
              0 n
              (fun c_id counter => v ← rd acc c_id; mret (counter + v)) 0)
    as [counter [Hrun Hc]].
  - lia.
  - reflexivity.
  - intros j counter Hj ->.
    destruct (rd_in_range acc j ltac:(lia)) as [v Hv].
    rewrite (bind_Ok_l _ _ _ Hv). eexists. split; [reflexivity|].
    apply rd_Ok in Hv. destruct Hv as [_ Hv].
    replace (Z.to_nat (j + 1)) with (S (Z.to_nat j)) by lia.
    rewrite (take_S_r _ _ _ Hv), sum_sizes_app. unfold sum_sizes at 3.
    simpl. lia.
  - rewrite Hrun, Hc. reflexivity.
Qed.

(** Boundary faces are adjacent to true cells. *)
Definition b_cells_below (n_cells : Z) (bfc : list Z) : Prop :=
  Forall (fun c => 0 <= c < n_cells) bfc.

Lemma b_count_range (bfc : list Z) (n_cells s e : Z) (acc : list Z) :
  b_cells_below n_cells bfc ->
  n_cells <= Z.of_nat (length acc) ->
  (s < e -> 0 <= s /\ e <= Z.of_nat (length bfc)) ->
  exists acc',
    for_loop s e
      (fun f_id acc => c_id ← rd bfc f_id; incr acc c_id) acc = Ok acc'
    /\ length acc' = length acc
    /\ sum_sizes (take (Z.to_nat n_cells) acc')
       = sum_sizes (take (Z.to_nat n_cells) acc) + Z.max 0 (e - s).
Proof.
  intros Hcells Hlen Hse.
  destruct (Z.le_gt_cases e s) as [Hle|Hlt].
  { rewrite for_loop_empty by lia. exists acc.
    split; [reflexivity|]. split; [reflexivity | lia]. }
  specialize (Hse ltac:(lia)).
  destruct (for_loop_inv
              (fun j (a : list Z) =>
                 length a = length acc
                 /\ sum_sizes (take (Z.to_nat n_cells) a)
                    = sum_sizes (take (Z.to_nat n_cells) acc) + (j - s))
              s e
              (fun f_id acc => c_id ← rd bfc f_id; incr acc c_id) acc)
    as [acc' [Hrun [Hl Hs]]].
  - lia.
  - split; [reflexivity | lia].
  - intros j a Hj [Hl Hs].
    destruct (rd_in_range bfc j ltac:(lia)) as [c Hp].
    rewrite (bind_Ok_l _ _ _ Hp).
    assert (0 <= c < n_cells) as Hc.
    { apply rd_Ok in Hp. destruct Hp as [_ Hp].
      unfold b_cells_below in Hcells. rewrite Forall_lookup in Hcells.
      apply (Hcells _ _ Hp). }
    destruct (incr_sum_take a n_cells c Hc ltac:(lia)) as (a1 & Hi1 & Hl1 & Hs1).
    exists a1. split; [exact Hi1|]. split; lia.
  - exists acc'. split; [exact Hrun|]. split; [exact Hl | lia].
Qed.

Lemma b_count_groups (bfc : list Z) (nb : cs_numbering_t)
      (n_cells n_cells_ext : Z) :
  0 <= n_cells <= n_cells_ext ->
  b_cells_below n_cells bfc ->
  ranges_ok (Z.of_nat (length bfc)) nb ->
  exists acc,
    for_groups_threads (n_groups nb) (n_threads nb)
      (fun g_id t_id acc =>
         '(s, e) ← thread_range nb t_id g_id;
         for_loop s e
           (fun f_id acc => c_id ← rd bfc f_id; incr acc c_id)
           acc)
      (replicate (Z.to_nat n_cells_ext) 0) = Ok acc
    /\ Z.of_nat (length acc) = n_cells_ext
    /\ sum_sizes (take (Z.to_nat n_cells) acc) = index_faces nb.
Proof.
  intros Hext Hcells Hok. unfold for_groups_threads, index_faces.
  assert (sum_sizes (take (Z.to_nat n_cells)
                       (replicate (Z.to_nat n_cells_ext) 0)) = 0) as Hzero.
  { rewrite take_replicate. apply sum_sizes_replicate_0. }
  destruct (Z.le_gt_cases 0 (n_groups nb)) as [Hg|Hg].
  2: { rewrite for_loop_empty by lia. eexists. split; [reflexivity|].
       rewrite length_replicate, Hzero.
       split; [lia|]. rewrite seqZ_nil by lia. reflexivity. }
  destruct (for_loop_inv
              (fun g (a : list Z) =>
                 Z.of_nat (length a) = n_cells_ext
                 /\ sum_sizes (take (Z.to_nat n_cells) a)
                    = sum_sizes (group_faces nb <$> seqZ 0 g))
              0 (n_groups nb)
              (fun g_id s =>
                 for_loop 0 (n_threads nb)
                   (fun t_id acc =>
                      '(s, e) ← thread_range nb t_id g_id;
                      for_loop s e
                        (fun f_id acc => c_id ← rd bfc f_id; incr acc c_id)
                        acc) s)
              (replicate (Z.to_nat n_cells_ext) 0) Hg)
    as [acc [Hrun [Hl Hs]]].
  - rewrite length_replicate, Hzero. split; [lia | reflexivity].
  - intros g a Hgr [Hl Hs].
    rewrite sum_sizes_snoc_seqZ by lia. unfold group_faces at 2.
    destruct (Z.le_gt_cases 0 (n_threads nb)) as [Ht|Ht].
    2: { rewrite for_loop_empty by lia. exists a. split; [reflexivity|].
         split; [exact Hl|]. rewrite (seqZ_nil 0 (n_threads nb)) by lia.
         rewrite Hs. unfold sum_sizes at 3. simpl. lia. }
    destruct (for_loop_inv
                (fun t (a' : list Z) =>
                   Z.of_nat (length a') = n_cells_ext
                   /\ sum_sizes (take (Z.to_nat n_cells) a')
                      = sum_sizes (take (Z.to_nat n_cells) a)
                        + sum_sizes (range_size nb g <$> seqZ 0 t))
                0 (n_threads nb)
                (fun t_id acc =>
                   '(s, e) ← thread_range nb t_id g;
                   for_loop s e
                     (fun f_id acc => c_id ← rd bfc f_id; incr acc c_id)
                     acc) a Ht)
      as [a' [Hrun' [Hl' Hs']]].
    + split; [exact Hl|]. unfold sum_sizes at 3. simpl. lia.
    + intros t a1 Htr [Hl1 Hs1].
      destruct (Hok g t Hgr Htr) as (s & e & Hr & Hse).
      rewrite (bind_Ok_l _ _ _ Hr). cbv beta iota.
      destruct (b_count_range bfc n_cells s e a1 Hcells ltac:(lia) Hse)
        as (a2 & Hrun2 & Hl2 & Hs2).
      exists a2. split; [exact Hrun2|]. split; [lia|].
      rewrite sum_sizes_snoc_seqZ by lia. unfold range_size at 2.
      rewrite Hr. lia.
    + exists a'. split; [exact Hrun'|]. split; [exact Hl'|]. lia.
  - exists acc. split; [exact Hrun|]. split; [exact Hl | exact Hs].
Qed.

Definition b_marked_upto (bfc : list Z) (nb : cs_numbering_t)
    (g t : Z) (acc : list Z) : Prop :=
  forall c v, rd acc c = Ok v ->
              v = -1 \/ (0 <= v <= t /\ b_range_touches bfc nb g v c).

Lemma b_serial_faces_pass (bfc : list Z) (nb : cs_numbering_t)
      (n_cells_ext g t s e : Z) (acc : list Z) :
  b_cells_below n_cells_ext bfc ->
  b_conflict_free bfc nb ->
  0 <= g < n_groups nb -> 0 <= t < n_threads nb ->
  thread_range nb t g = Ok (s, e) ->
  (s < e -> 0 <= s /\ e <= Z.of_nat (length bfc)) ->
  Z.of_nat (length acc) = n_cells_ext ->
  b_marked_upto bfc nb g t acc ->
  exists acc',
    b_serial_faces bfc t s e (0, acc) = Ok (0, acc')
    /\ Z.of_nat (length acc') = n_cells_ext
    /\ b_marked_upto bfc nb g t acc'.
Proof.
  intros Hcells Hfree Hg Ht Hr Hse Hlen Hmark. unfold b_serial_faces.
  destruct (Z.le_gt_cases e s) as [Hle|Hlt].
  { rewrite for_loop_empty by lia. exists acc. auto. }
  specialize (Hse ltac:(lia)).
  destruct (for_loop_inv
              (fun (j : Z) (st : Z * list Z) =>
                 st.1 = 0 /\ Z.of_nat (length st.2) = n_cells_ext
                 /\ b_marked_upto bfc nb g t st.2)
              s e
              (fun f_id '(face_errors, acc) =>
                 c_id ← rd bfc f_id;
                 a ← rd acc c_id;
                 let bad := (-1 <? a) && negb (a =? t) in
                 acc ← wr acc c_id t;
                 mret (if bad then face_errors + 1 else face_errors, acc))
              (0, acc))
    as [[fe acc'] [Hrun (Hfe & Hl & Hm)]].
  - lia.
  - auto.
  - intros j [fe a] Hj (Hfe & Hl & Hm). cbn [fst snd] in *. subst fe.
    destruct (rd_in_range bfc j ltac:(lia)) as [c0 Hp].
    rewrite (bind_Ok_l _ _ _ Hp).
    assert (0 <= c0 < n_cells_ext) as Hc0.
    { apply rd_Ok in Hp. destruct Hp as [_ Hp].
      unfold b_cells_below in Hcells. rewrite Forall_lookup in Hcells.
      apply (Hcells _ _ Hp). }
    assert (b_range_touches bfc nb g t c0) as Htouch.
    { exists s, e, j. split; [exact Hr|].
      split; [lia|]. split; [lia | exact Hp]. }
    destruct (rd_in_range a c0 ltac:(lia)) as [a0 Ha0].
    rewrite (bind_Ok_l _ _ _ Ha0). cbv zeta.
    assert ((-1 <? a0) && negb (a0 =? t) = false) as Hgood.
    { destruct (Z.ltb_spec (-1) a0) as [Hpos|Hneg]; [|reflexivity].
      destruct (Z.eqb_spec a0 t) as [Heq|Hne]; [reflexivity|]. exfalso.
      destruct (Hm c0 a0 Ha0) as [Hv|[Hv Hta]]; [lia|].
      destruct Hta as (s1 & e1 & i1 & Hr1 & Hs1 & He1 & Hp1).
      apply (Hfree g a0 t s1 e1 s e c0 Hg ltac:(lia) Ht Hne Hr1 Hr).
      - apply (b_range_cells_elem_of bfc s1 e1 i1 c0); assumption.
      - apply (b_range_cells_elem_of bfc s e j c0); try assumption; lia. }
    rewrite Hgood.
    assert (wr a c0 t = Ok (<[Z.to_nat c0 := t]> a)) as Hw0
      by (apply wr_in_range; lia).
    rewrite (bind_Ok_l _ _ _ Hw0).
    eexists. split; [reflexivity|]. cbn [fst snd].
    split; [reflexivity|]. split; [rewrite length_insert; exact Hl|].
    intros c v Hv.
    destruct (Z.eq_dec c0 c) as [<-|Hne0].
    { rewrite (rd_wr_same _ _ _ _ Hw0) in Hv. inversion Hv. subst v.
      right. split; [lia | exact Htouch]. }
    rewrite (rd_wr_other _ _ _ _ _ Hw0 Hne0) in Hv.
    apply (Hm c v Hv).
  - cbn [fst snd] in *. subst fe. exists acc'. auto.
Qed.

Lemma b_serial_groups_pass (bfc : list Z) (nb : cs_numbering_t)
      (n_cells_ext : Z) :
  b_cells_below n_cells_ext bfc ->
  b_conflict_free bfc nb ->
  ranges_ok (Z.of_nat (length bfc)) nb ->
  0 <= n_cells_ext ->
  b_serial_groups bfc nb n_cells_ext 0 = Ok 0.
Proof.
  intros Hcells Hfree Hok Hext. unfold b_serial_groups.
  destruct (Z.le_gt_cases 0 (n_groups nb)) as [Hg|Hg].
  2: { rewrite for_loop_empty by lia. reflexivity. }
  destruct (for_loop_inv (fun (g : Z) (fe : Z) => fe = 0) 0 (n_groups nb)
              (fun g_id face_errors =>
                 '(face_errors, _) ←
                   b_serial_threads bfc nb g_id
                     (face_errors, replicate (Z.to_nat n_cells_ext) (-1));
                 mret face_errors) 0 Hg) as [fe [Hrun Hfe]].
  - reflexivity.
  - intros g fe Hgr ->.
    assert (exists acc',
              b_serial_threads bfc nb g
                (0, replicate (Z.to_nat n_cells_ext) (-1)) = Ok (0, acc'))
      as [acc' Hthreads].
    { unfold b_serial_threads.
      destruct (Z.le_gt_cases 0 (n_threads nb)) as [Ht|Ht].
      2: { rewrite for_loop_empty by lia. eexists. reflexivity. }
      destruct (for_loop_inv
                  (fun (t : Z) (st : Z * list Z) =>
                     st.1 = 0 /\ Z.of_nat (length st.2) = n_cells_ext
                     /\ b_marked_upto bfc nb g (t - 1) st.2)
                  0 (n_threads nb)
                  (fun t_id st =>
                     '(s, e) ← thread_range nb t_id g;
                     b_serial_faces bfc t_id s e st)
                  (0, replicate (Z.to_nat n_cells_ext) (-1)) Ht)
        as [[fe acc'] [Hrun (Hfe & _)]].
      - cbn [fst snd]. split; [reflexivity|]. rewrite length_replicate.
        split; [lia|]. intros c v Hv. left.
        apply rd_Ok in Hv. destruct Hv as [_ Hv].
        apply lookup_replicate in Hv. apply Hv.
      - intros t [fe a] Htr (Hfe & Hl & Hm). cbn [fst snd] in *. subst fe.
        destruct (Hok g t Hgr Htr) as (s & e & Hr & Hse).
        rewrite (bind_Ok_l _ _ _ Hr). cbv beta iota.
        destruct (b_serial_faces_pass bfc nb n_cells_ext g t s e a Hcells
                    Hfree Hgr Htr Hr Hse Hl) as (a' & Hrun & Hl' & Hm').
        { intros c v Hv. destruct (Hm c v Hv) as [Hneg|[Hv' Hto]];
            [left; exact Hneg | right; split; [lia | exact Hto]]. }
        exists (0, a'). split; [exact Hrun|]. cbn [fst snd].
        split; [reflexivity|]. split; [exact Hl'|].
        replace (t + 1 - 1) with t by lia. exact Hm'.
      - cbn [fst snd] in Hfe. subst fe. exists acc'. exact Hrun. }
    rewrite (bind_Ok_l _ _ _ Hthreads). exists 0. split; reflexivity.
  - rewrite Hrun, Hfe. reflexivity.
Qed.

(** X20: The boundary faces check of [_renumber_test] accepts every threaded
    numbering of boundary faces adjacent to true cells whose ranges hold
    valid faces, [n_b_faces] in total, and never put a cell in the ranges of
    two threads of a group. *)
Theorem renumber_test_b_complete (mesh : cs_mesh_t) (nb : cs_numbering_t) :
  b_face_numbering mesh = Some nb ->
  type nb = CS_NUMBERING_THREADS ->
  0 <= n_cells mesh <= n_cells_with_ghosts mesh ->
  Z.of_nat (length (b_face_cells mesh)) = n_b_faces mesh ->
  b_cells_below (n_cells mesh) (b_face_cells mesh) ->
  ranges_ok (n_b_faces mesh) nb ->
  index_faces nb = n_b_faces mesh ->
  b_conflict_free (b_face_cells mesh) nb ->
  _renumber_test_b_faces mesh = Ok 0.
Proof.
  intros Hnb Htype Hext Hlen Hcells Hok Hcount Hfree.
  unfold _renumber_test_b_faces. rewrite Hnb, Htype.
  rewrite <- Hlen in Hok.
  destruct (b_count_groups (b_face_cells mesh) nb (n_cells mesh)
              (n_cells_with_ghosts mesh) Hext Hcells Hok)
    as (acc & Hrun & Hl & Hsum).
  rewrite (bind_Ok_l _ _ _ Hrun).
  rewrite (bind_Ok_l _ _ _ (counter_loop_take acc (n_cells mesh) ltac:(lia))).
  cbv zeta.
  replace (n_b_faces mesh - sum_sizes (take (Z.to_nat (n_cells mesh)) acc))
    with 0 by lia.
  rewrite Z.eqb_refl.
  apply b_serial_groups_pass; try assumption; [|lia].
  apply (Forall_impl _ _ _ Hcells). intros c Hc. lia.
Qed.

Lemma renumber_test_b_complete_witness :
  _renumber_test_b_faces row3_b_threaded = Ok 0.
Proof.
  apply (renumber_test_b_complete row3_b_threaded
           (cs_numbering_create_threaded 2 1 [0; 2; 2; 3])).
  - reflexivity.
  - reflexivity.
  - simpl. lia.
  - reflexivity.
  - repeat constructor; simpl; lia.
  - intros g t Hg Ht. simpl in Hg, Ht.
    assert (g = 0) as -> by lia.
    assert (t = 0 \/ t = 1) as [-> | ->] by lia;
      eexists _, _; (split; [reflexivity | simpl; lia]).
  - reflexivity.
  - intros g t1 t2 s1 e1 s2 e2 c Hg Ht1 Ht2 Hne Hr1 Hr2 Hc1 Hc2.
    simpl in Hg, Ht1, Ht2.
    assert (g = 0) as -> by lia.
    assert (t1 = 0 \/ t1 = 1) as [-> | ->] by lia;
      (assert (t2 = 0 \/ t2 = 1) as [-> | ->] by lia);
      try lia;
      vm_compute in Hr1; vm_compute in Hr2;
      inversion Hr1; inversion Hr2; subst s1 e1 s2 e2;
      unfold b_range_cells in Hc1, Hc2; simpl in Hc1, Hc2;
      repeat match goal with
             | H : _ ∈ _ :: _ |- _ =>
                 apply elem_of_cons in H; destruct H as [H|H]
             | H : _ ∈ [] |- _ => inversion H
             end; lia.
Defined.

(** The index of the boundary faces, read through [thread_range]. *)
Lemma b_index_ranges (n n_b_threads : Z) (gi bs : list Z) :
  1 <= n_b_threads ->
  Z.of_nat (length gi) = n_b_threads * 2 ->
  bs !! O = Some 0 ->
  bs !! Z.to_nat n_b_threads = Some n ->
  (forall t, 0 <= t < n_b_threads ->
     exists s e, bs !! Z.to_nat t = Some s
                 /\ bs !! Z.to_nat (t + 1) = Some e
                 /\ 0 <= s <= e /\ e <= n
                 /\ rd gi (t * 2) = Ok s
                 /\ rd gi (t * 2 + 1) = Ok e) ->
  let nb := cs_numbering_create_threaded n_b_threads 1 gi in
  (forall t, 0 <= t < n_b_threads ->
     exists s e, bs !! Z.to_nat t = Some s
                 /\ bs !! Z.to_nat (t + 1) = Some e
                 /\ 0 <= s <= e /\ e <= n
                 /\ thread_range nb t 0 = Ok (s, e))
  /\ (forall k k' x y, (k <= k')%nat -> Z.of_nat k' <= n_b_threads ->
        bs !! k = Some x -> bs !! k' = Some y -> x <= y)
  /\ ranges_ok n nb
  /\ index_faces nb = n.
Proof.
  intros Ht Hgil Hbs0 Hbsn Hbt nb.
  assert (forall t, 0 <= t < n_b_threads ->
            exists s e, bs !! Z.to_nat t = Some s
                        /\ bs !! Z.to_nat (t + 1) = Some e
                        /\ 0 <= s <= e /\ e <= n
                        /\ thread_range nb t 0 = Ok (s, e)) as Hrange.
  { intros t Htr. destruct (Hbt t Htr) as (s & e & Hs & He & Hse & Hen & H0 & H1).
    exists s, e. repeat (split; [assumption|]).
    unfold thread_range, nb, gi_pos. simpl.
    rewrite take_ge by lia.
    replace ((t * 1 + 0) * 2 + 0) with (t * 2) by lia.
    replace ((t * 1 + 0) * 2 + 1) with (t * 2 + 1) by lia.
    rewrite H0. simpl. rewrite H1. reflexivity. }
  split; [exact Hrange|]. split; [|split].
  - intros k k' x y Hk. revert y. induction Hk as [|k' Hk IH]; intros y Hk' Hx Hy.
    + assert (x = y) by congruence. lia.
    + destruct (Hbt (Z.of_nat k') ltac:(lia)) as (s & e & Hs & He & Hse & _).
      rewrite Nat2Z.id in Hs.
      replace (Z.to_nat (Z.of_nat k' + 1)) with (S k') in He by lia.
      assert (e = y) as -> by congruence.
      specialize (IH s ltac:(lia) Hx Hs). lia.
  - intros g t Hg Htr. simpl in Hg, Htr. assert (g = 0) as -> by lia.
    destruct (Hrange t Htr) as (s & e & _ & _ & Hse & Hen & Hr).
    exists s, e. split; [exact Hr | lia].
  - unfold index_faces. change (n_groups nb) with 1.
    change (seqZ 0 1) with [0]. unfold sum_sizes at 1. simpl.
    rewrite Z.add_0_r. unfold group_faces. change (n_threads nb) with n_b_threads.
    assert (forall k : nat, Z.of_nat k <= n_b_threads ->
              exists v, bs !! k = Some v
                        /\ sum_sizes (range_size nb 0 <$> seqZ 0 (Z.of_nat k))
                           = v) as Hsum.
    { induction k as [|k IH]; intros Hk.
      - exists 0. split; [exact Hbs0 | reflexivity].
      - destruct (IH ltac:(lia)) as (v & Hv & Hs).
        destruct (Hrange (Z.of_nat k) ltac:(lia))
          as (s & e & Hs' & He & Hse & _ & Hr).
        rewrite Nat2Z.id in Hs'.
        replace (Z.to_nat (Z.of_nat k + 1)) with (S k) in He by lia.
        assert (s = v) as -> by congruence.
        exists e. split; [exact He|].
        replace (Z.of_nat (S k)) with (Z.of_nat k + 1) by lia.
        rewrite sum_sizes_snoc_seqZ by lia. rewrite Hs.
        unfold range_size. rewrite Hr. lia. }
    destruct (Hsum (Z.to_nat n_b_threads) ltac:(lia)) as (v & Hv & Hs).
    rewrite Z2Nat.id in Hs by lia. rewrite Hs. congruence.
Qed.

(** X21: With at least two threads and the block algorithm, the mesh that
    [_renumber_for_threads] returns for a well-formed mesh with interior and
    boundary faces, the boundary faces being adjacent to true cells, passes
    the boundary faces check of [_renumber_test]. *)
Theorem renumber_for_threads_block_b_checked (fuel : nat) (cfg : config)
    (mesh : cs_mesh_t) :
  2 <= _cs_renumber_n_threads cfg ->
  _i_faces_algorithm cfg = CS_RENUMBER_I_FACES_BLOCK ->
  1 <= n_i_faces mesh -> 1 <= n_b_faces mesh ->
  0 <= n_cells mesh <= n_cells_with_ghosts mesh ->
  Z.of_nat (length (i_face_cells mesh)) = n_i_faces mesh ->
  Z.of_nat (length (b_face_cells mesh)) = n_b_faces mesh ->
  cells_below (n_cells_with_ghosts mesh) (i_face_cells mesh) ->
  b_cells_below (n_cells mesh) (b_face_cells mesh) ->
  vtx_ok (n_i_faces mesh) (i_face_vtx_idx mesh) (i_face_vtx_lst mesh) ->
  vtx_ok (n_b_faces mesh) (b_face_vtx_idx mesh) (b_face_vtx_lst mesh) ->
  opt_length (n_i_faces mesh) (i_face_family mesh) ->
  opt_length (n_b_faces mesh) (b_face_family mesh) ->
  opt_length (n_i_faces mesh) (global_i_face_num mesh) ->
  opt_length (n_b_faces mesh) (global_b_face_num mesh) ->
  (Z.to_nat (n_i_faces mesh) <= fuel)%nat ->
  exists mesh',
    _renumber_for_threads fuel cfg mesh = Ok mesh'
    /\ _renumber_test_b_faces mesh' = Ok 0.
Proof.
  intros Ht Halg Hni Hnb Hext Hifc Hbfc Hcells Hbcells Hvi Hvb Hfi Hfb Hgi Hgb
    Hfuel.
  destruct (renumber_for_threads_block_spec fuel cfg mesh Ht Halg Hni Hnb
              ltac:(lia) Hifc Hbfc Hcells Hvi Hvb Hfi Hfb Hgi Hgb Hfuel)
    as (mesh' & out & Hrun & _ & _ & _ & Hpb & Hnc & Hng & _ & _
        & (gi & bs & Hbn & Hnbf & Hgil & Hbs0 & Hbsn & Hbt & Hsplit) & _).
  exists mesh'. split; [exact Hrun|].
  set (nb := cs_numbering_create_threaded (_cs_renumber_n_threads cfg) 1 gi)
    in *.
  destruct (b_index_ranges (n_b_faces mesh) (_cs_renumber_n_threads cfg) gi bs
              ltac:(lia) Hgil Hbs0 Hbsn Hbt) as (Hrange & Hmono & Hok & Hcount).
  fold nb in Hrange, Hok, Hcount.
  assert (Z.of_nat (length (b_face_cells mesh')) = n_b_faces mesh) as Hlen.
  { rewrite Hpb. exact Hbfc. }
  assert (b_cells_below (n_cells mesh') (b_face_cells mesh')) as Hbcells'.
  { unfold b_cells_below. rewrite Hnc, Hpb. exact Hbcells. }
  assert (b_conflict_free (b_face_cells mesh') nb) as Hfree.
  { intros g t1 t2 s1 e1 s2 e2 c Hg Ht1 Ht2 Hne Hr1 Hr2 Hc1 Hc2.
    simpl in Hg, Ht1, Ht2. assert (g = 0) as -> by lia.
    destruct (Hrange t1 Ht1) as (s1' & e1' & Hs1 & He1 & Hse1 & _ & Hr1').
    destruct (Hrange t2 Ht2) as (s2' & e2' & Hs2 & He2 & Hse2 & _ & Hr2').
    rewrite Hr1 in Hr1'. rewrite Hr2 in Hr2'.
    inversion Hr1'. inversion Hr2'. subst s1' e1' s2' e2'.
    destruct (elem_of_b_range_cells _ s1 e1 c ltac:(lia) Hc1) as (i & Hi & Hci).
    destruct (elem_of_b_range_cells _ s2 e2 c ltac:(lia) Hc2) as (j & Hj & Hcj).
    pose proof (Hsplit t1 s1 e1 i j c ltac:(lia) Hs1 He1 Hci Hcj Hi) as Hj1.
    destruct (Z.lt_trichotomy t1 t2) as [Hlt|[Heq|Hgt]]; [|lia|].
    - pose proof (Hmono (Z.to_nat (t1 + 1)) (Z.to_nat t2) e1 s2 ltac:(lia)
                    ltac:(lia) He1 Hs2). lia.
    - pose proof (Hmono (Z.to_nat (t2 + 1)) (Z.to_nat t1) e2 s1 ltac:(lia)
                    ltac:(lia) He2 Hs1). lia. }
  unfold _renumber_test_b_faces. rewrite Hbn.
  change (type nb) with CS_NUMBERING_THREADS. cbv iota.
  rewrite <- Hlen in Hok.
  destruct (b_count_groups (b_face_cells mesh') nb (n_cells mesh')
              (n_cells_with_ghosts mesh') ltac:(lia) Hbcells' Hok)
    as (acc & Hacc & Hl & Hsum).
  rewrite (bind_Ok_l _ _ _ Hacc).
  rewrite (bind_Ok_l _ _ _ (counter_loop_take acc (n_cells mesh') ltac:(lia))).
  cbv zeta.
  replace (n_b_faces mesh' - sum_sizes (take (Z.to_nat (n_cells mesh')) acc))
    with 0 by lia.
  rewrite Z.eqb_refl.
  apply b_serial_groups_pass; try assumption; [|lia].
  apply (Forall_impl _ _ _ Hbcells'). intros c Hc. lia.
Qed.

Lemma renumber_for_threads_block_b_checked_witness :
  exists mesh',
    _renumber_for_threads 2 block_config row3_mesh = Ok mesh'
    /\ _renumber_test_b_faces mesh' = Ok 0.
Proof.
  apply (renumber_for_threads_block_b_checked 2 block_config row3_mesh).
  - simpl. lia.
  - reflexivity.
  - simpl. lia.
  - simpl. lia.
  - simpl. lia.
  - reflexivity.
  - reflexivity.
  - repeat constructor; simpl; lia.
  - repeat constructor; simpl; lia.
  - simpl. repeat split; try (repeat constructor; lia); vm_compute; discriminate.
  - simpl. repeat split; try (repeat constructor; lia); vm_compute; discriminate.
  - reflexivity.
  - reflexivity.
  - exact I.
  - reflexivity.
  - simpl. lia.
Defined.

(** ** One pass of the multipass algorithm *)

(** The arrays returned by the redistribution are those of an assignment
    for the cell index it returns. *)
Lemma redistribute_assigned
      (n_i_threads n_g_i_threads g_id : Z) (relax : Q) (faces_list_size : Z)
      (faces_list : list Z) (l_face_cells : list (Z * Z))
      (a a' : pass_arrays) (t_cell_index t_cell_index' : list Z) :
  _renum_face_multipass_redistribute n_i_threads n_g_i_threads g_id relax
    faces_list_size faces_list l_face_cells a t_cell_index
  = Ok (a', t_cell_index') ->
  (a' = a /\ t_cell_index' = t_cell_index)
  \/ exists a0,
       _renum_face_multipass_assign n_i_threads n_g_i_threads g_id
         faces_list_size faces_list l_face_cells a0 t_cell_index' = Ok a'.
Proof.
  unfold _renum_face_multipass_redistribute. intros Hrun.
  destruct (n_g_i_threads <? 2).
  { inversion Hrun. left. auto. }
  right.
  bind_inv Hrun prev Hprev. bind_inv Hrun u0 Hu0.
  bind_inv Hrun sm Hsm. destruct sm as [sum mx].
  bind_inv Hrun tci1 Htci1. bind_inv Hrun a1 Ha1. bind_inv Hrun u1 Hu1.
  destruct (d_gt u1 u0).
  - bind_inv Hrun tci2 Htci2. bind_inv Hrun a2 Ha2. inversion Hrun.
    subst a' t_cell_index'. exists a1. exact Ha2.
  - inversion Hrun. subst a' t_cell_index'. exists a. exact Ha1.
Qed.

(** Faces whose cells lie in the cell ranges of two distinct active threads
    share no cell when the thread bounds do not decrease. *)
Lemma thread_cells_disjoint (n_g_i_threads : Z) (t_cell_index : list Z)
      (t1 t2 : Z) (c1 c2 : Z * Z) (x : Z) :
  StronglySorted Z.le (take (Z.to_nat (n_g_i_threads + 1)) t_cell_index) ->
  0 <= t1 < n_g_i_threads -> 0 <= t2 < n_g_i_threads -> t1 <> t2 ->
  c1.1 <= c1.2 -> c2.1 <= c2.2 ->
  in_thread_cells t_cell_index t1 c1 ->
  in_thread_cells t_cell_index t2 c2 ->
  x = c1.1 \/ x = c1.2 -> x = c2.1 \/ x = c2.2 -> False.
Proof.
  intros Hsorted Ht1 Ht2 Hne Ho1 Ho2 (lo1 & hi1 & Hlo1 & Hhi1 & Hl1 & Hh1)
    (lo2 & hi2 & Hlo2 & Hhi2 & Hl2 & Hh2) Hx1 Hx2.
  assert (forall t t' lo hi, 0 <= t -> t < t' -> t' < n_g_i_threads ->
            rd t_cell_index (t + 1) = Ok hi -> rd t_cell_index t' = Ok lo ->
            hi <= lo) as Hbounds.
  { intros t t' lo hi Ht Hlt Hlt' Hhi Hlo.
    apply rd_Ok in Hhi. apply rd_Ok in Hlo.
    destruct Hhi as [_ Hhi], Hlo as [_ Hlo].
    destruct (Z.eq_dec (t + 1) t') as [<-|Hne'].
    { assert (hi = lo) by congruence. lia. }
    apply (StronglySorted_lookup_lt Z.le _ (Z.to_nat (t + 1)) (Z.to_nat t')
             hi lo Hsorted); [| |lia].
    - rewrite lookup_take_lt by lia. exact Hhi.
    - rewrite lookup_take_lt by lia. exact Hlo. }
  destruct (Z.lt_trichotomy t1 t2) as [Hlt|[Heq|Hgt]]; [|lia|].
  - pose proof (Hbounds t1 t2 lo2 hi1 ltac:(lia) Hlt ltac:(lia) Hhi1 Hlo2). lia.
  - pose proof (Hbounds t2 t1 lo1 hi2 ltac:(lia) Hgt ltac:(lia) Hhi2 Hlo1). lia.
Qed.

(** X22: After a pass of the multipass algorithm, every face of the list that
    got a thread of the new group has its two cells, as they were numbered
    for that pass, in the cell range of its thread in the cell index the
    pass ends with.  When the bounds of the active threads in that index do
    not decrease, two faces given to different active threads have no cell
    in common. *)
Theorem multipass_pass_assigns (n_i_threads min_i_subset_size : Z)
    (relax : Q) (s s' : multipass_state) (n_g_i_threads : Z) :
  0 <= mp_g_id s * n_i_threads ->
  NoDup (take (Z.to_nat (mp_faces_list_size s)) (mp_faces_list s)) ->
  Forall (fun c : Z * Z => c.1 <= c.2) (mp_l_face_cells s) ->
  active_threads n_i_threads (mp_faces_list_size s) min_i_subset_size
  = Ok n_g_i_threads ->
  multipass_pass n_i_threads min_i_subset_size relax s = Ok s' ->
  mp_g_id s' = mp_g_id s + 1
  /\ (forall fl_id f_id t_id c,
        0 <= fl_id < mp_faces_list_size s ->
        rd (mp_faces_list s) fl_id = Ok f_id ->
        assigned_to n_i_threads (mp_g_id s) (mp_arrays s') f_id t_id ->
        rd (mp_l_face_cells s) f_id = Ok c ->
        in_thread_cells (mp_t_cell_index s') t_id c)
  /\ (StronglySorted Z.le
        (take (Z.to_nat (n_g_i_threads + 1)) (mp_t_cell_index s')) ->
      forall fl1 fl2 f1 f2 t1 t2 c1 c2 x,
        0 <= fl1 < mp_faces_list_size s -> 0 <= fl2 < mp_faces_list_size s ->
        rd (mp_faces_list s) fl1 = Ok f1 -> rd (mp_faces_list s) fl2 = Ok f2 ->
        assigned_to n_i_threads (mp_g_id s) (mp_arrays s') f1 t1 ->
        assigned_to n_i_threads (mp_g_id s) (mp_arrays s') f2 t2 ->
        t1 < n_g_i_threads -> t2 < n_g_i_threads -> t1 <> t2 ->
        rd (mp_l_face_cells s) f1 = Ok c1 ->
        rd (mp_l_face_cells s) f2 = Ok c2 ->
        (x = c1.1 \/ x = c1.2) -> (x = c2.1 \/ x = c2.2) -> False).
Proof.
  intros Hg Hnd Hord Hact Hrun. unfold multipass_pass in Hrun.
  bind_inv Hrun group_size Hgs. rewrite Hact in Hrun.
  bind_inv Hrun n_g Hng. inversion Hng. subst n_g. clear Hng.
  bind_inv Hrun tci0 Htci0. bind_inv Hrun a1 Ha1.
  bind_inv Hrun r Hred. destruct r as [a2 tci2].
  bind_inv Hrun l Hlist. destruct l as [size' list'].
  bind_inv Hrun m Hrem. destruct m as [n_f_cells' lfc'].
  inversion Hrun. clear Hrun. subst s'. cbn [mp_g_id mp_arrays mp_t_cell_index].
  assert (exists a0,
            _renum_face_multipass_assign n_i_threads n_g_i_threads (mp_g_id s)
              (mp_faces_list_size s) (mp_faces_list s) (mp_l_face_cells s)
              a0 tci2 = Ok a2) as [a0 Hassign].
  { destruct (redistribute_assigned _ _ _ _ _ _ _ _ _ _ _ Hred)
      as [[-> ->]|[a0 Ha0]].
    - exists (mp_arrays s). exact Ha1.
    - exists a0. exact Ha0. }
  pose proof (assign_in_thread_cells _ _ _ _ _ _ _ _ _ Hg Hnd Hassign) as Hall.
  assert (forall fl_id f_id t_id c,
            0 <= fl_id < mp_faces_list_size s ->
            rd (mp_faces_list s) fl_id = Ok f_id ->
            assigned_to n_i_threads (mp_g_id s) a2 f_id t_id ->
            rd (mp_l_face_cells s) f_id = Ok c ->
            in_thread_cells tci2 t_id c) as Hin.
  { intros fl_id f_id t_id c Hfl Hf [Ht Has] Hc.
    destruct (Hall fl_id f_id Hfl Hf) as [c' [Hc' Hcase]].
    assert (c' = c) as -> by congruence.
    destruct Hcase as [Hm|[t' [[Ht' Has'] Hin]]].
    - rewrite Has in Hm. inversion Hm. lia.
    - rewrite Has in Has'. inversion Has'.
      assert (t' = t_id) as -> by lia. exact Hin. }
  split; [reflexivity|]. split; [exact Hin|].
  intros Hsorted fl1 fl2 f1 f2 t1 t2 c1 c2 x Hfl1 Hfl2 Hf1 Hf2 Ha1' Ha2' Ht1 Ht2
    Hne Hc1 Hc2 Hx1 Hx2.
  rewrite Forall_lookup in Hord.
  pose proof Hc1 as Hc1'. pose proof Hc2 as Hc2'.
  apply rd_Ok in Hc1'. apply rd_Ok in Hc2'.
  apply (thread_cells_disjoint n_g_i_threads tci2 t1 t2 c1 c2 x Hsorted);
    try assumption.
  - destruct Ha1' as [Ht1' _]. lia.
  - destruct Ha2' as [Ht2' _]. lia.
  - apply (Hord _ _ (proj2 Hc1')).
  - apply (Hord _ _ (proj2 Hc2')).
  - apply (Hin fl1 f1 t1 c1 Hfl1 Hf1 Ha1' Hc1).
  - apply (Hin fl2 f2 t2 c2 Hfl2 Hf2 Ha2' Hc2).
Qed.

(** State of the pass loop before the first pass on [chain6_mesh], for two
    threads. *)
Definition chain6_state : multipass_state :=
  {| mp_g_id := 0;
     mp_n_f_cells := 6;
     mp_faces_list_size := 5;
     mp_faces_list := [0; 1; 2; 3; 4];
     mp_l_face_cells := [(0, 1); (1, 2); (2, 3); (3, 4); (4, 5)];
     mp_arrays := {| f_t_id := [-1; -1; -1; -1; -1];
                     n_t_faces := [0; 0];
                     t_face_last := [0; 0] |};
     mp_t_cell_index := [0; 0; 0] |}.

Lemma multipass_pass_assigns_witness :
  exists s',
    multipass_pass 2 1 (1 # 2)%Q chain6_state = Ok s'
    /\ mp_g_id s' = mp_g_id chain6_state + 1
    /\ (forall fl_id f_id t_id c,
          0 <= fl_id < mp_faces_list_size chain6_state ->
          rd (mp_faces_list chain6_state) fl_id = Ok f_id ->
          assigned_to 2 (mp_g_id chain6_state) (mp_arrays s') f_id t_id ->
          rd (mp_l_face_cells chain6_state) f_id = Ok c ->
          in_thread_cells (mp_t_cell_index s') t_id c)
    /\ (StronglySorted Z.le (take (Z.to_nat (2 + 1)) (mp_t_cell_index s')) ->
        forall fl1 fl2 f1 f2 t1 t2 c1 c2 x,
          0 <= fl1 < mp_faces_list_size chain6_state ->
          0 <= fl2 < mp_faces_list_size chain6_state ->
          rd (mp_faces_list chain6_state) fl1 = Ok f1 ->
          rd (mp_faces_list chain6_state) fl2 = Ok f2 ->
          assigned_to 2 (mp_g_id chain6_state) (mp_arrays s') f1 t1 ->
          assigned_to 2 (mp_g_id chain6_state) (mp_arrays s') f2 t2 ->
          t1 < 2 -> t2 < 2 -> t1 <> t2 ->
          rd (mp_l_face_cells chain6_state) f1 = Ok c1 ->
          rd (mp_l_face_cells chain6_state) f2 = Ok c2 ->
          (x = c1.1 \/ x = c1.2) -> (x = c2.1 \/ x = c2.2) -> False).
Proof.
  eexists. split; [vm_compute; reflexivity|].
  apply (multipass_pass_assigns 2 1 (1 # 2)%Q chain6_state).
  - simpl. lia.
  - apply (bool_decide_unpack _). vm_compute. exact I.
  - repeat constructor; simpl; lia.
  - vm_compute. reflexivity.
  - vm_compute. reflexivity.
Defined.

(** ** The check for vectorized interior faces *)

(** The serial test for a vectorized numbering: a face counts as an error
    when one of its cells was last touched by a face of its own block of
    [vector_size] faces. *)
Definition vector_serial (ifc : list (Z * Z)) (n_faces n_cells_ext vector_size : Z)
    (face_errors : Z) : res (Z * list Z) :=
  for_loop 0 n_faces
    (fun f_id '(face_errors, acc) =>
       block_id ← c_div f_id vector_size;
       '(c_id_0, c_id_1) ← rd ifc f_id;
       a0 ← rd acc c_id_0;
       a1 ← rd acc c_id_1;
       let bad := (a0 =? block_id) || (a1 =? block_id) in
       acc ← wr acc c_id_0 block_id;
       acc ← wr acc c_id_1 block_id;
       mret (if bad then face_errors + 1 else face_errors, acc))
    (face_errors, replicate (Z.to_nat n_cells_ext) (-1)).

(** The check of [_renumber_test] for interior faces numbered for
    vectorization: returns [face_errors[0]]. *)
Definition _renumber_test_i_faces_vectorize (mesh : cs_mesh_t) : res Z :=
  match i_face_numbering mesh with
  | None => mret 0
  | Some nb =>
      match type nb with
      | CS_NUMBERING_VECTORIZE =>
          let n_cells_ext := n_cells_with_ghosts mesh in
          accumulator ← for_loop 0 (n_i_faces mesh)
              (fun f_id acc =>
                 '(c_id_0, c_id_1) ← rd (i_face_cells mesh) f_id;
                 acc ← incr acc c_id_0;
                 incr acc c_id_1)
              (replicate (Z.to_nat n_cells_ext) 0);
          counter ← for_loop 0 n_cells_ext
              (fun c_id counter => v ← rd accumulator c_id; mret (counter + v))
              0;
          let face_errors := n_i_faces mesh * 2 - counter in
          (* additional serial test *)
          if face_errors =? 0 then
            '(face_errors, _) ←
              vector_serial (i_face_cells mesh) (n_i_faces mesh) n_cells_ext
                (vector_size nb) face_errors;
            mret face_errors
          else mret face_errors
      | _ => mret 0
      end
  end.

Lemma vector_serial_spec (ifc : list (Z * Z)) (n_faces n_cells_ext vs fe' : Z)
      (acc' : list Z) :
  0 < vs ->
  vector_serial ifc n_faces n_cells_ext vs 0 = Ok (fe', acc') ->
  0 <= fe'
  /\ (fe' = 0 ->
      forall f1 f2 c,
        0 <= f1 < f2 -> f2 < n_faces -> f1 / vs = f2 / vs ->
        touches ifc f1 c -> touches ifc f2 c -> False).
Proof.
  intros Hvs Hrun. unfold vector_serial in Hrun.
  destruct (Z.le_gt_cases n_faces 0) as [Hle|Hgt].
  { rewrite for_loop_empty in Hrun by lia. inversion Hrun.
    split; [lia|]. intros _ f1 f2 c Hf1 Hf2. lia. }
  refine (_ (for_loop_inv_Ok
           (fun j (st : Z * list Z) =>
              0 <= st.1
              /\ (st.1 = 0 ->
                  (forall f c, 0 <= f < j -> touches ifc f c ->
                     exists b, rd st.2 c = Ok b /\ f / vs <= b <= (j - 1) / vs)
                  /\ (forall f1 f2 c,
                        0 <= f1 < f2 -> f2 < j -> f1 / vs = f2 / vs ->
                        touches ifc f1 c -> touches ifc f2 c -> False)))
           0 n_faces _ _ (fe', acc') ltac:(lia) Hrun _ _)).
  - cbn [fst snd]. intros [H1 H2]. split; [exact H1|].
    intros Hz. apply (proj2 (H2 Hz)).
  - cbn [fst snd]. split; [lia|]. intros _. split.
    + intros f c Hf. lia.
    + intros f1 f2 c Hf1 Hf2. lia.
  - intros j [fe1 acc1] [fe2 acc2] Hj [Hpos Hgood] Hbody. cbn [fst snd] in *.
    bind_inv Hbody blk Hblk.
    unfold c_div in Hblk. destruct (Z.eqb_spec vs 0); [lia|].
    inversion Hblk. clear Hblk. subst blk.
    rewrite Z.quot_div_nonneg in * by lia.
    bind_inv Hbody cc Ha. destruct cc as [c0 c1].
    bind_inv Hbody a0 Ha0. bind_inv Hbody a1 Ha1.
    bind_inv Hbody accA Hw0. bind_inv Hbody accB Hw1.
    inversion Hbody. clear Hbody. subst fe2 acc2.
    set (bad := (a0 =? j / vs) || (a1 =? j / vs)) in *.
    split; [destruct bad; lia|].
    intros Hz.
    assert (bad = false /\ fe1 = 0) as [Hbad ->].
    { destruct bad; [lia | split; [reflexivity | exact Hz]]. }
    destruct (Hgood eq_refl) as [Hlast Hfree].
    apply orb_false_iff in Hbad. destruct Hbad as [Hb0 Hb1].
    apply Z.eqb_neq in Hb0. apply Z.eqb_neq in Hb1.
    assert (rd accB c1 = Ok (j / vs)) as Hn1 by apply (rd_wr_same _ _ _ _ Hw1).
    assert (rd accB c0 = Ok (j / vs)) as Hn0.
    { destruct (Z.eq_dec c1 c0) as [<-|Hne]; [exact Hn1|].
      rewrite (rd_wr_other _ _ _ _ _ Hw1 Hne). apply (rd_wr_same _ _ _ _ Hw0). }
    assert (forall c, c <> c0 -> c <> c1 -> rd accB c = rd acc1 c) as Hother.
    { intros c H0 H1. rewrite (rd_wr_other _ _ _ _ _ Hw1) by congruence.
      apply (rd_wr_other _ _ _ _ _ Hw0). congruence. }
    assert (forall f, 0 <= f <= j -> f / vs <= j / vs) as Hdiv.
    { intros f Hf. apply Z.div_le_mono; lia. }
    replace (j + 1 - 1) with j by lia.
    split.
    + intros f c Hf Ht.
      destruct (Z.eq_dec c c0) as [->|H0].
      { exists (j / vs). split; [exact Hn0|]. split; [apply Hdiv; lia | lia]. }
      destruct (Z.eq_dec c c1) as [->|H1].
      { exists (j / vs). split; [exact Hn1|]. split; [apply Hdiv; lia | lia]. }
      assert (f <> j) as Hfj.
      { intros ->. destruct Ht as [p [Hp Hc]]. rewrite Ha in Hp.
        inversion Hp. subst p. simpl in Hc. destruct Hc; congruence. }
      destruct (Hlast f c ltac:(lia) Ht) as [b [Hb Hbr]].
      exists b. rewrite (Hother c H0 H1). split; [exact Hb|].
      pose proof (Hdiv (j - 1) ltac:(lia)). lia.
    + intros f1 f2 c Hf1 Hf2 Hsame Ht1 Ht2.
      destruct (Z.eq_dec f2 j) as [->|Hne].
      2: { apply (Hfree f1 f2 c); try assumption; lia. }
      destruct (Hlast f1 c ltac:(lia) Ht1) as [b [Hb Hbr]].
      pose proof (Hdiv (j - 1) ltac:(lia)).
      assert (b = j / vs) as -> by lia.
      destruct Ht2 as [p [Hp Hc]]. rewrite Ha in Hp. inversion Hp. subst p.
      simpl in Hc. destruct Hc as [<-| <-]; congruence.
Qed.

(** Two faces of the same block of [vector_size] consecutive faces have no
    cell in common. *)
Definition vector_conflict_free (face_cells : list (Z * Z))
    (n_faces vector_size : Z) : Prop :=
  forall f1 f2 c,
    0 <= f1 < f2 -> f2 < n_faces ->
    f1 / vector_size = f2 / vector_size ->
    touches face_cells f1 c -> touches face_cells f2 c -> False.

(** X23: The check of [_renumber_test] for interior faces numbered for
    vectorization is sound: with a positive vector size, when it runs to
    the end and counts no error, two faces of the same block of
    [vector_size] consecutive faces have no cell in common. *)
Theorem renumber_test_vectorize_sound (mesh : cs_mesh_t)
    (nb : cs_numbering_t) :
  i_face_numbering mesh = Some nb ->
  type nb = CS_NUMBERING_VECTORIZE ->
  0 < vector_size nb ->
  _renumber_test_i_faces_vectorize mesh = Ok 0 ->
  vector_conflict_free (i_face_cells mesh) (n_i_faces mesh) (vector_size nb).
Proof.
  intros Hnb Htype Hvs Hrun. unfold _renumber_test_i_faces_vectorize in Hrun.
  rewrite Hnb, Htype in Hrun.
  bind_inv Hrun accumulator Hacc. bind_inv Hrun counter Hcount.
  cbv zeta in Hrun.
  destruct (Z.eqb_spec (n_i_faces mesh * 2 - counter) 0) as [Heq|Hne];
    [|inversion Hrun; lia].
  rewrite Heq in Hrun. bind_inv Hrun st Hserial. destruct st as [fe acc].
  inversion Hrun. subst fe.
  apply (vector_serial_spec _ _ _ _ _ _ Hvs) in Hserial.
  exact (proj2 Hserial eq_refl).
Qed.

(** [chain6_mesh] with a numbering for vectors of two faces, the faces
    being stored so that neighbours are in different blocks. *)
Definition chain6_vectorized : cs_mesh_t :=
  set_i_face_numbering
    (mesh_of_faces 6 [(0, 1); (2, 3); (1, 2); (4, 5); (3, 4)] [0; 5])
    (Some {| type := CS_NUMBERING_VECTORIZE; vector_size := 2;
             n_threads := 1; n_groups := 1; group_index := [0; 5] |}).

Lemma renumber_test_vectorize_sound_witness :
  vector_conflict_free (i_face_cells chain6_vectorized)
    (n_i_faces chain6_vectorized) 2.
Proof.
  apply (renumber_test_vectorize_sound chain6_vectorized
           {| type := CS_NUMBERING_VECTORIZE; vector_size := 2;
              n_threads := 1; n_groups := 1; group_index := [0; 5] |}).
  - reflexivity.
  - reflexivity.
  - simpl. lia.
  - vm_compute. reflexivity.
Defined.

(** ** Invariant of the pass loop *)

(** What the passes rely on: the faces still to handle are distinct faces
    at the head of [faces_list], and the cells of every face are stored
    lowest first. *)
Definition pass_ok (s : multipass_state) : Prop :=
  0 <= mp_g_id s
  /\ 0 <= mp_faces_list_size s <= Z.of_nat (length (mp_faces_list s))
  /\ NoDup (take (Z.to_nat (mp_faces_list_size s)) (mp_faces_list s))
  /\ Forall (fun c : Z * Z => c.1 <= c.2) (mp_l_face_cells s).

Lemma while_loop_inv_Ok {S} (P : S -> Prop) (fuel : nat)
      (cond : S -> res bool) (body : S -> res S) (s s' : S) :
  while_loop fuel cond body s = Ok s' ->
  P s ->
  (forall s s', P s -> body s = Ok s' -> P s') ->
  P s'.
Proof.
  intros Hrun HP Hstep. revert s Hrun HP.
  induction fuel as [|fuel IH]; intros s Hrun HP; simpl in Hrun.
  - bind_inv Hrun b Hb. destruct b; [discriminate|]. inversion Hrun.
    subst s'. exact HP.
  - bind_inv Hrun b Hb. destruct b.
    + bind_inv Hrun s1 Hs1. apply (IH s1 Hrun). apply (Hstep s s1 HP Hs1).
    + inversion Hrun. subst s'. exact HP.
Qed.

Lemma ordered_cells_ordered (c : Z * Z) :
  (ordered_cells c).1 <= (ordered_cells c).2.
Proof. unfold ordered_cells. destruct (Z.ltb_spec c.1 c.2); simpl; lia. Qed.

Lemma multipass_init_ok (mesh : cs_mesh_t) (n_i_threads : Z)
      (s : multipass_state) :
  0 <= n_i_faces mesh ->
  multipass_init mesh n_i_threads = Ok s -> pass_ok s.
Proof.
  unfold multipass_init. intros Hn Hrun.
  bind_inv Hrun st Hloop. destruct st as [lfc fti].
  bind_inv Hrun fl Hcopy. inversion Hrun. clear Hrun. subst s.
  unfold pass_ok. cbn [mp_g_id mp_faces_list_size mp_faces_list
                       mp_l_face_cells].
  unfold memcpy in Hcopy.
  destruct ((n_i_faces mesh <=? Z.of_nat (length (BFT_MALLOC (n_i_faces mesh))))
            && (n_i_faces mesh
                <=? Z.of_nat
                      (length (cs_order_lnum_allocated_s
                                 ((fun c : Z * Z => [c.1; c.2]) <$> lfc)))))
    eqn:E; [|discriminate].
  apply andb_true_iff in E. destruct E as [E1 E2].
  apply Z.leb_le in E1. apply Z.leb_le in E2.
  inversion Hcopy. clear Hcopy. subst fl.
  set (order := cs_order_lnum_allocated_s
                  ((fun c : Z * Z => [c.1; c.2]) <$> lfc)) in *.
  split; [lia|]. split.
  { rewrite length_app, length_take, length_drop. unfold BFT_MALLOC.
    rewrite length_replicate. lia. }
  split.
  { rewrite take_app_le by (rewrite length_take; lia).
    rewrite take_take. replace (_ `min` _)%nat with (Z.to_nat (n_i_faces mesh))
      by lia.
    apply (sublist_NoDup _ order); [|apply sublist_take].
    unfold order. rewrite cs_order_Permutation. apply NoDup_seqZ. }
  destruct (Z.le_gt_cases (n_i_faces mesh) 0) as [Hle|Hgt].
  { rewrite for_loop_empty in Hloop by lia. inversion Hloop.
    apply Forall_replicate. simpl. lia. }
  refine (for_loop_inv_Ok
            (fun j (st : list (Z * Z) * list Z) =>
               Forall (fun c : Z * Z => c.1 <= c.2) st.1)
            0 (n_i_faces mesh) _ _ (lfc, fti) ltac:(lia) Hloop _ _).
  - apply Forall_replicate. simpl. lia.
  - intros j [lfc1 fti1] [lfc2 fti2] Hj Hord Hbody. cbn [fst snd] in *.
    bind_inv Hbody c Hc. bind_inv Hbody lfc3 Hw. bind_inv Hbody fti3 Hw'.
    inversion Hbody. subst lfc2 fti2.
    apply wr_Ok in Hw. destruct Hw as [_ ->].
    apply Forall_insert; [exact Hord | apply ordered_cells_ordered].
Qed.

Lemma update_remaining_list_NoDup (faces_list_size : Z)
      (faces_list f_t_id : list Z) (size' : Z) (list' : list Z) :
  0 <= faces_list_size <= Z.of_nat (length faces_list) ->
  NoDup (take (Z.to_nat faces_list_size) faces_list) ->
  update_remaining_list faces_list_size faces_list f_t_id = Ok (size', list') ->
  0 <= size' <= Z.of_nat (length list')
  /\ NoDup (take (Z.to_nat size') list').
Proof.
  intros Hsize Hnd Hrun. unfold update_remaining_list in Hrun.
  bind_inv Hrun st Hloop. destruct st as [n fl]. inversion Hrun. subst size' list'.
  clear Hrun.
  assert (0 <= n <= faces_list_size
          /\ length fl = length faces_list
          /\ take (Z.to_nat n) fl
             `sublist_of` take (Z.to_nat faces_list_size) faces_list)
    as (Hn & Hlen & Hsub).
  { refine (_ (for_loop_inv_Ok
              (fun j (st : Z * list Z) =>
                 0 <= st.1 <= j
                 /\ length st.2 = length faces_list
                 /\ take (Z.to_nat st.1) st.2
                    `sublist_of` take (Z.to_nat j) faces_list
                 /\ drop (Z.to_nat j) st.2 = drop (Z.to_nat j) faces_list)
              0 faces_list_size _ _ (n, fl) ltac:(lia) Hloop _ _)).
    - cbn [fst snd]. intros (H1 & H2 & H3 & _). auto.
    - cbn [fst snd]. split; [lia|]. split; [reflexivity|].
      split; [apply sublist_nil_l | reflexivity].
    - intros j [n1 fl1] [n2 fl2] Hj (Hn1 & Hl1 & Hs1 & Hd1) Hbody.
      cbn [fst snd] in *.
      bind_inv Hbody f Hf. bind_inv Hbody t Ht.
      assert (faces_list !! Z.to_nat j = Some f) as Hf0.
      { apply rd_Ok in Hf. destruct Hf as [_ Hf].
        rewrite <- (Nat.add_0_r (Z.to_nat j)) in Hf.
        rewrite <- lookup_drop, Hd1, lookup_drop, Nat.add_0_r in Hf.
        exact Hf. }
      assert (drop (Z.to_nat (j + 1)) fl1 = drop (Z.to_nat (j + 1)) faces_list)
        as Hd1'.
      { apply (f_equal (drop 1)) in Hd1. rewrite !drop_drop in Hd1.
        replace (Z.to_nat (j + 1)) with (Z.to_nat j + 1)%nat by lia.
        exact Hd1. }
      replace (Z.to_nat (j + 1)) with (S (Z.to_nat j)) by lia.
      rewrite (take_S_r _ _ _ Hf0).
      destruct (t <? 0).
      + bind_inv Hbody fl3 Hw. inversion Hbody. subst n2 fl2.
        apply wr_Ok in Hw. destruct Hw as [Hr ->].
        split; [lia|]. split; [rewrite length_insert; exact Hl1|].
        split.
        * replace (Z.to_nat (n1 + 1)) with (S (Z.to_nat n1)) by lia.
          rewrite (take_S_r _ _ f) by (apply list_lookup_insert_eq; lia).
          rewrite take_insert_ge by lia.
          apply sublist_app; [exact Hs1 | reflexivity].
        * rewrite drop_insert_lt by lia.
          replace (S (Z.to_nat j)) with (Z.to_nat (j + 1)) by lia. exact Hd1'.
      + inversion Hbody. subst n2 fl2.
        split; [lia|]. split; [exact Hl1|]. split.
        * apply sublist_inserts_r. exact Hs1.
        * replace (S (Z.to_nat j)) with (Z.to_nat (j + 1)) by lia. exact Hd1'. }
  split; [lia|]. apply (sublist_NoDup _ _ Hnd Hsub).
Qed.

Lemma remaining_ordered (n_f_cells_prev faces_list_size : Z)
      (faces_list : list Z) (l_face_cells : list (Z * Z))
      (n_f_cells_new : Z) (l_face_cells' : list (Z * Z)) :
  Forall (fun c : Z * Z => c.1 <= c.2) l_face_cells ->
  _renum_face_multipass_remaining n_f_cells_prev faces_list_size faces_list
    l_face_cells = Ok (n_f_cells_new, l_face_cells') ->
  Forall (fun c : Z * Z => c.1 <= c.2) l_face_cells'.
Proof.
  intros Hord Hrun. unfold _renum_face_multipass_remaining in Hrun.
  bind_inv Hrun st Hloop. destruct st as [[n nci] lfc].
  inversion Hrun. subst n_f_cells_new l_face_cells'. clear Hrun.
  destruct (Z.le_gt_cases faces_list_size 0) as [Hle|Hgt].
  { rewrite for_loop_empty in Hloop by lia. inversion Hloop. subst. exact Hord. }
  refine (for_loop_inv_Ok
            (fun j (st : Z * list Z * list (Z * Z)) =>
               Forall (fun c : Z * Z => c.1 <= c.2) st.2)
            0 faces_list_size _ _ (n, nci, lfc) ltac:(lia) Hloop Hord _).
  intros j [[n1 nci1] lfc1] [[n2 nci2] lfc2] Hj Ho Hbody. cbn [fst snd] in *.
  bind_inv Hbody f Hf. bind_inv Hbody cc Hc. destruct cc as [c0 c1].
  bind_inv Hbody v0 Hv0. bind_inv Hbody p0 Hp0. destruct p0 as [n3 nci3].
  bind_inv Hbody v1 Hv1. bind_inv Hbody p1 Hp1. destruct p1 as [n4 nci4].
  bind_inv Hbody w0 Hw0. bind_inv Hbody w1 Hw1. bind_inv Hbody lfc3 Hw.
  inversion Hbody. subst n2 nci2 lfc2.
  apply wr_Ok in Hw. destruct Hw as [_ ->].
  apply Forall_insert; [exact Ho|].
  destruct (Z.ltb_spec w0 w1); simpl; lia.
Qed.

(** X24: The pass loop of the multipass algorithm keeps its invariant: in the
    state built before the first pass and in every state reached after any
    number of passes, the faces still to handle are distinct and the two
    cells of every face are stored lowest first. *)
Theorem multipass_passes_invariant (fuel : nat) (mesh : cs_mesh_t)
    (n_i_threads min_i_subset_size : Z) (relax : Q)
    (s0 s : multipass_state) :
  0 <= n_i_faces mesh ->
  multipass_init mesh n_i_threads = Ok s0 ->
  multipass_passes fuel n_i_threads min_i_subset_size relax s0 = Ok s ->
  pass_ok s0 /\ pass_ok s.
Proof.
  intros Hn Hinit Hrun. pose proof (multipass_init_ok _ _ _ Hn Hinit) as H0.
  split; [exact H0|]. unfold multipass_passes in Hrun.
  apply (while_loop_inv_Ok pass_ok _ _ _ _ _ Hrun H0).
  clear. intros s s' (Hg & Hsize & Hnd & Hord) Hpass.
  unfold multipass_pass in Hpass.
  bind_inv Hpass group_size Hgs. bind_inv Hpass n_g Hng.
  bind_inv Hpass tci0 Htci0. bind_inv Hpass a1 Ha1.
  bind_inv Hpass r Hred. destruct r as [a2 tci2].
  bind_inv Hpass l Hlist. destruct l as [size' list'].
  bind_inv Hpass m Hrem. destruct m as [n_f_cells' lfc'].
  inversion Hpass. clear Hpass. subst s'. unfold pass_ok.
  cbn [mp_g_id mp_faces_list_size mp_faces_list mp_l_face_cells].
  destruct (update_remaining_list_NoDup _ _ _ _ _ Hsize Hnd Hlist)
    as [Hsize' Hnd'].
  split; [lia|]. split; [exact Hsize'|]. split; [exact Hnd'|].
  destruct (0 <? size').
  - apply (remaining_ordered _ _ _ _ _ _ Hord Hrem).
  - inversion Hrem. subst. exact Hord.
Qed.

Lemma multipass_passes_invariant_witness :
  pass_ok chain6_state
  /\ pass_ok {| mp_g_id := 1;
               mp_n_f_cells := 2;
               mp_faces_list_size := 1;
               mp_faces_list := [2; 1; 2; 3; 4];
               mp_l_face_cells := [(0, 1); (1, 2); (0, 1); (3, 4); (4, 5)];
               mp_arrays := {| f_t_id := [0; 0; -1; 1; 1];
                               n_t_faces := [2; 2];
                               t_face_last := [1; 4] |};
               mp_t_cell_index := [0; 3; 6] |}.
Proof.
  apply (multipass_passes_invariant 3 chain6_mesh 2 1 (1 # 2)%Q).
  - simpl. lia.
  - vm_compute. reflexivity.
  - vm_compute. reflexivity.
Defined.
